(* ===== verification/_CoqProject ===== *)
-Q . S2P
Prelude.v
Std.v
Types.v
Wire.v
Messages.v
Transport.v
Net.v
TransportSpec.v
Helpers.v
Tracker.v
TrackerSpec.v
TrackerSpawn.v
Daemon.v
DaemonInv.v
DaemonHandles.v
DaemonThreads.v
DaemonSpec.v
DaemonReplies.v
DaemonLive.v
DaemonInterrupt.v
DaemonRefine.v
Client.v
ClientSpec.v
Spawner.v
SpawnerSpec.v
Manager.v
ManagerSpec.v
ManagerLife.v
Main.v
