(* ===== verification/Prelude.v ===== *)
(** * ulockmgr: file locks for FUSE file systems, on behalf of many owners

    POSIX record locks belong to a process. The library lets a file system
    process hold locks for many owners by giving each owner a process of its
    own. This development models the Rust sources under src/src/ and proves
    what their parts promise to each other.

    ** The program

    - messages.rs, types.rs: the protocol. A request is a frame on a Unix
      stream socket (two length words, a bincode payload, file descriptors as
      ancillary data) whose first descriptor is a fresh socket for the replies.
    - helpers.rs, waiter.rs, tracker.rs: signal masks with restoring guards,
      waiting loops, and threads that can be interrupted with SIGUSR1, singly
      (InterruptibleHandle::stop) or all together (InterruptibleTracker::stop).
    - owner.rs, first half: the owner process (DaemonOwner). A receiving loop
      registers files and executes lock commands; blocking locks,
      unregistrations and interrupts run on threads of their own; a TTL loop
      ends the process when no file is registered.
    - owner.rs, second half: the client of one owner process (Owner, Lockable).
    - lib.rs: LockManager, the map from owner identifiers to owner processes.
    - owner_spawner.rs, processes.rs, communication.rs, main.rs: the
      coordinator process that starts owner processes, and the entry point.

    ** The files

    - [Prelude]: results, panics, the state monad [prog], machine integers,
      bytes, runs of labelled step functions, tactics and hint databases.
    - [Std]: what is used of Rust's std: error kinds and [io::Error],
      [Duration], constants of the x86_64 Linux target.
    - [Types]: types.rs.
    - [Wire]: the messages and replies of messages.rs with their traits as
      classes and the laws of these classes.
    - [Messages]: the functions of messages.rs, over the classes [Sys] (socket
      calls) and [Bincode] (encoder).
    - [Transport]: the laws of sockets and encoders, and the framing lemmas.
    - [Net]: concrete sockets and a concrete encoder that meet these laws.
    - [TransportSpec]: the properties of types.rs and messages.rs.
    - [Helpers]: helpers.rs and waiter.rs.
    - [Tracker]: tracker.rs, its critical sections as functions, and the machine
      that interleaves threads, guards and calls of both stop functions.
    - [TrackerSpec]: the properties of the tracker, the masks, the waiting loops.
    - [TrackerSpawn]: InterruptibleTracker::spawn: calls with their channel,
      thread, guard and handle, beside everything that the machine of [Tracker]
      can do.
    - [Daemon]: owner.rs, lines 27-454: the state of the owner process, one
      function for each handler, and [daemon_step], which interleaves the
      receiving loop, the TTL loop and every thread. Each clone of an
      [Arc<FdData>] is a named holder.
    - [DaemonInv], [DaemonHandles], [DaemonThreads]: its invariants, of the
      holders of files, of the interrupt handles, and of the threads with their
      tracker sets.
    - [DaemonSpec]: its safety and functional properties, evaluated on a
      concrete file lock; [DaemonReplies]: the order of the replies on a
      descriptor.
    - [DaemonLive], [DaemonInterrupt]: unregistrations and interrupts can always
      finish, by a measure on the threads that are in the way.
    - [DaemonRefine]: an abstract registry of files with labelled actions, and
      that the actions of every run of the owner process are accepted by it.
    - [Client], [ClientSpec]: owner.rs, lines 456-732, over the class [Rpc],
      which [sys_Rpc] implements with [Messages]; [RpcLaws] states what the
      client relies on, and is proved for [sys_Rpc]. What a client asks for is
      read off a world that records the requests ([traced]).
    - [Spawner], [SpawnerSpec]: processes.rs, owner_spawner.rs and
      communication.rs; a started process is a [Child] with its pipes.
    - [Manager], [ManagerSpec]: lib.rs; [get_or_create_owner] is a program of
      atomic steps, run by one thread or by several.
    - [ManagerLife]: lib.rs, [LockManager::from_exe], the cleanup thread and
      [Drop], as a machine with the calls of other threads.
    - [Main]: main.rs.

    ** What is shown

    - Protocol: messages are received whole, in order and with their
      descriptors; a request and its reply arrive as they were sent; bad
      requests close what they carried; a hang-up ends the streams. Conversions
      and (de)serializations are inverse to each other.
    - Threads: signals reach only live threads inside a guard; a stop returns
      only when the work of every thread that does not nest guards is over,
      refuses new work, and goes on signalling; spawn reports whether its thread
      was tracked; masks are restored on every path.
    - Owner process: it exits by itself only when nothing is registered, and
      registers nothing after that; an unregistration is answered after the
      last use of the file and nothing refers to the file later; registration
      and interrupt identifiers are fresh (the search is the search for the
      first free one) and lead to one file or thread; an interrupt is answered
      after its thread has ended. Unregistrations and interrupts can finish
      from every reachable state although no lock is ever granted. On a reply
      descriptor there are at most two replies, Pending first. As a whole it
      implements an abstract registry: what registrations, lock commands and
      unregistrations are told about identifiers and descriptors is what the
      registry allows.
    - Client: the requests that a blocking lock makes, the callback of a
      detached lock is called once.
    - Manager: an owner is returned by a ping that it answers in that step,
      whatever else happens; the loop returns (and is the machine of its steps);
      exactly when registration fails; cleanup removes only owners that failed
      their ping; dropping the manager ends the cleanup thread; a failed start
      leaves no descriptor.
    - Processes: no descriptor leaks, pipes included; a spawn request is
      answered with the new socket, end to end; the TTL and the socket reach the
      owner process; close-on-exec is cleared for one exec.
    - Defects, each with the run that shows it: a granted blocking lock is
      requested twice and can undo an unlock; a header cut short makes the
      receiving loop spin; an exiting owner's refusal arrives as EIO and is not
      retried, and neither is an error from a dead owner other than a broken
      pipe; a second guard on a thread escapes a stop; two threads can give
      one owner identifier two processes; a failed spawn ends the coordinator.

    ** Bounds and fuel

    - The identifier loops ([alloc_id]) get one more round than the map has
      entries, which is enough whenever the map has fewer than 2^64.
    - [wait_reply] needs two rounds: with signals blocked the second wait is not
      interrupted. [get_or_create_owner] needs six steps: lookup, ping and
      removal of a dead owner, lookup, spawn, ping of the new one.
    - Loops that run as long as the process (the receiving loop, the TTL loop,
      the loops of the threads, [stop]) are single iterations that the machines
      repeat; [OwnerSpawner_run] takes the number of requests.
    - [drop_terminates] bounds the steps of the cleanup thread by the owners
      that are left to ping.

    ** Interfaces

    Code that is not part of the repository is a class: [Sys], [Proc] and [Dup]
    (system calls), [SigSys] (signals), [Fcntl] (file locks), [Bincode]
    (encoder), [Backoff] (crossbeam), [Threads] (thread creation),
    [InstallHandler] (sigaction), the argument parser of [main]. Laws of
    these classes ([StreamLaws], [BincodeLaws], [SigLaws], [SysSigLaws],
    [ProcLaws], [ThreadsLaws], [FlagLaws], [HandlerLaws], [BackoffLaws],
    [ClapLaws]) state documented behaviour and have concrete instances. A law
    describes what a call does itself; what other processes do comes before or
    after it. [Rpc] is an interface inside the repository, with its own laws.

    ** Not modelled

    Log output and error texts; an allocation that fails below isize::MAX bytes
    ([vec_alloc] panics above), which aborts the process; which thread holds the mutex around a
    communication socket (a request is one step for its caller); the closing of
    a client's socket with the last clone of its [Arc<Owner>], which is drop
    glue of the language; the parser that clap derives (an argument of [main]
    with the laws [ClapLaws]) and env_logger; fairness of the scheduler (the
    liveness theorems give a run, or a bound on the steps of one thread). In the
    machine of [Daemon] atomic operations on shared state are separate steps,
    but a system call and the reply that follows it are one step, and so are
    the insertion of a new interrupt and the reply with its identifier.

    ** Next

    A client and an owner process composed over [Net]: an instance of [Rpc]
    whose requests are answered by [daemon_step], and the client's results for
    the reply streams of [DaemonReplies]; the threads of [Daemon] as a
    refinement of the machines of [Tracker] and [TrackerSpawn]. *)

From Stdlib Require Import ZArith Lia.
From stdpp Require Import base tactics numbers list gmap.
From Stdlib Require Import Strings.Byte.

(** ** Results, panics and the state of the world *)

(** Rust's [Result<A, E>]. *)
Inductive result (E A : Type) : Type :=
  | Ok (a : A)
  | Err (e : E).
Arguments Ok {E A} a.
Arguments Err {E A} e.

(** A call either returns a value or unwinds with a panic. *)
Inductive exec (A : Type) : Type :=
  | Done (a : A)
  | Panicked.
Arguments Done {A} a.
Arguments Panicked {A}.

Definition is_ok {E A} (r : result E A) : bool :=
  match r with Ok _ => true | Err _ => false end.
Definition is_err {E A} (r : result E A) : bool := negb (is_ok r).

(** [Result::map] and [Result::map_err]. *)
Definition map_ok {E A B} (f : A -> B) (r : result E A) : result E B :=
  match r with Ok a => Ok (f a) | Err e => Err e end.
Definition map_err {E F A} (f : E -> F) (r : result E A) : result F A :=
  match r with Ok a => Ok a | Err e => Err (f e) end.
(** [Result::and_then]. *)
Definition and_then {E A B} (r : result E A) (f : A -> result E B) : result E B :=
  match r with Ok a => f a | Err e => Err e end.
(** [Option::ok_or_else]. *)
Definition ok_or {E A} (o : option A) (e : E) : result E A :=
  match o with Some a => Ok a | None => Err e end.

(** Code with effects: a function of the state of the world, as the code sees
    it when the call starts, to what the call gives and the state it leaves. *)
Definition prog (W A : Type) : Type := W -> exec A * W.

Section Prog.
Context {W : Type}.

Definition ret {A} (a : A) : prog W A := fun w => (Done a, w).
Definition panic {A} : prog W A := fun w => (Panicked, w).
Definition bind {A B} (m : prog W A) (k : A -> prog W B) : prog W B :=
  fun w => match m w with
           | (Done a, w') => k a w'
           | (Panicked, w') => (Panicked, w')
           end.
(** The [?] operator: an [Err] returns from the function at once. *)
Definition try_bind {E A B} (m : prog W (result E A)) (k : A -> prog W (result E B))
  : prog W (result E B) :=
  bind m (fun r => match r with Ok a => k a | Err e => ret (Err e) end).
(** A pure state change. *)
Definition modify (f : W -> W) : prog W unit := fun w => (Done tt, f w).
Definition gets {A} (f : W -> A) : prog W A := fun w => (Done (f w), w).
(** An operation of the world that always returns. *)
Definition lift {A} (f : W -> A * W) : prog W A := fun w => (Done (f w).1, (f w).2).

Fixpoint each {A} (f : A -> prog W unit) (l : list A) : prog W unit :=
  match l with
  | [] => ret tt
  | a :: l => bind (f a) (fun _ => each f l)
  end.

Lemma bind_ret_l {A B} (a : A) (k : A -> prog W B) w : bind (ret a) k w = k a w.
Proof. reflexivity. Qed.

Lemma bind_assoc {A B C} (m : prog W A) (f : A -> prog W B) (g : B -> prog W C) w :
  bind (bind m f) g w = bind m (fun a => bind (f a) g) w.
Proof. unfold bind. by destruct (m w) as [[a|] w']. Qed.

Lemma bind_done {A B} (m : prog W A) (k : A -> prog W B) w a w' :
  m w = (Done a, w') -> bind m k w = k a w'.
Proof. unfold bind. by intros ->. Qed.

Lemma try_bind_ok {E A B} (m : prog W (result E A)) (k : A -> prog W (result E B)) w a w' :
  m w = (Done (Ok a), w') -> try_bind m k w = k a w'.
Proof. unfold try_bind, bind. by intros ->. Qed.

Lemma try_bind_err {E A B} (m : prog W (result E A)) (k : A -> prog W (result E B)) w e w' :
  m w = (Done (Err e), w') -> try_bind m k w = (Done (Err e), w').
Proof. unfold try_bind, bind. by intros ->. Qed.
End Prog.

Declare Scope ulock_scope.
Delimit Scope ulock_scope with ulock.
Notation "'let!' x ':=' m 'in' k" := (bind m (fun x => k))
  (at level 10, x pattern, m at level 100, k at level 200,
   format "'[v' 'let!'  x  ':='  m  'in' '/' k ']'") : ulock_scope.
Notation "'let?' x ':=' m 'in' k" := (try_bind m (fun x => k))
  (at level 10, x pattern, m at level 100, k at level 200,
   format "'[v' 'let?'  x  ':='  m  'in' '/' k ']'") : ulock_scope.
Notation "'do!' m 'in' k" := (bind m (fun _ => k))
  (at level 10, m at level 100, k at level 200,
   format "'[v' 'do!'  m  'in' '/' k ']'") : ulock_scope.

(** ** Machine integers *)

Local Open Scope Z_scope.

Definition u64_modulus : Z := 2 ^ 64.
Definition u64_max : Z := u64_modulus - 1.
(** [usize] and [isize] of a 64-bit target. *)
Definition usize_max : Z := 2 ^ 64 - 1.
Definition isize_max : Z := 2 ^ 63 - 1.

Definition is_u64 (z : Z) : Prop := 0 <= z < u64_modulus.
Definition is_u32 (z : Z) : Prop := 0 <= z < 2 ^ 32.
Definition is_i64 (z : Z) : Prop := - 2 ^ 63 <= z < 2 ^ 63.
Definition is_i32 (z : Z) : Prop := - 2 ^ 31 <= z < 2 ^ 31.
Definition is_i16 (z : Z) : Prop := - 2 ^ 15 <= z < 2 ^ 15.

(** Wrapping addition, as [AtomicU64::fetch_add] does it. *)
Definition wrap64 (z : Z) : Z := z mod u64_modulus.
(** [as i16] and [as i32]: truncation to a signed width. *)
Definition as_signed (w : Z) (z : Z) : Z := (z + 2 ^ (w - 1)) mod 2 ^ w - 2 ^ (w - 1).
Definition as_i16 : Z -> Z := as_signed 16.
Definition as_i32 : Z -> Z := as_signed 32.

Lemma wrap64_range z : is_u64 (wrap64 z).
Proof. apply Z.mod_pos_bound. reflexivity. Qed.

Lemma wrap64_id z : is_u64 z -> wrap64 z = z.
Proof. apply Z.mod_small. Qed.

Lemma as_signed_id w z : 0 < w -> - 2 ^ (w - 1) <= z < 2 ^ (w - 1) -> as_signed w z = z.
Proof.
  intros Hw Hz. unfold as_signed.
  assert (2 ^ w = 2 * 2 ^ (w - 1)) as E.
  { rewrite <- Z.pow_succ_r by lia. f_equal. lia. }
  rewrite Z.mod_small by lia. lia.
Qed.

Lemma as_i32_id z : is_i32 z -> as_i32 z = z.
Proof. intros H. apply as_signed_id; [lia | exact H]. Qed.

(** ** Bytes *)

Definition byte_to_Z (b : byte) : Z := Z.of_N (Byte.to_N b).
Definition byte_of_Z (z : Z) : byte :=
  match Byte.of_N (Z.to_N (z mod 256)) with Some b => b | None => x00 end.

Lemma byte_to_Z_range b : 0 <= byte_to_Z b < 256.
Proof.
  unfold byte_to_Z. pose proof (Byte.to_N_bounded b). lia.
Qed.

Lemma byte_to_of_Z z : byte_to_Z (byte_of_Z z) = z mod 256.
Proof.
  unfold byte_to_Z, byte_of_Z.
  pose proof (Z.mod_pos_bound z 256 eq_refl) as Hz.
  destruct (Byte.of_N (Z.to_N (z mod 256))) as [b|] eqn:E.
  - apply Byte.to_of_N in E. lia.
  - apply Byte.of_N_None_iff in E. lia.
Qed.

(** Little-endian encodings, the native order of the target. *)
Fixpoint le_bytes (n : nat) (z : Z) : list byte :=
  match n with
  | O => []
  | S n => byte_of_Z z :: le_bytes n (z / 256)
  end.

Fixpoint of_le_bytes (l : list byte) : Z :=
  match l with
  | [] => 0
  | b :: l => byte_to_Z b + 256 * of_le_bytes l
  end.

Lemma length_le_bytes n z : length (le_bytes n z) = n.
Proof. revert z; induction n as [|n IH]; intros z; simpl; [done | by rewrite IH]. Qed.

Lemma of_le_bytes_le_bytes n z : of_le_bytes (le_bytes n z) = z mod 256 ^ Z.of_nat n.
Proof.
  revert z; induction n as [|n IH]; intros z; cbn [le_bytes of_le_bytes].
  { by rewrite Z.mod_1_r. }
  rewrite IH, byte_to_of_Z, Nat2Z.inj_succ, Z.pow_succ_r by lia.
  rewrite Z.rem_mul_r by lia. lia.
Qed.

Lemma of_le_bytes_range l : 0 <= of_le_bytes l < 256 ^ Z.of_nat (length l).
Proof.
  induction l as [|b l IH]; cbn [of_le_bytes length]; [lia |].
  pose proof (byte_to_Z_range b).
  rewrite Nat2Z.inj_succ, Z.pow_succ_r by lia. lia.
Qed.

(** [u64::to_ne_bytes] and [u64::from_ne_bytes]. *)
Definition to_ne_bytes (z : Z) : list byte := le_bytes 8 z.
Definition from_ne_bytes (l : list byte) : Z := of_le_bytes l.

Lemma from_to_ne_bytes z : is_u64 z -> from_ne_bytes (to_ne_bytes z) = z.
Proof.
  intros H. unfold from_ne_bytes, to_ne_bytes. rewrite of_le_bytes_le_bytes.
  apply Z.mod_small. exact H.
Qed.

Lemma length_to_ne_bytes z : length (to_ne_bytes z) = 8%nat.
Proof. apply length_le_bytes. Qed.

Global Arguments to_ne_bytes : simpl never.
Global Arguments from_ne_bytes : simpl never.

(** ** Finite maps: a free key among enough candidates *)

Lemma free_candidate {A} (m : gmap Z A) (l : list Z) :
  NoDup l -> (size m < length l)%nat -> exists x, x ∈ l /\ m !! x = None.
Proof.
  intros Hnd Hlen.
  destruct (decide (Forall (fun x => is_Some (m !! x)) l)) as [Hall | Hno].
  - exfalso.
    assert (list_to_set l ⊆@{gset Z} dom m) as Hsub.
    { intros x Hx%elem_of_list_to_set. apply elem_of_dom.
      rewrite Forall_forall in Hall. by apply Hall. }
    apply subseteq_size in Hsub.
    rewrite size_list_to_set, size_dom in Hsub by done. lia.
  - apply not_Forall_Exists in Hno; [| apply _].
    apply Exists_exists in Hno as (x & Hx & Hn).
    exists x. split; [done |]. by apply eq_None_not_Some.
Qed.

(** The [n] identifiers a wrapping 64-bit counter hands out next. *)
Definition candidates (next : Z) (n : nat) : list Z :=
  (fun i : nat => wrap64 (next + Z.of_nat i)) <$> seq 0 n.

Lemma candidates_NoDup next n : Z.of_nat n <= u64_modulus -> NoDup (candidates next n).
Proof.
  intros Hn. apply NoDup_fmap_2_strong; [| apply NoDup_seq].
  intros i j Hi%elem_of_seq Hj%elem_of_seq E. unfold wrap64 in E.
  assert (((next + Z.of_nat i) - (next + Z.of_nat j)) mod u64_modulus = 0) as Hd.
  { rewrite Zminus_mod, E, Z.sub_diag. reflexivity. }
  apply Z.mod_divide in Hd as [k Hk]; [| discriminate].
  assert (k = 0) as ->; nia.
Qed.

Lemma candidates_free {A} (m : gmap Z A) next :
  Z.of_nat (size m) < u64_modulus ->
  exists i : nat, (i <= size m)%nat /\ m !! wrap64 (next + Z.of_nat i) = None.
Proof.
  intros Hsz.
  destruct (free_candidate m (candidates next (S (size m)))) as (x & Hx & Hm).
  - apply candidates_NoDup. lia.
  - unfold candidates. rewrite length_fmap, length_seq. lia.
  - apply list_elem_of_fmap in Hx as (i & -> & Hi%elem_of_seq).
    exists i. split; [lia | done].
Qed.

(** ** Lists *)

Lemma Forall2_impl_elem {A B} (P Q : A -> B -> Prop) (l : list A) (k : list B) :
  Forall2 P l k -> (forall x y, x ∈ l -> y ∈ k -> P x y -> Q x y) -> Forall2 Q l k.
Proof.
  intros H HPQ. apply Forall2_same_length_lookup. split.
  - by eapply Forall2_length.
  - intros i x y Hx Hy. apply HPQ; eauto using list_elem_of_lookup_2.
    by eapply Forall2_lookup_lr.
Qed.

(** ** Labelled steps and their runs *)

(** A concurrent component is a partial step function: the label says which
    thread or peer moves (and what the environment answers), [None] that this
    move is not enabled. A run is a list of labels: one interleaving. *)
Section Runs.
Context {St Lb : Type} (step : St -> Lb -> option St).

Fixpoint run (s : St) (ls : list Lb) : option St :=
  match ls with
  | [] => Some s
  | l :: ls => match step s l with Some s' => run s' ls | None => None end
  end.

Definition reachable (s0 s : St) : Prop := exists ls, run s0 ls = Some s.

Lemma run_app s ls1 ls2 :
  run s (ls1 ++ ls2) = match run s ls1 with Some s' => run s' ls2 | None => None end.
Proof. revert s; induction ls1 as [|l ls1 IH]; intros s; simpl; [done |]. by destruct (step s l). Qed.

Lemma run_invariant (I : St -> Prop) :
  (forall s l s', I s -> step s l = Some s' -> I s') ->
  forall ls s s', I s -> run s ls = Some s' -> I s'.
Proof.
  intros Hstep ls; induction ls as [|l ls IH]; intros s s' HI Hr; simpl in Hr.
  - by simplify_eq.
  - destruct (step s l) as [s1|] eqn:E; [| done]. eauto.
Qed.

Lemma reachable_invariant (I : St -> Prop) s0 s :
  (forall s l s', I s -> step s l = Some s' -> I s') -> I s0 -> reachable s0 s -> I s.
Proof. intros Hstep H0 [ls Hr]. by eapply run_invariant. Qed.

(** A relation between consecutive states that is a preorder relates the
    ends of every run. *)
Lemma run_preorder (R : St -> St -> Prop) `{!PreOrder R} :
  (forall s l s', step s l = Some s' -> R s s') ->
  forall ls s s', run s ls = Some s' -> R s s'.
Proof.
  intros Hstep ls; induction ls as [|l ls IH]; intros s s' Hr; simpl in Hr.
  - by simplify_eq.
  - destruct (step s l) as [s1|] eqn:E; [| done]. etrans; eauto.
Qed.
End Runs.

(** ** Automation *)

Create HintDb ulock.

(** Case analysis on every [match] and [if] of hypothesis [H], which is an
    equation about the outcome of a step or of a handler. *)
Ltac split_step H :=
  repeat (simpl in H; case_match; try discriminate H); simplify_eq.
