(* ===== verification/Std.v ===== *)
(** * Standard library and target constants

    What the sources use of Rust's [std] and of the target's C constants:
    [io::ErrorKind], [io::Error] with [kind] and [raw_os_error], [Duration],
    file descriptors, and the numbers that the [libc] names stand for on
    x86_64-unknown-linux-gnu. Error messages are not kept: no code of the
    repository branches on them. *)

From Stdlib Require Import ZArith Lia.
From stdpp Require Import base tactics numbers list gmap.
From S2P Require Import Prelude.
Local Open Scope Z_scope.

(** ** Constants of the target *)
Module libc.
Definition F_GETLK : Z := 5.
Definition F_SETLK : Z := 6.
Definition F_SETLKW : Z := 7.
Definition F_RDLCK : Z := 0.
Definition F_WRLCK : Z := 1.
Definition F_UNLCK : Z := 2.
Definition SEEK_SET : Z := 0.
Definition SEEK_CUR : Z := 1.
Definition SEEK_END : Z := 2.
Definition SIGUSR1 : Z := 10.
Definition SIG_DFL : Z := 0.
Definition SIG_IGN : Z := 1.
End libc.

(** Raw OS error codes, an [i32]. *)
Module Errno.
Definition EPERM : Z := 1.
Definition ENOENT : Z := 2.
Definition EINTR : Z := 4.
Definition EIO : Z := 5.
Definition E2BIG : Z := 7.
Definition EBADF : Z := 9.
Definition EAGAIN : Z := 11.
Definition ENOMEM : Z := 12.
Definition EACCES : Z := 13.
Definition EBUSY : Z := 16.
Definition EEXIST : Z := 17.
Definition EXDEV : Z := 18.
Definition ENOTDIR : Z := 20.
Definition EISDIR : Z := 21.
Definition EINVAL : Z := 22.
Definition ETXTBSY : Z := 26.
Definition EFBIG : Z := 27.
Definition ENOSPC : Z := 28.
Definition ESPIPE : Z := 29.
Definition EROFS : Z := 30.
Definition EMLINK : Z := 31.
Definition EPIPE : Z := 32.
Definition EDEADLK : Z := 35.
Definition ENAMETOOLONG : Z := 36.
Definition ENOSYS : Z := 38.
Definition ENOTEMPTY : Z := 39.
Definition ELOOP : Z := 40.
Definition EOPNOTSUPP : Z := 95.
Definition EADDRINUSE : Z := 98.
Definition EADDRNOTAVAIL : Z := 99.
Definition ENETDOWN : Z := 100.
Definition ENETUNREACH : Z := 101.
Definition ECONNABORTED : Z := 103.
Definition ECONNRESET : Z := 104.
Definition ENOTCONN : Z := 107.
Definition ETIMEDOUT : Z := 110.
Definition ECONNREFUSED : Z := 111.
Definition EHOSTUNREACH : Z := 113.
Definition EINPROGRESS : Z := 115.
Definition ESTALE : Z := 116.
Definition EDQUOT : Z := 122.
End Errno.

(** ** [io::ErrorKind] *)
Module ErrorKind.
Inductive t : Type :=
  | NotFound | PermissionDenied | ConnectionRefused | ConnectionReset
  | HostUnreachable | NetworkUnreachable | ConnectionAborted | NotConnected
  | AddrInUse | AddrNotAvailable | NetworkDown | BrokenPipe | AlreadyExists
  | WouldBlock | NotADirectory | IsADirectory | DirectoryNotEmpty
  | ReadOnlyFilesystem | FilesystemLoop | StaleNetworkFileHandle | InvalidInput
  | InvalidData | TimedOut | WriteZero | StorageFull | NotSeekable
  | QuotaExceeded | FileTooLarge | ResourceBusy | ExecutableFileBusy | Deadlock
  | CrossesDevices | TooManyLinks | InvalidFilename | ArgumentListTooLong
  | Interrupted | Unsupported | UnexpectedEof | OutOfMemory | InProgress
  | Other | Uncategorized.
End ErrorKind.
Abbreviation ErrorKind := ErrorKind.t.

#[export] Instance ErrorKind_eq_dec : EqDecision ErrorKind.
Proof. solve_decision. Defined.

Definition kind_eqb (a b : ErrorKind) : bool := bool_decide (a = b).

(** The table that gives a raw OS error its kind. *)
Definition decode_error_kind (errno : Z) : ErrorKind :=
  let eq c := errno =? c in
  if eq Errno.E2BIG then ErrorKind.ArgumentListTooLong
  else if eq Errno.EADDRINUSE then ErrorKind.AddrInUse
  else if eq Errno.EADDRNOTAVAIL then ErrorKind.AddrNotAvailable
  else if eq Errno.EBUSY then ErrorKind.ResourceBusy
  else if eq Errno.ECONNABORTED then ErrorKind.ConnectionAborted
  else if eq Errno.ECONNREFUSED then ErrorKind.ConnectionRefused
  else if eq Errno.ECONNRESET then ErrorKind.ConnectionReset
  else if eq Errno.EDEADLK then ErrorKind.Deadlock
  else if eq Errno.EDQUOT then ErrorKind.QuotaExceeded
  else if eq Errno.EEXIST then ErrorKind.AlreadyExists
  else if eq Errno.EFBIG then ErrorKind.FileTooLarge
  else if eq Errno.EHOSTUNREACH then ErrorKind.HostUnreachable
  else if eq Errno.EINTR then ErrorKind.Interrupted
  else if eq Errno.EINVAL then ErrorKind.InvalidInput
  else if eq Errno.EISDIR then ErrorKind.IsADirectory
  else if eq Errno.ELOOP then ErrorKind.FilesystemLoop
  else if eq Errno.ENOENT then ErrorKind.NotFound
  else if eq Errno.ENOMEM then ErrorKind.OutOfMemory
  else if eq Errno.ENOSPC then ErrorKind.StorageFull
  else if eq Errno.ENOSYS then ErrorKind.Unsupported
  else if eq Errno.EMLINK then ErrorKind.TooManyLinks
  else if eq Errno.ENAMETOOLONG then ErrorKind.InvalidFilename
  else if eq Errno.ENETDOWN then ErrorKind.NetworkDown
  else if eq Errno.ENETUNREACH then ErrorKind.NetworkUnreachable
  else if eq Errno.ENOTCONN then ErrorKind.NotConnected
  else if eq Errno.ENOTDIR then ErrorKind.NotADirectory
  else if eq Errno.ENOTEMPTY then ErrorKind.DirectoryNotEmpty
  else if eq Errno.EPIPE then ErrorKind.BrokenPipe
  else if eq Errno.EROFS then ErrorKind.ReadOnlyFilesystem
  else if eq Errno.ESPIPE then ErrorKind.NotSeekable
  else if eq Errno.ESTALE then ErrorKind.StaleNetworkFileHandle
  else if eq Errno.ETIMEDOUT then ErrorKind.TimedOut
  else if eq Errno.ETXTBSY then ErrorKind.ExecutableFileBusy
  else if eq Errno.EXDEV then ErrorKind.CrossesDevices
  else if eq Errno.EINPROGRESS then ErrorKind.InProgress
  else if eq Errno.EOPNOTSUPP then ErrorKind.Unsupported
  else if eq Errno.EACCES || eq Errno.EPERM then ErrorKind.PermissionDenied
  else if eq Errno.EAGAIN then ErrorKind.WouldBlock
  else ErrorKind.Uncategorized.

(** ** [io::Error]: a raw OS error or an error made from a kind. *)
Inductive io_error : Type :=
  | Os (errno : Z)
  | Custom (kind : ErrorKind).

#[export] Instance io_error_eq_dec : EqDecision io_error.
Proof. solve_decision. Defined.

Definition kind (e : io_error) : ErrorKind :=
  match e with Os errno => decode_error_kind errno | Custom k => k end.

Definition raw_os_error (e : io_error) : option Z :=
  match e with Os errno => Some errno | Custom _ => None end.

(** [io::Error::other]. *)
Definition io_other : io_error := Custom ErrorKind.Other.

Abbreviation io_result A := (result io_error A).

(** [e.kind() == k], the guard of several error branches. *)
Definition kind_is (k : ErrorKind) (e : io_error) : bool := kind_eqb (kind e) k.

Lemma kind_is_Custom k k' : kind_is k (Custom k') = bool_decide (k' = k).
Proof. reflexivity. Qed.

(** ** File descriptors, durations *)

(** A descriptor the process owns ([OwnedFd]) or borrows ([BorrowedFd]), by
    its number. *)
Abbreviation Fd := Z (only parsing).

(** [std::time::Duration]. *)
Record Duration : Type := mkDuration { as_secs : Z; subsec_nanos : Z }.

#[export] Instance Duration_eq_dec : EqDecision Duration.
Proof. solve_decision. Defined.

Definition nanos_per_sec : Z := 1000000000.

Definition Duration_wf (d : Duration) : Prop :=
  is_u64 (as_secs d) /\ 0 <= subsec_nanos d < nanos_per_sec.

(** [Duration::new]: whole seconds of [nanos] carry into [secs]; overflow of
    the seconds panics. *)
Definition Duration_new (secs nanos : Z) : exec Duration :=
  if nanos <? nanos_per_sec then Done (mkDuration secs nanos)
  else
    let secs' := secs + nanos / nanos_per_sec in
    if secs' <? u64_modulus then Done (mkDuration secs' (nanos mod nanos_per_sec))
    else Panicked.

Definition Duration_from_secs (s : Z) : Duration := mkDuration s 0.
