(* ===== verification/Types.v ===== *)
(** * src/src/types.rs: the lock types of the public interface

    [LockAction], [LockType], [LockWhence] with their conversions to and from
    the C integers, and [LockParams] with its conversions to and from the C
    [flock] structure. *)

From Stdlib Require Import ZArith Lia.
From stdpp Require Import base tactics numbers list gmap.
From S2P Require Import Prelude.
From S2P Require Import Std.
Local Open Scope Z_scope.

Module LockAction.
Inductive t : Type := SetLockNonBlocking | SetLockBlocking | GetLockStatus.

Definition try_from (value : Z) : io_result t :=
  if value =? libc.F_SETLK then Ok SetLockNonBlocking
  else if value =? libc.F_SETLKW then Ok SetLockBlocking
  else if value =? libc.F_GETLK then Ok GetLockStatus
  else Err (Custom ErrorKind.InvalidInput).

Definition into_i32 (value : t) : Z :=
  match value with
  | SetLockNonBlocking => libc.F_SETLK
  | SetLockBlocking => libc.F_SETLKW
  | GetLockStatus => libc.F_GETLK
  end.
End LockAction.
Abbreviation LockAction := LockAction.t.

Module LockType.
Inductive t : Type := Read | Write | Unlock.

Definition try_from (value : Z) : io_result t :=
  if value =? libc.F_RDLCK then Ok Read
  else if value =? libc.F_WRLCK then Ok Write
  else if value =? libc.F_UNLCK then Ok Unlock
  else Err (Custom ErrorKind.InvalidInput).

Definition into_i16 (value : t) : Z :=
  match value with
  | Read => as_i16 libc.F_RDLCK
  | Write => as_i16 libc.F_WRLCK
  | Unlock => as_i16 libc.F_UNLCK
  end.

Definition into_i32 (value : t) : Z := as_i32 (into_i16 value).
End LockType.
Abbreviation LockType := LockType.t.

Module LockWhence.
Inductive t : Type := Start | Current | End'.

Definition try_from (value : Z) : io_result t :=
  if value =? libc.SEEK_SET then Ok Start
  else if value =? libc.SEEK_CUR then Ok Current
  else if value =? libc.SEEK_END then Ok End'
  else Err (Custom ErrorKind.InvalidInput).

Definition into_i16 (value : t) : Z :=
  match value with
  | Start => as_i16 libc.SEEK_SET
  | Current => as_i16 libc.SEEK_CUR
  | End' => as_i16 libc.SEEK_END
  end.

Definition into_i32 (value : t) : Z := as_i32 (into_i16 value).
End LockWhence.
Abbreviation LockWhence := LockWhence.t.

#[export] Instance LockAction_eq_dec : EqDecision LockAction.
Proof. solve_decision. Defined.
#[export] Instance LockType_eq_dec : EqDecision LockType.
Proof. solve_decision. Defined.
#[export] Instance LockWhence_eq_dec : EqDecision LockWhence.
Proof. solve_decision. Defined.

(** The C structure: two [i16], two [off_t] ([i64]) and a [pid_t] ([i32]). *)
Record flock : Type := mkFlock {
  l_type : Z; l_whence : Z; l_start : Z; l_len : Z; l_pid : Z }.

Record LockParams : Type := mkLockParams {
  lock_type : LockType;
  whence : LockWhence;
  start : Z;
  len : Z;
  pid : Z }.

#[export] Instance flock_eq_dec : EqDecision flock.
Proof. solve_decision. Defined.
#[export] Instance LockParams_eq_dec : EqDecision LockParams.
Proof. solve_decision. Defined.

(** The ranges of the C fields. *)
Definition flock_wf (f : flock) : Prop :=
  is_i16 (l_type f) /\ is_i16 (l_whence f) /\
  is_i64 (l_start f) /\ is_i64 (l_len f) /\ is_i32 (l_pid f).

Definition LockParams_wf (p : LockParams) : Prop :=
  is_i64 (start p) /\ is_i64 (len p) /\ is_i32 (pid p).

Definition LockParams_try_from (value : flock) : io_result LockParams :=
  and_then
    (map_err (fun _ => Custom ErrorKind.InvalidInput) (LockType.try_from (as_i32 (l_type value))))
    (fun lock_type =>
      and_then
        (map_err (fun _ => Custom ErrorKind.InvalidInput)
                 (LockWhence.try_from (as_i32 (l_whence value))))
        (fun whence =>
          Ok {| lock_type := lock_type; whence := whence;
                start := l_start value; len := l_len value; pid := l_pid value |})).

Definition flock_from (value : LockParams) : flock :=
  {| l_type := LockType.into_i16 (lock_type value);
     l_whence := LockWhence.into_i16 (whence value);
     l_start := start value; l_len := len value; l_pid := pid value |}.

(** ** Lemmas *)

Lemma flock_from_wf p : LockParams_wf p -> flock_wf (flock_from p).
Proof.
  intros (? & ? & ?). unfold flock_wf, flock_from; simpl.
  repeat split; try apply H; try apply H0; try apply H1;
    by destruct (lock_type p), (whence p).
Qed.

Lemma LockType_try_from_ok z t :
  LockType.try_from z = Ok t <-> z = LockType.into_i32 t.
Proof.
  unfold LockType.try_from.
  destruct (Z.eqb_spec z libc.F_RDLCK), (Z.eqb_spec z libc.F_WRLCK), (Z.eqb_spec z libc.F_UNLCK);
    subst; split; intros; simplify_eq; try done; by destruct t.
Qed.

Lemma LockWhence_try_from_ok z t :
  LockWhence.try_from z = Ok t <-> z = LockWhence.into_i32 t.
Proof.
  unfold LockWhence.try_from.
  destruct (Z.eqb_spec z libc.SEEK_SET), (Z.eqb_spec z libc.SEEK_CUR), (Z.eqb_spec z libc.SEEK_END);
    subst; split; intros; simplify_eq; try done; by destruct t.
Qed.

Lemma LockParams_try_from_flock_from p : LockParams_try_from (flock_from p) = Ok p.
Proof. by destruct p as [[] [] ???]. Qed.

#[export] Hint Rewrite LockParams_try_from_flock_from : ulock.
#[export] Hint Resolve flock_from_wf : ulock.
