(* ===== verification/Wire.v ===== *)
(** * src/src/messages.rs, lines 25-535: the messages and their replies

    The [Serializable], [Replyable] and [Reply] traits are classes; every
    message is a record with its instances. [deserialize] takes ownership of
    the received descriptors: next to its result it gives the descriptors it
    drops, which the caller of the model closes. *)

From Stdlib Require Import ZArith Lia.
From stdpp Require Import base tactics numbers list gmap.
From S2P Require Import Prelude.
From S2P Require Import Std.
From S2P Require Import Types.
Local Open Scope Z_scope.

(** ** The traits *)

(** [RawReply]: the descriptor of the reply channel. *)
Record RawReply : Type := RawReply_new { channel : Fd }.

Class Reply (P : Type) : Type := {
  Reply_Type : Type;
  raw_reply : P -> RawReply }.

Class Serializable (R : Type) : Type := {
  Payload : Type;
  serialize : R -> Payload * list Fd;
  deserialize : Payload -> list Fd -> io_result R * list Fd }.

Class Replyable (R : Type) : Type := {
  Replyable_Reply : Type;
  Replyable_is_Reply :: Reply Replyable_Reply;
  create_reply : Fd -> Replyable_Reply }.

Global Arguments Payload R {_}.
Global Arguments Replyable_Reply R {_}.
Global Arguments Reply_Type P {_}.
Global Arguments create_reply R {_} _.

(** [<R::Reply as Reply>::Type]. *)
Abbreviation reply_type R := (Reply_Type (Replyable_Reply R)).

(** ** The raw message of the socket *)

Module RawMessage.
Inductive t : Type :=
  | Ping
  | Interrupt (id : Z)
  | RemoveInterrupt (id : Z)
  | Register
  | Unregister (id : Z)
  | LockCommand (id : Z) (action : LockAction) (params : LockParams).

(** The field ranges of the Rust type. *)
Definition wf (m : t) : Prop :=
  match m with
  | Ping | Register => True
  | Interrupt id | RemoveInterrupt id | Unregister id => is_u64 id
  | LockCommand id _ params => is_u64 id /\ LockParams_wf params
  end.
End RawMessage.
Abbreviation RawMessage := RawMessage.t.

#[export] Instance RawMessage_eq_dec : EqDecision RawMessage.
Proof. solve_decision. Defined.

Definition invalid_payload {A} : io_result A := Err (Custom ErrorKind.InvalidInput).

(** ** The replies *)

Record ReplyPing : Type := mkReplyPing { ReplyPing_raw : RawReply }.
Record ReplyInterrupt : Type := mkReplyInterrupt { ReplyInterrupt_raw : RawReply }.
Record ReplyRegister : Type := mkReplyRegister { ReplyRegister_raw : RawReply }.
Record ReplyUnregister : Type := mkReplyUnregister { ReplyUnregister_raw : RawReply }.
Record ReplyLockCommand : Type := mkReplyLockCommand { ReplyLockCommand_raw : RawReply }.
Record ReplyRequestSpawnOwner : Type :=
  mkReplyRequestSpawnOwner { ReplyRequestSpawnOwner_raw : RawReply }.
Record ReplyRemoveInterrupt : Type :=
  mkReplyRemoveInterrupt { ReplyRemoveInterrupt_raw : RawReply }.

Module ReplyLockCommandData.
Inductive t : Type :=
  | Pending (id : Z)
  | Done (params : LockParams).

Definition wf (d : t) : Prop :=
  match d with Pending id => is_u64 id | Done params => LockParams_wf params end.
End ReplyLockCommandData.
Abbreviation ReplyLockCommandData := ReplyLockCommandData.t.

#[export] Instance ReplyLockCommandData_eq_dec : EqDecision ReplyLockCommandData.
Proof. solve_decision. Defined.

#[export] Instance ReplyPing_Reply : Reply ReplyPing :=
  { Reply_Type := unit; raw_reply := ReplyPing_raw }.
#[export] Instance ReplyInterrupt_Reply : Reply ReplyInterrupt :=
  { Reply_Type := unit; raw_reply := ReplyInterrupt_raw }.
#[export] Instance ReplyRegister_Reply : Reply ReplyRegister :=
  { Reply_Type := Z; raw_reply := ReplyRegister_raw }.
#[export] Instance ReplyUnregister_Reply : Reply ReplyUnregister :=
  { Reply_Type := unit; raw_reply := ReplyUnregister_raw }.
#[export] Instance ReplyLockCommand_Reply : Reply ReplyLockCommand :=
  { Reply_Type := ReplyLockCommandData; raw_reply := ReplyLockCommand_raw }.
#[export] Instance ReplyRequestSpawnOwner_Reply : Reply ReplyRequestSpawnOwner :=
  { Reply_Type := unit; raw_reply := ReplyRequestSpawnOwner_raw }.
#[export] Instance ReplyRemoveInterrupt_Reply : Reply ReplyRemoveInterrupt :=
  { Reply_Type := unit; raw_reply := ReplyRemoveInterrupt_raw }.

(** ** The messages *)

Module Ping.
Record t : Type := mk {}.

Definition serialize (_ : t) : RawMessage * list Fd := (RawMessage.Ping, []).
Definition deserialize (payload : RawMessage) (fds : list Fd) : io_result t * list Fd :=
  match payload with
  | RawMessage.Ping => (Ok mk, fds)
  | _ => (invalid_payload, fds)
  end.
Definition create_reply (fd : Fd) : ReplyPing := mkReplyPing (RawReply_new fd).
End Ping.
Abbreviation Ping := Ping.t.

Module Interrupt.
Record t : Type := mk { id : Z }.

Definition serialize (m : t) : RawMessage * list Fd := (RawMessage.Interrupt (id m), []).
Definition deserialize (payload : RawMessage) (fds : list Fd) : io_result t * list Fd :=
  match payload with
  | RawMessage.Interrupt thread_id => (Ok (mk thread_id), fds)
  | _ => (invalid_payload, fds)
  end.
Definition create_reply (fd : Fd) : ReplyInterrupt := mkReplyInterrupt (RawReply_new fd).
End Interrupt.
Abbreviation Interrupt := Interrupt.t.

Module Register.
Record t : Type := mk { fd : Fd }.

Definition serialize (m : t) : RawMessage * list Fd := (RawMessage.Register, [fd m]).
Definition deserialize (payload : RawMessage) (fds : list Fd) : io_result t * list Fd :=
  match fds with
  | [fd] =>
      match payload with
      | RawMessage.Register => (Ok (mk fd), [])
      | _ => (invalid_payload, fds)
      end
  | _ => (Err (Custom ErrorKind.InvalidInput), fds)
  end.
Definition create_reply (fd : Fd) : ReplyRegister := mkReplyRegister (RawReply_new fd).
End Register.
Abbreviation Register := Register.t.

Module Unregister.
Record t : Type := mk { id : Z }.

Definition serialize (m : t) : RawMessage * list Fd := (RawMessage.Unregister (id m), []).
Definition deserialize (payload : RawMessage) (fds : list Fd) : io_result t * list Fd :=
  match payload with
  | RawMessage.Unregister id => (Ok (mk id), fds)
  | _ => (invalid_payload, fds)
  end.
Definition create_reply (fd : Fd) : ReplyUnregister := mkReplyUnregister (RawReply_new fd).
End Unregister.
Abbreviation Unregister := Unregister.t.

Module LockCommand.
Record t : Type := mk { id : Z; action : LockAction; params : LockParams }.

Definition serialize (m : t) : RawMessage * list Fd :=
  (RawMessage.LockCommand (id m) (action m) (params m), []).
Definition deserialize (payload : RawMessage) (fds : list Fd) : io_result t * list Fd :=
  match payload with
  | RawMessage.LockCommand id action params => (Ok (mk id action params), fds)
  | _ => (invalid_payload, fds)
  end.
Definition create_reply (fd : Fd) : ReplyLockCommand := mkReplyLockCommand (RawReply_new fd).
End LockCommand.
Abbreviation LockCommand := LockCommand.t.

Module RequestSpawnOwner.
Record t : Type := new { ttl : Duration }.

Definition serialize (m : t) : Duration * list Fd := (ttl m, []).
Definition deserialize (payload : Duration) (fds : list Fd) : io_result t * list Fd :=
  (Ok (new payload), fds).
Definition create_reply (fd : Fd) : ReplyRequestSpawnOwner :=
  mkReplyRequestSpawnOwner (RawReply_new fd).
End RequestSpawnOwner.
Abbreviation RequestSpawnOwner := RequestSpawnOwner.t.

Module RemoveInterrupt.
Record t : Type := mk { id : Z }.

Definition serialize (m : t) : RawMessage * list Fd := (RawMessage.RemoveInterrupt (id m), []).
Definition deserialize (payload : RawMessage) (fds : list Fd) : io_result t * list Fd :=
  match payload with
  | RawMessage.RemoveInterrupt id => (Ok (mk id), fds)
  | _ => (invalid_payload, fds)
  end.
Definition create_reply (fd : Fd) : ReplyRemoveInterrupt :=
  mkReplyRemoveInterrupt (RawReply_new fd).
End RemoveInterrupt.
Abbreviation RemoveInterrupt := RemoveInterrupt.t.

(** [map_ok] on the first component: [Message::X(X::deserialize(..)?)]. *)
Definition wrap_deserialized {A B} (f : A -> B) (r : io_result A * list Fd)
  : io_result B * list Fd := (map_ok f r.1, r.2).

Module Message.
Inductive t : Type :=
  | Ping (m : Ping)
  | Interrupt (m : Interrupt)
  | RemoveInterrupt (m : RemoveInterrupt)
  | Register (m : Register)
  | Unregister (m : Unregister)
  | LockCommand (m : LockCommand).

Definition serialize (m : t) : RawMessage * list Fd :=
  match m with
  | Ping ping => Ping.serialize ping
  | Interrupt interrupt => Interrupt.serialize interrupt
  | Register register => Register.serialize register
  | Unregister unregister => Unregister.serialize unregister
  | LockCommand lock_command => LockCommand.serialize lock_command
  | RemoveInterrupt remove_interrupt => RemoveInterrupt.serialize remove_interrupt
  end.

Definition deserialize (payload : RawMessage) (fds : list Fd) : io_result t * list Fd :=
  match payload with
  | RawMessage.Ping => wrap_deserialized Ping (Ping.deserialize payload fds)
  | RawMessage.Interrupt _ => wrap_deserialized Interrupt (Interrupt.deserialize payload fds)
  | RawMessage.Register => wrap_deserialized Register (Register.deserialize payload fds)
  | RawMessage.Unregister _ => wrap_deserialized Unregister (Unregister.deserialize payload fds)
  | RawMessage.LockCommand _ _ _ =>
      wrap_deserialized LockCommand (LockCommand.deserialize payload fds)
  | RawMessage.RemoveInterrupt _ =>
      wrap_deserialized RemoveInterrupt (RemoveInterrupt.deserialize payload fds)
  end.
End Message.
Abbreviation Message := Message.t.

#[export] Instance Ping_Serializable : Serializable Ping :=
  { serialize := Ping.serialize; deserialize := Ping.deserialize }.
#[export] Instance Interrupt_Serializable : Serializable Interrupt :=
  { serialize := Interrupt.serialize; deserialize := Interrupt.deserialize }.
#[export] Instance Register_Serializable : Serializable Register :=
  { serialize := Register.serialize; deserialize := Register.deserialize }.
#[export] Instance Unregister_Serializable : Serializable Unregister :=
  { serialize := Unregister.serialize; deserialize := Unregister.deserialize }.
#[export] Instance LockCommand_Serializable : Serializable LockCommand :=
  { serialize := LockCommand.serialize; deserialize := LockCommand.deserialize }.
#[export] Instance RequestSpawnOwner_Serializable : Serializable RequestSpawnOwner :=
  { serialize := RequestSpawnOwner.serialize; deserialize := RequestSpawnOwner.deserialize }.
#[export] Instance RemoveInterrupt_Serializable : Serializable RemoveInterrupt :=
  { serialize := RemoveInterrupt.serialize; deserialize := RemoveInterrupt.deserialize }.
#[export] Instance Message_Serializable : Serializable Message :=
  { serialize := Message.serialize; deserialize := Message.deserialize }.

#[export] Instance Ping_Replyable : Replyable Ping :=
  { Replyable_Reply := ReplyPing; create_reply := Ping.create_reply }.
#[export] Instance Interrupt_Replyable : Replyable Interrupt :=
  { Replyable_Reply := ReplyInterrupt; create_reply := Interrupt.create_reply }.
#[export] Instance Register_Replyable : Replyable Register :=
  { Replyable_Reply := ReplyRegister; create_reply := Register.create_reply }.
#[export] Instance Unregister_Replyable : Replyable Unregister :=
  { Replyable_Reply := ReplyUnregister; create_reply := Unregister.create_reply }.
#[export] Instance LockCommand_Replyable : Replyable LockCommand :=
  { Replyable_Reply := ReplyLockCommand; create_reply := LockCommand.create_reply }.
#[export] Instance RequestSpawnOwner_Replyable : Replyable RequestSpawnOwner :=
  { Replyable_Reply := ReplyRequestSpawnOwner; create_reply := RequestSpawnOwner.create_reply }.
#[export] Instance RemoveInterrupt_Replyable : Replyable RemoveInterrupt :=
  { Replyable_Reply := ReplyRemoveInterrupt; create_reply := RemoveInterrupt.create_reply }.

(** ** What the classes promise *)

(** The descriptors a message carries. *)
Definition message_fds {R} `{!Serializable R} (m : R) : list Fd := (serialize m).2.

(** The contract of a [Serializable] type: deserializing a serialized message
    gives it back and drops no descriptor, and whatever is received, each
    received descriptor is either in the message or dropped, in order. *)
Class SerializableLaws (R : Type) `{!Serializable R} : Prop := {
  deserialize_serialize : forall m : R,
    deserialize (serialize m).1 (serialize m).2 = (Ok m, []);
  serialize_deserialize : forall p fds (m : R) dropped,
    deserialize p fds = (Ok m, dropped) ->
    (serialize m).1 = p /\ message_fds m ++ dropped = fds;
  deserialize_err : forall p fds e dropped,
    deserialize (R := R) p fds = (Err e, dropped) ->
    e = Custom ErrorKind.InvalidInput /\ dropped = fds;
  (** descriptors keep their places when they are passed under new names *)
  deserialize_renamed : forall (m : R) fds',
    length fds' = length (serialize m).2 ->
    exists m' : R, deserialize (serialize m).1 fds' = (Ok m', []) /\
                   serialize m' = ((serialize m).1, fds') }.

Ltac solve_renamed :=
  let m := fresh "m" in let fds' := fresh "fds'" in let H := fresh "H" in
  intros m fds' H; destruct m; simpl in *; apply nil_length_inv in H as ->; by eexists.

Ltac solve_serializable :=
  constructor;
  [ by intros []
  | intros [] fds m dropped; unfold message_fds, invalid_payload; simpl; intros H; by simplify_eq/=
  | intros [] fds e dropped; simpl; unfold invalid_payload; intros H; by simplify_eq/=
  | solve_renamed ].

#[export] Instance Ping_laws : SerializableLaws Ping.
Proof. solve_serializable. Qed.
#[export] Instance Interrupt_laws : SerializableLaws Interrupt.
Proof. solve_serializable. Qed.
#[export] Instance Unregister_laws : SerializableLaws Unregister.
Proof. solve_serializable. Qed.
#[export] Instance LockCommand_laws : SerializableLaws LockCommand.
Proof. solve_serializable. Qed.
#[export] Instance RemoveInterrupt_laws : SerializableLaws RemoveInterrupt.
Proof. solve_serializable. Qed.
#[export] Instance RequestSpawnOwner_laws : SerializableLaws RequestSpawnOwner.
Proof.
  constructor; [by intros [] | | | solve_renamed];
    intros p fds ? dropped H; injection H; by intros; simplify_eq.
Qed.

#[export] Instance Register_laws : SerializableLaws Register.
Proof.
  constructor.
  - by intros [].
  - intros p [|fd [|]] m dropped H; destruct p; simpl in H; unfold invalid_payload in H; by simplify_eq.
  - intros p [|fd [|]] e dropped H; destruct p; simpl in H; unfold invalid_payload in H; by simplify_eq.
  - intros [fd] [|fd' [|]] H; try done. by exists (Register.mk fd').
Qed.

(** [Message] dispatches to the instance of the variant. *)
Lemma Message_deserialize_cases p fds :
  Message.deserialize p fds =
    match p with
    | RawMessage.Ping => (Ok (Message.Ping Ping.mk), fds)
    | RawMessage.Interrupt id => (Ok (Message.Interrupt (Interrupt.mk id)), fds)
    | RawMessage.RemoveInterrupt id =>
        (Ok (Message.RemoveInterrupt (RemoveInterrupt.mk id)), fds)
    | RawMessage.Register =>
        match fds with
        | [fd] => (Ok (Message.Register (Register.mk fd)), [])
        | _ => (Err (Custom ErrorKind.InvalidInput), fds)
        end
    | RawMessage.Unregister id => (Ok (Message.Unregister (Unregister.mk id)), fds)
    | RawMessage.LockCommand id a ps =>
        (Ok (Message.LockCommand (LockCommand.mk id a ps)), fds)
    end.
Proof. destruct p; try done. by destruct fds as [|fd [|]]. Qed.

#[export] Instance Message_laws : SerializableLaws Message.
Proof.
  constructor.
  - by intros [[]|[]|[]|[]|[]|[]].
  - intros p fds m dropped H; simpl in H. rewrite Message_deserialize_cases in H.
    destruct p; repeat case_match; by simplify_eq.
  - intros p fds e dropped H; simpl in H. rewrite Message_deserialize_cases in H.
    destruct p; repeat case_match; by simplify_eq.
  - intros [[]|[]|[]|[]|[]|[]]; simpl; try solve_renamed.
    all: intros fds' H; first [apply nil_length_inv in H as -> | destruct fds' as [|fd' [|]]; try done].
    all: by eexists.
Qed.

(** A reply object answers on the descriptor it was created with. *)
Class ReplyableLaws (R : Type) `{!Replyable R} : Prop := {
  create_reply_channel : forall fd, channel (raw_reply (create_reply R fd)) = fd }.

#[export] Instance Ping_replies : ReplyableLaws Ping.
Proof. by constructor. Qed.
#[export] Instance Interrupt_replies : ReplyableLaws Interrupt.
Proof. by constructor. Qed.
#[export] Instance Register_replies : ReplyableLaws Register.
Proof. by constructor. Qed.
#[export] Instance Unregister_replies : ReplyableLaws Unregister.
Proof. by constructor. Qed.
#[export] Instance LockCommand_replies : ReplyableLaws LockCommand.
Proof. by constructor. Qed.
#[export] Instance RequestSpawnOwner_replies : ReplyableLaws RequestSpawnOwner.
Proof. by constructor. Qed.
#[export] Instance RemoveInterrupt_replies : ReplyableLaws RemoveInterrupt.
Proof. by constructor. Qed.
