(* ===== verification/Messages.v ===== *)
(** * src/src/messages.rs, lines 22-69 and 411-810: the transport

    Framing of a message on a stream socket ([send_raw_message],
    [receive_raw_message]), replies ([RawReply], [ReplyIterator]) and requests
    ([send_request] and its variants, [receive_request]). The system calls and
    the [bincode] encoder are not code of the repository: they are the classes
    [Sys] and [Bincode], and what the theorems need of them are the classes
    [StreamLaws] and [BincodeLaws]. *)

From Stdlib Require Import ZArith Lia.
From Stdlib Require Import Strings.Byte.
From stdpp Require Import base tactics numbers list gmap.
From S2P Require Import Prelude.
From S2P Require Import Std.
From S2P Require Import Types.
From S2P Require Import Wire.
Local Open Scope Z_scope.
Local Open Scope ulock_scope.

(** ** The system calls *)

(** A received ancillary item. *)
Inductive RecvAncillaryMessage : Type :=
  | ScmRights (rights : list Fd)
  | OtherAncillary.

(** What [recvmsg] gives: the bytes, in the order they fill the buffers, and
    the ancillary items. *)
Record Received : Type := mkReceived {
  rc_bytes : list byte; rc_ancillary : list RecvAncillaryMessage }.

Class Sys (W : Type) : Type := {
  (** [socketpair(AF_UNIX, SOCK_STREAM, SOCK_CLOEXEC)] *)
  sys_socketpair : W -> result Z (Fd * Fd) * W;
  (** [sendmsg] of some buffers with one [SCM_RIGHTS] item; the bytes sent. *)
  sys_sendmsg : Fd -> list (list byte) -> list Fd -> W -> result Z Z * W;
  (** [recvmsg] with [MSG_WAITALL], into buffers of the given sizes with some
      room for ancillary data, and [MSG_PEEK] or not. *)
  sys_recvmsg : Fd -> list Z -> Z -> bool -> W -> result Z Received * W;
  sys_close : Fd -> W -> W;
  (** [cmsg_space!(ScmRights(n))]: the room [n] descriptors need. *)
  cmsg_space : Z -> Z }.
Global Arguments cmsg_space W {_} _.

(** [bincode::serialize] and [bincode::deserialize] at a type; [None] is an
    error of the encoder, which the sources only wrap. *)
Class Bincode (A : Type) : Type := {
  bincode_serialize : A -> option (list byte);
  bincode_deserialize : list byte -> option A }.

(** An operation that reports a raw OS error: [rustix] errors become
    [io::Error::from_raw_os_error]. *)
Definition os {W A} (f : W -> result Z A * W) : prog W (io_result A) :=
  let! r := lift f in ret (map_err Os r).

Definition zlen {A} (l : list A) : Z := Z.of_nat (length l).
Definition iov_len (iov : list (list byte)) : Z := foldr (fun b n => zlen b + n) 0 iov.
Definition sum_lens (lens : list Z) : Z := foldr Z.add 0 lens.

(** The descriptors of ancillary items, and the items that carry some. *)
Definition ancillary_fds (l : list RecvAncillaryMessage) : list Fd :=
  flat_map (fun m => match m with ScmRights fds => fds | OtherAncillary => [] end) l.

(** [usize::try_from] of a [u64]. *)
Definition usize_try_from (z : Z) : io_result Z :=
  if z <=? usize_max then Ok z else Err (Custom ErrorKind.InvalidInput).

(** Allocating a [Vec] of [n] elements of [size] bytes panics when the bytes
    exceed [isize::MAX]. An allocation of fewer bytes that fails aborts the
    process; it is taken to succeed. *)
Definition vec_alloc {W} (n size : Z) : prog W unit :=
  if n * size <=? isize_max then ret tt else panic.

(** [FetchedReplyResult<T>]. *)
Abbreviation FetchedReplyResult T := (io_result (io_result T)).

Section Transport.
Context {W : Type} `{!Sys W}.

(** Dropping owned descriptors. *)
Definition drop_fd (fd : Fd) : prog W unit := modify (sys_close fd).
Definition drop_fds (fds : list Fd) : prog W unit := each drop_fd fds.

(** *** Receiving *)

(** One of the two reads of [receive_raw_message]: read, read again when
    nothing came, and require the exact length. The ancillary buffer of a
    failed read is dropped with the descriptors in it. *)
Definition recv_exact (socket : Fd) (lens : list Z) (cap : Z) (peek : bool)
  : prog W (io_result Received) :=
  let? message := os (sys_recvmsg socket lens cap peek) in
  let? message :=
    (if (length (rc_bytes message) =? 0)%nat then
       let? message := os (sys_recvmsg socket lens cap peek) in
       if (length (rc_bytes message) =? 0)%nat then
         (* EOF, end communication *)
         do! drop_fds (ancillary_fds (rc_ancillary message)) in
         ret (Err (Custom ErrorKind.BrokenPipe))
       else ret (Ok message)
     else ret (Ok message)) in
  if zlen (rc_bytes message) =? sum_lens lens then ret (Ok message)
  else
    do! drop_fds (ancillary_fds (rc_ancillary message)) in
    ret (Err (Custom ErrorKind.UnexpectedEof)).

(** The loop over [ancillary.drain()]. *)
Fixpoint drain_ancillary (l : list RecvAncillaryMessage) (fds : list Fd)
  : io_result (list Fd) :=
  match l with
  | [] => Ok fds
  | ScmRights rights :: l => drain_ancillary l (fds ++ rights)
  | OtherAncillary :: _ => Err (Custom ErrorKind.InvalidData)
  end.

Definition receive_raw_message (socket : Fd) : prog W (io_result (list byte * list Fd)) :=
  let? header := recv_exact socket [8; 8] 0 true in
  do! drop_fds (ancillary_fds (rc_ancillary header)) in
  let? bytes_to_receive :=
    ret (usize_try_from (from_ne_bytes (take 8 (rc_bytes header)))) in
  let? fds_to_receive :=
    ret (usize_try_from (from_ne_bytes (drop 8 (rc_bytes header)))) in
  do! vec_alloc bytes_to_receive 1 in
  do! vec_alloc fds_to_receive 4 in
  let space := cmsg_space W fds_to_receive in
  do! vec_alloc space 1 in
  let? message := recv_exact socket [8; 8; bytes_to_receive] space false in
  match drain_ancillary (rc_ancillary message) [] with
  | Err e =>
      do! drop_fds (ancillary_fds (rc_ancillary message)) in
      ret (Err e)
  | Ok fds =>
      if zlen fds =? fds_to_receive then ret (Ok (drop 16 (rc_bytes message), fds))
      else
        do! drop_fds fds in
        ret (Err (Custom ErrorKind.UnexpectedEof))
  end.

(** *** Sending *)

Definition send_raw_message (socket : Fd) (buffer : list byte) (fds : list Fd)
  : prog W (io_result unit) :=
  let iov := [to_ne_bytes (zlen buffer); to_ne_bytes (zlen fds); buffer] in
  let! sent := os (sys_sendmsg socket iov fds) in
  (* [fds] is dropped on every return *)
  do! drop_fds fds in
  match sent with
  | Err e => ret (Err e)
  | Ok sent =>
      if sent =? iov_len iov then ret (Ok tt)
      else ret (Err (Custom ErrorKind.WriteZero))
  end.

(** *** Replies *)

Definition RawReply_reply (self : RawReply) (message : list byte) (fds : list Fd)
  : prog W unit :=
  let! _ := send_raw_message (channel self) message fds in ret tt.

Section Replies.
Context {P : Type} `{!Reply P} `{!Bincode (result Z (Reply_Type P))}.

(** [Reply::reply_with_fds]; an [Errno] error is sent as its raw code. *)
Definition reply_with_fds (self : P) (message : result Z (Reply_Type P)) (fds : list Fd)
  : prog W unit :=
  match bincode_serialize message with
  | Some data => RawReply_reply (raw_reply self) data fds
  | None => drop_fds fds
  end.

(** [Reply::reply], the default method. *)
Definition reply (self : P) (message : result Z (Reply_Type P)) : prog W unit :=
  reply_with_fds self message [].
End Replies.

(** [ReplyRequestSpawnOwner] overrides [reply]. *)
Definition ReplyRequestSpawnOwner_reply (self : ReplyRequestSpawnOwner)
  (message : result Z unit) : prog W unit :=
  if is_ok message then panic else ret tt.

(** *** Reply streams *)

Record ReplyIterator : Type := ReplyIterator_new { oneshot : Fd }.

(** [ReplyIterator::next]. *)
Definition next {T} `{!Bincode (result Z T)} (self : ReplyIterator)
  : prog W (option (FetchedReplyResult (T * list Fd))) :=
  let! r := receive_raw_message (oneshot self) in
  match r with
  | Err e => if kind_is ErrorKind.BrokenPipe e then ret None else ret (Some (Err e))
  | Ok (raw, fds) =>
      match bincode_deserialize (A := result Z T) raw with
      | Some (Ok item) => ret (Some (Ok (Ok (item, fds))))
      | Some (Err e) => do! drop_fds fds in ret (Some (Ok (Err (Os e))))
      | None => do! drop_fds fds in ret (Some (Err (Custom ErrorKind.InvalidData)))
      end
  end.

(** [next] of the iterator that [send_request_iter] returns: the
    descriptors of a reply are discarded. *)
Definition next_data {T} `{!Bincode (result Z T)} (self : ReplyIterator)
  : prog W (option (FetchedReplyResult T)) :=
  let! item := next (T := T) self in
  match item with
  | Some (Ok (Ok (data, fds))) => do! drop_fds fds in ret (Some (Ok (Ok data)))
  | Some (Ok (Err e)) => ret (Some (Ok (Err e)))
  | Some (Err e) => ret (Some (Err e))
  | None => ret None
  end.

(** *** Requests *)

Section Requests.
Context {R : Type} `{!Serializable R} `{!Bincode (Payload R)}.

Definition send_request_iter_with_fds (socket : Fd) (request : R)
  : prog W (io_result ReplyIterator) :=
  let '(payload, fds) := serialize request in
  match bincode_serialize payload with
  | None => do! drop_fds fds in ret (Err io_other)
  | Some payload_bytes =>
      let! sockets := os sys_socketpair in
      match sockets with
      | Err e => do! drop_fds fds in ret (Err e)
      | Ok (parent_oneshot, child_oneshot) =>
          let! sent := send_raw_message socket payload_bytes (child_oneshot :: fds) in
          match sent with
          | Err e => do! drop_fd parent_oneshot in ret (Err e)
          | Ok _ => ret (Ok (ReplyIterator_new parent_oneshot))
          end
      end
  end.

(** [send_request_iter] returns the same iterator, read with [next_data]. *)
Definition send_request_iter (socket : Fd) (request : R) : prog W (io_result ReplyIterator) :=
  send_request_iter_with_fds socket request.

Context `{!Replyable R} `{!Bincode (result Z (reply_type R))}.

Definition send_request (socket : Fd) (request : R)
  : prog W (FetchedReplyResult (reply_type R)) :=
  let? iter := send_request_iter socket request in
  let! item := next_data (T := reply_type R) iter in
  (* the iterator is dropped on return *)
  do! drop_fd (oneshot iter) in
  match item with
  | Some r => ret r
  | None => ret (Err (Custom ErrorKind.BrokenPipe))
  end.

Definition send_request_with_fds (socket : Fd) (request : R)
  : prog W (FetchedReplyResult (reply_type R * list Fd)) :=
  let? iter := send_request_iter_with_fds socket request in
  let! item := next (T := reply_type R) iter in
  do! drop_fd (oneshot iter) in
  match item with
  | Some (Ok reply) => ret (Ok reply)
  | Some (Err e) => ret (Err e)
  | None => ret (Err (Custom ErrorKind.BrokenPipe))
  end.

Definition receive_request (socket : Fd) : prog W (io_result (R * Fd)) :=
  let? (buffer, fds) := receive_raw_message socket in
  match fds with
  | [] => ret (Err (Custom ErrorKind.InvalidInput))
  | reply_fd :: rest =>
      match bincode_deserialize (A := Payload R) buffer with
      | None => do! drop_fds fds in ret (Err (Custom ErrorKind.InvalidData))
      | Some payload =>
          let '(message, dropped) := deserialize (R := R) payload rest in
          do! drop_fds dropped in
          match message with
          | Ok message => ret (Ok (message, reply_fd))
          | Err e => do! drop_fd reply_fd in ret (Err e)
          end
      end
  end.
End Requests.
End Transport.
