(* ===== verification/Transport.v ===== *)
(** * The transport: what the theorems rely on, and the theorems

    [StreamLaws] states the documented behaviour of connected AF_UNIX stream
    sockets that the framing of messages.rs relies on, and [BincodeLaws] that
    an encoder returns what it was given. Against these two interfaces: frames
    arrive whole, in order and with their descriptors; a request and its reply
    round trip; every malformed input ends in the error the sources name. *)

From Stdlib Require Import ZArith Lia.
From Stdlib Require Import Strings.Byte.
From stdpp Require Import base tactics numbers list gmap.
From S2P Require Import Prelude.
From S2P Require Import Std.
From S2P Require Import Types.
From S2P Require Import Wire.
From S2P Require Import Messages.
Local Open Scope Z_scope.
Local Open Scope ulock_scope.

(** ** The interface of the sockets

    A law describes what a call does itself: other threads and processes make
    their calls before or after it. *)

(** What one [sendmsg] put on a stream: its bytes, and its descriptors by the
    names they get in the receiver. Names are global: the descriptors of
    different processes are different names. *)
Record frame : Type := mkFrame { fr_bytes : list byte; fr_fds : list Fd }.

Definition rights_of (fds : list Fd) : list RecvAncillaryMessage :=
  match fds with [] => [] | _ => [ScmRights fds] end.

Class StreamLaws (W : Type) `{!Sys W} : Type := {
  (** the frames that wait to be read from a descriptor *)
  rx : W -> Fd -> list frame;
  (** what is written on the first is read from the second *)
  connected : W -> Fd -> Fd -> Prop;
  (** no descriptor can write to this one any more *)
  hung_up : W -> Fd -> Prop;
  (** the open file description of a descriptor, [None] when it is closed *)
  file : Type;
  ofd : W -> Fd -> option file;

  recv_peek_law : forall w s f fs lens,
    rx w s = f :: fs -> 0 < sum_lens lens <= zlen (fr_bytes f) ->
    sys_recvmsg s lens 0 true w =
      (Ok (mkReceived (take (Z.to_nat (sum_lens lens)) (fr_bytes f)) []), w);
  recv_law : forall w s f fs lens cap,
    rx w s = f :: fs -> sum_lens lens = zlen (fr_bytes f) ->
    cmsg_space W (zlen (fr_fds f)) <= cap ->
    exists w',
      sys_recvmsg s lens cap false w =
        (Ok (mkReceived (fr_bytes f) (rights_of (fr_fds f))), w') /\
      rx w' s = fs /\
      (forall t, ofd w t <> ofd w s -> rx w' t = rx w t) /\
      (forall x y, connected w x y -> connected w' x y) /\
      (forall t, ofd w' t = ofd w t);
  recv_eof_law : forall w s lens cap peek,
    rx w s = [] -> hung_up w s ->
    sys_recvmsg s lens cap peek w = (Ok (mkReceived [] []), w);
  send_law : forall w s r iov fds w',
    connected w s r -> sys_sendmsg s iov fds w = (Ok (iov_len iov), w') ->
    exists fds',
      Forall2 (fun f f' => ofd w' f' = ofd w f) fds fds' /\
      Forall (fun f' => ofd w f' = None) fds' /\
      rx w' r = rx w r ++ [mkFrame (concat iov) fds'] /\
      (forall t, ofd w t <> ofd w r -> t ∉ fds' -> rx w' t = rx w t) /\
      (forall x y, connected w x y -> connected w' x y) /\
      (forall t, t ∉ fds' -> ofd w' t = ofd w t);
  pair_law : forall w a b w',
    sys_socketpair w = (Ok (a, b), w') ->
    a <> b /\ ofd w a = None /\ ofd w b = None /\
    is_Some (ofd w' a) /\ is_Some (ofd w' b) /\ (forall t, ofd w t <> ofd w' a) /\
    rx w' a = [] /\ rx w' b = [] /\
    connected w' a b /\ connected w' b a /\
    (forall t, t <> a -> t <> b -> rx w' t = rx w t /\ ofd w' t = ofd w t) /\
    (forall x y, connected w x y -> connected w' x y);
  close_law : forall w fd,
    ofd (sys_close fd w) fd = None /\
    (forall t, t <> fd -> rx (sys_close fd w) t = rx w t /\ ofd (sys_close fd w) t = ofd w t) /\
    (forall x y, x <> fd -> y <> fd -> connected w x y -> connected (sys_close fd w) x y);
  connected_open : forall w x y, connected w x y -> is_Some (ofd w x) /\ is_Some (ofd w y);
  connected_alias : forall w x y x',
    connected w x y -> ofd w x' = ofd w x -> connected w x' y }.

(** An encoder that decodes what it encoded, for values in range; what it
    makes is a [Vec], so it is at most [isize::MAX] bytes. *)
Class BincodeLaws (A : Type) `{!Bincode A} (wf : A -> Prop) : Prop := {
  bincode_law : forall a, wf a ->
    exists bs, bincode_serialize a = Some bs /\ zlen bs <= isize_max /\
               bincode_deserialize bs = Some a }.

(** ** Small facts *)

Lemma zlen_nonneg {A} (l : list A) : 0 <= zlen l.
Proof. unfold zlen. lia. Qed.

Lemma zlen_app {A} (l k : list A) : zlen (l ++ k) = zlen l + zlen k.
Proof. unfold zlen. rewrite length_app. lia. Qed.

Lemma zlen_to_ne_bytes z : zlen (to_ne_bytes z) = 8.
Proof. unfold zlen. by rewrite length_to_ne_bytes. Qed.

Lemma iov_len_concat iov : iov_len iov = zlen (concat iov).
Proof. induction iov as [|b iov IH]; [done |]. simpl. by rewrite IH, zlen_app. Qed.

Lemma ancillary_fds_rights fds : ancillary_fds (rights_of fds) = fds.
Proof. destruct fds; [done |]. simpl. by rewrite app_nil_r. Qed.

Lemma drain_rights fds : drain_ancillary (rights_of fds) [] = Ok fds.
Proof. by destruct fds. Qed.

(** The bytes of a frame that carries [buffer] and announces [n] descriptors. *)
Definition frame_bytes (buffer : list byte) (n : Z) : list byte :=
  to_ne_bytes (zlen buffer) ++ to_ne_bytes n ++ buffer.

Lemma zlen_frame_bytes buffer n : zlen (frame_bytes buffer n) = 16 + zlen buffer.
Proof. unfold frame_bytes. rewrite !zlen_app, !zlen_to_ne_bytes. lia. Qed.

Lemma take_frame_bytes buffer n :
  take 16 (frame_bytes buffer n) = to_ne_bytes (zlen buffer) ++ to_ne_bytes n.
Proof.
  unfold frame_bytes. rewrite app_assoc. apply take_app_length'.
  by rewrite length_app, !length_to_ne_bytes.
Qed.

Lemma drop_frame_bytes buffer n : drop 16 (frame_bytes buffer n) = buffer.
Proof.
  unfold frame_bytes. rewrite app_assoc. apply drop_app_length'.
  by rewrite length_app, !length_to_ne_bytes.
Qed.

Lemma take_header a b : take 8 (to_ne_bytes a ++ to_ne_bytes b) = to_ne_bytes a.
Proof. apply take_app_length'. by rewrite length_to_ne_bytes. Qed.

Lemma drop_header a b : drop 8 (to_ne_bytes a ++ to_ne_bytes b) = to_ne_bytes b.
Proof. apply drop_app_length'. by rewrite length_to_ne_bytes. Qed.

Lemma usize_ok z : 0 <= z <= isize_max -> usize_try_from z = Ok z.
Proof.
  intros Hz. unfold usize_try_from.
  destruct (Z.leb_spec z usize_max); [done |]. unfold usize_max, isize_max in *. lia.
Qed.

Lemma vec_alloc_ok {W} n size (w : W) : n * size <= isize_max -> vec_alloc n size w = (Done tt, w).
Proof. intros H. unfold vec_alloc. by apply Z.leb_le in H as ->. Qed.

(** ** Frames *)

Section Frames.
Context {W : Type} `{!Sys W} `{!StreamLaws W}.
Implicit Types (w : W) (s r t : Fd).

(** The sizes that fit the receiver's buffers. *)
Definition fds_fit (n : Z) : Prop := n * 4 <= isize_max /\ cmsg_space W n <= isize_max.
Definition sendable (buffer : list byte) (fds : list Fd) : Prop :=
  zlen buffer <= isize_max /\ fds_fit (zlen fds).

Definition close_all (fds : list Fd) (w : W) : W := foldl (fun w fd => sys_close fd w) w fds.

Lemma drop_fds_run fds w : drop_fds fds w = (Done tt, close_all fds w).
Proof. revert w; induction fds as [|fd fds IH]; intros w; [done |]. apply IH. Qed.

Lemma close_all_other fds w t :
  t ∉ fds -> rx (close_all fds w) t = rx w t /\ ofd (close_all fds w) t = ofd w t.
Proof.
  revert w; induction fds as [|fd fds IH]; intros w Ht; [done |].
  apply not_elem_of_cons in Ht as [Hne Ht]. simpl.
  destruct (IH (sys_close fd w) Ht) as [-> ->].
  destruct (close_law w fd) as (_ & H & _). by apply H.
Qed.

Lemma close_all_closed fds w f : f ∈ fds -> ofd (close_all fds w) f = None.
Proof.
  revert w; induction fds as [|fd fds IH]; intros w Hf; [by apply elem_of_nil in Hf |].
  simpl. destruct (decide (f ∈ fds)) as [Hin|Hnot]; [auto |].
  apply elem_of_cons in Hf as [->|]; [| done].
  destruct (close_all_other fds (sys_close fd w) fd Hnot) as [_ ->]. apply close_law.
Qed.

Lemma close_all_closed_mono fds w f : ofd w f = None -> ofd (close_all fds w) f = None.
Proof.
  intros Hf. destruct (decide (f ∈ fds)); [by apply close_all_closed |].
  destruct (close_all_other fds w f) as [_ ->]; done.
Qed.

Lemma close_all_connected fds w x y :
  x ∉ fds -> y ∉ fds -> connected w x y -> connected (close_all fds w) x y.
Proof.
  revert w; induction fds as [|fd fds IH]; intros w Hx Hy Hc; [done |].
  apply not_elem_of_cons in Hx as [??], Hy as [??]. simpl.
  apply IH; [done.. |]. destruct (close_law w fd) as (_ & _ & Hk). by apply Hk.
Qed.

Lemma recv_exact_ok s lens cap peek w m w' :
  sys_recvmsg s lens cap peek w = (Ok m, w') ->
  zlen (rc_bytes m) = sum_lens lens -> 0 < sum_lens lens ->
  recv_exact s lens cap peek w = (Done (Ok m), w').
Proof.
  intros Hr Hl Hpos. unfold recv_exact, try_bind, os, lift, bind, ret. rewrite Hr; simpl.
  destruct (Nat.eqb_spec (length (rc_bytes m)) 0) as [E|_].
  { unfold zlen in Hl. lia. }
  by rewrite Hl, Z.eqb_refl.
Qed.

(** A well-formed frame at the head of the queue is received whole. *)
Lemma receive_frame w s buffer n fds fs :
  rx w s = mkFrame (frame_bytes buffer n) fds :: fs -> zlen fds = n ->
  sendable buffer fds ->
  exists w',
    receive_raw_message s w = (Done (Ok (buffer, fds)), w') /\
    rx w' s = fs /\
    (forall t, ofd w t <> ofd w s -> rx w' t = rx w t) /\
    (forall x y, connected w x y -> connected w' x y) /\
    (forall t, ofd w' t = ofd w t).
Proof.
  intros Hrx Hn (Hb & Hf & Hc). pose proof (zlen_nonneg buffer). pose proof (zlen_nonneg fds).
  destruct (recv_law w s _ _ [8; 8; zlen buffer] (cmsg_space W n) Hrx) as (w' & Hr & Hpost).
  { simpl. rewrite zlen_frame_bytes. lia. }
  { simpl. by rewrite Hn. }
  exists w'. split; [| exact Hpost].
  unfold receive_raw_message.
  assert (zlen (take 16 (frame_bytes buffer n)) = 16) as H16.
  { rewrite take_frame_bytes, zlen_app, !zlen_to_ne_bytes. lia. }
  assert (recv_exact s [8; 8] 0 true w =
            (Done (Ok (mkReceived (take 16 (frame_bytes buffer n)) [])), w)) as Hpeek.
  { apply recv_exact_ok; [| exact H16 | simpl; lia].
    apply (recv_peek_law w s _ _ [8; 8] Hrx). simpl. rewrite zlen_frame_bytes. lia. }
  rewrite (try_bind_ok _ _ _ _ _ Hpeek).
  cbn [rc_ancillary rc_bytes]. erewrite bind_done by apply drop_fds_run. cbn [close_all foldl ancillary_fds flat_map].
  rewrite take_frame_bytes, take_header, drop_header.
  rewrite !from_to_ne_bytes by (unfold is_u64, u64_modulus, isize_max in *; lia).
  erewrite try_bind_ok by (rewrite usize_ok by lia; done).
  erewrite try_bind_ok by (rewrite usize_ok by (unfold isize_max in *; lia); done).
  do 3 (erewrite bind_done; [| apply vec_alloc_ok; (lia || (rewrite <- Hn; lia))]).
  erewrite try_bind_ok by (apply (recv_exact_ok _ _ _ _ _ _ _ Hr); simpl;
    rewrite ?zlen_frame_bytes; lia).
  cbn [rc_ancillary rc_bytes fr_fds fr_bytes].
  rewrite drain_rights, Hn, Z.eqb_refl, drop_frame_bytes. done.
Qed.

(** A peer that hung up ends the stream. *)
Lemma receive_hung_up s w :
  rx w s = [] -> hung_up w s ->
  receive_raw_message s w = (Done (Err (Custom ErrorKind.BrokenPipe)), w).
Proof.
  intros Hrx Hup. unfold receive_raw_message. apply try_bind_err.
  unfold recv_exact, try_bind, os, lift, bind, ret.
  do 2 (rewrite (recv_eof_law w s [8; 8] 0 true Hrx Hup); simpl). done.
Qed.

Lemma concat_frame buffer n :
  concat [to_ne_bytes (zlen buffer); to_ne_bytes n; buffer] = frame_bytes buffer n.
Proof. simpl. by rewrite app_nil_r. Qed.

(** A successful send appends one frame, with new names for the descriptors,
    and closes the sender's descriptors. *)
Lemma send_frame w s r buffer fds w1 :
  connected w s r -> s ∉ fds -> r ∉ fds -> Forall (fun f => is_Some (ofd w f)) fds ->
  send_raw_message s buffer fds w = (Done (Ok tt), w1) ->
  exists fds',
    Forall2 (fun f f' => ofd w1 f' = ofd w f) fds fds' /\
    Forall (fun f' => ofd w f' = None) fds' /\
    rx w1 r = rx w r ++ [mkFrame (frame_bytes buffer (zlen fds)) fds'] /\
    (forall t, ofd w t <> ofd w r -> t ∉ fds -> t ∉ fds' -> rx w1 t = rx w t) /\
    (forall x y, x ∉ fds -> y ∉ fds -> connected w x y -> connected w1 x y) /\
    (forall t, t ∉ fds -> t ∉ fds' -> ofd w1 t = ofd w t) /\
    Forall2 (fun f f' => forall y, y ∉ fds -> connected w f y -> connected w1 f' y) fds fds'.
Proof.
  intros Hc Hs Hr Hopen. unfold send_raw_message.
  set (iov := [to_ne_bytes (zlen buffer); to_ne_bytes (zlen fds); buffer]).
  unfold os, bind, lift, ret. destruct (sys_sendmsg s iov fds w) as [[sent|e] w'] eqn:E;
    cbn [fst snd map_err]; rewrite drop_fds_run; [| done].
  destruct (Z.eqb_spec sent (iov_len iov)) as [->|]; [| done].
  intros [= <-].
  destruct (send_law w s r iov fds w' Hc E) as (fds' & Hal & Hnew & Hrx & Hoth & Hcon & Hofd).
  unfold iov in Hrx. rewrite concat_frame in Hrx.
  assert (forall f', f' ∈ fds' -> f' ∉ fds) as Hfresh.
  { intros f' Hin Hin'. rewrite Forall_forall in Hnew, Hopen.
    destruct (Hopen f' Hin') as [? Ho]. by rewrite (Hnew f' Hin) in Ho. }
  exists fds'. split_and!; [| done | | | | |].
  - apply (Forall2_impl_elem _ _ _ _ Hal). intros f f' Hf Hf' <-.
    apply close_all_other. auto.
  - rewrite <- Hrx. by apply close_all_other.
  - intros t Ht Htf Htn. rewrite <- (Hoth t Ht Htn). by apply close_all_other.
  - intros x y Hx Hy Hxy. apply close_all_connected; auto.
  - intros t Ht Ht'. rewrite <- (Hofd t Ht'). by apply close_all_other.
  - apply (Forall2_impl_elem _ _ _ _ Hal). intros f f' Hf Hf' E' y Hy Hfy.
    apply close_all_connected; [auto | done |].
    apply (connected_alias w' f); [auto |]. rewrite E'. symmetry. apply Hofd.
    intros Hin. by apply (Hfresh f).
Qed.

(** *** Sequences of messages *)

Fixpoint send_all (s : Fd) (msgs : list (list byte * list Fd)) : prog W (io_result unit) :=
  match msgs with
  | [] => ret (Ok tt)
  | (buffer, fds) :: msgs => let? _ := send_raw_message s buffer fds in send_all s msgs
  end.

Fixpoint receive_all (r : Fd) (n : nat) : prog W (io_result (list (list byte * list Fd))) :=
  match n with
  | O => ret (Ok [])
  | S n =>
      let? m := receive_raw_message r in
      let? ms := receive_all r n in
      ret (Ok (m :: ms))
  end.

(** The descriptors of [fds'] in [w'] are those of [fds] in [w], passed on. *)
Definition passed (w w' : W) (fds fds' : list Fd) : Prop :=
  Forall2 (fun f f' => ofd w' f' = ofd w f) fds fds'.

Definition carries (w w' : W) (m : list byte * list Fd) (f : frame) : Prop :=
  fr_bytes f = frame_bytes (m.1) (zlen (m.2)) /\ passed w w' (m.2) (fr_fds f).

Definition all_fds (msgs : list (list byte * list Fd)) : list Fd := concat (snd <$> msgs).

(** The sender's side of [s] and [r] before it sends [fds]: connected, and
    it owns [fds], which are open. *)
Definition may_send (w : W) (s r : Fd) (fds : list Fd) : Prop :=
  connected w s r /\ (s ∉ fds) /\ (r ∉ fds) /\ NoDup fds /\
  Forall (fun f => is_Some (ofd w f)) fds.

Lemma send_raw_inv s buffer fds k w w1 :
  (let? _ := send_raw_message s buffer fds in k) w = (Done (Ok tt), w1) ->
  exists w', send_raw_message s buffer fds w = (Done (Ok tt), w') /\ k w' = (Done (Ok tt), w1).
Proof.
  unfold try_bind, bind, ret. intros H.
  destruct (send_raw_message s buffer fds w) as [[[u|]|] w'] eqn:E; simplify_eq.
  destruct u. eauto.
Qed.

Lemma may_send_next w s r buffer fds w1 rest :
  may_send w s r (fds ++ rest) ->
  send_raw_message s buffer fds w = (Done (Ok tt), w1) ->
  may_send w1 s r rest.
Proof.
  intros (Hc & Hs & Hr & Hnd & Ho) Hsend.
  rewrite not_elem_of_app in Hs, Hr. apply Forall_app in Ho as [Ho1 Ho2].
  apply NoDup_app in Hnd as (_ & Hdis & Hnd).
  destruct (send_frame w s r buffer fds w1) as (fds' & _ & Hnew & _ & _ & Hcon & Hofd & _);
    try tauto.
  unfold may_send. split_and!; try tauto; [apply Hcon; tauto |].
  rewrite !Forall_forall in *. intros f Hf. rewrite Hofd; [by apply Ho2 | |].
  - intros Hin. by apply (Hdis f).
  - intros Hin. destruct (Ho2 f Hf) as [? E]. by rewrite (Hnew f Hin) in E.
Qed.

Lemma send_all_frames s r msgs w w1 :
  may_send w s r (all_fds msgs) ->
  send_all s msgs w = (Done (Ok tt), w1) ->
  (exists fs, rx w1 r = rx w r ++ fs /\ Forall2 (carries w w1) msgs fs) /\
  (forall t, is_Some (ofd w t) -> t ∉ all_fds msgs -> ofd w1 t = ofd w t).
Proof.
  revert w; induction msgs as [|[buffer fds] msgs IH]; intros w Hmay Hsend.
  { simpl in Hsend. injection Hsend as <-. split; [| done]. exists []. by rewrite app_nil_r. }
  apply send_raw_inv in Hsend as (w' & Hone & Hrest).
  change (all_fds ((buffer, fds) :: msgs)) with (fds ++ all_fds msgs) in *.
  destruct (IH w') as [(fs & Hrx & Hcar) Hkeep]; [by eapply may_send_next | done |].
  destruct Hmay as (Hc & Hs & Hr & Hnd & Ho).
  rewrite not_elem_of_app in Hs, Hr. apply Forall_app in Ho as [Ho1 Ho2].
  apply NoDup_app in Hnd as (_ & Hdis & Hnd).
  destruct (send_frame w s r buffer fds w') as (fds' & Hal & Hnew & Hrx' & _ & _ & Hofd & _);
    try tauto.
  rewrite !Forall_forall in *.
  assert (forall t, is_Some (ofd w t) -> t ∉ fds -> ofd w' t = ofd w t) as Hw'.
  { intros t [x Ht] Hn. apply Hofd; [done |]. intros Hin. by rewrite (Hnew t Hin) in Ht. }
  split.
  - exists (mkFrame (frame_bytes buffer (zlen fds)) fds' :: fs). split.
    { by rewrite Hrx, Hrx', <- app_assoc. }
    constructor.
    + split; [done |]. apply (Forall2_impl_elem _ _ _ _ Hal). intros f f' Hf Hf' E.
      rewrite <- E. destruct (Ho1 f Hf) as [x Hx]. apply Hkeep; [rewrite E; eauto |].
      intros Hin. destruct (Ho2 f' Hin) as [y Hy]. by rewrite (Hnew f' Hf') in Hy.
    + apply (Forall2_impl_elem _ _ _ _ Hcar). intros m f Hm Hf [Hb Hp]. split; [done |].
      apply (Forall2_impl_elem _ _ _ _ Hp). intros a a' Ha Ha' ->.
      assert (a ∈ all_fds msgs) as Hin.
      { unfold all_fds. apply list_elem_of_In, in_concat. exists m.2.
        split; apply list_elem_of_In; [apply list_elem_of_fmap; eauto | done]. }
      apply Hw'; [by apply Ho2 |]. intros Hin'. by apply (Hdis a).
  - intros t Ht Hn%not_elem_of_app. rewrite <- (Hw' t Ht) by tauto.
    apply Hkeep; [rewrite Hw'; tauto | tauto].
Qed.

Lemma receive_all_frames r w0 msgs w fs :
  Forall (fun m => sendable (m.1) (m.2)) msgs ->
  rx w r = fs -> Forall2 (carries w0 w) msgs fs ->
  exists got w2,
    receive_all r (length msgs) w = (Done (Ok got), w2) /\ rx w2 r = [] /\
    Forall2 (fun m g => g.1 = m.1 /\ passed w0 w2 (m.2) (g.2)) msgs got /\
    (forall t, ofd w2 t = ofd w t).
Proof.
  revert w fs; induction msgs as [|[buffer fds] msgs IH]; intros w fs Hok Hrx Hcar.
  { apply Forall2_nil_inv_l in Hcar as ->. exists [], w. by split_and!. }
  apply Forall2_cons_inv_l in Hcar as ([bs fds'] & fs' & [Hb Hp] & Hcar & ->).
  apply Forall_cons in Hok as [(Hs1 & Hs2 & Hs3) Hok]. simpl in *. subst bs.
  assert (zlen fds' = zlen fds) as Hlen.
  { unfold zlen. by rewrite (Forall2_length _ _ _ Hp). }
  destruct (receive_frame w r buffer (zlen fds) fds' fs') as (w' & Hrecv & Hrx' & _ & _ & Hofd);
    [done | done | unfold sendable; by rewrite Hlen |].
  destruct (IH w' fs') as (got & w2 & Hgot & Hend & Hall & Hkeep);
    [done | done | |].
  { eapply Forall2_impl; [exact Hcar |]. intros m f [? Hq]. split; [done |].
    eapply Forall2_impl; [exact Hq |]. simpl. intros a a' <-. by rewrite Hofd. }
  exists ((buffer, fds') :: got), w2.
  rewrite (try_bind_ok _ _ _ _ _ Hrecv), (try_bind_ok _ _ _ _ _ Hgot).
  split_and!; [done | done | | by intros t; rewrite Hkeep].
  constructor; [| done]. split; [done |].
  eapply Forall2_impl; [exact Hp |]. simpl. intros a a' <-. by rewrite Hkeep, Hofd.
Qed.
End Frames.

(** ** Requests and replies *)

Section Rpc.
Context {W : Type} `{!Sys W} `{!StreamLaws W}.
Context {R : Type} `{!Serializable R} `{!SerializableLaws R}.
Context `{!Bincode (Payload R)} (pwf : Payload R -> Prop) `{!BincodeLaws (Payload R) pwf}.

(** What a server sees of the request [m] that a client sent in world [w]
    and that left the reply stream [it]. *)
Definition request_received (w : W) (r : Fd) (it : ReplyIterator) (m : R) (w1 : W)
  (m' : R) (reply_fd : Fd) (w2 : W) : Prop :=
  receive_request r w1 = (Done (Ok (m', reply_fd)), w2) /\
  (serialize m').1 = (serialize m).1 /\
  passed w w2 (message_fds m) (message_fds m') /\
  connected w2 reply_fd (oneshot it) /\
  rx w2 (oneshot it) = [] /\ rx w2 r = [].

Lemma send_request_inv s (m : R) w it w1 :
  send_request_iter_with_fds s m w = (Done (Ok it), w1) ->
  exists bs b w0,
    bincode_serialize (serialize m).1 = Some bs /\
    sys_socketpair w = (Ok (oneshot it, b), w0) /\
    send_raw_message s bs (b :: (serialize m).2) w0 = (Done (Ok tt), w1).
Proof.
  unfold send_request_iter_with_fds. destruct (serialize m) as [p fds]; simpl.
  destruct (bincode_serialize p) as [bs|]; cycle 1.
  { unfold bind. rewrite drop_fds_run. done. }
  unfold os, bind, lift, ret. destruct (sys_socketpair w) as [[[a b]|e] w0] eqn:Ep; simpl; cycle 1.
  { rewrite drop_fds_run. done. }
  destruct (send_raw_message s bs (b :: fds) w0) as [[[[]|e]|] w'] eqn:Es; intros [= <- <-].
  exists bs, b, w0. done.
Qed.

(** What a socket pair adds: two open, connected, empty ends that are none of
    the descriptors that were open before. *)
Lemma pair_fresh w a b w0 :
  sys_socketpair w = (Ok (a, b), w0) ->
  forall t, is_Some (ofd w t) -> t <> a /\ t <> b /\ rx w0 t = rx w t /\ ofd w0 t = ofd w t.
Proof.
  intros Hp t [x Ht]. destruct (pair_law _ _ _ _ Hp) as (_ & Ha & Hb & _ & _ & _ & _ & _ & _ & _ & Ho & _).
  assert (t <> a) by congruence. assert (t <> b) by congruence.
  destruct (Ho t) as [-> ->]; done.
Qed.

(** The state of the sockets when a request has been sent. *)
Lemma request_sent s r (m : R) w it w1 :
  may_send w s r (message_fds m) -> rx w r = [] ->
  send_request_iter_with_fds s m w = (Done (Ok it), w1) ->
  exists bs reply_fd fds',
    bincode_serialize (serialize m).1 = Some bs /\
    rx w1 r = [mkFrame (frame_bytes bs (1 + zlen (message_fds m))) (reply_fd :: fds')] /\
    passed w w1 (message_fds m) fds' /\
    connected w1 reply_fd (oneshot it) /\ rx w1 (oneshot it) = [] /\
    ofd w1 (oneshot it) <> ofd w1 r /\ is_Some (ofd w1 r) /\
    reply_fd <> oneshot it /\ reply_fd <> r.
Proof.
  intros (Hc & Hs & Hr & Hnd & Ho) Hrx Hsend.
  apply send_request_inv in Hsend as (bs & b & w0 & Hser & Hpair & Hraw).
  fold (message_fds m) in Hraw. set (fds := message_fds m) in *. set (a := oneshot it) in *.
  pose proof (pair_fresh _ _ _ _ Hpair) as Hne.
  destruct (pair_law _ _ _ _ Hpair)
    as (Hab & Ha & Hb & Hxa & Hxb & Hnewa & Hra & _ & _ & Hba & _ & Hcon).
  destruct (connected_open _ _ _ Hc) as [Hos Hor].
  destruct (Hne s Hos) as (_ & Hsb & _), (Hne r Hor) as (Hra' & Hrb & Hrr & Hro).
  rewrite Forall_forall in Ho.
  destruct (send_frame w0 s r bs (b :: fds) w1)
    as (fds' & Hal & Hnew & Hrx1 & Hothr & _ & Hofd & Hali); [by apply Hcon | | | | done |].
  1,2: by apply not_elem_of_cons.
  { constructor; [done |]. rewrite Forall_forall. intros f Hf.
    destruct (Hne f (Ho f Hf)) as (_ & _ & _ & ->). auto. }
  assert (a ∉ b :: fds) as Hafds.
  { apply not_elem_of_cons. split; [done |]. intros Hin. by destruct (Hne a (Ho a Hin)). }
  assert (forall t, is_Some (ofd w0 t) -> t ∉ fds') as Hnotnew.
  { intros t [x Ht] Hin. rewrite Forall_forall in Hnew. by rewrite (Hnew t Hin) in Ht. }
  assert (ofd w0 a <> ofd w0 r) as Har by (rewrite Hro; intros E; by apply (Hnewa r)).
  assert (r ∉ b :: fds) as Hrfds by (by apply not_elem_of_cons).
  assert ((a ∉ fds') /\ (r ∉ fds')) as [Han Hrn].
  { split; apply Hnotnew; [done | by rewrite Hro]. }
  rewrite (Hofd a Hafds Han), (Hofd r Hrfds Hrn), (Hothr a Har Hafds Han).
  apply Forall2_cons_inv_l in Hal as (b' & fds'' & _ & Hal & ->).
  apply Forall2_cons in Hali as [Hbb _].
  apply not_elem_of_cons in Han as [Hab' _], Hrn as [Hrb' _].
  exists bs, b', fds''. rewrite Hrr, Hrx in Hrx1. split_and!; [done | | | | done | done | | done | done].
  - rewrite Hrx1. simpl. do 3 f_equal. unfold zlen; simpl. lia.
  - apply (Forall2_impl_elem _ _ _ _ Hal). intros f f' Hf _ ->.
    by destruct (Hne f (Ho f Hf)) as (_ & _ & _ & ->).
  - by apply Hbb.
  - by rewrite Hro.
Qed.

Lemma request_roundtrip s r (m : R) w it w1 :
  may_send w s r (message_fds m) -> pwf (serialize m).1 ->
  fds_fit (W := W) (1 + zlen (message_fds m)) -> rx w r = [] ->
  send_request_iter_with_fds s m w = (Done (Ok it), w1) ->
  exists m' reply_fd w2, request_received w r it m w1 m' reply_fd w2 /\
    ofd w2 (oneshot it) <> ofd w2 r /\ is_Some (ofd w2 r) /\
    reply_fd <> oneshot it /\ reply_fd <> r.
Proof.
  intros Hmay Hwf Hfit Hrx Hsend.
  destruct (request_sent s r m w it w1)
    as (bs & b & fds' & Hser & Hrx1 & Hpass & Hcon & Hit & Hne & Hor & Hbo & Hbr); [done.. |].
  destruct (bincode_law _ Hwf) as (bs' & Hser' & Hlen & Hdes).
  rewrite Hser in Hser'. injection Hser' as <-.
  assert (zlen (b :: fds') = 1 + zlen (message_fds m)) as Hn.
  { unfold zlen; simpl. rewrite <- (Forall2_length _ _ _ Hpass). lia. }
  destruct (receive_frame w1 r bs (1 + zlen (message_fds m)) (b :: fds') [])
    as (w2 & Hrecv & Hrx2 & Hoth2 & Hcon2 & Hofd2); [done | done | |].
  { split; [done |]. by rewrite Hn. }
  destruct (deserialize_renamed m fds') as (m' & Hdm & Hsm);
    [symmetry; by eapply Forall2_length |].
  exists m', b, w2. unfold request_received, receive_request.
  rewrite (try_bind_ok _ _ _ _ _ Hrecv); simpl. rewrite Hdes, Hdm.
  unfold message_fds in *. rewrite Hsm, !Hofd2.
  split_and!; [done | done | | | | done | done | done | done | done]; simpl.
  - eapply Forall2_impl; [exact Hpass |]. simpl. intros f f' <-. by rewrite Hofd2.
  - by apply Hcon2.
  - by rewrite Hoth2.
Qed.

(** *** The reply *)

Context `{!Replyable R} `{!ReplyableLaws R}.
Context `{!Bincode (result Z (reply_type R))} (rwf : result Z (reply_type R) -> Prop)
        `{!BincodeLaws (result Z (reply_type R)) rwf}.

(** A descriptor on which everything written is accepted at once. *)
Definition accepts (w : W) (s : Fd) : Prop :=
  forall iov fds, exists w', sys_sendmsg s iov fds w = (Ok (iov_len iov), w').

Lemma accepted_send w s buffer :
  accepts w s -> exists w', send_raw_message s buffer [] w = (Done (Ok tt), w').
Proof.
  intros H. unfold send_raw_message, os, bind, lift, ret.
  destruct (H [to_ne_bytes (zlen buffer); to_ne_bytes (zlen (@nil Fd)); buffer] []) as [w' E].
  exists w'. rewrite E. cbn [fst snd map_err]. rewrite drop_fds_run, Z.eqb_refl. done.
Qed.

(** A reply arrives as the value or as the OS error it was made of. *)
Lemma reply_roundtrip w reply_fd it (v : result Z (reply_type R)) :
  connected w reply_fd (oneshot it) -> rx w (oneshot it) = [] -> accepts w reply_fd ->
  rwf v -> fds_fit (W := W) 0 ->
  exists w1 w2,
    reply (create_reply R reply_fd) v w = (Done tt, w1) /\
    next_data (T := reply_type R) it w1 = (Done (Some (Ok (map_err Os v))), w2).
Proof.
  intros Hcon Hrx Hacc Hwf Hfit.
  destruct (bincode_law v Hwf) as (bs & Hser & Hlen & Hdes).
  destruct (accepted_send w reply_fd bs Hacc) as [w1 Hsend].
  exists w1. unfold reply, reply_with_fds. rewrite Hser. unfold RawReply_reply.
  rewrite create_reply_channel, (bind_done _ _ _ _ _ Hsend).
  destruct (send_frame w reply_fd (oneshot it) bs [] w1)
    as (fds' & Hal & _ & Hrx1 & _); [done | | | done | done |]; [apply not_elem_of_nil.. |].
  apply Forall2_nil_inv_l in Hal as ->. rewrite Hrx in Hrx1.
  destruct (receive_frame w1 (oneshot it) bs 0 [] []) as (w2 & Hrecv & _); [done.. |].
  exists w2. split; [done |].
  unfold next_data, next. rewrite bind_assoc, (bind_done _ _ _ _ _ Hrecv). rewrite Hdes.
  by destruct v.
Qed.
End Rpc.
