(* ===== verification/Net.v ===== *)
(** * A concrete world of sockets and a concrete encoder

    Instances of the interfaces that messages.rs is modelled against, so that
    the theorems about the transport can be evaluated: [net], descriptors with
    their open ends and the frames queued at each end, and an encoder of the
    payload types as sequences of 64-bit words. Neither is a model of the
    kernel or of [bincode]; they show that the interfaces can be met. *)

From Stdlib Require Import ZArith Lia.
From Stdlib Require Import Strings.Byte.
From stdpp Require Import base tactics numbers list gmap infinite.
From S2P Require Import Prelude.
From S2P Require Import Std.
From S2P Require Import Types.
From S2P Require Import Wire.
From S2P Require Import Messages.
From S2P Require Import Transport.
Local Open Scope Z_scope.

(** ** Sockets *)

(** A socket end: a side of a numbered pair. *)
Abbreviation sock_end := (Z * bool)%type.
Definition peer (e : sock_end) : sock_end := (e.1, negb e.2).

(** [n_end] maps a descriptor to the end it names; [n_queue] an end to the
    frames that wait there. *)
Record net : Type := mkNet {
  n_end : gmap Z sock_end;
  n_queue : gmap sock_end (list frame) }.

Definition end_queue (w : net) (e : sock_end) : list frame := default [] (n_queue w !! e).

Definition net_rx (w : net) (fd : Fd) : list frame :=
  match n_end w !! fd with Some e => end_queue w e | None => [] end.

Definition net_connected (w : net) (x y : Fd) : Prop :=
  exists e, n_end w !! x = Some e /\ n_end w !! y = Some (peer e).

Definition net_hung_up (w : net) (s : Fd) : Prop :=
  exists e, n_end w !! s = Some e /\ forall x, n_end w !! x <> Some (peer e).

(** The numbers of the pairs in use. *)
Definition used_pairs (w : net) : gset Z :=
  set_map fst (dom (n_queue w)) ∪ list_to_set ((fun kv => kv.2.1) <$> map_to_list (n_end w)).

Definition net_socketpair (w : net) : result Z (Fd * Fd) * net :=
  let k := fresh (used_pairs w) in
  match fresh_list 2 (dom (n_end w)) with
  | [a; b] => (Ok (a, b), mkNet (<[a := (k, true)]> (<[b := (k, false)]> (n_end w))) (n_queue w))
  | _ => (Err Errno.EIO, w)
  end.

(** The names [fds'] for what [fds] name. *)
Fixpoint install (m : gmap Z sock_end) (src : gmap Z sock_end) (fds fds' : list Fd)
  : gmap Z sock_end :=
  match fds, fds' with
  | f :: fds, f' :: fds' =>
      match src !! f with
      | Some e => <[f' := e]> (install m src fds fds')
      | None => install m src fds fds'
      end
  | _, _ => m
  end.

Definition net_sendmsg (s : Fd) (iov : list (list byte)) (fds : list Fd) (w : net)
  : result Z Z * net :=
  match n_end w !! s with
  | Some e =>
      let fds' := fresh_list (length fds) (dom (n_end w)) in
      (Ok (iov_len iov),
       mkNet (install (n_end w) (n_end w) fds fds')
             (<[peer e := end_queue w (peer e) ++ [mkFrame (concat iov) fds']]> (n_queue w)))
  | None => (Err Errno.EBADF, w)
  end.

Definition net_recvmsg (s : Fd) (lens : list Z) (cap : Z) (peek : bool) (w : net)
  : result Z Received * net :=
  match n_end w !! s with
  | None => (Err Errno.EBADF, w)
  | Some e =>
      match end_queue w e with
      | [] =>
          if bool_decide (Forall (fun kv => kv.2 <> peer e) (map_to_list (n_end w)))
          then (Ok (mkReceived [] []), w) else (Err Errno.EAGAIN, w)
      | f :: fs =>
          let n := Z.to_nat (sum_lens lens) in
          if peek then (Ok (mkReceived (take n (fr_bytes f)) []), w)
          else
            (Ok (mkReceived (take n (fr_bytes f))
                            (if 8 * zlen (fr_fds f) <=? cap then rights_of (fr_fds f) else [])),
             mkNet (n_end w)
                   (<[e := if (n <? length (fr_bytes f))%nat
                           then mkFrame (drop n (fr_bytes f)) [] :: fs else fs]> (n_queue w)))
      end
  end.

Definition net_close (fd : Fd) (w : net) : net := mkNet (delete fd (n_end w)) (n_queue w).

#[export] Instance net_Sys : Sys net := {
  sys_socketpair := net_socketpair;
  sys_sendmsg := net_sendmsg;
  sys_recvmsg := net_recvmsg;
  sys_close := net_close;
  cmsg_space n := 8 * n }.

(** ** The laws of the sockets hold *)

Lemma peer_peer e : peer (peer e) = e.
Proof. destruct e as [k []]; done. Qed.

Lemma fresh_names n (X : gset Z) :
  length (fresh_list n X) = n /\ NoDup (fresh_list n X) /\ (forall x, x ∈ fresh_list n X -> x ∉ X).
Proof.
  split_and!; [apply length_fresh_list | apply NoDup_fresh_list | apply fresh_list_is_fresh].
Qed.

Lemma install_other m src fds fds' t : t ∉ fds' -> install m src fds fds' !! t = m !! t.
Proof.
  revert fds'; induction fds as [|f fds IH]; intros [|f' fds'] Ht; simpl; try done.
  apply not_elem_of_cons in Ht as [??].
  destruct (src !! f); [rewrite lookup_insert_ne by done |]; auto.
Qed.

Lemma install_passed m fds fds' :
  length fds' = length fds -> NoDup fds' -> (forall x, x ∈ fds' -> m !! x = None) ->
  Forall2 (fun f f' => install m m fds fds' !! f' = m !! f) fds fds'.
Proof.
  enough (forall (src : gmap Z sock_end), length fds' = length fds -> NoDup fds' ->
    (forall x, x ∈ fds' -> m !! x = None) ->
    Forall2 (fun f f' => install m src fds fds' !! f' = src !! f) fds fds') by eauto.
  intros src. revert fds'; induction fds as [|f fds IH]; intros [|f' fds'] Hl Hnd Hm; simpl; try done.
  apply NoDup_cons in Hnd as [Hnot Hnd]. constructor.
  - destruct (src !! f) eqn:E; [by rewrite lookup_insert_eq |].
    rewrite install_other by done. apply Hm. by left.
  - assert (forall x, x ∈ fds' -> m !! x = None) as Hm' by (intros; apply Hm; by right).
    injection Hl as Hl. apply (Forall2_impl_elem _ _ _ _ (IH fds' Hl Hnd Hm')).
    intros g g' _ Hg' <-. destruct (src !! f); [| done].
    rewrite lookup_insert_ne; [done |]. by intros ->.
Qed.

Lemma net_recv w s f fs lens cap :
  net_rx w s = f :: fs -> sum_lens lens = zlen (fr_bytes f) -> 8 * zlen (fr_fds f) <= cap ->
  exists w',
    net_recvmsg s lens cap false w = (Ok (mkReceived (fr_bytes f) (rights_of (fr_fds f))), w') /\
    net_rx w' s = fs /\
    (forall t, n_end w !! t <> n_end w !! s -> net_rx w' t = net_rx w t) /\
    (forall x y, net_connected w x y -> net_connected w' x y) /\
    (forall t, n_end w' !! t = n_end w !! t).
Proof.
  unfold net_rx, net_recvmsg. intros Hrx Hlen Hcap.
  destruct (n_end w !! s) as [e|] eqn:He; [| done]. rewrite Hrx, Hlen.
  assert (Z.to_nat (zlen (fr_bytes f)) = length (fr_bytes f)) as ->.
  { unfold zlen. lia. }
  rewrite take_ge, Nat.ltb_irrefl by done. apply Z.leb_le in Hcap as ->.
  eexists. split; [done |]. simpl. rewrite He. unfold end_queue; simpl.
  rewrite lookup_insert_eq. split_and!; [done | | done | done].
  intros t Ht. destruct (n_end w !! t) as [e'|]; [| done].
  rewrite lookup_insert_ne; [done |]. by intros ->.
Qed.

Lemma net_send w s r iov fds w' :
  net_connected w s r -> net_sendmsg s iov fds w = (Ok (iov_len iov), w') ->
  exists fds',
    Forall2 (fun f f' => n_end w' !! f' = n_end w !! f) fds fds' /\
    Forall (fun f' => n_end w !! f' = None) fds' /\
    net_rx w' r = net_rx w r ++ [mkFrame (concat iov) fds'] /\
    (forall t, n_end w !! t <> n_end w !! r -> t ∉ fds' -> net_rx w' t = net_rx w t) /\
    (forall x y, net_connected w x y -> net_connected w' x y) /\
    (forall t, t ∉ fds' -> n_end w' !! t = n_end w !! t).
Proof.
  intros (e & Hs & Hr). unfold net_sendmsg. rewrite Hs. intros [= <-].
  destruct (fresh_names (length fds) (dom (n_end w))) as (Hlen & Hnd & Hnew).
  set (fds' := fresh_list (length fds) (dom (n_end w))) in *.
  assert (forall x, x ∈ fds' -> n_end w !! x = None) as Hnone.
  { intros x Hx. by apply not_elem_of_dom, Hnew. }
  assert (forall t e', n_end w !! t = Some e' -> t ∉ fds') as Hopen.
  { intros t e' Ht Hin. by rewrite Hnone in Ht. }
  exists fds'. unfold net_rx, end_queue, net_connected; simpl.
  split_and!.
  - by apply install_passed.
  - by apply Forall_forall.
  - rewrite install_other, Hr by eauto. simpl. by rewrite lookup_insert_eq.
  - intros t Ht Htn. rewrite install_other by done.
    destruct (n_end w !! t) as [e'|] eqn:Et; [| done].
    rewrite lookup_insert_ne; [done |]. intros <-. by rewrite Hr in Ht.
  - intros x y (e' & Hx & Hy). exists e'. rewrite !install_other by eauto. done.
  - intros t Ht. by apply install_other.
Qed.

Lemma fresh_pair_unused w k b :
  k = fresh (used_pairs w) ->
  (forall t, n_end w !! t <> Some (k, b)) /\ n_queue w !! (k, b) = None.
Proof.
  intros ->. pose proof (is_fresh (used_pairs w)) as Hf. unfold used_pairs in Hf at 2.
  apply not_elem_of_union in Hf as [Hq He]. split.
  - intros t Ht. apply He. apply elem_of_list_to_set, list_elem_of_fmap.
    exists (t, (fresh (used_pairs w), b)). split; [done |]. by apply elem_of_map_to_list.
  - apply not_elem_of_dom. intros Hin. apply Hq, elem_of_map. by exists (fresh (used_pairs w), b).
Qed.

Lemma net_pair w a b w' :
  net_socketpair w = (Ok (a, b), w') ->
  a <> b /\ n_end w !! a = None /\ n_end w !! b = None /\
  is_Some (n_end w' !! a) /\ is_Some (n_end w' !! b) /\
  (forall t, n_end w !! t <> n_end w' !! a) /\
  net_rx w' a = [] /\ net_rx w' b = [] /\
  net_connected w' a b /\ net_connected w' b a /\
  (forall t, t <> a -> t <> b -> net_rx w' t = net_rx w t /\ n_end w' !! t = n_end w !! t) /\
  (forall x y, net_connected w x y -> net_connected w' x y).
Proof.
  unfold net_socketpair.
  destruct (fresh_names 2 (dom (n_end w))) as (_ & Hnd & Hnew).
  destruct (fresh_list 2 (dom (n_end w))) as [|a' [|b' [|]]]; try done. intros [= -> -> <-].
  apply NoDup_cons in Hnd as [Hab _]. rewrite list_elem_of_singleton in Hab.
  destruct (fresh_pair_unused w _ true eq_refl) as [Het Hqt].
  destruct (fresh_pair_unused w _ false eq_refl) as [Hef Hqf].
  assert (n_end w !! a = None) as Ha by (apply not_elem_of_dom, Hnew; set_solver).
  assert (n_end w !! b = None) as Hb by (apply not_elem_of_dom, Hnew; set_solver).
  unfold net_rx, net_connected, end_queue; simpl.
  rewrite lookup_insert_eq, lookup_insert_ne, lookup_insert_eq by done.
  rewrite Hqt, Hqf. split_and!; try done; eauto.
  - intros t Hta Htb. by rewrite !lookup_insert_ne by done.
  - intros x y (e & Hx & Hy). exists e.
    assert (x <> a /\ x <> b /\ y <> a /\ y <> b) as (?&?&?&?) by (split_and!; congruence).
    by rewrite !lookup_insert_ne by done.
Qed.

#[export] Instance net_StreamLaws : StreamLaws net.
Proof.
  refine {| rx := net_rx; connected := net_connected; hung_up := net_hung_up;
            ofd := fun w fd => n_end w !! fd |}.
  - intros w s f fs lens Hrx Hlen. unfold net_rx in Hrx. simpl. unfold net_recvmsg.
    destruct (n_end w !! s) as [e|]; [| done]. by rewrite Hrx.
  - apply net_recv.
  - intros w s lens cap peek Hrx (e & He & Hno). simpl. unfold net_rx in Hrx.
    unfold net_recvmsg. rewrite He in *. rewrite Hrx. rewrite bool_decide_true; [done |].
    apply Forall_forall. intros [k e'] Hin%elem_of_map_to_list Heq. simpl in Heq. subst e'.
    by apply (Hno k).
  - apply net_send.
  - apply net_pair.
  - intros w fd. unfold net_rx, net_connected; simpl. split_and!.
    + apply lookup_delete_eq.
    + intros t Ht. by rewrite lookup_delete_ne by done.
    + intros x y Hx Hy (e & ? & ?). exists e. by rewrite !lookup_delete_ne by done.
  - intros w x y (e & -> & ->). eauto.
  - intros w x y x' (e & Hx & Hy) E. exists e. by rewrite E.
Defined.

(** ** An encoder *)

Fixpoint words_encode (l : list Z) : list byte :=
  match l with [] => [] | z :: l => to_ne_bytes z ++ words_encode l end.

(** [n] words, and nothing after them. *)
Fixpoint words_split (n : nat) (bs : list byte) : option (list Z) :=
  match n with
  | O => match bs with [] => Some [] | _ => None end
  | S n =>
      if (8 <=? length bs)%nat
      then cons (from_ne_bytes (take 8 bs)) <$> words_split n (drop 8 bs)
      else None
  end.

Definition words_decode (bs : list byte) : option (list Z) := words_split (length bs / 8) bs.

Lemma length_words_encode l : length (words_encode l) = (8 * length l)%nat.
Proof.
  induction l as [|z l IH]; [done |]. cbn [words_encode length].
  rewrite length_app, length_to_ne_bytes, IH. lia.
Qed.

Lemma words_roundtrip l : Forall is_u64 l -> words_decode (words_encode l) = Some l.
Proof.
  intros H. unfold words_decode. rewrite length_words_encode, Nat.mul_comm, Nat.div_mul by done.
  induction H as [|z l Hz _ IH]; [done |]. cbn [length words_split words_encode].
  rewrite length_app, length_to_ne_bytes. cbn [Nat.leb Nat.add].
  rewrite take_app_length', drop_app_length' by by rewrite length_to_ne_bytes.
  by rewrite from_to_ne_bytes, IH.
Qed.

(** Signed fields in a word, two's complement. *)
Definition to_word (z : Z) : Z := wrap64 z.
Definition of_word (z : Z) : Z := as_signed 64 z.

Lemma of_to_word z : is_i64 z -> of_word (to_word z) = z.
Proof.
  unfold is_i64, of_word, to_word, wrap64, as_signed, u64_modulus. intros Hz.
  rewrite Zplus_mod_idemp_l. rewrite Z.mod_small; lia.
Qed.

Lemma i32_i64 z : is_i32 z -> is_i64 z.
Proof. unfold is_i32, is_i64. lia. Qed.

(** A codec of a type into words. *)
Class WordCodec (A : Type) : Type := {
  to_words : A -> list Z;
  of_words : list Z -> option A }.

Class WordCodecLaws (A : Type) `{!WordCodec A} (wf : A -> Prop) : Prop := {
  words_in_range : forall a, wf a -> Forall is_u64 (to_words a);
  of_to_words : forall a, wf a -> of_words (to_words a) = Some a;
  words_few : forall a, (length (to_words a) <= 1000)%nat }.

#[export] Instance word_Bincode A `{!WordCodec A} : Bincode A := {
  bincode_serialize a := Some (words_encode (to_words a));
  bincode_deserialize bs := words_decode bs ≫= of_words }.

#[export] Instance word_BincodeLaws A `{!WordCodec A} (wf : A -> Prop) `{!WordCodecLaws A wf} :
  BincodeLaws A wf.
Proof.
  constructor. intros a Ha. eexists. split; [done |]. split.
  - unfold zlen. rewrite length_words_encode. pose proof (words_few a). unfold isize_max. lia.
  - simpl. rewrite words_roundtrip by by apply words_in_range. simpl. by apply of_to_words.
Qed.

Definition LockParams_words (p : LockParams) : list Z :=
  [LockType.into_i32 (lock_type p); LockWhence.into_i32 (whence p);
   to_word (start p); to_word (len p); to_word (pid p)].

Definition LockParams_of_words (t wh s l p : Z) : option LockParams :=
  match LockType.try_from t, LockWhence.try_from wh with
  | Ok t, Ok wh => Some (mkLockParams t wh (of_word s) (of_word l) (of_word p))
  | _, _ => None
  end.

Lemma LockParams_words_ok p :
  LockParams_wf p ->
  Forall is_u64 (LockParams_words p) /\
  match LockParams_words p with
  | [t; wh; s; l; q] => LockParams_of_words t wh s l q = Some p
  | _ => False
  end.
Proof.
  intros (Hs & Hl & Hp). unfold LockParams_words, LockParams_of_words. split.
  - repeat constructor; try apply wrap64_range; by destruct (lock_type p), (whence p).
  - rewrite !of_to_word by auto using i32_i64.
    by destruct p as [[] [] ???].
Qed.

#[export] Instance RawMessage_codec : WordCodec RawMessage := {
  to_words m :=
    match m with
    | RawMessage.Ping => [0]
    | RawMessage.Interrupt id => [1; id]
    | RawMessage.RemoveInterrupt id => [2; id]
    | RawMessage.Register => [3]
    | RawMessage.Unregister id => [4; id]
    | RawMessage.LockCommand id a p => 5 :: id :: LockAction.into_i32 a :: LockParams_words p
    end;
  of_words l :=
    match l with
    | [0] => Some RawMessage.Ping
    | [1; id] => Some (RawMessage.Interrupt id)
    | [2; id] => Some (RawMessage.RemoveInterrupt id)
    | [3] => Some RawMessage.Register
    | [4; id] => Some (RawMessage.Unregister id)
    | [5; id; a; t; wh; s; l; p] =>
        match LockAction.try_from a, LockParams_of_words t wh s l p with
        | Ok a, Some p => Some (RawMessage.LockCommand id a p)
        | _, _ => None
        end
    | _ => None
    end }.

#[export] Instance RawMessage_codec_laws : WordCodecLaws RawMessage RawMessage.wf.
Proof.
  constructor.
  - intros [|id|id| |id|id a p] Hwf; simpl in *;
      try (repeat (apply Forall_cons_2; [done |]); apply Forall_nil_2).
    apply Forall_cons; split; [done |]. apply Forall_cons; split; [apply Hwf |].
    apply Forall_cons; split; [by destruct a |]. apply LockParams_words_ok, Hwf.
  - intros [| | | | |id a p] Hwf; simpl in *; try done.
    destruct (LockParams_words_ok p (proj2 Hwf)) as [_ H]. unfold LockParams_words in *.
    rewrite H. by destruct a.
  - intros []; simpl; lia.
Qed.

#[export] Instance Duration_codec : WordCodec Duration := {
  to_words d := [as_secs d; subsec_nanos d];
  of_words l := match l with [s; n] => Some (mkDuration s n) | _ => None end }.

#[export] Instance Duration_codec_laws : WordCodecLaws Duration Duration_wf.
Proof.
  constructor.
  - intros d [? ?]. repeat constructor; unfold is_u64, u64_modulus, nanos_per_sec in *; lia.
  - by intros [].
  - simpl. lia.
Qed.

#[export] Instance unit_codec : WordCodec unit :=
  { to_words _ := []; of_words l := match l with [] => Some tt | _ => None end }.
#[export] Instance unit_codec_laws : WordCodecLaws unit (fun _ => True).
Proof. constructor; [constructor | by intros [] | simpl; lia]. Qed.

#[export] Instance u64_codec : WordCodec Z :=
  { to_words z := [z]; of_words l := match l with [z] => Some z | _ => None end }.
#[export] Instance u64_codec_laws : WordCodecLaws Z is_u64.
Proof. constructor; [intros; by apply Forall_singleton | done | simpl; lia]. Qed.

#[export] Instance ReplyLockCommandData_codec : WordCodec ReplyLockCommandData := {
  to_words d :=
    match d with
    | ReplyLockCommandData.Pending id => [0; id]
    | ReplyLockCommandData.Done p => 1 :: LockParams_words p
    end;
  of_words l :=
    match l with
    | [0; id] => Some (ReplyLockCommandData.Pending id)
    | [1; t; wh; s; l; p] => ReplyLockCommandData.Done <$> LockParams_of_words t wh s l p
    | _ => None
    end }.

#[export] Instance ReplyLockCommandData_codec_laws :
  WordCodecLaws ReplyLockCommandData ReplyLockCommandData.wf.
Proof.
  constructor.
  - intros [id|p] Hwf; simpl in *; apply Forall_cons; split; try done.
    + by apply Forall_singleton.
    + by apply LockParams_words_ok.
  - intros [id|p] Hwf; simpl in *; [done |].
    destruct (LockParams_words_ok p Hwf) as [_ H]. unfold LockParams_words in *. by rewrite H.
  - intros []; simpl; lia.
Qed.

(** [Result<T, i32>]: a tag word, then the value or the error code. *)
Definition result_wf {A} (wf : A -> Prop) (r : result Z A) : Prop :=
  match r with Ok a => wf a | Err e => is_i32 e end.

#[export] Instance result_codec A `{!WordCodec A} : WordCodec (result Z A) := {
  to_words r := match r with Ok a => 0 :: to_words a | Err e => [1; to_word e] end;
  of_words l :=
    match l with
    | 0 :: l => Ok <$> of_words l
    | [1; e] => Some (Err (of_word e))
    | _ => None
    end }.

#[export] Instance result_codec_laws A `{!WordCodec A} wf `{!WordCodecLaws A wf} :
  (forall a, length (to_words a) <= 999)%nat -> WordCodecLaws (result Z A) (result_wf wf).
Proof.
  intros Hfew. constructor.
  - intros [a|e] Hwf; simpl in *; (apply Forall_cons_2; [done |]).
    + by apply words_in_range.
    + apply Forall_singleton, wrap64_range.
  - intros [a|e] Hwf; simpl in *.
    + by rewrite of_to_words.
    + rewrite of_to_word by by apply i32_i64. done.
  - intros [a|e]; simpl; [pose proof (Hfew a) |]; lia.
Qed.

(** The reply types at their message. *)
#[export] Instance Register_reply_Bincode : Bincode (result Z (reply_type Register)) :=
  word_Bincode (result Z Z).
#[export] Instance LockCommand_reply_Bincode : Bincode (result Z (reply_type LockCommand)) :=
  word_Bincode (result Z ReplyLockCommandData).
#[export] Instance Register_Bincode : Bincode (Payload Register) := word_Bincode RawMessage.
#[export] Instance LockCommand_Bincode : Bincode (Payload LockCommand) := word_Bincode RawMessage.
#[export] Instance Message_Bincode : Bincode (Payload Message) := word_Bincode RawMessage.

#[export] Instance Register_BincodeLaws : BincodeLaws (Payload Register) RawMessage.wf.
Proof. exact (word_BincodeLaws RawMessage RawMessage.wf). Qed.
#[export] Instance Message_BincodeLaws : BincodeLaws (Payload Message) RawMessage.wf.
Proof. exact (word_BincodeLaws RawMessage RawMessage.wf). Qed.
#[export] Instance Register_reply_BincodeLaws :
  BincodeLaws (result Z (reply_type Register)) (result_wf is_u64).
Proof.
  refine (@word_BincodeLaws (result Z Z) _ (result_wf is_u64) _).
  apply result_codec_laws; [apply _ | simpl; lia].
Qed.
