(* ===== verification/TransportSpec.v ===== *)
(** * Properties of the messages and of the transport

    The properties of types.rs and messages.rs, each with an evaluation on the
    concrete sockets and encoder of [Net] where it has hypotheses. *)

From Stdlib Require Import ZArith Lia.
From Stdlib Require Import Strings.Byte.
From stdpp Require Import base tactics numbers list gmap.
From S2P Require Import Prelude.
From S2P Require Import Std.
From S2P Require Import Types.
From S2P Require Import Wire.
From S2P Require Import Messages.
From S2P Require Import Transport.
From S2P Require Import Net.
Local Open Scope Z_scope.

(** ** A small world *)

(** Two connected sockets, 1 and 2, and an open descriptor 7. *)
Definition demo_net : net :=
  mkNet {[1 := (0, true); 2 := (0, false); 7 := (9, true)]} ∅.

Definition demo_params : LockParams :=
  mkLockParams LockType.Write LockWhence.Start 5 25 0.

(** ** types.rs *)

(** C32. [LockParams::try_from(flock)] and [flock::from(LockParams)] are
    inverse to each other: a C structure converts to parameters exactly when
    it is what those parameters convert to. *)
Theorem LockParams_flock_inverse (f : flock) (p : LockParams) :
  flock_wf f -> LockParams_try_from f = Ok p <-> f = flock_from p.
Proof.
  intros (Ht & Hw & _). split; [| intros ->; apply LockParams_try_from_flock_from].
  unfold LockParams_try_from.
  destruct (LockType.try_from (as_i32 (l_type f))) as [t|] eqn:Et; [| done]. simpl.
  destruct (LockWhence.try_from (as_i32 (l_whence f))) as [wh|] eqn:Ew; [| done]. simpl.
  intros [= <-]. apply LockType_try_from_ok in Et. apply LockWhence_try_from_ok in Ew.
  rewrite as_i32_id in Et, Ew by (unfold is_i16, is_i32 in *; lia).
  destruct f as [lt lw ls ll lp]; simpl in *; subst. by destruct t, wh.
Qed.

Lemma LockParams_flock_inverse_witness :
  LockParams_try_from (flock_from demo_params) = Ok demo_params <->
  flock_from demo_params = flock_from demo_params.
Proof.
  apply LockParams_flock_inverse. unfold flock_wf; simpl.
  unfold is_i16, is_i32, is_i64. repeat split; vm_compute; congruence.
Defined.

(** C31. Whatever arrives, [Message::deserialize] either gives a message
    that serializes to exactly that payload, with every received descriptor in
    the message or dropped, or fails with [InvalidInput] and drops them all;
    it fails only for [Register] without exactly one descriptor. *)
Theorem message_deserialize_exact (p : RawMessage) (fds : list Fd) :
  match Message.deserialize p fds with
  | (Ok m, dropped) =>
      exists kept, Message.serialize m = (p, kept) /\ kept ++ dropped = fds
  | (Err e, dropped) =>
      e = Custom ErrorKind.InvalidInput /\ dropped = fds /\
      p = RawMessage.Register /\ length fds <> 1%nat
  end.
Proof.
  destruct (Message.deserialize p fds) as [[m|e] dropped] eqn:E.
  - destruct (@serialize_deserialize Message Message_Serializable _ p fds m dropped E) as [Hp Hf].
    exists (message_fds m). split; [| done]. unfold message_fds. simpl in *.
    by rewrite <- Hp, <- surjective_pairing.
  - destruct (@deserialize_err Message Message_Serializable _ p fds e dropped E) as [-> ->].
    rewrite Message_deserialize_cases in E. destruct p; try done.
    by destruct fds as [|? [|]].
Qed.

(** ** Framing *)

(** C10. Messages that were sent on one end of a socket are received on the
    other end whole, in order, with their bytes, and with descriptors that
    name the same open files; nothing is left over. *)
Theorem messages_fifo {W} `{!Sys W} `{!StreamLaws W} (s r : Fd)
    (msgs : list (list byte * list Fd)) (w w1 : W) :
  may_send w s r (all_fds msgs) -> rx w r = [] ->
  Forall (fun m => sendable (W := W) (m.1) (m.2)) msgs ->
  send_all s msgs w = (Done (Ok tt), w1) ->
  exists got w2,
    receive_all r (length msgs) w1 = (Done (Ok got), w2) /\ rx w2 r = [] /\
    Forall2 (fun m g => g.1 = m.1 /\ passed w w2 (m.2) (g.2)) msgs got.
Proof.
  intros Hmay Hrx Hok Hsend.
  destruct (send_all_frames s r msgs w w1 Hmay Hsend) as [(fs & Hfs & Hcar) _].
  rewrite Hrx in Hfs.
  destruct (receive_all_frames r w msgs w1 fs Hok Hfs Hcar) as (got & w2 & H1 & H2 & H3 & _).
  eauto.
Qed.

Definition demo_messages : list (list byte * list Fd) := [([x01; x02], [7]); ([x03], [])].

Lemma demo_may_send fds :
  NoDup fds -> 1 ∉ fds -> 2 ∉ fds -> Forall (fun f => is_Some (n_end demo_net !! f)) fds ->
  may_send demo_net 1 2 fds.
Proof. intros. unfold may_send. split_and!; try done. by exists (0, true). Qed.

Lemma messages_fifo_witness : exists got w2,
  receive_all 2 2 (send_all 1 demo_messages demo_net).2 = (Done (Ok got), w2) /\
  got.*1 = [[x01; x02]; [x03]].
Proof.
  destruct (messages_fifo 1 2 demo_messages demo_net (send_all 1 demo_messages demo_net).2)
    as (got & w2 & Hr & _ & Hall).
  - apply demo_may_send; simpl; [apply NoDup_singleton | rewrite list_elem_of_In; simpl; lia .. |].
    apply Forall_singleton. by exists (9, true).
  - reflexivity.
  - apply Forall_cons_2; [| apply Forall_singleton];
      (split; [| split]); vm_compute; congruence.
  - vm_compute. reflexivity.
  - exists got, w2. split; [exact Hr |].
    apply Forall2_cons_inv_l in Hall as (g1 & got1 & [E1 _] & Hall & ->).
    apply Forall2_cons_inv_l in Hall as (g2 & got2 & [E2 _] & Hall & ->).
    apply Forall2_nil_inv_l in Hall as ->. simpl. by rewrite E1, E2.
Defined.

(** ** Requests *)

(** C6. A request that [send_request_iter] sent is received by the peer's
    [receive_request] as the same message, with descriptors that name the same
    open files and a reply descriptor connected to the client's reply stream;
    and whatever the peer then replies on it, [Ok] or an error code, is the
    next item of that stream. *)
Theorem rpc_roundtrip {W} `{!Sys W} `{!StreamLaws W}
    {R} `{!Serializable R} `{!SerializableLaws R} `{!Replyable R} `{!ReplyableLaws R}
    `{!Bincode (Payload R)} (pwf : Payload R -> Prop) `{!BincodeLaws (Payload R) pwf}
    `{!Bincode (result Z (reply_type R))} (rwf : result Z (reply_type R) -> Prop)
    `{!BincodeLaws (result Z (reply_type R)) rwf}
    (s r : Fd) (m : R) (w : W) (it : ReplyIterator) (w1 : W) :
  may_send w s r (message_fds m) -> rx w r = [] -> pwf (serialize m).1 ->
  fds_fit (W := W) 0 -> fds_fit (W := W) (1 + zlen (message_fds m)) ->
  send_request_iter s m w = (Done (Ok it), w1) ->
  exists m' reply_fd w2,
    request_received w r it m w1 m' reply_fd w2 /\
    (accepts w2 reply_fd -> forall v, rwf v -> exists w3 w4,
       reply (create_reply R reply_fd) v w2 = (Done tt, w3) /\
       next_data (T := reply_type R) it w3 = (Done (Some (Ok (map_err Os v))), w4)).
Proof.
  intros Hmay Hrx Hp H0 Hfit Hsend.
  destruct (request_roundtrip pwf s r m w it w1) as (m' & fd & w2 & Hreq & _); [done.. |].
  exists m', fd, w2. split; [done |]. intros Hacc v Hv.
  destruct Hreq as (_ & _ & _ & Hcon & Hit & _).
  by eapply reply_roundtrip.
Qed.

Definition demo_request : Register := Register.mk 7.
Definition demo_sent : net := (send_request_iter 1 demo_request demo_net).2.

(** Descriptor 7 is registered and the answer is identifier 3. *)
Lemma rpc_roundtrip_witness : exists m' reply_fd w2,
  receive_request (R := Register) 2 demo_sent = (Done (Ok (m', reply_fd)), w2) /\
  n_end w2 !! Register.fd m' = Some (9, true) /\
  exists it w3 w4,
    reply (P := ReplyRegister) (Register.create_reply reply_fd) (Ok 3) w2 = (Done tt, w3) /\
    next_data (T := reply_type Register) it w3 = (Done (Some (Ok (Ok 3))), w4).
Proof.
  destruct (rpc_roundtrip (R := Register) (Serializable0 := Register_Serializable)
              (Replyable0 := Register_Replyable) RawMessage.wf (result_wf is_u64) 1 2
              demo_request demo_net (ReplyIterator_new 8) demo_sent)
    as (m' & fd & w2 & (Hreq & _ & Hpass & _) & Hreply).
  - apply demo_may_send; simpl; [apply NoDup_singleton | rewrite list_elem_of_In; simpl; lia .. |].
    apply Forall_singleton. by exists (9, true).
  - reflexivity.
  - exact I.
  - split; vm_compute; congruence.
  - split; vm_compute; congruence.
  - vm_compute. reflexivity.
  - exists m', fd, w2. split; [exact Hreq |]. split.
    + apply Forall2_cons in Hpass as [E _]. exact E.
    + assert (accepts w2 fd) as Hacc.
      { intros iov fds. vm_compute in Hreq. injection Hreq as <- <- <-. by eexists. }
      destruct (Hreply Hacc (Ok 3)) as (w3 & w4 & H1 & H2).
      * split; vm_compute; congruence.
      * exists (ReplyIterator_new 8), w3, w4. by split.
Defined.

(** ** Errors *)

(** Whether a frame holds a request: a reply descriptor, and a payload that
    decodes to a message with the other descriptors. *)
Definition holds_request {R} `{!Serializable R} `{!Bincode (Payload R)}
    (buffer : list byte) (fds : list Fd) : bool :=
  match fds, bincode_deserialize (A := Payload R) buffer with
  | _ :: rest, Some payload => is_ok (deserialize (R := R) payload rest).1
  | _, _ => false
  end.

(** C28. When a well-formed frame does not hold a request, whatever is
    wrong with it, [receive_request] returns (it does not panic) an error,
    [InvalidInput] or [InvalidData], the frame is consumed, and every
    descriptor that came with it is closed again. *)
Theorem receive_request_err_closes {W} `{!Sys W} `{!StreamLaws W}
    {R} `{!Serializable R} `{!SerializableLaws R} `{!Bincode (Payload R)}
    (r : Fd) (w : W) (buffer : list byte) (fds : list Fd) (fs : list frame) :
  rx w r = mkFrame (frame_bytes buffer (zlen fds)) fds :: fs ->
  sendable (W := W) buffer fds -> r ∉ fds -> holds_request (R := R) buffer fds = false ->
  exists e w',
    receive_request (R := R) r w = (Done (Err e), w') /\
    (e = Custom ErrorKind.InvalidInput \/ e = Custom ErrorKind.InvalidData) /\
    rx w' r = fs /\ Forall (fun f => ofd w' f = None) fds.
Proof.
  intros Hrx Hok Hr Hno.
  destruct (receive_frame w r buffer (zlen fds) fds fs) as (w1 & Hrecv & Hrx1 & _); [done.. |].
  unfold receive_request. rewrite (try_bind_ok _ _ _ _ _ Hrecv). unfold holds_request in Hno.
  destruct fds as [|fd rest]; [do 2 eexists; split; [done |]; by split; [left |] |].
  destruct (bincode_deserialize buffer) as [p|].
  - destruct (deserialize p rest) as [[m|e1] dropped] eqn:Ed; [done |].
    destruct (deserialize_err _ _ _ _ Ed) as [-> ->]. unfold bind. rewrite drop_fds_run.
    do 2 eexists. split; [done |]. apply not_elem_of_cons in Hr as [Hne Hr].
    change (sys_close fd (close_all rest w1)) with (close_all [fd] (close_all rest w1)).
    assert (r ∉ [fd]) as Hr1 by by rewrite list_elem_of_singleton.
    split; [by left |]. split.
    + rewrite (proj1 (close_all_other [fd] _ r Hr1)). by rewrite (proj1 (close_all_other rest w1 r Hr)).
    + constructor; [by apply close_all_closed; left |]. apply Forall_forall. intros f Hf.
      by apply close_all_closed_mono, close_all_closed.
  - unfold bind. rewrite drop_fds_run. do 2 eexists. split; [done |]. split; [by right |]. split.
    + etrans; [exact (proj1 (close_all_other (fd :: rest) w1 r Hr)) | done].
    + apply Forall_forall. intros f Hf. exact (close_all_closed (fd :: rest) w1 f Hf).
Qed.

(** A [Register] that came with the reply descriptor only, which arrives as
    descriptor 8, and one that came with no descriptor at all. *)
Definition demo_bad : net := (send_raw_message 1 (words_encode [3]) [7] demo_net).2.
Definition demo_no_fds : net := (send_raw_message 1 (words_encode [3]) [] demo_net).2.

Lemma receive_request_err_closes_witness :
  (receive_request (R := Message) 2 demo_bad).1 = Done (Err (Custom ErrorKind.InvalidInput)) /\
  (exists e w', receive_request (R := Message) 2 demo_bad = (Done (Err e), w') /\ n_end w' !! 8 = None) /\
  (exists e w', receive_request (R := Message) 2 demo_no_fds = (Done (Err e), w') /\ net_rx w' 2 = []).
Proof.
  split; [vm_compute; reflexivity |]. split.
  - destruct (receive_request_err_closes (R := Message) 2 demo_bad (words_encode [3]) [8] [])
      as (e & w' & He & _ & _ & Hcl).
    + vm_compute. reflexivity.
    + split; [| split]; vm_compute; congruence.
    + by rewrite list_elem_of_singleton.
    + vm_compute. reflexivity.
    + exists e, w'. split; [exact He | exact (Forall_inv Hcl)].
  - destruct (receive_request_err_closes (R := Message) 2 demo_no_fds (words_encode [3]) [] [])
      as (e & w' & He & _ & Hrx & _).
    + vm_compute. reflexivity.
    + split; [| split]; vm_compute; congruence.
    + apply not_elem_of_nil.
    + vm_compute. reflexivity.
    + exists e, w'. split; [exact He | exact Hrx].
Defined.

(** C29. A peer that hung up ends the streams the way the callers expect:
    [receive_request] fails with [BrokenPipe], a reply stream ends with [None],
    and nothing else happens. *)
Theorem hang_up_ends_streams {W} `{!Sys W} `{!StreamLaws W}
    {R} `{!Serializable R} `{!Bincode (Payload R)} {T} `{!Bincode (result Z T)} (r : Fd) (w : W) :
  rx w r = [] -> hung_up w r ->
  receive_request (R := R) r w = (Done (Err (Custom ErrorKind.BrokenPipe)), w) /\
  next_data (T := T) (ReplyIterator_new r) w = (Done None, w).
Proof.
  intros Hrx Hup.
  pose proof (receive_hung_up r w Hrx Hup) as E.
  split.
  - unfold receive_request. by apply try_bind_err.
  - unfold next_data, next. rewrite bind_assoc. by rewrite (bind_done _ _ _ _ _ E).
Qed.

Lemma hang_up_ends_streams_witness :
  receive_request (R := Message) 2 (sys_close 1 demo_net) =
    (Done (Err (Custom ErrorKind.BrokenPipe)), sys_close 1 demo_net) /\
  next_data (T := unit) (ReplyIterator_new 2) (sys_close 1 demo_net) =
    (Done None, sys_close 1 demo_net).
Proof.
  apply hang_up_ends_streams; [reflexivity |].
  exists (0, false). split; [reflexivity |]. intros x.
  change (n_end (sys_close 1 demo_net)) with ({[2 := (0, false); 7 := (9, true)]} : gmap Z sock_end).
  intros Hx. apply lookup_insert_Some in Hx as [[_ Hx]|[_ Hx]]; [done |].
  by apply lookup_singleton_Some in Hx as [_ Hx].
Defined.

(** ** The lengths in a header *)

(** The sizes for which the receiver can make its buffers. *)
Definition header_fits {W} `{!Sys W} (a b : Z) : Prop :=
  a <= isize_max /\ b * 4 <= isize_max /\ cmsg_space W b <= isize_max.

Lemma vec_alloc_panics {W} n size (w : W) : isize_max < n * size -> vec_alloc n size w = (Panicked, w).
Proof. intros H. unfold vec_alloc. by apply Z.leb_gt in H as ->. Qed.

Lemma vec_alloc_cases {W} n size (w : W) :
  n * size <= isize_max /\ vec_alloc n size w = (Done tt, w) \/
  isize_max < n * size /\ vec_alloc n size w = (Panicked, w).
Proof.
  destruct (Z.le_gt_cases (n * size) isize_max);
    [left; auto using vec_alloc_ok | right; auto using vec_alloc_panics].
Qed.

Lemma recv_exact_returns {W} `{!Sys W} s lens cap peek (w : W) :
  exists r w', recv_exact s lens cap peek w = (Done r, w').
Proof.
  unfold recv_exact, try_bind, os, bind, lift, ret.
  repeat (case_match; simplify_eq/=; rewrite ?drop_fds_run in *; simplify_eq/=; try (by do 2 eexists)).
Qed.


(** A header that announces a payload of 2^63 bytes waits in socket 2. *)
Definition demo_oversized : net :=
  mkNet {[2 := (0, true)]} {[(0, true) := [mkFrame (to_ne_bytes (2 ^ 63) ++ to_ne_bytes 1) []]]}.

