(* ===== verification/Helpers.v ===== *)
(** * src/src/helpers.rs and src/src/waiter.rs

    Signal masks with their restoring guards, [cvt], [ensure_sigaction_exists],
    and the waiting loops of [Waiter] over crossbeam's [Backoff]. The signal
    system calls are the class [SigSys], the back-off is the class [Backoff]. *)

From Stdlib Require Import ZArith Lia.
From stdpp Require Import base tactics numbers list gmap.
From S2P Require Import Prelude.
From S2P Require Import Std.
Local Open Scope Z_scope.
Local Open Scope ulock_scope.

(** ** Signal masks *)

(** [SigSet]: the signals in a set, by number. *)
Abbreviation SigSet := (gset Z).

(** The signals of the target. *)
Definition SigSet_all : SigSet := list_to_set (seqZ 1 64).
Definition SigSet_empty : SigSet := ∅.

Inductive SigmaskHow : Type := SIG_BLOCK | SIG_UNBLOCK | SIG_SETMASK.

(** [pthread_sigmask(how, Some(set), Some(old))] of the calling thread, and
    [sigaction(SIGUSR1, NULL, &old)]: its return value, [errno] and the
    handler it stored. *)
Class SigSys (W : Type) : Type := {
  sys_sigmask : SigmaskHow -> SigSet -> W -> result Z SigSet * W;
  sys_sigaction : W -> (Z * Z * Z) * W }.

(** The effect of [pthread_sigmask] on a mask. *)
Definition apply_how (how : SigmaskHow) (set old : SigSet) : SigSet :=
  match how with
  | SIG_BLOCK => old ∪ set
  | SIG_UNBLOCK => old ∖ set
  | SIG_SETMASK => set
  end.

(** Some signals cannot be blocked: asking for them is not an error and has no
    effect. *)
Class SigLaws (W : Type) `{!SigSys W} : Type := {
  mask : W -> SigSet;
  maskable : SigSet;
  sigmask_law : forall how set w old w',
    sys_sigmask how set w = (Ok old, w') ->
    old = mask w /\ mask w' = apply_how how set (mask w) ∩ maskable;
  sigmask_err_law : forall how set w e w',
    sys_sigmask how set w = (Err e, w') -> mask w' = mask w;
  (** [SIG_SETMASK] with a valid set does not fail *)
  setmask_law : forall set w, exists w', sys_sigmask SIG_SETMASK set w = (Ok (mask w), w');
  mask_maskable : forall w, mask w ⊆ maskable;
  maskable_all : maskable ⊆ SigSet_all;
  usr1_maskable : libc.SIGUSR1 ∈ maskable }.

(** [SigSetGuard]: the mask to restore. *)
Record SigSetGuard : Type := SigSetGuard_new { old : SigSet }.

Section Signals.
Context {W : Type} `{!SigSys W}.

Definition sigmask (how : SigmaskHow) (set : SigSet) : prog W (io_result SigSet) :=
  let! r := lift (sys_sigmask how set) in ret (map_err Os r).

(** [Drop for SigSetGuard]. *)
Definition SigSetGuard_drop (self : SigSetGuard) : prog W unit :=
  let! _ := sigmask SIG_SETMASK (old self) in ret tt.

Definition unblock_signal (sig : Z) : prog W (io_result SigSetGuard) :=
  let sigset := {[sig]} ∪ SigSet_empty in
  let? old_set := sigmask SIG_UNBLOCK sigset in
  ret (Ok (SigSetGuard_new old_set)).

Definition block_all_signals : prog W (io_result SigSetGuard) :=
  let sigset := SigSet_all in
  let? old_set := sigmask SIG_BLOCK sigset in
  ret (Ok (SigSetGuard_new old_set)).

(** A body under a guard: the guard is dropped when the body returns or
    unwinds. *)
Definition with_guard {A} (guard : SigSetGuard) (body : prog W A) : prog W A :=
  fun w =>
    let '(r, w1) := body w in
    (r, (SigSetGuard_drop guard w1).2).

(** [let _restore = block_all_signals()?; body] *)
Definition with_signals_blocked {A} (body : prog W (io_result A)) : prog W (io_result A) :=
  let? guard := block_all_signals in with_guard guard body.

(** [cvt]: the [-1] convention of C. *)
Definition cvt (t : Z) (errno : Z) : io_result Z :=
  if t =? -1 then Err (Os errno) else Ok t.

Definition ensure_sigaction_exists : prog W (io_result unit) :=
  let! res := lift sys_sigaction in
  let '(t, errno, sa_sigaction) := res in
  match cvt t errno with
  | Err e => ret (Err e)
  | Ok _ =>
      if (sa_sigaction =? libc.SIG_DFL) || (sa_sigaction =? libc.SIG_IGN)
      then ret (Err (Custom ErrorKind.InvalidInput))
      else ret (Ok tt)
  end.
End Signals.

Section SignalLemmas.
Context {W : Type} `{!SigSys W} `{!SigLaws W}.

Lemma sigmask_cases how set w :
  (exists w', sigmask how set w = (Done (Ok (mask w)), w') /\
              mask w' = apply_how how set (mask w) ∩ maskable) \/
  (exists e w', sigmask how set w = (Done (Err (Os e)), w') /\ mask w' = mask w).
Proof.
  unfold sigmask, bind, lift, ret.
  destruct (sys_sigmask how set w) as [[o|e] w'] eqn:E; [left | right]; simpl.
  - destruct (sigmask_law _ _ _ _ _ E) as [-> Hm]. eauto.
  - exists e, w'. by rewrite (sigmask_err_law _ _ _ _ _ E).
Qed.

(** Dropping a guard made from a mask installs that mask. *)
Lemma guard_drop_mask w0 w :
  exists w', SigSetGuard_drop (SigSetGuard_new (mask w0)) w = (Done tt, w') /\ mask w' = mask w0.
Proof.
  unfold SigSetGuard_drop, sigmask, bind, lift, ret; simpl.
  destruct (setmask_law (mask w0) w) as [w' E]. rewrite E. simpl. exists w'.
  split; [done |]. destruct (sigmask_law _ _ _ _ _ E) as [_ ->]. simpl.
  pose proof (mask_maskable w0). set_solver.
Qed.

Lemma block_all_cases w :
  (exists w', block_all_signals w = (Done (Ok (SigSetGuard_new (mask w))), w') /\
              mask w' = maskable) \/
  (exists e w', block_all_signals w = (Done (Err (Os e)), w') /\ mask w' = mask w).
Proof.
  unfold block_all_signals.
  destruct (sigmask_cases SIG_BLOCK SigSet_all w) as [(w' & E & Hm)|(e & w' & E & Hm)].
  - left. exists w'. rewrite (try_bind_ok _ _ _ _ _ E). split; [done |]. rewrite Hm.
    unfold apply_how. pose proof maskable_all. set_solver.
  - right. exists e, w'. by rewrite (try_bind_err _ _ _ _ _ E).
Qed.

Lemma unblock_cases sig w :
  (exists w', unblock_signal sig w = (Done (Ok (SigSetGuard_new (mask w))), w') /\
              mask w' = mask w ∖ {[sig]}) \/
  (exists e w', unblock_signal sig w = (Done (Err (Os e)), w') /\ mask w' = mask w).
Proof.
  unfold unblock_signal.
  destruct (sigmask_cases SIG_UNBLOCK ({[sig]} ∪ SigSet_empty) w) as [(w' & E & Hm)|(e & w' & E & Hm)].
  - left. exists w'. rewrite (try_bind_ok _ _ _ _ _ E). split; [done |]. rewrite Hm.
    unfold apply_how, SigSet_empty. pose proof (mask_maskable w). set_solver.
  - right. exists e, w'. by rewrite (try_bind_err _ _ _ _ _ E).
Qed.

Lemma with_guard_mask {A} w0 (body : prog W A) w :
  exists w', with_guard (SigSetGuard_new (mask w0)) body w = ((body w).1, w') /\
             mask w' = mask w0.
Proof.
  unfold with_guard. destruct (body w) as [r w1].
  destruct (guard_drop_mask w0 w1) as (w' & E & Hm). rewrite E. by exists w'.
Qed.
End SignalLemmas.

(** ** Back-off and waiting *)

(** crossbeam's [Backoff]. *)
Class Backoff (B : Type) : Type := {
  backoff_new : B;
  backoff_reset : B -> B;
  backoff_spin : B -> B;
  backoff_snooze : B -> B;
  is_completed : B -> bool }.

(** Documented: [is_completed] becomes true after some snoozes and stays true
    until a reset, which starts the back-off anew. *)
Class BackoffLaws (B : Type) `{!Backoff B} : Type := {
  backoff_limit : nat;
  snooze_completes : forall n, (backoff_limit <= n)%nat ->
    is_completed (Nat.iter n backoff_snooze backoff_new) = true;
  completed_stays : forall b, is_completed b = true -> is_completed (backoff_snooze b) = true;
  reset_is_new : forall b, backoff_reset b = backoff_new }.

(** What a waiting loop does between two calls of its condition. *)
Inductive pause : Type := Sleep | Spin | Snooze.

Section Waiter.
Context {B : Type} `{!Backoff B}.

(** [Waiter::spin_wait] and [Waiter::snooze_wait]. [obs] are the successive
    answers of the condition; [None] when the loop has not returned after
    them. The result is what it did while it waited. *)
Fixpoint spin_wait_loop (b : B) (obs : list bool) : option (list pause) :=
  match obs with
  | [] => None
  | true :: _ => Some []
  | false :: obs =>
      if is_completed b then cons Sleep <$> spin_wait_loop b obs
      else cons Spin <$> spin_wait_loop (backoff_spin b) obs
  end.
Definition spin_wait (obs : list bool) : option (list pause) := spin_wait_loop backoff_new obs.

Fixpoint snooze_wait_loop (b : B) (obs : list bool) : option (list pause) :=
  match obs with
  | [] => None
  | true :: _ => Some []
  | false :: obs =>
      if is_completed b then cons Sleep <$> snooze_wait_loop b obs
      else cons Snooze <$> snooze_wait_loop (backoff_snooze b) obs
  end.
Definition snooze_wait (obs : list bool) : option (list pause) :=
  snooze_wait_loop backoff_new obs.

Lemma snooze_wait_loop_returns b n obs :
  exists ps, snooze_wait_loop b (replicate n false ++ true :: obs) = Some ps /\ length ps = n.
Proof.
  revert b; induction n as [|n IH]; intros b; simpl; [by exists [] |].
  destruct (is_completed b);
    [destruct (IH b) as (ps & -> & <-) | destruct (IH (backoff_snooze b)) as (ps & -> & <-)];
    by eexists.
Qed.

Lemma snooze_wait_loop_waits b n : snooze_wait_loop b (replicate n false) = None.
Proof.
  revert b; induction n as [|n IH]; intros b; simpl; [done |].
  by destruct (is_completed b); rewrite IH.
Qed.
End Waiter.
