(* ===== verification/Tracker.v ===== *)
(** * src/src/tracker.rs: tracked threads and their interruption

    First the code of the critical sections: [track], [untrack], one iteration
    of [InterruptibleTracker::stop] and of [InterruptibleHandle::stop]. Every
    access to a tracker's data and to an exit flag is under its mutex, so one
    critical section is one step. Then the machine: threads start, create and
    drop guards and end, any number of calls of both [stop]s run, and the steps
    interleave in any order. *)

From Stdlib Require Import ZArith Lia.
From stdpp Require Import base tactics numbers list gmap.
From S2P Require Import Prelude.
From S2P Require Import Std.
From S2P Require Import Helpers.
Local Open Scope Z_scope.

(** [pthread_t]. The system may give the value of an ended thread to a new one. *)
Abbreviation Pthread := Z.

(** ** The critical sections *)

Record RawInterruptibleTrackerData : Type := mkTrackerData {
  can_spawn : bool;
  new_thread : bool;
  threads : gset Pthread }.

(** [RawInterruptibleTracker::track], and what it leaves. *)
Definition track (thread : Pthread) (data : RawInterruptibleTrackerData)
  : io_result unit * RawInterruptibleTrackerData :=
  if negb (can_spawn data) then (Err io_other, data)
  else (Ok tt, mkTrackerData (can_spawn data) true ({[thread]} ∪ threads data)).

(** [RawInterruptibleTracker::untrack]. *)
Definition untrack (thread : Pthread) (data : RawInterruptibleTrackerData)
  : RawInterruptibleTrackerData :=
  mkTrackerData (can_spawn data) (new_thread data) (threads data ∖ {[thread]}).

(** The data of [InterruptibleTracker::new]. *)
Definition tracker_new : RawInterruptibleTrackerData := mkTrackerData true false ∅.

Section Stop.
Context {B : Type} `{!Backoff B}.

(** Regaining a mutex after the out-of-lock snooze: [fails] is how often
    [try_lock] fails before it would succeed. *)
Fixpoint reacquire (fails : nat) (backoff : B) : B :=
  match fails with
  | O => backoff
  | S fails =>
      if is_completed backoff then backoff
      else reacquire fails (backoff_snooze backoff)
  end.

(** The local variables of a running [stop]. *)
Record stop_locals : Type := mkLocals { backoff : B; snooze_interrupt_done : bool }.
Definition stop_start : stop_locals := mkLocals backoff_new false.

(** One iteration of [InterruptibleTracker::stop] with the data locked:
    [None] when the loop ends, else the data, the locals and the threads
    that are sent SIGUSR1. *)
Definition tracker_stop_iter (fails : nat) (data : RawInterruptibleTrackerData)
    (l : stop_locals)
  : option (RawInterruptibleTrackerData * stop_locals * list Pthread) :=
  if bool_decide (threads data = ∅) then None
  else
    let data' := if new_thread data
                 then mkTrackerData (can_spawn data) false (threads data) else data in
    let l := if new_thread data
             then mkLocals (backoff_reset (backoff l)) false else l in
    if is_completed (backoff l) then Some (data', l, elements (threads data'))
    else
      let kills := if snooze_interrupt_done l then [] else elements (threads data') in
      Some (data', mkLocals (reacquire fails (backoff_snooze (backoff l))) true, kills).

(** The start of [InterruptibleTracker::stop]. *)
Definition tracker_stop_begin (data : RawInterruptibleTrackerData)
  : RawInterruptibleTrackerData :=
  mkTrackerData false (new_thread data) (threads data).

(** One iteration of [InterruptibleHandle::stop] with the exit flag locked. *)
Inductive handle_iter : Type :=
  | HReturn
  | HPanic
  | HContinue (l : stop_locals) (kill : bool).

Definition handle_stop_iter (fails : nat) (exited is_self : bool) (l : stop_locals)
  : handle_iter :=
  if exited then HReturn
  else if is_self then HPanic
  else if is_completed (backoff l) then HContinue l true
  else HContinue (mkLocals (reacquire fails (backoff_snooze (backoff l))) true)
                 (negb (snooze_interrupt_done l)).
End Stop.
Global Arguments stop_locals B : clear implicits.
Global Arguments handle_iter B : clear implicits.

(** ** The machine *)

(** A guard ([InterruptibleGuard]) in scope, half dropped (untracked, the exit
    flag not yet set), or dropped. *)
Inductive guard_phase : Type := GLive | GUntracked | GDropped.

#[export] Instance guard_phase_eq_dec : EqDecision guard_phase.
Proof. solve_decision. Defined.

Record guard : Type := mkGuard {
  g_thread : nat;          (** the thread that created it and will drop it *)
  g_phase : guard_phase;
  g_exited : bool }.       (** its [RawInterruptibleExitTracker] *)

Record thread_state : Type := mkThread { t_pthread : Pthread; t_alive : bool }.

(** Who sent a signal. *)
Inductive killer : Type := ByTracker | ByHandle (g : nat).

Section Machine.
Context {B : Type} `{!Backoff B}.

Record tracker_state : Type := mkTracker {
  ts_data : RawInterruptibleTrackerData;
  ts_threads : gmap nat thread_state;
  ts_guards : gmap nat guard;
  (** running calls of [InterruptibleTracker::stop] *)
  ts_stops : gmap nat (stop_locals B);
  (** running calls of [InterruptibleHandle::stop]: the [pthread_t] of the
      caller, the guard of the handle, the locals *)
  ts_hstops : gmap nat (Pthread * nat * stop_locals B);
  (** the signals sent, latest first *)
  ts_kills : list (killer * Pthread) }.

Definition tracker_init : tracker_state := mkTracker tracker_new ∅ ∅ ∅ ∅ [].

Inductive tracker_label : Type :=
  | LStart (t : nat) (p : Pthread)
  | LGuard (g t : nat)
  | LUntrack (g : nat)
  | LExit (g : nat)
  | LEnd (t : nat)
  | LStop (k : nat)
  | LStopIter (k fails : nat)
  | LHandleStop (k : nat) (caller : Pthread) (g : nat)
  | LHandleIter (k fails : nat).

Definition with_data (s : tracker_state) d :=
  mkTracker d (ts_threads s) (ts_guards s) (ts_stops s) (ts_hstops s) (ts_kills s).
Definition with_guards (s : tracker_state) gs :=
  mkTracker (ts_data s) (ts_threads s) gs (ts_stops s) (ts_hstops s) (ts_kills s).
Definition with_threads (s : tracker_state) ts :=
  mkTracker (ts_data s) ts (ts_guards s) (ts_stops s) (ts_hstops s) (ts_kills s).
Definition with_stops (s : tracker_state) st :=
  mkTracker (ts_data s) (ts_threads s) (ts_guards s) st (ts_hstops s) (ts_kills s).
Definition with_hstops (s : tracker_state) st :=
  mkTracker (ts_data s) (ts_threads s) (ts_guards s) (ts_stops s) st (ts_kills s).
Definition with_kills (s : tracker_state) ks :=
  mkTracker (ts_data s) (ts_threads s) (ts_guards s) (ts_stops s) (ts_hstops s) (ks ++ ts_kills s).

(** No live thread has this [pthread_t]. *)
Definition pthread_free (s : tracker_state) (p : Pthread) : bool :=
  bool_decide (map_Forall (fun _ th => t_alive th = true -> t_pthread th <> p) (ts_threads s)).

(** Every guard of the thread is dropped: guards are not [Send], the stack of
    a thread that returns or unwinds drops them. *)
Definition guards_dropped (s : tracker_state) (t : nat) : bool :=
  bool_decide (map_Forall (fun _ g => g_thread g = t -> g_phase g = GDropped) (ts_guards s)).

(** [InterruptibleGuard::new] on thread [t]; a refused guard is not created. *)
Definition guard_new (s : tracker_state) (g t : nat) : option tracker_state :=
  match ts_threads s !! t, ts_guards s !! g with
  | Some (mkThread p true), None =>
      match track p (ts_data s) with
      | (Ok _, d) =>
          Some (with_guards (with_data s d) (<[g := mkGuard t GLive false]> (ts_guards s)))
      | (Err _, d) => Some (with_data s d)
      end
  | _, _ => None
  end.

(** [Drop for InterruptibleGuard]: [untrack], then the exit flag. *)
Definition guard_drop_untrack (s : tracker_state) (g : nat) : option tracker_state :=
  match ts_guards s !! g with
  | Some (mkGuard t GLive ex) =>
      match ts_threads s !! t with
      | Some th =>
          Some (with_guards (with_data s (untrack (t_pthread th) (ts_data s)))
                            (<[g := mkGuard t GUntracked ex]> (ts_guards s)))
      | None => None
      end
  | _ => None
  end.

Definition guard_drop_exit (s : tracker_state) (g : nat) : option tracker_state :=
  match ts_guards s !! g with
  | Some (mkGuard t GUntracked _) =>
      Some (with_guards s (<[g := mkGuard t GDropped true]> (ts_guards s)))
  | _ => None
  end.

(** Who moves: threads start and end; a thread calls [InterruptibleTracker::guard]
    and drops the guard; calls of the two [stop] functions start and make an
    iteration. *)
Definition tracker_step (s : tracker_state) (l : tracker_label) : option tracker_state :=
  match l with
  | LStart t p =>
      match ts_threads s !! t with
      | None =>
          if pthread_free s p
          then Some (with_threads s (<[t := mkThread p true]> (ts_threads s))) else None
      | Some _ => None
      end
  | LGuard g t => guard_new s g t
  | LUntrack g => guard_drop_untrack s g
  | LExit g => guard_drop_exit s g
  | LEnd t =>
      match ts_threads s !! t with
      | Some (mkThread p true) =>
          if guards_dropped s t
          then Some (with_threads s (<[t := mkThread p false]> (ts_threads s))) else None
      | _ => None
      end
  | LStop k =>
      match ts_stops s !! k with
      | None => Some (with_stops (with_data s (tracker_stop_begin (ts_data s)))
                                 (<[k := stop_start]> (ts_stops s)))
      | Some _ => None
      end
  | LStopIter k fails =>
      match ts_stops s !! k with
      | Some l =>
          match tracker_stop_iter fails (ts_data s) l with
          | None => Some (with_stops s (delete k (ts_stops s)))
          | Some (d, l', kills) =>
              Some (with_kills (with_stops (with_data s d) (<[k := l']> (ts_stops s)))
                               (pair ByTracker <$> kills))
          end
      | None => None
      end
  | LHandleStop k caller g =>
      match ts_hstops s !! k, ts_guards s !! g with
      | None, Some _ => Some (with_hstops s (<[k := (caller, g, stop_start)]> (ts_hstops s)))
      | _, _ => None
      end
  | LHandleIter k fails =>
      match ts_hstops s !! k with
      | Some (caller, g, l) =>
          match ts_guards s !! g with
          | Some gd =>
              match ts_threads s !! g_thread gd with
              | Some th =>
                  match handle_stop_iter fails (g_exited gd)
                          (bool_decide (t_pthread th = caller)) l with
                  | HReturn => Some (with_hstops s (delete k (ts_hstops s)))
                  | HPanic => Some (with_hstops s (delete k (ts_hstops s)))
                  | HContinue l' kill =>
                      Some (with_kills (with_hstops s (<[k := (caller, g, l')]> (ts_hstops s)))
                              (if kill then [(ByHandle g, t_pthread th)] else []))
                  end
              | None => None
              end
          | None => None
          end
      | None => None
      end
  end.
End Machine.
Global Arguments tracker_state B : clear implicits.

(** ** The invariant *)

Section Invariant.
Context {B : Type} `{!Backoff B}.
Implicit Types s : tracker_state B.

Definition alive_at s (t : nat) (p : Pthread) : Prop :=
  ts_threads s !! t = Some (mkThread p true).

Record tracker_inv s : Prop := {
  (** live threads have different [pthread_t]s *)
  inv_distinct : forall t1 t2 p, alive_at s t1 p -> alive_at s t2 p -> t1 = t2;
  (** the thread of a guard that is not dropped is alive *)
  inv_guard_alive : forall g gd, ts_guards s !! g = Some gd -> g_phase gd <> GDropped ->
    exists p, alive_at s (g_thread gd) p;
  (** an exit flag is set exactly when its guard is dropped *)
  inv_exited : forall g gd, ts_guards s !! g = Some gd ->
    (g_exited gd = true <-> g_phase gd = GDropped);
  (** a tracked thread has a guard in scope *)
  inv_tracked : forall p, p ∈ threads (ts_data s) ->
    exists g gd, ts_guards s !! g = Some gd /\ g_phase gd = GLive /\ alive_at s (g_thread gd) p }.

Lemma tracker_inv_init : tracker_inv tracker_init.
Proof. split; unfold alive_at; simpl; intros; by simplify_map_eq. Qed.

(** A step that changes neither threads nor guards, and tracks no thread. *)
Lemma tracker_inv_data s s' :
  tracker_inv s -> ts_threads s' = ts_threads s -> ts_guards s' = ts_guards s ->
  threads (ts_data s') ⊆ threads (ts_data s) -> tracker_inv s'.
Proof.
  intros [H1 H2 H3 H4] Et Eg Hd. split; unfold alive_at in *; rewrite ?Et, ?Eg; auto.
Qed.

Lemma inv_start s t p :
  tracker_inv s -> ts_threads s !! t = None -> pthread_free s p = true ->
  tracker_inv (with_threads s (<[t := mkThread p true]> (ts_threads s))).
Proof.
  intros [H1 H2 H3 H4] Ht Hfree. unfold pthread_free in Hfree. apply bool_decide_eq_true in Hfree.
  assert (forall t' p', alive_at s t' p' ->
    alive_at (with_threads s (<[t := mkThread p true]> (ts_threads s))) t' p') as Hmono.
  { unfold alive_at; simpl. intros t' p' Ha. rewrite lookup_insert_ne; [done |]. by intros ->; simplify_eq. }
  split; simpl.
  - unfold alive_at; simpl. intros t1 t2 q A1 A2.
    apply lookup_insert_Some in A1 as [(<- & E1)|(_ & A1)];
      apply lookup_insert_Some in A2 as [(<- & E2)|(_ & A2)]; simplify_eq; try done.
    + by destruct (Hfree _ _ A2).
    + by destruct (Hfree _ _ A1).
    + by eapply H1.
  - intros g gd Hg Hp. destruct (H2 g gd Hg Hp) as [q Hq]. eauto.
  - exact H3.
  - intros q Hq. destruct (H4 q Hq) as (g & gd & ? & ? & ?). eauto 6.
Qed.

Lemma inv_end s t p :
  tracker_inv s -> alive_at s t p -> guards_dropped s t = true ->
  tracker_inv (with_threads s (<[t := mkThread p false]> (ts_threads s))).
Proof.
  intros [H1 H2 H3 H4] Ht Hdrop. apply bool_decide_eq_true in Hdrop.
  assert (forall g gd p', ts_guards s !! g = Some gd -> g_phase gd <> GDropped ->
    alive_at s (g_thread gd) p' ->
    alive_at (with_threads s (<[t := mkThread p false]> (ts_threads s))) (g_thread gd) p') as Hkeep.
  { unfold alive_at; simpl. intros g gd p' Hg Hp Ha. rewrite lookup_insert_ne; [done |].
    intros ->. by apply Hp, (Hdrop g gd Hg). }
  split; simpl.
  - unfold alive_at; simpl. intros t1 t2 q A1 A2.
    apply lookup_insert_Some in A1 as [(<- & E1)|(_ & A1)];
      apply lookup_insert_Some in A2 as [(<- & E2)|(_ & A2)]; simplify_eq.
    by eapply H1.
  - intros g gd Hg Hp. destruct (H2 g gd Hg Hp) as [q Hq]. eauto.
  - exact H3.
  - intros q Hq. destruct (H4 q Hq) as (g & gd & Hg & Hp & Ha). exists g, gd.
    split_and!; [done.. |]. eapply Hkeep; eauto. by rewrite Hp.
Qed.

Lemma inv_guard s g t p d :
  tracker_inv s -> alive_at s t p -> ts_guards s !! g = None ->
  track p (ts_data s) = (Ok tt, d) ->
  tracker_inv (with_guards (with_data s d) (<[g := mkGuard t GLive false]> (ts_guards s))).
Proof.
  intros [H1 H2 H3 H4] Ht Hg Htr. unfold track in Htr.
  destruct (can_spawn (ts_data s)); simplify_eq/=. split; simpl.
  - exact H1.
  - intros g' gd' [[<- <-]|[_ Hg']]%lookup_insert_Some Hp; simpl; [by exists p |]. by eapply H2.
  - intros g' gd' [[<- <-]|[_ Hg']]%lookup_insert_Some; [done |]. by eapply H3.
  - intros q [->%elem_of_singleton|Hq]%elem_of_union.
    + exists g, (mkGuard t GLive false). by rewrite lookup_insert_eq.
    + destruct (H4 q Hq) as (g' & gd' & Hg' & Hp' & Ha'). exists g', gd'.
      rewrite lookup_insert_ne; [done |]. by intros ->; simplify_eq.
Qed.

Lemma inv_untrack s g t p ex :
  tracker_inv s -> ts_guards s !! g = Some (mkGuard t GLive ex) ->
  ts_threads s !! t = Some p ->
  tracker_inv (with_guards (with_data s (untrack (t_pthread p) (ts_data s)))
                           (<[g := mkGuard t GUntracked ex]> (ts_guards s))).
Proof.
  intros [H1 H2 H3 H4] Hg Ht. pose proof (H3 _ _ Hg) as Hex. simpl in Hex.
  destruct (H2 _ _ Hg) as [q Hq]; [done |]. simpl in Hq. unfold alive_at in Hq. simplify_eq.
  split; simpl.
  - exact H1.
  - intros g' gd' [[<- <-]|[_ Hg']]%lookup_insert_Some Hp; simpl; [by exists q |]. by eapply H2.
  - intros g' gd' [[<- <-]|[_ Hg']]%lookup_insert_Some; simpl; [naive_solver |]. by eapply H3.
  - intros r [Hr Hne]%elem_of_difference. destruct (H4 r Hr) as (g' & gd' & Hg' & Hp' & Ha').
    exists g', gd'. rewrite lookup_insert_ne; [done |]. intros ->. simplify_eq/=.
    unfold alive_at in Ha'. simplify_eq. set_solver.
Qed.

Lemma inv_exit s g t ex :
  tracker_inv s -> ts_guards s !! g = Some (mkGuard t GUntracked ex) ->
  tracker_inv (with_guards s (<[g := mkGuard t GDropped true]> (ts_guards s))).
Proof.
  intros [H1 H2 H3 H4] Hg. split; simpl.
  - exact H1.
  - intros g' gd' [[<- <-]|[_ Hg']]%lookup_insert_Some Hp; simpl; [done |]. by eapply H2.
  - intros g' gd' [[<- <-]|[_ Hg']]%lookup_insert_Some; simpl; [done |]. by eapply H3.
  - intros r Hr. destruct (H4 r Hr) as (g' & gd' & Hg' & Hp' & Ha').
    exists g', gd'. rewrite lookup_insert_ne; [done |]. intros ->. by simplify_eq/=.
Qed.

Lemma tracker_stop_iter_data fails d l d' l' kills :
  tracker_stop_iter fails d l = Some (d', l', kills) ->
  threads d <> ∅ /\ threads d' = threads d /\ can_spawn d' = can_spawn d /\
  new_thread d' = false /\ (kills = [] \/ kills = elements (threads d)).
Proof.
  unfold tracker_stop_iter. case_bool_decide; [done |]. intros Hs.
  destruct (new_thread d) eqn:En; simpl in Hs; repeat case_match; simplify_eq; simpl; auto 8.
Qed.

Lemma tracker_step_inv s l s' :
  tracker_inv s -> tracker_step s l = Some s' -> tracker_inv s'.
Proof.
  intros HI Hs. destruct l; simpl in Hs; unfold guard_new, guard_drop_untrack, guard_drop_exit in Hs.
  - split_step Hs. by apply inv_start.
  - repeat (case_match; try discriminate Hs); simplify_eq.
    + destruct a. eapply inv_guard; eauto.
    + eapply tracker_inv_data; [done.. |]. simpl. unfold track in *. by case_match; simplify_eq.
  - repeat (case_match; try discriminate Hs); simplify_eq. by apply inv_untrack.
  - repeat (case_match; try discriminate Hs); simplify_eq. by eapply inv_exit.
  - repeat (case_match; try discriminate Hs); simplify_eq. by apply inv_end.
  - split_step Hs. by eapply tracker_inv_data.
  - destruct (ts_stops s !! k) as [l|]; [| done].
    destruct (tracker_stop_iter fails (ts_data s) l) as [[[d l'] kills]|] eqn:E; simplify_eq.
    + apply tracker_stop_iter_data in E as (_ & E & _). eapply tracker_inv_data; [done.. |].
      simpl. by rewrite E.
    + by eapply tracker_inv_data.
  - split_step Hs. by eapply tracker_inv_data.
  - repeat (case_match; try discriminate Hs); simplify_eq; by eapply tracker_inv_data.
Qed.

Lemma tracker_reachable_inv s : reachable tracker_step tracker_init s -> tracker_inv s.
Proof. apply reachable_invariant; eauto using tracker_step_inv, tracker_inv_init. Qed.
End Invariant.

(** ** Threads that do not nest guards *)

Section OneGuard.
Context {B : Type} `{!Backoff B} (t : nat).
Implicit Types s : tracker_state B.

(** Thread [t] creates a guard of the tracker only when it has none in scope. *)
Definition no_live_guard s : bool :=
  bool_decide (map_Forall (fun _ gd => g_thread gd = t -> g_phase gd <> GLive) (ts_guards s)).

Definition unnested_step s (l : tracker_label) : bool :=
  match l with
  | LGuard _ t' => if decide (t' = t) then no_live_guard s else true
  | _ => true
  end.

(** It does so in a whole run. *)
Fixpoint unnested s (ls : list tracker_label) : bool :=
  match ls with
  | [] => true
  | l :: ls =>
      unnested_step s l && match tracker_step s l with Some s' => unnested s' ls | None => true end
  end.

Record one_guard s : Prop := {
  og_inv : tracker_inv s;
  og_single : forall g1 g2 gd1 gd2,
    ts_guards s !! g1 = Some gd1 -> ts_guards s !! g2 = Some gd2 ->
    g_phase gd1 = GLive -> g_phase gd2 = GLive -> g_thread gd1 = t -> g_thread gd2 = t -> g1 = g2;
  og_tracked : forall g gd p,
    ts_guards s !! g = Some gd -> g_phase gd = GLive -> g_thread gd = t -> alive_at s t p ->
    p ∈ threads (ts_data s) }.

Lemma one_guard_init : one_guard tracker_init.
Proof. split; [apply tracker_inv_init | |]; simpl; intros; by simplify_map_eq. Qed.

Lemma one_guard_data s s' :
  one_guard s -> tracker_inv s' -> ts_threads s' = ts_threads s ->
  ts_guards s' = ts_guards s -> threads (ts_data s') = threads (ts_data s) -> one_guard s'.
Proof.
  intros [H1 H2 H3] HI Et Eg Ed. split; [done | |]; unfold alive_at in *;
    rewrite ?Et, ?Eg, ?Ed; auto.
Qed.

(** Threads come and go without touching the guards in scope. *)
Lemma one_guard_threads s t' th :
  one_guard s -> tracker_inv (with_threads s (<[t' := th]> (ts_threads s))) ->
  (ts_threads s !! t' = None \/ t_alive th = false) ->
  one_guard (with_threads s (<[t' := th]> (ts_threads s))).
Proof.
  intros [H1 H2 H3] HI Hth. split; [done | done |]. simpl. intros g gd p Hg Hp Hgt Ha.
  unfold alive_at in Ha; simpl in Ha. apply lookup_insert_Some in Ha as [(E & ->)|(_ & Ha)].
  - destruct Hth as [Hn|]; [| done].
    destruct (inv_guard_alive _ H1 g gd Hg) as [q Hq]; [by rewrite Hp |].
    unfold alive_at in Hq. congruence.
  - by eapply H3.
Qed.

Lemma one_guard_new s g t' p d :
  one_guard s -> alive_at s t' p -> ts_guards s !! g = None -> (t' = t -> no_live_guard s = true) ->
  track p (ts_data s) = (Ok tt, d) ->
  one_guard (with_guards (with_data s d) (<[g := mkGuard t' GLive false]> (ts_guards s))).
Proof.
  intros [H1 H2 H3] Ht Hg Hno Htr.
  assert (t' = t -> forall g gd, ts_guards s !! g = Some gd -> g_thread gd = t -> g_phase gd <> GLive) as Hno'.
  { intros E. by specialize (Hno E); apply bool_decide_eq_true in Hno. }
  split; [by eapply inv_guard | |]; unfold track in Htr;
    destruct (can_spawn (ts_data s)); simplify_eq/=.
  - intros g1 g2 gd1 gd2 A1 A2 L1 L2 E1 E2.
    apply lookup_insert_Some in A1 as [(<- & <-)|(_ & A1)];
      apply lookup_insert_Some in A2 as [(<- & <-)|(_ & A2)]; simpl in *; [done | | | eauto].
    + by destruct (Hno' E1 g2 gd2 A2).
    + by destruct (Hno' E2 g1 gd1 A1).
  - intros g1 gd1 q A1 L1 E1 Hq.
    apply lookup_insert_Some in A1 as [(<- & <-)|(_ & A1)]; simpl in *.
    + unfold alive_at in *; simpl in *. simplify_eq. apply elem_of_union. left. by apply elem_of_singleton.
    + apply elem_of_union. right. by eapply H3.
Qed.

Lemma one_guard_untrack s g t' th ex :
  one_guard s -> ts_guards s !! g = Some (mkGuard t' GLive ex) -> ts_threads s !! t' = Some th ->
  one_guard (with_guards (with_data s (untrack (t_pthread th) (ts_data s)))
                         (<[g := mkGuard t' GUntracked ex]> (ts_guards s))).
Proof.
  intros [H1 H2 H3] Hg Ht. split; [by apply inv_untrack | |]; simpl.
  - intros g1 g2 gd1 gd2 A1 A2 L1 L2 E1 E2.
    apply lookup_insert_Some in A1 as [(<- & <-)|(_ & A1)]; [done |].
    apply lookup_insert_Some in A2 as [(<- & <-)|(_ & A2)]; [done | eauto].
  - intros g1 gd1 q A1 L1 E1 Hq.
    apply lookup_insert_Some in A1 as [(<- & <-)|(Hne & A1)]; [done |].
    apply elem_of_difference. split; [by eapply H3 |]. intros ->%elem_of_singleton.
    destruct (inv_guard_alive _ H1 g _ Hg) as [q Hq']; [done |]. simpl in Hq'.
    unfold alive_at in Hq', Hq; simpl in Hq. simplify_eq/=.
    assert (t' = g_thread gd1) as -> by by eapply (inv_distinct _ H1).
    apply Hne. by eapply (H2 g g1).
Qed.

Lemma one_guard_exit s g t' ex :
  one_guard s -> ts_guards s !! g = Some (mkGuard t' GUntracked ex) ->
  one_guard (with_guards s (<[g := mkGuard t' GDropped true]> (ts_guards s))).
Proof.
  intros [H1 H2 H3] Hg. split; [by eapply inv_exit | |]; simpl.
  - intros g1 g2 gd1 gd2 A1 A2 L1 L2 E1 E2.
    apply lookup_insert_Some in A1 as [(<- & <-)|(_ & A1)]; [done |].
    apply lookup_insert_Some in A2 as [(<- & <-)|(_ & A2)]; [done | eauto].
  - intros g1 gd1 q A1 L1 E1 Hq.
    apply lookup_insert_Some in A1 as [(<- & <-)|(Hne & A1)]; [done | by eapply H3].
Qed.

Lemma step_one_guard s l s' :
  one_guard s -> unnested_step s l = true -> tracker_step s l = Some s' -> one_guard s'.
Proof.
  intros HO Hu Hs. pose proof (tracker_step_inv _ _ _ (og_inv _ HO) Hs) as HI.
  destruct l; simpl in Hs; unfold guard_new, guard_drop_untrack, guard_drop_exit in Hs.
  - split_step Hs. apply one_guard_threads; auto.
  - simpl in Hu. repeat (case_match; try discriminate Hs); simplify_eq.
    all: try (eapply one_guard_data; [done.. |]; simpl; unfold track in *; by case_match; simplify_eq).
    all: destruct a; by eapply one_guard_new.
  - repeat (case_match; try discriminate Hs); simplify_eq. by apply one_guard_untrack.
  - repeat (case_match; try discriminate Hs); simplify_eq. by eapply one_guard_exit.
  - repeat (case_match; try discriminate Hs); simplify_eq. apply one_guard_threads; auto.
  - split_step Hs. by eapply one_guard_data.
  - destruct (ts_stops s !! k) as [l|]; [| done].
    destruct (tracker_stop_iter fails (ts_data s) l) as [[[d l'] kills]|] eqn:E; simplify_eq.
    + apply tracker_stop_iter_data in E as (_ & E & _). by eapply one_guard_data.
    + by eapply one_guard_data.
  - split_step Hs. by eapply one_guard_data.
  - repeat (case_match; try discriminate Hs); simplify_eq; by eapply one_guard_data.
Qed.

Lemma run_one_guard ls s s' :
  one_guard s -> unnested s ls = true -> run tracker_step s ls = Some s' -> one_guard s'.
Proof.
  revert s. induction ls as [|l ls IH]; intros s HO Hu Hr; simpl in *; [by simplify_eq |].
  apply andb_true_iff in Hu as [Hl Hu]. destruct (tracker_step s l) as [s1|] eqn:E; [| done].
  eapply IH; [by eapply step_one_guard | done | done].
Qed.

(** *** Stopped trackers stay stopped *)

Lemma step_keeps_stopped s l s' :
  tracker_step s l = Some s' -> can_spawn (ts_data s) = false -> can_spawn (ts_data s') = false.
Proof.
  intros Hs Hc. destruct l; simpl in Hs; unfold guard_new, guard_drop_untrack, guard_drop_exit in Hs.
  7: { destruct (ts_stops s !! k) as [l|]; [| done].
       destruct (tracker_stop_iter fails (ts_data s) l) as [[[d l'] kills]|] eqn:E; simplify_eq; [| done].
       apply tracker_stop_iter_data in E as (_ & _ & E & _). simpl. by rewrite E. }
  all: unfold track in Hs; rewrite ?Hc in Hs; simpl in Hs;
    repeat (case_match; try discriminate Hs); by simplify_eq.
Qed.

(** A thread creates a guard only of a tracker that is not stopped. *)
Lemma step_no_guard s l s' :
  tracker_step s l = Some s' -> can_spawn (ts_data s) = false ->
  no_live_guard s = true -> no_live_guard s' = true.
Proof.
  intros Hs Hc Hq%bool_decide_eq_true. apply bool_decide_eq_true.
  destruct l; simpl in Hs; unfold guard_new, guard_drop_untrack, guard_drop_exit in Hs.
  2: { repeat (case_match; try discriminate Hs); simplify_eq; simpl; [| exact Hq].
       unfold track in *. by rewrite Hc in *; simplify_eq. }
  2,3: repeat (case_match; try discriminate Hs); simplify_eq; simpl;
    intros g' gd' [(<- & <-)|(_ & ?)]%lookup_insert_Some; [done | by eapply Hq].
  all: repeat (case_match; try discriminate Hs); simplify_eq; exact Hq.
Qed.

(** While a [stop] runs, the tracker refuses new guards. *)
Definition stops_refuse s : Prop :=
  forall k l, ts_stops s !! k = Some l -> can_spawn (ts_data s) = false.

Lemma step_stops_refuse s l s' :
  tracker_step s l = Some s' -> stops_refuse s -> stops_refuse s'.
Proof.
  intros Hs HR k' l' Hk.
  destruct (decide (can_spawn (ts_data s) = false)) as [Hc|Hc]; [by eapply step_keeps_stopped |].
  assert (ts_stops s = ∅) as He.
  { apply map_empty. intros k. apply eq_None_not_Some. intros [x Hx]. by apply Hc, (HR k x). }
  destruct l; simpl in Hs; unfold guard_new, guard_drop_untrack, guard_drop_exit in Hs.
  6: { rewrite He in Hs. simplify_map_eq. done. }
  6: by rewrite He, lookup_empty in Hs.
  all: repeat (case_match; try discriminate Hs); simplify_eq; simpl in Hk; by rewrite He in Hk.
Qed.
End OneGuard.
