(* ===== verification/TrackerSpec.v ===== *)
(** * Properties of the tracker and of the helpers

    What the two [stop] functions of tracker.rs guarantee in every
    interleaving, and what the signal guards and waiting loops of helpers.rs
    and waiter.rs do. *)

From Stdlib Require Import ZArith Lia.
From stdpp Require Import base tactics numbers list gmap.
From S2P Require Import Prelude.
From S2P Require Import Std.
From S2P Require Import Helpers.
From S2P Require Import Tracker.
Local Open Scope Z_scope.

(** ** A concrete back-off: ten snoozes *)

#[export] Instance nat_Backoff : Backoff nat := {
  backoff_new := O;
  backoff_reset _ := O;
  backoff_spin := S;
  backoff_snooze := S;
  is_completed b := (10 <? b)%nat }.

#[export] Instance nat_BackoffLaws : BackoffLaws nat.
Proof.
  refine {| backoff_limit := 11 |}.
  - intros n Hn. change ((10 <? Nat.iter n S O)%nat = true).
    assert (Nat.iter n S O = n) as ->; [clear; by induction n as [|n IH]; simpl; [| rewrite IH] |].
    apply Nat.ltb_lt. lia.
  - simpl. intros b Hb%Nat.ltb_lt. apply Nat.ltb_lt. lia.
  - done.
Defined.

(** ** Signals reach only guarded threads *)

(** What makes a signal harmless: the [pthread_t] belongs to a thread that is
    alive and still inside a guard, the guard of the handle when a handle sent
    it, and to no other live thread. *)
Definition kill_ok {B} (s : tracker_state B) (k : killer * Pthread) : Prop :=
  exists g gd,
    ts_guards s !! g = Some gd /\ g_phase gd <> GDropped /\ alive_at s (g_thread gd) k.2 /\
    (forall t, alive_at s t k.2 -> t = g_thread gd) /\
    match k.1 with
    | ByTracker => g_phase gd = GLive
    | ByHandle g' => g' = g
    end.

(** C11. In every interleaving of threads that start, create and drop
    guards, end and have their [pthread_t] reused, each SIGUSR1 that
    [InterruptibleTracker::stop] or [InterruptibleHandle::stop] sends goes to
    a live thread inside a guard of this tracker (of this handle), never to an
    ended thread or to another thread that got its [pthread_t]. *)
Theorem signals_hit_guarded_threads {B} `{!Backoff B} (s s' : tracker_state B) l ks :
  reachable tracker_step tracker_init s -> tracker_step s l = Some s' ->
  ts_kills s' = ks ++ ts_kills s -> Forall (kill_ok s) ks.
Proof.
  intros HI%tracker_reachable_inv Hs Hk.
  assert (forall m, ks ++ ts_kills s = m ++ ts_kills s -> ks = m) as Hcancel
    by (intros m; apply app_inv_tail).
  destruct l; simpl in Hs; unfold guard_new, guard_drop_untrack, guard_drop_exit in Hs.
  7: { destruct (ts_stops s !! k) as [l|]; [| done].
       destruct (tracker_stop_iter fails (ts_data s) l) as [[[d l'] kills]|] eqn:E; simplify_eq/=.
       - rewrite (Hcancel _ (eq_sym Hk)). apply tracker_stop_iter_data in E as (_ & _ & _ & _ & Hkills).
         apply Forall_fmap, Forall_forall. intros p Hp.
         assert (p ∈ threads (ts_data s)) as Hin.
         { destruct Hkills as [->| ->]; [by apply elem_of_nil in Hp | by apply elem_of_elements]. }
         destruct (inv_tracked _ HI p Hin) as (g & gd & Hg & Hl & Ha). exists g, gd.
         split_and!; [done | by rewrite Hl | done | | done].
         intros t Ht. by eapply (inv_distinct _ HI).
       - by rewrite (Hcancel [] (eq_sym Hk)). }
  8: { destruct (ts_hstops s !! k) as [[[c g] l]|]; [| done].
       destruct (ts_guards s !! g) as [gd|] eqn:Hg; [| done].
       destruct (ts_threads s !! g_thread gd) as [th|] eqn:Ht; [| done].
       unfold handle_stop_iter in Hs. destruct (g_exited gd) eqn:Hex; simplify_eq/=.
       { by rewrite (Hcancel [] (eq_sym Hk)). }
       assert (g_phase gd <> GDropped) as Hp.
       { intros Hd. apply (inv_exited _ HI _ _ Hg) in Hd. congruence. }
       destruct (inv_guard_alive _ HI _ _ Hg Hp) as [p Ha].
       assert (t_pthread th = p) as Hpt by (unfold alive_at in Ha; by simplify_eq).
       assert (kill_ok s (ByHandle g, t_pthread th)) as Hok.
       { exists g, gd. rewrite Hpt. split_and!; try done.
         intros t Hta. by eapply (inv_distinct _ HI). }
       repeat case_match; simplify_eq/=;
         first [rewrite (Hcancel [] (eq_sym Hk)) | rewrite (Hcancel [_] (eq_sym Hk))];
         first [apply Forall_nil_2 | by apply Forall_singleton]. }
  all: repeat (case_match; try discriminate Hs); simplify_eq/=;
    by rewrite (Hcancel [] (eq_sym Hk)).
Qed.

(** A thread with a guard, and a handle that stops it. *)
Definition demo_trace : list tracker_label :=
  [LStart 0 100; LGuard 0 0; LHandleStop 0 101 0; LStop 0].
Definition demo_state : tracker_state nat :=
  default tracker_init (run tracker_step tracker_init demo_trace).

Lemma signals_hit_guarded_threads_witness :
  Forall (kill_ok demo_state) [(ByHandle 0, 100)] /\ Forall (kill_ok demo_state) [(ByTracker, 100)].
Proof.
  assert (reachable tracker_step tracker_init demo_state) as Hr.
  { exists demo_trace. vm_compute. reflexivity. }
  split.
  - apply (signals_hit_guarded_threads demo_state
             (default demo_state (tracker_step demo_state (LHandleIter 0 0))) (LHandleIter 0 0));
      [exact Hr | vm_compute; reflexivity | vm_compute; reflexivity].
  - apply (signals_hit_guarded_threads demo_state
             (default demo_state (tracker_step demo_state (LStopIter 0 0))) (LStopIter 0 0));
      [exact Hr | vm_compute; reflexivity | vm_compute; reflexivity].
Defined.

(** ** A stopped tracker is quiescent *)

(** C7. After a call of [InterruptibleTracker::stop] has returned the
    tracker refuses every new guard for good, and a thread that has not nested
    guards of the tracker (it created each one when it had none in scope) has
    none in scope and never gets one: its work on the tracker is over, in every
    interleaving with any other threads. *)
Theorem stop_leaves_no_work {B} `{!Backoff B} (s s1 s2 : tracker_state B) t k fails ls ls' :
  run tracker_step tracker_init ls = Some s -> unnested t tracker_init ls = true ->
  tracker_step s (LStopIter k fails) = Some s1 -> ts_stops s1 !! k = None ->
  run tracker_step s1 ls' = Some s2 ->
  can_spawn (ts_data s2) = false /\
  forall g gd, ts_guards s2 !! g = Some gd -> g_thread gd = t -> g_phase gd <> GLive.
Proof.
  intros Hr Hu Hs Hk Hrun.
  pose proof (run_one_guard t ls _ _ (one_guard_init t) Hu Hr) as HO.
  assert (stops_refuse s) as HR.
  { eapply (run_invariant tracker_step stops_refuse); [eauto using step_stops_refuse | | exact Hr].
    intros k' l' Hk'. by simplify_map_eq. }
  enough (can_spawn (ts_data s2) = false /\ no_live_guard t s2 = true) as [? Hno%bool_decide_eq_true] by done.
  eapply (run_invariant tracker_step
            (fun s => can_spawn (ts_data s) = false /\ no_live_guard t s = true)); [| | exact Hrun].
  { intros ? ? ? [? ?] ?. eauto using step_keeps_stopped, step_no_guard. }
  simpl in Hs. destruct (ts_stops s !! k) as [l|] eqn:Hl; [| done].
  destruct (tracker_stop_iter fails (ts_data s) l) as [[[d l'] kills]|] eqn:E; simplify_eq/=.
  { by rewrite lookup_insert_eq in Hk. }
  split; [by eapply HR |]. apply bool_decide_eq_true. simpl. intros g gd Hg Hgt Hp.
  destruct (inv_guard_alive _ (og_inv _ _ HO) g gd Hg) as [p Ha]; [by rewrite Hp |]. rewrite Hgt in Ha.
  pose proof (og_tracked _ _ HO g gd p Hg Hp Hgt Ha) as Hin.
  unfold tracker_stop_iter in E. case_bool_decide as Hemp; [| by repeat case_match].
  rewrite Hemp in Hin. by apply not_elem_of_empty in Hin.
Qed.

(** The thread reacts to the signal and drops its guard; the stop returns. The
    other thread nests two guards. *)
Definition demo_stop : list tracker_label :=
  demo_trace ++ [LStopIter 0 0; LUntrack 0; LExit 0].
Definition demo_stopping : tracker_state nat :=
  default tracker_init (run tracker_step tracker_init demo_stop).
Definition demo_nested : list tracker_label :=
  [LStart 1 200; LGuard 1 1; LGuard 2 1] ++ demo_stop ++ [LUntrack 2].
Definition demo_escaping : tracker_state nat :=
  default tracker_init (run tracker_step tracker_init demo_nested).
Definition demo_stopped : tracker_state nat :=
  default tracker_init (tracker_step demo_escaping (LStopIter 0 0)).

Lemma stop_leaves_no_work_witness :
  ts_stops demo_escaping !! 0%nat <> None /\
  can_spawn (ts_data demo_stopped) = false /\
  forall g gd, ts_guards demo_stopped !! g = Some gd -> g_thread gd = 0%nat -> g_phase gd <> GLive.
Proof.
  split; [vm_compute; discriminate |].
  apply (stop_leaves_no_work demo_escaping demo_stopped demo_stopped 0 0 0 demo_nested []).
  - vm_compute. reflexivity.
  - vm_compute. reflexivity.
  - vm_compute. reflexivity.
  - vm_compute. reflexivity.
  - reflexivity.
Defined.

(** The restriction to threads that do not nest guards is needed: the tracked
    threads are a set of [pthread_t]s, so when one of two guards of the same
    thread is dropped the thread is no longer tracked, and [stop] returns while
    the other guard is still in scope and its thread was never signalled. *)
Lemma nested_guards_escape_stop :
  exists ls (s : tracker_state nat),
    run tracker_step tracker_init ls = Some s /\
    In (LStop 0) ls /\ ts_stops s = ∅ /\ ts_kills s = [] /\
    ts_guards s !! 0%nat = Some (mkGuard 0 GLive false).
Proof.
  exists [LStart 0 100; LGuard 0 0; LGuard 1 0; LUntrack 1; LExit 1; LStop 0; LStopIter 0 0].
  eexists. split_and!; [vm_compute; reflexivity | simpl; tauto | reflexivity..].
Qed.

(** ** A handle's stop *)

(** C27. When [InterruptibleHandle::stop] returns (it panics only when the
    handle's own thread calls it), the guard of the handle has been dropped. *)
Theorem handle_stop_returns_after_drop {B} `{!Backoff B} (s s' : tracker_state B) k fails caller g l gd th :
  reachable tracker_step tracker_init s ->
  ts_hstops s !! k = Some (caller, g, l) -> ts_guards s !! g = Some gd ->
  ts_threads s !! g_thread gd = Some th -> t_pthread th <> caller ->
  tracker_step s (LHandleIter k fails) = Some s' -> ts_hstops s' !! k = None ->
  g_phase gd = GDropped.
Proof.
  intros HI%tracker_reachable_inv Hk Hg Ht Hne Hs Hend. simpl in Hs.
  rewrite Hk, Hg, Ht in Hs. rewrite bool_decide_false in Hs by done.
  unfold handle_stop_iter in Hs. destruct (g_exited gd) eqn:E.
  { by apply (inv_exited _ HI _ _ Hg). }
  by repeat case_match; simplify_eq/=; simplify_map_eq.
Qed.

Lemma handle_stop_returns_after_drop_witness :
  g_phase (mkGuard 0 GDropped true) = GDropped.
Proof.
  apply (handle_stop_returns_after_drop demo_stopping
           (default demo_stopping (tracker_step demo_stopping (LHandleIter 0 0)))
           0 0 101 0 stop_start _ (mkThread 100 true)).
  - exists demo_stop. vm_compute. reflexivity.
  - vm_compute. reflexivity.
  - vm_compute. reflexivity.
  - vm_compute. reflexivity.
  - discriminate.
  - vm_compute. reflexivity.
  - vm_compute. reflexivity.
Defined.

(** ** Retrying *)

Section Retry.
Context {B : Type} `{!Backoff B} `{!BackoffLaws B}.

(** The locals of a [stop] after iterations that saw the data [obs]. *)
Fixpoint stop_after (l : stop_locals B) (obs : list (nat * RawInterruptibleTrackerData))
  : option (stop_locals B) :=
  match obs with
  | [] => Some l
  | (fails, d) :: obs =>
      match tracker_stop_iter fails d l with
      | Some (_, l', _) => stop_after l' obs
      | None => None
      end
  end.

(** At least [n] snoozes were made since the last reset, or enough. *)
Definition snoozed (n : nat) (b : B) : Prop :=
  is_completed b = true \/ exists m, (n <= m)%nat /\ b = Nat.iter m backoff_snooze backoff_new.

Lemma snoozed_reacquire n fails b : snoozed n b -> snoozed n (reacquire fails b).
Proof.
  revert b; induction fails as [|fails IH]; intros b Hb; simpl; [done |].
  destruct (is_completed b) eqn:E; [done |]. apply IH.
  destruct Hb as [?|(m & Hm & ->)]; [congruence |]. right. exists (S m). split; [lia | done].
Qed.

Lemma snoozed_snooze n b : snoozed n b -> snoozed (S n) (backoff_snooze b).
Proof.
  intros [H|(m & Hm & ->)]; [left; by apply completed_stays |].
  right. exists (S m). split; [lia | done].
Qed.

Lemma snoozed_enough n b : (backoff_limit <= n)%nat -> snoozed n b -> is_completed b = true.
Proof. intros Hn [H|(m & Hm & ->)]; [done |]. apply snooze_completes. lia. Qed.

Lemma stop_iter_snoozes n fails d l d' l' kills :
  tracker_stop_iter fails d l = Some (d', l', kills) ->
  snoozed n (backoff l) -> new_thread d = false ->
  snoozed (S n) (backoff l').
Proof.
  unfold tracker_stop_iter. intros Hs Hn Hd. rewrite Hd in Hs. case_bool_decide; [done |].
  destruct (is_completed (backoff l)) eqn:E; simplify_eq/=; [by left |].
  by apply snoozed_reacquire, snoozed_snooze.
Qed.

Lemma stop_first_snoozed fails d d' l' kills :
  tracker_stop_iter fails d stop_start = Some (d', l', kills) -> snoozed 0 (backoff l').
Proof.
  unfold tracker_stop_iter, stop_start. case_bool_decide; [done |].
  destruct (new_thread d); cbn [backoff]; rewrite ?reset_is_new;
    destruct (is_completed backoff_new) eqn:E; intros [= <- <- <-]; cbn [backoff].
  1,3: by left; rewrite ?reset_is_new.
  all: apply snoozed_reacquire; right; exists 1%nat; split; [lia | done].
Qed.

Lemma stop_after_snoozes n l obs l' :
  Forall (fun o => new_thread o.2 = false) obs ->
  stop_after l obs = Some l' -> snoozed n (backoff l) -> snoozed (length obs + n) (backoff l').
Proof.
  revert n l; induction obs as [|[fails d] obs IH]; intros n l Hobs Hs Hn; simpl in *.
  { by simplify_eq. }
  apply Forall_cons in Hobs as [Hd Hobs]. simpl in Hd.
  destruct (tracker_stop_iter fails d l) as [[[d1 l1] ks]|] eqn:E; [| done].
  rewrite <- Nat.add_succ_r. eapply IH; [done | done |]. by eapply stop_iter_snoozes.
Qed.
End Retry.

(** C26. [InterruptibleTracker::stop] interrupts again and again: its first
    iteration signals every tracked thread, and from some iteration on, which
    depends on the back-off only, every iteration does. ([new_thread] can be
    set at the first iteration only, because a stopping tracker refuses new
    threads.) *)
Theorem stop_keeps_signalling {B} `{!Backoff B} `{!BackoffLaws B}
    (obs : list (nat * RawInterruptibleTrackerData)) (l : stop_locals B)
    (fails : nat) (d : RawInterruptibleTrackerData) :
  stop_after stop_start obs = Some l ->
  (obs = [] \/ (backoff_limit < length obs)%nat /\
               Forall (fun o => new_thread o.2 = false) (tail obs) /\ new_thread d = false) ->
  threads d <> ∅ ->
  exists d' l', tracker_stop_iter fails d l = Some (d', l', elements (threads d)).
Proof.
  intros Hs Hobs Hne. unfold tracker_stop_iter. rewrite bool_decide_false by done.
  destruct Hobs as [->|(Hlen & Hnew & Hd)].
  { simpl in Hs. simplify_eq. destruct (new_thread d); simpl; case_match; eauto. }
  destruct obs as [|[f0 d0] obs]; [simpl in Hlen; lia |]. simpl in Hs, Hnew, Hlen.
  destruct (tracker_stop_iter f0 d0 stop_start) as [[[d1 l1] ks]|] eqn:E; [| done].
  pose proof (stop_first_snoozed _ _ _ _ _ E) as H0.
  pose proof (stop_after_snoozes 0 l1 obs l Hnew Hs H0) as Hsn.
  rewrite Hd, (snoozed_enough (length obs + 0)); [eauto | lia | done].
Qed.

Lemma stop_keeps_signalling_witness :
  exists d' l', tracker_stop_iter 0 (mkTrackerData false false {[100]})
    (default (stop_start (B := nat))
       (stop_after stop_start (replicate 12 (0%nat, mkTrackerData false false {[100]}))))
    = Some (d', l', [100]).
Proof.
  apply (stop_keeps_signalling (replicate 12 (0%nat, mkTrackerData false false {[100]}))).
  - vm_compute. reflexivity.
  - right. split; [simpl; lia |]. split; [| reflexivity]. simpl. by repeat constructor.
  - simpl. intros E. assert (100 ∈@{gset Z} ∅) as H by (rewrite <- E; by apply elem_of_singleton).
    by apply not_elem_of_empty in H.
Defined.

(** ** Signal masks *)

(** Masks as states, with the two signals that cannot be blocked left out. *)
Definition unmaskable : SigSet := {[9; 19]}.
Definition demo_maskable : SigSet := SigSet_all ∖ unmaskable.

Lemma demo_maskable_all : demo_maskable ⊆ SigSet_all.
Proof. unfold demo_maskable. apply subseteq_difference_l. done. Qed.
Lemma demo_maskable_usr1 : libc.SIGUSR1 ∈ demo_maskable.
Proof. apply (bool_decide_unpack (libc.SIGUSR1 ∈ demo_maskable)). vm_compute. exact I. Qed.

#[export] Instance mask_SigSys : SigSys SigSet := {
  sys_sigmask how set w := (Ok (w ∩ demo_maskable), apply_how how set (w ∩ demo_maskable));
  sys_sigaction w := ((0, 0, 4096), w) }.

#[export] Instance mask_SigLaws : SigLaws SigSet.
Proof.
  refine {| mask := fun w => w ∩ demo_maskable; maskable := demo_maskable |}.
  - intros how set w o w' [= <- <-]. done.
  - done.
  - intros set w. by eexists.
  - intros w. apply intersection_subseteq_r.
  - apply demo_maskable_all.
  - apply demo_maskable_usr1.
Defined.

(** The interruptible part of a blocking operation: SIGUSR1 is unblocked for
    [body], under a guard. *)
Definition interruptible {W} `{!SigSys W} {A} (body : prog W (io_result A)) : prog W (io_result A) :=
  try_bind (unblock_signal libc.SIGUSR1) (fun guard => with_guard guard body).

(** C30. Code under [block_all_signals] runs with every signal blocked that
    can be, a window opened with [unblock_signal(SIGUSR1)] inside it lets
    through exactly SIGUSR1, and whatever the code does or returns, panics
    included, the mask of the thread is afterwards what it was before. *)
Theorem masks_are_restored {W} `{!SigSys W} `{!SigLaws W} {A} (body : prog W (io_result A)) (w : W) :
  match with_signals_blocked (interruptible body) w with
  | (r, w') =>
      mask w' = mask w /\
      ((exists e, r = Done (Err (Os e))) \/
       (exists w1, mask w1 = maskable ∖ {[libc.SIGUSR1]} /\ r = (body w1).1))
  end.
Proof.
  unfold with_signals_blocked.
  destruct (block_all_cases w) as [(w0 & E & Hm)|(e & w0 & E & Hm)]; cycle 1.
  { rewrite (try_bind_err _ _ _ _ _ E). eauto. }
  rewrite (try_bind_ok _ _ _ _ _ E).
  destruct (with_guard_mask w (interruptible body) w0) as (w' & -> & Hw'). split; [done |].
  unfold interruptible.
  destruct (unblock_cases libc.SIGUSR1 w0) as [(w1 & E1 & Hm1)|(e & w1 & E1 & Hm1)].
  - right. exists w1. split; [by rewrite Hm1, Hm |]. rewrite (try_bind_ok _ _ _ _ _ E1).
    by destruct (with_guard_mask w0 body w1) as (w2 & -> & _).
  - left. exists e. by rewrite (try_bind_err _ _ _ _ _ E1).
Qed.

(** ** Waiting *)

(** [Waiter::snooze_wait] returns exactly when its condition first
    holds: with [n] negative answers before it, it pauses [n] times and
    returns, and as long as the answers are negative it goes on. *)
Lemma snooze_wait_spec {B} `{!Backoff B} (n : nat) (obs : list bool) :
  (exists ps, snooze_wait (B := B) (replicate n false ++ true :: obs) = Some ps /\ length ps = n) /\
  snooze_wait (B := B) (replicate n false) = None.
Proof. split; [apply snooze_wait_loop_returns | apply snooze_wait_loop_waits]. Qed.
