(* ===== verification/TrackerSpawn.v ===== *)
(** * src/src/tracker.rs: InterruptibleTracker::spawn

    A call of [spawn] creates a thread, which creates its guard, reports over a
    channel whether that went well, calls the caller's function and drops the
    guard; the caller waits for the report. The machine runs any number of
    calls beside everything else that the machine of [Tracker] can do. *)

From Stdlib Require Import ZArith Lia.
From stdpp Require Import base tactics numbers list gmap.
From S2P Require Import Prelude.
From S2P Require Import Std.
From S2P Require Import Helpers.
From S2P Require Import Tracker.
From S2P Require Import TrackerSpec.
Local Open Scope Z_scope.

(** ** Calls of [spawn] *)

(** [InterruptibleHandle]: the [pthread_t], and the guard whose exit flag it
    shares. *)
Record spawn_handle : Type := mkSpawnHandle { sh_thread : Pthread; sh_guard : nat }.

(** The caller is about to create the thread, in [spawn_rx.recv()], returned. *)
Inductive caller_pc : Type :=
  | SpCreate
  | SpRecv
  | SpReturned (r : io_result spawn_handle).

(** The thread: not created, about to create its guard, to send its report,
    in the function [f], about to drop the guard (in two steps), to return,
    ended. *)
Inductive child_pc : Type :=
  | CNone | CGuard | CReport (r : io_result unit) | CWork | CUntrack | CExit | CReturn | CEnded.

Record spawn_call : Type := mkSpawn {
  sp_caller : caller_pc;
  sp_chan : option (io_result unit);   (** what is in the channel *)
  sp_child : child_pc;
  sp_called : bool;                    (** [f] was called *)
  sp_thread : nat;
  sp_guard : nat }.

Definition at_caller (c : spawn_call) (pc : caller_pc) : spawn_call :=
  mkSpawn pc (sp_chan c) (sp_child c) (sp_called c) (sp_thread c) (sp_guard c).
Definition at_child (c : spawn_call) (pc : child_pc) : spawn_call :=
  mkSpawn (sp_caller c) (sp_chan c) pc (sp_called c) (sp_thread c) (sp_guard c).

Section Machine.
Context {B : Type} `{!Backoff B}.

Record spawning : Type := mkSpawning { sw_tracker : tracker_state B; sw_calls : gmap nat spawn_call }.

Definition spawning_init : spawning := mkSpawning tracker_init ∅.

(** The names that the calls have given to their threads and guards. *)
Definition not_ours_guard (s : spawning) (g : nat) : bool :=
  bool_decide (map_Forall (fun _ c => sp_guard c <> g) (sw_calls s)).
Definition not_ours_thread (s : spawning) (t : nat) : bool :=
  bool_decide (map_Forall (fun _ c => sp_thread c <> t) (sw_calls s)).

(** The start of [spawn]: the channel and the exit tracker are new, and the
    thread and the guard of this call get names. *)
Definition spawn_begin (s : spawning) (n t g : nat) : option spawning :=
  match sw_calls s !! n, ts_threads (sw_tracker s) !! t, ts_guards (sw_tracker s) !! g with
  | None, None, None =>
      if not_ours_guard s g && not_ours_thread s t
      then Some (mkSpawning (sw_tracker s)
                   (<[n := mkSpawn SpCreate None CNone false t g]> (sw_calls s)))
      else None
  | _, _, _ => None
  end.

(** [std::thread::Builder::new().spawn(..)?]: [created] is what the system
    answers, [p] the [pthread_t] of the new thread. *)
Definition spawn_create (s : spawning) (n : nat) (c : spawn_call) (created : io_result unit) (p : Pthread)
  : option spawning :=
  match created with
  | Err e => Some (mkSpawning (sw_tracker s) (<[n := at_caller c (SpReturned (Err e))]> (sw_calls s)))
  | Ok _ =>
      match tracker_step (sw_tracker s) (LStart (sp_thread c) p) with
      | Some tr => Some (mkSpawning tr (<[n := at_child (at_caller c SpRecv) CGuard]> (sw_calls s)))
      | None => None
      end
  end.

(** [spawn_rx.recv()] and the handle: it waits while the channel is empty and
    the thread, which has the sender, may still send. *)
Definition spawn_recv (s : spawning) (n : nat) (c : spawn_call) : option spawning :=
  let returns r := Some (mkSpawning (sw_tracker s) (<[n := at_caller c (SpReturned r)]> (sw_calls s))) in
  match sp_chan c with
  | Some (Ok _) =>
      match ts_threads (sw_tracker s) !! sp_thread c with
      | Some th => returns (Ok (mkSpawnHandle (t_pthread th) (sp_guard c)))
      | None => None
      end
  | Some (Err e) => returns (Err e)
  | None => match sp_child c with CEnded => returns (Err io_other) | _ => None end
  end.

(** A step of the thread, whose closure this is. *)
Definition spawn_child (s : spawning) (n : nat) (c : spawn_call) : option spawning :=
  let tr := sw_tracker s in
  let goes tr c := Some (mkSpawning tr (<[n := c]> (sw_calls s))) in
  match sp_child c with
  | CNone | CEnded => None
  | CGuard =>
      match ts_threads tr !! sp_thread c, guard_new tr (sp_guard c) (sp_thread c) with
      | Some th, Some tr' => goes tr' (at_child c (CReport (fst (track (t_pthread th) (ts_data tr)))))
      | _, _ => None
      end
  | CReport (Ok _) =>
      goes tr (mkSpawn (sp_caller c) (Some (Ok tt)) CWork true (sp_thread c) (sp_guard c))
  | CReport (Err e) =>
      goes tr (mkSpawn (sp_caller c) (Some (Err e)) CReturn (sp_called c) (sp_thread c) (sp_guard c))
  | CWork => goes tr (at_child c CUntrack)
  | CUntrack =>
      match guard_drop_untrack tr (sp_guard c) with
      | Some tr => goes tr (at_child c CExit) | None => None
      end
  | CExit =>
      match guard_drop_exit tr (sp_guard c) with
      | Some tr => goes tr (at_child c CReturn) | None => None
      end
  | CReturn =>
      match tracker_step tr (LEnd (sp_thread c)) with
      | Some tr => goes tr (at_child c CEnded) | None => None
      end
  end.

Inductive spawn_label : Type :=
  | SwOther (l : tracker_label)
  | SwBegin (n t g : nat)
  | SwCreate (n : nat) (created : io_result unit) (p : Pthread)
  | SwRecv (n : nat)
  | SwChild (n : nat).

(** What other code does to the tracker does not touch the guards and the ends
    of the threads of the calls. *)
Definition foreign (s : spawning) (l : tracker_label) : bool :=
  match l with
  | LGuard g _ | LUntrack g | LExit g => not_ours_guard s g
  | LStart t _ | LEnd t => not_ours_thread s t
  | LStop _ | LStopIter _ _ | LHandleStop _ _ _ | LHandleIter _ _ => true
  end.

(** [InterruptibleTracker::spawn], any number of calls. *)
Definition spawn_step (s : spawning) (l : spawn_label) : option spawning :=
  match l with
  | SwOther l =>
      if foreign s l then
        match tracker_step (sw_tracker s) l with
        | Some tr => Some (mkSpawning tr (sw_calls s))
        | None => None
        end
      else None
  | SwBegin n t g => spawn_begin s n t g
  | SwCreate n created p =>
      match sw_calls s !! n with
      | Some c => match sp_caller c with SpCreate => spawn_create s n c created p | _ => None end
      | None => None
      end
  | SwRecv n =>
      match sw_calls s !! n with
      | Some c => match sp_caller c with SpRecv => spawn_recv s n c | _ => None end
      | None => None
      end
  | SwChild n => match sw_calls s !! n with Some c => spawn_child s n c | None => None end
  end.
End Machine.
Global Arguments spawning B : clear implicits.

(** ** The invariant *)

(** What holds of a call, its guard and its thread. *)
Definition caller_ok (th : option thread_state) (c : spawn_call) : Prop :=
  sp_chan c = Some (Ok tt) /\
  (sp_caller c = SpRecv \/
   exists p b, th = Some (mkThread p b) /\ sp_caller c = SpReturned (Ok (mkSpawnHandle p (sp_guard c)))).

Definition refused (c : spawn_call) : Prop :=
  sp_called c = false /\
  exists e, sp_chan c = Some (Err e) /\ (sp_caller c = SpRecv \/ sp_caller c = SpReturned (Err e)).

Definition call_ok (gd : option guard) (th : option thread_state) (c : spawn_call) : Prop :=
  match sp_child c with
  | CNone =>
      gd = None /\ sp_chan c = None /\ sp_called c = false /\
      (sp_caller c = SpCreate \/ exists e, sp_caller c = SpReturned (Err e))
  | CGuard => gd = None /\ sp_chan c = None /\ sp_called c = false /\ sp_caller c = SpRecv
  | CReport (Ok _) =>
      (exists ex, gd = Some (mkGuard (sp_thread c) GLive ex)) /\
      sp_chan c = None /\ sp_called c = false /\ sp_caller c = SpRecv
  | CReport (Err _) => gd = None /\ sp_chan c = None /\ sp_called c = false /\ sp_caller c = SpRecv
  | CWork | CUntrack =>
      (exists ex, gd = Some (mkGuard (sp_thread c) GLive ex)) /\ sp_called c = true /\ caller_ok th c
  | CExit =>
      (exists ex, gd = Some (mkGuard (sp_thread c) GUntracked ex)) /\ sp_called c = true /\ caller_ok th c
  | CReturn | CEnded =>
      (gd = Some (mkGuard (sp_thread c) GDropped true) /\ sp_called c = true /\ caller_ok th c) \/
      (gd = None /\ refused c)
  end.

Section Invariant.
Context {B : Type} `{!Backoff B}.
Implicit Types s : spawning B.
Implicit Types tr : tracker_state B.

Record spawn_inv s : Prop := {
  si_calls : forall n c, sw_calls s !! n = Some c ->
    call_ok (ts_guards (sw_tracker s) !! sp_guard c) (ts_threads (sw_tracker s) !! sp_thread c) c;
  si_guards : forall n1 n2 c1 c2, sw_calls s !! n1 = Some c1 -> sw_calls s !! n2 = Some c2 ->
    sp_guard c1 = sp_guard c2 -> n1 = n2;
  si_threads : forall n1 n2 c1 c2, sw_calls s !! n1 = Some c1 -> sw_calls s !! n2 = Some c2 ->
    sp_thread c1 = sp_thread c2 -> n1 = n2 }.

(** A step leaves the guards and threads alone that it does not name. *)
Definition names_guard (l : tracker_label) (g : nat) : Prop :=
  match l with LGuard g' _ | LUntrack g' | LExit g' => g' = g | _ => False end.
Definition names_thread (l : tracker_label) (t : nat) : Prop :=
  match l with LStart t' _ | LEnd t' => t' = t | _ => False end.

Lemma step_guard_frame tr l tr' g :
  tracker_step tr l = Some tr' -> ~ names_guard l g -> ts_guards tr' !! g = ts_guards tr !! g.
Proof.
  intros Hs Hn. destruct l; simpl in Hs, Hn; unfold guard_new, guard_drop_untrack, guard_drop_exit in Hs;
    repeat (case_match; try discriminate Hs); simplify_eq; simpl; try done; by rewrite lookup_insert_ne.
Qed.

Lemma step_thread_frame tr l tr' t :
  tracker_step tr l = Some tr' -> ~ names_thread l t -> ts_threads tr' !! t = ts_threads tr !! t.
Proof.
  intros Hs Hn. destruct l; simpl in Hs, Hn; unfold guard_new, guard_drop_untrack, guard_drop_exit in Hs;
    repeat (case_match; try discriminate Hs); simplify_eq; simpl; try done; by rewrite lookup_insert_ne.
Qed.

(** Call [n] moves and leaves the guards and threads of the others alone. *)
Lemma inv_move s n c c' tr' :
  spawn_inv s -> sw_calls s !! n = Some c -> sp_guard c' = sp_guard c -> sp_thread c' = sp_thread c ->
  (forall g, g <> sp_guard c -> ts_guards tr' !! g = ts_guards (sw_tracker s) !! g) ->
  (forall t, t <> sp_thread c -> ts_threads tr' !! t = ts_threads (sw_tracker s) !! t) ->
  call_ok (ts_guards tr' !! sp_guard c) (ts_threads tr' !! sp_thread c) c' ->
  spawn_inv (mkSpawning tr' (<[n := c']> (sw_calls s))).
Proof.
  intros [H1 H2 H3] Hc Eg Et Hg Ht Hok. split; simpl.
  - intros m cm [(<- & <-)|(Hne & Hm)]%lookup_insert_Some; [by rewrite Eg, Et |].
    rewrite Hg, Ht; [by eapply H1 | |]; intros E; apply Hne; symmetry; eauto.
  - intros n1 n2 c1 c2 [(<- & <-)|(? & A1)]%lookup_insert_Some [(<- & <-)|(? & A2)]%lookup_insert_Some;
      rewrite ?Eg; eauto.
  - intros n1 n2 c1 c2 [(<- & <-)|(? & A1)]%lookup_insert_Some [(<- & <-)|(? & A2)]%lookup_insert_Some;
      rewrite ?Et; eauto.
Qed.

(** Its step may be a step of the tracker that names its own guard or thread. *)
Lemma inv_move_step s n c c' l tr' :
  spawn_inv s -> sw_calls s !! n = Some c -> sp_guard c' = sp_guard c -> sp_thread c' = sp_thread c ->
  tracker_step (sw_tracker s) l = Some tr' ->
  (forall g, names_guard l g -> g = sp_guard c) -> (forall t, names_thread l t -> t = sp_thread c) ->
  call_ok (ts_guards tr' !! sp_guard c) (ts_threads tr' !! sp_thread c) c' ->
  spawn_inv (mkSpawning tr' (<[n := c']> (sw_calls s))).
Proof.
  intros HI Hc Eg Et Hs Hg Ht Hok. eapply inv_move; eauto.
  - intros g Hne. eapply step_guard_frame; [done |]. intros ?. by apply Hne, Hg.
  - intros t Hne. eapply step_thread_frame; [done |]. intros ?. by apply Hne, Ht.
Qed.

Lemma foreign_inv s l tr' :
  spawn_inv s -> foreign s l = true -> tracker_step (sw_tracker s) l = Some tr' ->
  spawn_inv (mkSpawning tr' (sw_calls s)).
Proof.
  intros [H1 H2 H3] Hf Hs. split; simpl; [| done | done]. intros n c Hc.
  rewrite (step_guard_frame (sw_tracker s) l tr' (sp_guard c)),
    (step_thread_frame (sw_tracker s) l tr' (sp_thread c)); eauto.
  - intros Hn. destruct l; simpl in *; try done; apply bool_decide_eq_true in Hf; by eapply Hf.
  - intros Hn. destruct l; simpl in *; try done; apply bool_decide_eq_true in Hf; by eapply Hf.
Qed.

Lemma begin_inv s n t g s' : spawn_inv s -> spawn_begin s n t g = Some s' -> spawn_inv s'.
Proof.
  intros [H1 H2 H3] Hs. unfold spawn_begin in Hs.
  destruct (sw_calls s !! n) eqn:Hn; [done |].
  destruct (ts_threads (sw_tracker s) !! t) eqn:Ht; [done |].
  destruct (ts_guards (sw_tracker s) !! g) eqn:Hg; [done |].
  destruct (not_ours_guard s g && not_ours_thread s t) eqn:Ho; [| done]. simplify_eq.
  apply andb_true_iff in Ho as [Hog%bool_decide_eq_true Hot%bool_decide_eq_true].
  split; simpl.
  - intros m c [(<- & <-)|(Hne & Hm)]%lookup_insert_Some; [| by eapply H1].
    simpl. rewrite Hg. unfold call_ok; simpl. auto.
  - intros n1 n2 c1 c2 [(<- & <-)|(? & A1)]%lookup_insert_Some [(<- & <-)|(? & A2)]%lookup_insert_Some;
      simpl; [done | | | eauto]; intros E; exfalso; [by eapply Hog; [exact A2 |] | by eapply Hog; [exact A1 |]].
  - intros n1 n2 c1 c2 [(<- & <-)|(? & A1)]%lookup_insert_Some [(<- & <-)|(? & A2)]%lookup_insert_Some;
      simpl; [done | | | eauto]; intros E; exfalso; [by eapply Hot; [exact A2 |] | by eapply Hot; [exact A1 |]].
Qed.

Lemma create_inv s n c created p s' :
  spawn_inv s -> sw_calls s !! n = Some c -> sp_caller c = SpCreate ->
  spawn_create s n c created p = Some s' -> spawn_inv s'.
Proof.
  intros HI Hc Hpc Hs. pose proof (si_calls _ HI _ _ Hc) as Hok.
  assert (ts_guards (sw_tracker s) !! sp_guard c = None /\ sp_child c = CNone /\
    sp_chan c = None /\ sp_called c = false) as (Hg & Hch & Hcn & Hcl).
  { unfold call_ok, caller_ok, refused in Hok. rewrite Hpc in Hok.
    destruct (sp_child c) as [| |[]| | | | |]; naive_solver. }
  unfold spawn_create in Hs. destruct created as [u|e].
  - destruct (tracker_step (sw_tracker s) (LStart (sp_thread c) p)) as [tr|] eqn:E; [| done]. simplify_eq.
    eapply (inv_move_step s n c); [done | done | done | done | exact E | by intros | by intros ? -> |].
    rewrite (step_guard_frame _ _ _ _ E) by (intros []). by rewrite Hg.
  - simplify_eq. eapply inv_move; try done. rewrite Hg. unfold call_ok. simpl. rewrite Hch. eauto 6.
Qed.

Lemma recv_inv s n c s' :
  spawn_inv s -> sw_calls s !! n = Some c -> sp_caller c = SpRecv ->
  spawn_recv s n c = Some s' -> spawn_inv s'.
Proof.
  intros HI Hc Hpc Hs. pose proof (si_calls _ HI _ _ Hc) as Hok.
  unfold spawn_recv in Hs. unfold call_ok, caller_ok, refused in Hok. rewrite Hpc in Hok.
  destruct (sp_chan c) as [[u|e]|] eqn:Hchan.
  - destruct (ts_threads (sw_tracker s) !! sp_thread c) as [[p b]|] eqn:Ht; [| done]. simplify_eq.
    eapply inv_move; try done. rewrite Ht. unfold call_ok, caller_ok. simpl.
    destruct (sp_child c) as [| |[]| | | | |]; naive_solver.
  - simplify_eq. eapply inv_move; try done. unfold call_ok, refused. simpl.
    destruct (sp_child c) as [| |[]| | | | |]; naive_solver.
  - destruct (sp_child c) as [| |[]| | | | |] eqn:Hch; try done. naive_solver.
Qed.

Lemma child_inv s n c s' :
  spawn_inv s -> sw_calls s !! n = Some c -> spawn_child s n c = Some s' -> spawn_inv s'.
Proof.
  intros HI Hc Hs. pose proof (si_calls _ HI _ _ Hc) as Hok. unfold spawn_child in Hs.
  destruct (sp_child c) as [| |[u|e]| | | | |] eqn:Hch; try done;
    unfold call_ok, caller_ok, refused in Hok; rewrite Hch in Hok.
  - destruct Hok as (Hg & Hchan & Hcl & Hca).
    destruct (ts_threads (sw_tracker s) !! sp_thread c) as [th|] eqn:Ht; [| done].
    destruct (guard_new (sw_tracker s) (sp_guard c) (sp_thread c)) as [tr|] eqn:E; [| done]. simplify_eq.
    eapply (inv_move_step s n c _ (LGuard (sp_guard c) (sp_thread c)));
      [done | done | done | done | exact E | by intros ? -> | by intros |].
    unfold guard_new in E. rewrite Ht, Hg in E. destruct th as [p []]; [| done]. simpl.
    destruct (track p (ts_data (sw_tracker s))) as [[v|e] d]; simplify_eq; simpl; unfold call_ok; simpl.
    + rewrite lookup_insert_eq. eauto.
    + eauto.
  - simplify_eq. eapply inv_move; try done. unfold call_ok, caller_ok. simpl. naive_solver.
  - simplify_eq. eapply inv_move; try done. unfold call_ok, refused. simpl. naive_solver.
  - simplify_eq. by eapply inv_move.
  - destruct Hok as ((ex & Hg) & Hcl & Hca).
    destruct (guard_drop_untrack (sw_tracker s) (sp_guard c)) as [tr|] eqn:E; [| done]. simplify_eq.
    eapply (inv_move_step s n c _ (LUntrack (sp_guard c)));
      [done | done | done | done | exact E | by intros ? -> | by intros |].
    unfold guard_drop_untrack in E. rewrite Hg in E.
    destruct (ts_threads (sw_tracker s) !! sp_thread c) as [th|] eqn:Ht; [| done]. simplify_eq.
    unfold call_ok; simpl. rewrite lookup_insert_eq, Ht. eauto.
  - destruct Hok as ((ex & Hg) & Hcl & Hca).
    destruct (guard_drop_exit (sw_tracker s) (sp_guard c)) as [tr|] eqn:E; [| done]. simplify_eq.
    eapply (inv_move_step s n c _ (LExit (sp_guard c)));
      [done | done | done | done | exact E | by intros ? -> | by intros |].
    unfold guard_drop_exit in E. rewrite Hg in E. simplify_eq.
    unfold call_ok; simpl. rewrite lookup_insert_eq. eauto.
  - destruct (tracker_step (sw_tracker s) (LEnd (sp_thread c))) as [tr|] eqn:E; [| done]. simplify_eq.
    eapply (inv_move_step s n c _ (LEnd (sp_thread c)));
      [done | done | done | done | exact E | by intros | by intros ? -> |].
    rewrite (step_guard_frame _ _ _ _ E) by (intros []).
    simpl in E. destruct (ts_threads (sw_tracker s) !! sp_thread c) as [[p []]|] eqn:Ht; try done.
    case_match; simplify_eq. unfold call_ok, caller_ok, refused; simpl. rewrite lookup_insert_eq.
    naive_solver.
Qed.

Lemma spawn_step_inv s l s' : spawn_inv s -> spawn_step s l = Some s' -> spawn_inv s'.
Proof.
  intros HI Hs. destruct l; simpl in Hs.
  - destruct (foreign s l) eqn:Hf; [| done].
    destruct (tracker_step (sw_tracker s) l) as [tr|] eqn:E; simplify_eq. by eapply foreign_inv.
  - by eapply begin_inv.
  - destruct (sw_calls s !! n) as [c|] eqn:Hc; [| done].
    destruct (sp_caller c) eqn:Hpc; try done. by eapply create_inv.
  - destruct (sw_calls s !! n) as [c|] eqn:Hc; [| done].
    destruct (sp_caller c) eqn:Hpc; try done. by eapply recv_inv.
  - destruct (sw_calls s !! n) as [c|] eqn:Hc; [| done]. by eapply child_inv.
Qed.

(** A call that has returned stays so. *)
Lemma step_returned s l s' n r :
  spawn_step s l = Some s' -> (exists c, sw_calls s !! n = Some c /\ sp_caller c = SpReturned r) ->
  exists c, sw_calls s' !! n = Some c /\ sp_caller c = SpReturned r.
Proof.
  intros Hs (c & Hc & Hpc).
  destruct l; simpl in Hs; unfold spawn_begin, spawn_create, spawn_recv, spawn_child in Hs;
    repeat (case_match; try discriminate Hs); simplify_eq; simpl; eauto.
  all: match goal with |- exists c', <[?m := _]> _ !! _ = _ /\ _ =>
         destruct (decide (m = n)) as [->|]; [| rewrite lookup_insert_ne by done; by eauto] end;
    try congruence; simplify_eq; rewrite lookup_insert_eq; eexists; (split; [done |]); simpl; congruence.
Qed.

Lemma spawn_reachable_inv s : reachable spawn_step spawning_init s -> spawn_inv s.
Proof. apply reachable_invariant; eauto using spawn_step_inv. split; simpl; intros; by simplify_map_eq. Qed.
End Invariant.

(** ** What [spawn] returns *)


(** One call succeeds; its thread has done its work. The tracker is stopped,
    and a second call is refused. *)
Definition demo_spawn : list spawn_label :=
  [SwBegin 0 0 0; SwCreate 0 (Ok tt) 100; SwChild 0; SwChild 0; SwRecv 0; SwChild 0;
   SwOther (LStop 0); SwChild 0; SwChild 0; SwChild 0; SwOther (LStopIter 0 0);
   SwBegin 1 1 1; SwCreate 1 (Ok tt) 100; SwChild 1; SwChild 1; SwRecv 1].
Definition demo_spawned : spawning nat := default spawning_init (run spawn_step spawning_init demo_spawn).
Definition demo_call (n : nat) : spawn_call :=
  default (mkSpawn SpCreate None CNone false 0 0) (sw_calls demo_spawned !! n).

