(* ===== verification/Daemon.v ===== *)
(** * src/src/owner.rs, lines 27-454: the owner process, its data and handlers

    [DaemonOwnerInner] and the handlers of the requests, as functions of the
    state of the process. The reference-counted [FdData] live in a store; each
    clone of an [Arc] is one holder, so [Arc::strong_count] is the number of
    holders. [fcntl] and closing a descriptor are the class [Fcntl]. *)

From Stdlib Require Import ZArith Lia.
From stdpp Require Import base tactics numbers list gmap.
From S2P Require Import Prelude.
From S2P Require Import Std.
From S2P Require Import Types.
From S2P Require Import Wire.
From S2P Require Import Helpers.
From S2P Require Import Tracker.
Local Open Scope Z_scope.

(** ** The file locks of the kernel *)

Class Fcntl (K : Type) : Type := {
  (** [fcntl(fd, F_GETLK, &mut flock)] *)
  fcntl_getlk : Fd -> flock -> K -> result Z flock * K;
  (** [fcntl(fd, F_SETLK, &flock)] *)
  fcntl_setlk : Fd -> flock -> K -> result Z unit * K;
  (** [fcntl(fd, F_SETLKW, &flock)] from the time it is called until it
      returns: [None] while it waits *)
  fcntl_setlkw : Fd -> flock -> K -> option (result Z unit * K);
  fd_close : Fd -> K -> K }.

(** ** Errors on the wire *)

(** [io_cvt]. *)
Definition io_cvt {A} (r : io_result A) : result Z A :=
  map_err (fun e =>
    match raw_os_error e with
    | Some errno => errno
    | None =>
        match kind e with
        | ErrorKind.NotFound => Errno.ENOENT
        | ErrorKind.PermissionDenied => Errno.EPERM
        | ErrorKind.ConnectionRefused => Errno.ECONNREFUSED
        | ErrorKind.ConnectionReset => Errno.ECONNRESET
        | ErrorKind.ConnectionAborted => Errno.ECONNABORTED
        | ErrorKind.NotConnected => Errno.ENOTCONN
        | ErrorKind.AddrInUse => Errno.EADDRINUSE
        | ErrorKind.AddrNotAvailable => Errno.EADDRNOTAVAIL
        | ErrorKind.TimedOut => Errno.ETIMEDOUT
        | ErrorKind.WouldBlock => Errno.EAGAIN
        | ErrorKind.AlreadyExists => Errno.EEXIST
        | ErrorKind.InvalidInput => Errno.EINVAL
        | ErrorKind.InvalidData => Errno.EINVAL
        | ErrorKind.Deadlock => Errno.EDEADLK
        | ErrorKind.Other => Errno.EIO
        | _ => Errno.EIO
        end
    end) r.

(** ** The state of the process *)

(** [RwLock<bool>] between critical sections: no writer holds it. *)
Record ExitLock : Type := mkExitLock { rw_value : bool; rw_readers : nat }.

(** Who holds a clone of an [Arc<FdData>]: the descriptor map, the main loop
    during a spawn, a locking thread, an unregistering thread. *)
Inductive holder : Type :=
  | HMap (id : Z)
  | HMain
  | HLock (t : nat)
  | HUnreg (u : nat).

#[export] Instance holder_eq_dec : EqDecision holder.
Proof. solve_decision. Defined.
#[export] Instance holder_countable : Countable holder.
Proof.
  refine (inj_countable'
    (fun h => match h with
              | HMap id => inl (inl id) | HMain => inl (inr tt)
              | HLock t => inr (inl t) | HUnreg u => inr (inr u)
              end)
    (fun x => match x with
              | inl (inl id) => HMap id | inl (inr _) => HMain
              | inr (inl t) => HLock t | inr (inr u) => HUnreg u
              end) _).
  by intros [].
Defined.

(** [FdData] with the clones of its [Arc]. The exit lock guard it owns is one
    reader of the exit lock; the tracker data it points to are kept in a store
    of their own, because the guards of the threads point to them too. *)
Record FdData : Type := mkFdData { descriptor : Fd; holders : gset holder }.

(** [Arc::strong_count]. *)
Definition strong_count (d : FdData) : nat := size (holders d).

(** [InterruptibleHandle]: the [pthread_t] and the thread whose exit flag it
    shares. *)
Record InterruptibleHandle : Type := mkHandle { h_thread : Pthread; h_exit : nat }.

Record DaemonOwnerInner : Type := mkInner {
  exit_lock : ExitLock;
  next_id : Z;
  descriptors : gmap Z nat;
  interrupts : gmap Z InterruptibleHandle;
  interrupt_next_id : Z }.

(** [DaemonOwner::new]. *)
Definition DaemonOwnerInner_new : DaemonOwnerInner :=
  mkInner (mkExitLock false 0) 0 ∅ ∅ 0.

Definition with_exit_lock (i : DaemonOwnerInner) (l : ExitLock) : DaemonOwnerInner :=
  mkInner l (next_id i) (descriptors i) (interrupts i) (interrupt_next_id i).
Definition with_descriptors (i : DaemonOwnerInner) (n : Z) (ds : gmap Z nat) : DaemonOwnerInner :=
  mkInner (exit_lock i) n ds (interrupts i) (interrupt_next_id i).
Definition with_interrupts (i : DaemonOwnerInner) (n : Z) (ints : gmap Z InterruptibleHandle)
  : DaemonOwnerInner :=
  mkInner (exit_lock i) (next_id i) (descriptors i) ints n.

(** ** Handlers that touch the inner state only *)

(** [acquire_exit_lock]: a read guard, unless the flag is set; a guard that is
    not returned is dropped. *)
Definition acquire_exit_lock (i : DaemonOwnerInner) : io_result unit * DaemonOwnerInner :=
  if rw_value (exit_lock i) then (Err (Custom ErrorKind.BrokenPipe), i)
  else (Ok tt, with_exit_lock i (mkExitLock (rw_value (exit_lock i)) (S (rw_readers (exit_lock i))))).

(** Dropping the read guard. *)
Definition release_exit_lock (i : DaemonOwnerInner) : DaemonOwnerInner :=
  with_exit_lock i (mkExitLock (rw_value (exit_lock i)) (pred (rw_readers (exit_lock i)))).

(** [try_exit]: [try_write] fails while there are readers. *)
Definition try_exit (i : DaemonOwnerInner) : io_result unit * DaemonOwnerInner :=
  match rw_readers (exit_lock i) with
  | O => (Ok tt, with_exit_lock i (mkExitLock true 0))
  | S _ => (Err (Custom ErrorKind.ResourceBusy), i)
  end.

(** [Drop for DaemonOwnerInner]: an error of [try_exit] is only logged. *)
Definition DaemonOwnerInner_drop (i : DaemonOwnerInner) : DaemonOwnerInner := (try_exit i).2.

(** The loop that takes the next identifier that is not in use: [fetch_add]
    on a 64-bit counter, which wraps. *)
Fixpoint alloc_id {A} (fuel : nat) (next : Z) (m : gmap Z A) : option (Z * Z) :=
  match fuel with
  | O => None
  | S fuel =>
      let id := next in
      let next := wrap64 (next + 1) in
      match m !! id with
      | None => Some (id, next)
      | Some _ => alloc_id fuel next m
      end
  end.

(** The two halves of an iteration of [handle_interrupt_add], which locking
    threads run concurrently: [fetch_add] gives a candidate; the entry of the
    candidate is filled if it is vacant, otherwise the loop goes on. *)
Definition handle_interrupt_add_candidate (i : DaemonOwnerInner) : Z * DaemonOwnerInner :=
  (interrupt_next_id i, with_interrupts i (wrap64 (interrupt_next_id i + 1)) (interrupts i)).

Definition handle_interrupt_add_entry (i : DaemonOwnerInner) (candidate_id : Z)
    (handle : InterruptibleHandle) : option DaemonOwnerInner :=
  match interrupts i !! candidate_id with
  | None => Some (with_interrupts i (interrupt_next_id i) (<[candidate_id := handle]> (interrupts i)))
  | Some _ => None
  end.

(** [handle_interrupt_remove]. *)
Definition handle_interrupt_remove (i : DaemonOwnerInner) (interrupt : RemoveInterrupt)
  : io_result unit * DaemonOwnerInner :=
  let id := RemoveInterrupt.id interrupt in
  match interrupts i !! id with
  | None => (Err (Custom ErrorKind.NotFound), i)
  | Some _ => (Ok tt, with_interrupts i (interrupt_next_id i) (delete id (interrupts i)))
  end.

(** The first half of [handle_interrupt]: the handle to stop. *)
Definition handle_interrupt_get (i : DaemonOwnerInner) (interrupt : Interrupt)
  : io_result InterruptibleHandle :=
  ok_or (interrupts i !! Interrupt.id interrupt) (Custom ErrorKind.NotFound).

(** ** The threads of the process *)

(** A locking thread: [set_lock_blocking] inside the closure of
    [InterruptibleTracker::spawn]. It is about to create its guard, refused,
    about to try without blocking, to take a candidate in
    [handle_interrupt_add], to look at the entry of its candidate, to unblock
    SIGUSR1, to call [F_SETLKW], waiting in it, back from [set_lock_blocking],
    past the drop of its clone of [FdData], past [untrack], ended. *)
Inductive lock_pc : Type :=
  | PTrack | PRefused | PTry | PAdd | PEntry (candidate_id : Z) | PWindow | PEnter | PWait
  | PReturn | PDropped | PUntracked | PEnded.

#[export] Instance lock_pc_eq_dec : EqDecision lock_pc.
Proof. solve_decision. Defined.

Record LockThread : Type := mkLockThread {
  lt_pthread : Pthread;
  lt_loc : nat;
  lt_params : LockParams;
  lt_reply : Fd;
  lt_pc : lock_pc;
  lt_exited : bool;            (** the exit flag its guard and handles share *)
  lt_interrupted : bool }.     (** SIGUSR1 reached it inside [F_SETLKW] *)

Definition lt_at (t : LockThread) (pc : lock_pc) : LockThread :=
  mkLockThread (lt_pthread t) (lt_loc t) (lt_params t) (lt_reply t) pc (lt_exited t) false.

(** An unregistering thread: about to take the entry out of the map, to call
    [tracker.stop], inside it, waiting for the clones, about to reply. *)
Inductive unreg_pc (B : Type) : Type :=
  | URemove (id : Z)
  | UBegin (loc : nat)
  | UStop (loc : nat) (l : stop_locals B)
  | UWait (loc : nat)
  | UReply (r : io_result unit).
Arguments URemove {B} id.
Arguments UBegin {B} loc.
Arguments UStop {B} loc l.
Arguments UWait {B} loc.
Arguments UReply {B} r.

(** An interrupting thread: about to look the handle up, in [handle.stop],
    about to reply. *)
Inductive intr_pc (B : Type) : Type :=
  | IGet (id : Z)
  | IStop (h : InterruptibleHandle) (l : stop_locals B)
  | IReply (r : io_result unit).
Arguments IGet {B} id.
Arguments IStop {B} h l.
Arguments IReply {B} r.

(** The receiving loop: before its first iteration, ready for a request,
    inside [handle_lock_command] with a clone of the [FdData], waiting for a
    spawned thread to report, returned or unwound. *)
Inductive main_pc : Type :=
  | MInit
  | MReady
  | MCommand (c : LockCommand) (loc : nat) (reply_fd : Fd)
  | MSpawning (t loc : nat)
  | MEnded (r : exec (io_result unit)).

(** The loop of [DaemonOwner::start]: about to receive on the refresh channel,
    to ask whether the thread of the receiving loop is finished (the channel
    was disconnected, or the TTL ran out), to try to exit, returned. *)
Inductive start_pc : Type :=
  | SRecv
  | SFinished (disconnected : bool)
  | SExit
  | SReturned (r : io_result unit).

(** What is sent on a reply descriptor. *)
Inductive reply_value : Type :=
  | RUnit (r : result Z unit)
  | RId (r : result Z Z)
  | RLock (r : result Z ReplyLockCommandData).

(** What a client sees on its reply descriptor: a reply, the end. *)
Inductive reply_event : Type :=
  | Sent (fd : Fd) (v : reply_value)
  | Hangup (fd : Fd).

Record daemon (K B : Type) : Type := mkDaemon {
  d_inner : DaemonOwnerInner;
  d_fds : gmap nat FdData;
  d_trackers : gmap nat RawInterruptibleTrackerData;
  d_main : main_pc;
  (** the channel that refreshes the TTL, of capacity one *)
  d_ttl : bool;
  d_start : start_pc;
  d_locks : gmap nat LockThread;
  d_unregs : gmap nat (unreg_pc B * Fd);
  d_intrs : gmap nat (intr_pc B * Pthread * Fd);
  (** latest first *)
  d_events : list reply_event;
  d_kernel : K }.
Arguments mkDaemon {K B}.
Arguments d_inner {K B}.
Arguments d_fds {K B}.
Arguments d_trackers {K B}.
Arguments d_main {K B}.
Arguments d_ttl {K B}.
Arguments d_start {K B}.
Arguments d_locks {K B}.
Arguments d_unregs {K B}.
Arguments d_intrs {K B}.
Arguments d_events {K B}.
Arguments d_kernel {K B}.

(** What the system answers while a step runs: the name of what is created,
    the [pthread_t] of a new thread, whether a thread could be created, the
    outcome of [InterruptibleTracker::new]. *)
Record env : Type := mkEnv {
  e_name : nat; e_pthread : Pthread; e_spawned : bool; e_sigaction : io_result unit }.

Section Process.
Context {K B : Type}.
Implicit Types s : daemon K B.

Definition daemon_init (k : K) : daemon K B :=
  mkDaemon DaemonOwnerInner_new ∅ ∅ MInit false SRecv ∅ ∅ ∅ [] k.

Definition set_inner s x : daemon K B :=
  mkDaemon x (d_fds s) (d_trackers s) (d_main s) (d_ttl s) (d_start s)
    (d_locks s) (d_unregs s) (d_intrs s) (d_events s) (d_kernel s).
Definition set_fds s x : daemon K B :=
  mkDaemon (d_inner s) x (d_trackers s) (d_main s) (d_ttl s) (d_start s)
    (d_locks s) (d_unregs s) (d_intrs s) (d_events s) (d_kernel s).
Definition set_trackers s x : daemon K B :=
  mkDaemon (d_inner s) (d_fds s) x (d_main s) (d_ttl s) (d_start s)
    (d_locks s) (d_unregs s) (d_intrs s) (d_events s) (d_kernel s).
Definition set_main s x : daemon K B :=
  mkDaemon (d_inner s) (d_fds s) (d_trackers s) x (d_ttl s) (d_start s)
    (d_locks s) (d_unregs s) (d_intrs s) (d_events s) (d_kernel s).
Definition set_ttl s x : daemon K B :=
  mkDaemon (d_inner s) (d_fds s) (d_trackers s) (d_main s) x (d_start s)
    (d_locks s) (d_unregs s) (d_intrs s) (d_events s) (d_kernel s).
Definition set_start s x : daemon K B :=
  mkDaemon (d_inner s) (d_fds s) (d_trackers s) (d_main s) (d_ttl s) x
    (d_locks s) (d_unregs s) (d_intrs s) (d_events s) (d_kernel s).
Definition set_locks s x : daemon K B :=
  mkDaemon (d_inner s) (d_fds s) (d_trackers s) (d_main s) (d_ttl s) (d_start s)
    x (d_unregs s) (d_intrs s) (d_events s) (d_kernel s).
Definition set_unregs s x : daemon K B :=
  mkDaemon (d_inner s) (d_fds s) (d_trackers s) (d_main s) (d_ttl s) (d_start s)
    (d_locks s) x (d_intrs s) (d_events s) (d_kernel s).
Definition set_intrs s x : daemon K B :=
  mkDaemon (d_inner s) (d_fds s) (d_trackers s) (d_main s) (d_ttl s) (d_start s)
    (d_locks s) (d_unregs s) x (d_events s) (d_kernel s).
Definition set_events s x : daemon K B :=
  mkDaemon (d_inner s) (d_fds s) (d_trackers s) (d_main s) (d_ttl s) (d_start s)
    (d_locks s) (d_unregs s) (d_intrs s) x (d_kernel s).
Definition set_kernel s x : daemon K B :=
  mkDaemon (d_inner s) (d_fds s) (d_trackers s) (d_main s) (d_ttl s) (d_start s)
    (d_locks s) (d_unregs s) (d_intrs s) (d_events s) x.

Definition log s (e : reply_event) : daemon K B := set_events s (e :: d_events s).
(** [reply.reply(v)] by a reply object that stays in scope. *)
Definition reply_on s (fd : Fd) (v : reply_value) : daemon K B := log s (Sent fd v).
(** Dropping a reply object. *)
Definition reply_drop s (fd : Fd) : daemon K B := log s (Hangup fd).
(** [create_reply(fd).reply(v)]: the object is dropped at once. *)
Definition reply_once s (fd : Fd) (v : reply_value) : daemon K B :=
  reply_drop (reply_on s fd v) fd.

Definition put_lock s (t : nat) (lt : LockThread) : daemon K B :=
  set_locks s (<[t := lt]> (d_locks s)).
Definition put_unreg s (u : nat) (pc : unreg_pc B) (fd : Fd) : daemon K B :=
  set_unregs s (<[u := (pc, fd)]> (d_unregs s)).
Definition put_intr s (i : nat) (pc : intr_pc B) (p : Pthread) (fd : Fd) : daemon K B :=
  set_intrs s (<[i := (pc, p, fd)]> (d_intrs s)).
Definition put_tracker s (loc : nat) (d : RawInterruptibleTrackerData) : daemon K B :=
  set_trackers s (<[loc := d]> (d_trackers s)).

(** A [pthread_t] that no running thread has. *)
Definition pthread_unused s (p : Pthread) : bool :=
  bool_decide (map_Forall (fun _ lt => lt_pc lt <> PEnded -> lt_pthread lt <> p) (d_locks s)) &&
  bool_decide (map_Forall (fun _ (i : intr_pc B * Pthread * Fd) => i.1.2 <> p) (d_intrs s)).

(** [pthread_kill(p, SIGUSR1)]. The signal is blocked in every thread except
    for the window of [set_lock_blocking]. There it interrupts [F_SETLKW] if
    the thread is already inside the call, and is lost if it is not; a signal
    that is pending when the window opens is delivered before the call. *)
Definition pthread_kill (ls : gmap nat LockThread) (p : Pthread) : gmap nat LockThread :=
  (fun lt =>
     if bool_decide (lt_pthread lt = p /\ lt_pc lt = PWait)
     then mkLockThread (lt_pthread lt) (lt_loc lt) (lt_params lt) (lt_reply lt) (lt_pc lt)
                       (lt_exited lt) true
     else lt) <$> ls.
Definition kill_all s (ps : list Pthread) : daemon K B :=
  set_locks s (foldl pthread_kill (d_locks s) ps).

(** *** [Arc<FdData>] *)

(** Cloning. *)
Definition clone_arc s (loc : nat) (h : holder) : daemon K B :=
  set_fds s (alter (fun d => mkFdData (descriptor d) ({[h]} ∪ holders d)) loc (d_fds s)).

(** Dropping a clone: the last drop closes the descriptor and releases the
    exit lock guard. *)
Definition drop_arc `{!Fcntl K} s (loc : nat) (h : holder) : daemon K B :=
  match d_fds s !! loc with
  | None => s
  | Some d =>
      let hs := holders d ∖ {[h]} in
      if bool_decide (hs = ∅) then
        set_kernel (set_inner (set_fds s (delete loc (d_fds s))) (release_exit_lock (d_inner s)))
                   (fd_close (descriptor d) (d_kernel s))
      else set_fds s (<[loc := mkFdData (descriptor d) hs]> (d_fds s))
  end.

(** *** Handlers *)

(** [handle_fd_register]. Early returns drop the descriptor and the guard. *)
Definition handle_fd_register `{!Fcntl K} s (register : Register) (e : env)
  : option (io_result Z * daemon K B) :=
  let fd := Register.fd register in
  match acquire_exit_lock (d_inner s) with
  | (Err err, i) => Some (Err err, set_kernel (set_inner s i) (fd_close fd (d_kernel s)))
  | (Ok _, i) =>
      match e_sigaction e with
      | Err err =>
          Some (Err err, set_kernel (set_inner s (release_exit_lock i)) (fd_close fd (d_kernel s)))
      | Ok _ =>
          let loc := e_name e in
          match d_trackers s !! loc, alloc_id (S (size (descriptors i))) (next_id i) (descriptors i) with
          | None, Some (id, next) =>
              let s := put_tracker s loc tracker_new in
              Some (Ok id,
                set_inner (set_fds s (<[loc := mkFdData fd {[HMap id]}]> (d_fds s)))
                          (with_descriptors i next (<[id := loc]> (descriptors i))))
          | _, _ => None
          end
      end
  end.

(** [handle_lock_command], up to the clone of the [FdData]. *)
Definition handle_lock_command s (c : LockCommand) (reply_fd : Fd) : option (daemon K B) :=
  match descriptors (d_inner s) !! LockCommand.id c with
  | None => Some (reply_once s reply_fd (RLock (io_cvt (Err (Custom ErrorKind.NotFound)))))
  | Some loc => Some (set_main (clone_arc s loc HMain) (MCommand c loc reply_fd))
  end.

(** Its branches [GetLockStatus] and [SetLockNonBlocking]: the system call
    and the value to reply. *)
Definition lock_get `{!Fcntl K} (fd : Fd) (params : LockParams) (k : K)
  : io_result ReplyLockCommandData * K :=
  let '(r, k) := fcntl_getlk fd (flock_from params) k in
  (and_then (map_err Os r) (fun raw => map_ok ReplyLockCommandData.Done (LockParams_try_from raw)), k).

Definition lock_set_nonblocking `{!Fcntl K} (fd : Fd) (params : LockParams) (k : K)
  : io_result ReplyLockCommandData * K :=
  let raw := flock_from params in
  let '(r, k) := fcntl_setlk fd raw k in
  (and_then (map_err Os r) (fun _ => map_ok ReplyLockCommandData.Done (LockParams_try_from raw)), k).

(** The rest of [handle_lock_command]. A blocking command spawns its thread:
    the main loop waits for the report of the thread, or, when no thread can
    be created, drops the closure with the clone and the reply in it. *)
Definition lock_command_run `{!Fcntl K} s (c : LockCommand) (loc : nat) (reply_fd : Fd) (e : env)
  : option (daemon K B) :=
  match d_fds s !! loc with
  | None => None
  | Some d =>
      match LockCommand.action c with
      | LockAction.GetLockStatus =>
          let '(r, k) := lock_get (descriptor d) (LockCommand.params c) (d_kernel s) in
          let s := reply_on (set_kernel s k) reply_fd (RLock (io_cvt r)) in
          Some (set_main (reply_drop (drop_arc s loc HMain) reply_fd) MReady)
      | LockAction.SetLockNonBlocking =>
          let '(r, k) := lock_set_nonblocking (descriptor d) (LockCommand.params c) (d_kernel s) in
          let s := reply_on (set_kernel s k) reply_fd (RLock (io_cvt r)) in
          Some (set_main (reply_drop (drop_arc s loc HMain) reply_fd) MReady)
      | LockAction.SetLockBlocking =>
          if e_spawned e then
            let t := e_name e in
            match d_locks s !! t, pthread_unused s (e_pthread e) with
            | None, true =>
                let lt := mkLockThread (e_pthread e) loc (LockCommand.params c) reply_fd PTrack false false in
                Some (set_main (put_lock (clone_arc s loc (HLock t)) t lt) (MSpawning t loc))
            | _, _ => None
            end
          else Some (set_main (drop_arc (reply_drop s reply_fd) loc HMain) MReady)
      end
  end.

(** The end of [tracker.spawn] on the main loop: the thread has sent its
    report, the clone that [handle_lock_command] made is dropped. *)
Definition lock_command_spawned `{!Fcntl K} s (t loc : nat) : option (daemon K B) :=
  match d_locks s !! t with
  | Some lt =>
      if bool_decide (lt_pc lt = PTrack) then None
      else Some (set_main (drop_arc s loc HMain) MReady)
  | None => None
  end.

(** One iteration of [owner_receiving_loop]: [r] is what [receive_request]
    gave, with panics. [std::thread::spawn] panics when no thread can be
    created. *)
Definition owner_receiving_loop `{!Fcntl K} s (r : exec (io_result (Message * Fd))) (e : env)
  : option (daemon K B) :=
  match r with
  | Panicked => Some (set_main s (MEnded Panicked))
  | Done (Err err) =>
      if kind_is ErrorKind.BrokenPipe err then Some (set_main s (MEnded (Done (Ok tt))))
      else if kind_is ErrorKind.UnexpectedEof err || kind_is ErrorKind.InvalidInput err
              || kind_is ErrorKind.InvalidData err
      then Some (set_ttl s true)
      else Some (set_main s (MEnded (Done (Err err))))
  | Done (Ok (msg, fd)) =>
      let s := set_ttl s true in
      match msg with
      | Message.Ping _ => Some (reply_once s fd (RUnit (Ok tt)))
      | Message.Interrupt m =>
          if e_spawned e then
            match d_intrs s !! e_name e, pthread_unused s (e_pthread e) with
            | None, true => Some (put_intr s (e_name e) (IGet (Interrupt.id m)) (e_pthread e) fd)
            | _, _ => None
            end
          else Some (set_main (reply_drop s fd) (MEnded Panicked))
      | Message.RemoveInterrupt m =>
          let '(r, i) := handle_interrupt_remove (d_inner s) m in
          Some (reply_once (set_inner s i) fd (RUnit (io_cvt r)))
      | Message.Register m =>
          match handle_fd_register s m e with
          | Some (r, s) => Some (reply_once s fd (RId (io_cvt r)))
          | None => None
          end
      | Message.Unregister m =>
          if e_spawned e then
            match d_unregs s !! e_name e with
            | None => Some (put_unreg s (e_name e) (URemove (Unregister.id m)) fd)
            | Some _ => None
            end
          else Some (set_main (reply_drop s fd) (MEnded Panicked))
      | Message.LockCommand c => handle_lock_command s c fd
      end
  end.

(** *** [set_lock_blocking] on its thread *)

(** Its return: the reply is dropped. *)
Definition lock_return s (t : nat) (lt : LockThread) : daemon K B :=
  put_lock (reply_drop s (lt_reply lt)) t (lt_at lt PReturn).

Definition lock_reply s (lt : LockThread) (r : io_result ReplyLockCommandData) : daemon K B :=
  reply_on s (lt_reply lt) (RLock (io_cvt r)).

(** The first attempt. [masked] is the outcome of [block_all_signals]. *)
Definition set_lock_try `{!Fcntl K} s (t : nat) (lt : LockThread) (masked : io_result unit)
  : option (daemon K B) :=
  match masked with
  | Err err => Some (lock_return (lock_reply s lt (Err err)) t lt)
  | Ok _ =>
      match d_fds s !! lt_loc lt with
      | None => None
      | Some d =>
          let '(r, k) := fcntl_setlk (descriptor d) (flock_from (lt_params lt)) (d_kernel s) in
          let s := set_kernel s k in
          match map_err Os r with
          | Ok _ =>
              Some (put_lock (lock_reply s lt (Ok (ReplyLockCommandData.Done (lt_params lt))))
                             t (lt_at lt PWindow))
          | Err err =>
              if bool_decide (raw_os_error err = Some Errno.EAGAIN) then
                Some (put_lock s t (lt_at lt PAdd))
              else Some (put_lock (lock_reply s lt (Err err)) t (lt_at lt PWindow))
          end
      end
  end.

(** [handle_interrupt_add] and the reply with the identifier it returns. *)
Definition set_lock_candidate s (t : nat) (lt : LockThread) : daemon K B :=
  let '(candidate_id, i) := handle_interrupt_add_candidate (d_inner s) in
  put_lock (set_inner s i) t (lt_at lt (PEntry candidate_id)).

Definition set_lock_entry s (t : nat) (lt : LockThread) (candidate_id : Z) : daemon K B :=
  match handle_interrupt_add_entry (d_inner s) candidate_id (mkHandle (lt_pthread lt) t) with
  | Some i =>
      put_lock (lock_reply (set_inner s i) lt (Ok (ReplyLockCommandData.Pending candidate_id)))
               t (lt_at lt PWindow)
  | None => put_lock s t (lt_at lt PAdd)
  end.

(** The window: [unblock_signal(SIGUSR1)]. *)
Definition set_lock_window s (t : nat) (lt : LockThread) (masked : io_result unit) : daemon K B :=
  match masked with
  | Err err => lock_return (lock_reply s lt (Err err)) t lt
  | Ok _ => put_lock s t (lt_at lt PEnter)
  end.

(** The return of [F_SETLKW], interrupted or not. *)
Definition set_lock_wait `{!Fcntl K} s (t : nat) (lt : LockThread) (interrupt : bool)
  : option (daemon K B) :=
  if interrupt then
    if lt_interrupted lt
    then Some (lock_return (lock_reply s lt (Err (Os Errno.EINTR))) t lt) else None
  else
    match d_fds s !! lt_loc lt with
    | None => None
    | Some d =>
        match fcntl_setlkw (descriptor d) (flock_from (lt_params lt)) (d_kernel s) with
        | None => None
        | Some (r, k) =>
            let s := set_kernel s k in
            match map_err Os r with
            | Ok _ =>
                Some (lock_return
                  (lock_reply s lt (Ok (ReplyLockCommandData.Done (lt_params lt)))) t lt)
            | Err err => Some (lock_return (lock_reply s lt (Err err)) t lt)
            end
        end
    end.

(** One step of a locking thread, from the start of the closure that
    [InterruptibleTracker::spawn] runs to its end. *)
Definition lock_thread_step `{!Fcntl K} s (t : nat) (masked : io_result unit) (interrupt : bool)
  : option (daemon K B) :=
  match d_locks s !! t with
  | None => None
  | Some lt =>
      match lt_pc lt with
      | PTrack =>
          match d_trackers s !! lt_loc lt with
          | None => None
          | Some tr =>
              match track (lt_pthread lt) tr with
              | (Ok _, tr) => Some (put_lock (put_tracker s (lt_loc lt) tr) t (lt_at lt PTry))
              | (Err _, _) => Some (put_lock s t (lt_at lt PRefused))
              end
          end
      | PRefused =>
          (* the closure is dropped without being called *)
          Some (put_lock (drop_arc (reply_drop s (lt_reply lt)) (lt_loc lt) (HLock t))
                         t (lt_at lt PEnded))
      | PTry => set_lock_try s t lt masked
      | PAdd => Some (set_lock_candidate s t lt)
      | PEntry candidate_id => Some (set_lock_entry s t lt candidate_id)
      | PWindow => Some (set_lock_window s t lt masked)
      | PEnter => Some (put_lock s t (lt_at lt PWait))
      | PWait => set_lock_wait s t lt interrupt
      | PReturn => Some (put_lock (drop_arc s (lt_loc lt) (HLock t)) t (lt_at lt PDropped))
      | PDropped =>
          match d_trackers s !! lt_loc lt with
          | None => None
          | Some tr =>
              Some (put_lock (put_tracker s (lt_loc lt) (untrack (lt_pthread lt) tr))
                             t (lt_at lt PUntracked))
          end
      | PUntracked =>
          Some (put_lock s t (mkLockThread (lt_pthread lt) (lt_loc lt) (lt_params lt)
                                           (lt_reply lt) PEnded true false))
      | PEnded => None
      end
  end.

(** *** [handle_fd_unregister] on its thread *)

Context `{!Backoff B}.

Definition handle_fd_unregister `{!Fcntl K} s (u fails : nat) : option (daemon K B) :=
  match d_unregs s !! u with
  | None => None
  | Some (URemove id, fd) =>
      match descriptors (d_inner s) !! id with
      | None => Some (put_unreg s u (UReply (Err (Custom ErrorKind.NotFound))) fd)
      | Some loc =>
          (* the clone of the map becomes the clone of this thread *)
          let i := with_descriptors (d_inner s) (next_id (d_inner s))
                                    (delete id (descriptors (d_inner s))) in
          let s := set_inner (clone_arc s loc (HUnreg u)) i in
          Some (put_unreg (drop_arc s loc (HMap id)) u (UBegin loc) fd)
      end
  | Some (UBegin loc, fd) =>
      match d_trackers s !! loc with
      | None => None
      | Some tr =>
          Some (put_unreg (put_tracker s loc (tracker_stop_begin tr)) u (UStop loc stop_start) fd)
      end
  | Some (UStop loc l, fd) =>
      match d_trackers s !! loc with
      | None => None
      | Some tr =>
          match tracker_stop_iter fails tr l with
          | None => Some (put_unreg s u (UWait loc) fd)
          | Some (tr, l, kills) =>
              Some (put_unreg (kill_all (put_tracker s loc tr) kills) u (UStop loc l) fd)
          end
      end
  | Some (UWait loc, fd) =>
      match d_fds s !! loc with
      | None => None
      | Some d =>
          if bool_decide (strong_count d = 1%nat)
          then Some (put_unreg (drop_arc s loc (HUnreg u)) u (UReply (Ok tt)) fd)
          else Some s
      end
  | Some (UReply r, fd) =>
      Some (set_unregs (reply_once s fd (RUnit (io_cvt r))) (delete u (d_unregs s)))
  end.

(** *** [handle_interrupt] on its thread *)

Definition handle_interrupt s (n fails : nat) : option (daemon K B) :=
  match d_intrs s !! n with
  | None => None
  | Some (IGet id, p, fd) =>
      match handle_interrupt_get (d_inner s) (Interrupt.mk id) with
      | Err err => Some (put_intr s n (IReply (Err err)) p fd)
      | Ok h => Some (put_intr s n (IStop h stop_start) p fd)
      end
  | Some (IStop h l, p, fd) =>
      match d_locks s !! h_exit h with
      | None => None
      | Some lt =>
          match handle_stop_iter fails (lt_exited lt) (bool_decide (h_thread h = p)) l with
          | HReturn => Some (put_intr s n (IReply (Ok tt)) p fd)
          | HPanic => Some (set_intrs (reply_drop s fd) (delete n (d_intrs s)))
          | HContinue l kill =>
              Some (put_intr (if kill then kill_all s [h_thread h] else s) n (IStop h l) p fd)
          end
      end
  | Some (IReply r, p, fd) =>
      Some (set_intrs (reply_once s fd (RUnit (io_cvt r))) (delete n (d_intrs s)))
  end.

(** *** [DaemonOwner::start] *)

(** One step of its loop. [recv_timeout] gives a refresh that is in the
    channel; otherwise it times out while the receiving loop runs, and the
    channel is disconnected once that has ended and dropped its sender. Then
    comes [is_finished] with [join], or [try_exit]. *)
Definition start_iter s : option (daemon K B) :=
  match d_start s with
  | SReturned _ => None
  | SRecv =>
      if d_ttl s then Some (set_ttl s false)
      else Some (set_start s (SFinished (match d_main s with MEnded _ => true | _ => false end)))
  | SFinished disconnected =>
      match d_main s with
      | MEnded r =>
          Some (set_start s (SReturned (match r with Done r => r | Panicked => Err io_other end)))
      | _ => if disconnected then None else Some (set_start s SExit)
      end
  | SExit =>
      match try_exit (d_inner s) with
      | (Ok _, i) => Some (set_start (set_inner s i) (SReturned (Ok tt)))
      | (Err _, i) => Some (set_start (set_inner s i) SRecv)
      end
  end.

(** *** The process *)

(** Who moves next; [DKernel] is any use of the locked files by other
    processes. *)
Inductive daemon_label : Type :=
  | DKernel (k : K)
  | DMask (masked : io_result unit)
  | DReceive (r : exec (io_result (Message * Fd))) (e : env)
  | DCommand (e : env)
  | DSpawned
  | DLock (t : nat) (masked : io_result unit) (interrupt : bool)
  | DUnreg (u fails : nat)
  | DIntr (n fails : nat)
  | DStart.

Definition daemon_step `{!Fcntl K} s (l : daemon_label) : option (daemon K B) :=
  match l with
  | DKernel k => Some (set_kernel s k)
  | DMask masked =>
      match d_main s, masked with
      | MInit, Ok _ => Some (set_main s MReady)
      | MInit, Err err => Some (set_main s (MEnded (Done (Err err))))
      | _, _ => None
      end
  | DReceive r e =>
      match d_main s with MReady => owner_receiving_loop s r e | _ => None end
  | DCommand e =>
      match d_main s with
      | MCommand c loc fd => lock_command_run s c loc fd e
      | _ => None
      end
  | DSpawned =>
      match d_main s with MSpawning t loc => lock_command_spawned s t loc | _ => None end
  | DLock t masked interrupt => lock_thread_step s t masked interrupt
  | DUnreg u fails => handle_fd_unregister s u fails
  | DIntr n fails => handle_interrupt s n fails
  | DStart => start_iter s
  end.
End Process.
Global Arguments daemon_label : clear implicits.
