(* ===== verification/DaemonInv.v ===== *)
(** * Invariants of the owner process

    Every clone of an [Arc<FdData>] is accounted for: a holder is recorded for
    a live [FdData] exactly when the state of the map, of the main loop or of
    the thread in question refers to it, and the exit lock has one reader for
    each live [FdData]. Identifiers stay in the range of their counters. *)

From Stdlib Require Import ZArith Lia.
From stdpp Require Import base tactics numbers list gmap.
From S2P Require Import Prelude.
From S2P Require Import Std.
From S2P Require Import Types.
From S2P Require Import Wire.
From S2P Require Import Helpers.
From S2P Require Import Tracker.
From S2P Require Import Daemon.
Local Open Scope Z_scope.

(** ** Identifiers *)

Section Ids.
Context {A : Type}.
Implicit Types m : gmap Z A.

Lemma alloc_id_sound fuel next m id next' :
  is_u64 next -> alloc_id fuel next m = Some (id, next') ->
  m !! id = None /\ is_u64 id /\ is_u64 next'.
Proof.
  revert next; induction fuel as [|fuel IH]; intros next Hn Ha; simpl in Ha; [done |].
  destruct (m !! next) eqn:E.
  - by apply (IH (wrap64 (next + 1))); [apply wrap64_range |].
  - simplify_eq. auto using wrap64_range.
Qed.

(** The loop finds a free identifier no later than the first free one among
    its candidates. *)
Lemma alloc_id_finds fuel (i : nat) next m :
  is_u64 next -> m !! wrap64 (next + Z.of_nat i) = None -> (i < fuel)%nat ->
  is_Some (alloc_id fuel next m).
Proof.
  revert next i; induction fuel as [|fuel IH]; intros next i Hn Hi Hlt; [lia |]. simpl.
  destruct (m !! next) eqn:E; [| eauto].
  destruct i as [|i].
  { rewrite Z.add_0_r, wrap64_id in Hi by done. congruence. }
  apply (IH _ i); [apply wrap64_range | | lia].
  unfold wrap64 in *. rewrite Zplus_mod_idemp_l.
  by replace (next + 1 + Z.of_nat i) with (next + Z.of_nat (S i)) by lia.
Qed.

Lemma alloc_id_total next m :
  is_u64 next -> Z.of_nat (size m) < u64_modulus ->
  is_Some (alloc_id (S (size m)) next m).
Proof.
  intros Hn Hsz. destruct (candidates_free m next Hsz) as (i & Hi & Hm).
  eapply alloc_id_finds; eauto. lia.
Qed.
End Ids.
Global Arguments alloc_id : simpl never.

(** ** Clones of [Arc<FdData>] *)

(** Holder [h] has a clone of the [FdData] at [loc]. *)
Definition held (fds : gmap nat FdData) (h : holder) (loc : nat) : Prop :=
  exists d, fds !! loc = Some d /\ h ∈ holders d.

Record arcs_inv (fds : gmap nat FdData) (xl : ExitLock) (arcs : holder -> option nat) : Prop := {
  ai_held : forall h loc, arcs h = Some loc <-> held fds h loc;
  ai_nonempty : forall loc d, fds !! loc = Some d -> holders d <> ∅;
  ai_readers : rw_readers xl = size fds;
  ai_exit : rw_value xl = true -> fds = ∅ }.

(** Only the values of [arcs] matter. *)
#[export] Instance arcs_inv_proper fds xl :
  Proper (pointwise_relation holder eq ==> iff) (arcs_inv fds xl).
Proof.
  assert (forall f g, pointwise_relation holder eq f g -> arcs_inv fds xl f -> arcs_inv fds xl g) as H.
  { intros f g E [H1 H2 H3 H4]. split; [| done..]. intros h loc. by rewrite <- (E h). }
  intros f g E. split; eauto. apply H. by intros h.
Qed.

Definition arcs_set (arcs : holder -> option nat) (h : holder) (o : option nat)
  : holder -> option nat := fun h' => if decide (h' = h) then o else arcs h'.

Section Arcs.
Context {K B : Type} `{!Fcntl K}.
Implicit Types s : daemon K B.

Abbreviation lock_of s := (exit_lock (d_inner s)).

Lemma held_clone s loc h h' loc' :
  is_Some (d_fds s !! loc) ->
  held (d_fds (clone_arc s loc h)) h' loc' <-> held (d_fds s) h' loc' \/ (h' = h /\ loc' = loc).
Proof.
  intros [d Hd]. unfold held; simpl. destruct (decide (loc' = loc)) as [->|Hne].
  - rewrite lookup_alter_eq, Hd. simpl. split.
    + intros (? & [= <-] & [->%elem_of_singleton|Hin]%elem_of_union); eauto.
    + intros [(? & [= <-] & Hin)|[-> _]]; eexists; (split; [done |]); simpl; set_solver.
  - rewrite lookup_alter_ne by done. naive_solver.
Qed.

Lemma arcs_inv_clone s loc h arcs :
  arcs_inv (d_fds s) (lock_of s) arcs -> is_Some (d_fds s !! loc) -> arcs h = None ->
  arcs_inv (d_fds (clone_arc s loc h)) (lock_of s) (arcs_set arcs h (Some loc)).
Proof.
  intros [H1 H2 H3 H4] Hloc Hh. split.
  - intros h' loc'. rewrite held_clone by done. rewrite <- H1. unfold arcs_set.
    case_decide; naive_solver congruence.
  - simpl. intros loc' d'. rewrite lookup_alter_Some. intros [(<- & d & Hd & ->)|(? & ?)]; [| eauto].
    simpl. set_solver.
  - simpl. rewrite H3. rewrite <- !size_dom, dom_alter_L. done.
  - intros Hx. simpl. rewrite (H4 Hx) in *. destruct Hloc as [? []%lookup_empty_Some].
Qed.

Lemma held_drop s loc h h' loc' :
  held (d_fds (drop_arc s loc h)) h' loc' <-> held (d_fds s) h' loc' /\ ~ (h' = h /\ loc' = loc).
Proof.
  unfold drop_arc, held. destruct (d_fds s !! loc) as [d|] eqn:Hd; [| naive_solver congruence].
  case_bool_decide as He; simpl; destruct (decide (loc' = loc)) as [->|Hne].
  - rewrite lookup_delete_eq, Hd. split; [by intros (? & [=] & _) |].
    intros [(? & [= <-] & Hin) Hn]. exfalso.
    apply (not_elem_of_empty (C := gset holder) h'). rewrite <- He.
    apply elem_of_difference. split; [done |]. intros ->%elem_of_singleton. by apply Hn.
  - rewrite lookup_delete_ne by done. naive_solver.
  - rewrite lookup_insert_eq, Hd. split.
    + intros (? & [= <-] & [Hin Hn]%elem_of_difference). split; [eauto |].
      intros [-> _]. by apply Hn, elem_of_singleton.
    + intros [(? & [= <-] & Hin) Hn]. eexists. split; [done |]. apply elem_of_difference.
      split; [done |]. intros ->%elem_of_singleton. by apply Hn.
  - rewrite lookup_insert_ne by done. naive_solver.
Qed.

Lemma arcs_inv_drop s loc h arcs :
  arcs_inv (d_fds s) (lock_of s) arcs -> arcs h = Some loc ->
  arcs_inv (d_fds (drop_arc s loc h)) (lock_of (drop_arc s loc h)) (arcs_set arcs h None).
Proof.
  intros [H1 H2 H3 H4] Hh.
  assert (forall h' loc', arcs_set arcs h None h' = Some loc' <-> held (d_fds (drop_arc s loc h)) h' loc') as H1'.
  { intros h' loc'. rewrite held_drop, <- H1. unfold arcs_set. case_decide; naive_solver congruence. }
  destruct (proj1 (H1 h loc) Hh) as (d & Hd & Hin). split; [done | |..].
  all: unfold drop_arc; rewrite Hd; case_bool_decide as He; simpl.
  - intros loc' d' [_ ?]%lookup_delete_Some. eauto.
  - intros loc' d' [(<- & <-)|(_ & ?)]%lookup_insert_Some; eauto.
  - rewrite map_size_delete_Some, H3; eauto.
  - rewrite map_size_insert_Some, H3; eauto.
  - intros Hx. rewrite (H4 Hx). apply delete_empty.
  - intros Hx. by rewrite (H4 Hx) in Hd.
Qed.

Lemma arcs_inv_register s loc id fd arcs xl :
  arcs_inv (d_fds s) (lock_of s) arcs -> d_fds s !! loc = None -> arcs (HMap id) = None ->
  rw_value xl = false -> rw_readers xl = S (rw_readers (lock_of s)) ->
  arcs_inv (<[loc := mkFdData fd {[HMap id]}]> (d_fds s)) xl (arcs_set arcs (HMap id) (Some loc)).
Proof.
  intros [H1 H2 H3 H4] Hloc Hid Hv Hr. split.
  - intros h loc'. unfold arcs_set, held. specialize (H1 h loc'). unfold held in H1.
    destruct (decide (loc' = loc)) as [->|Hne].
    + rewrite lookup_insert_eq. case_decide as Hc.
      * subst h. split; [| done]. intros _. eexists. split; [done |]. simpl. by apply elem_of_singleton.
      * rewrite H1, Hloc. split; [by intros (? & [=] & _) |].
        intros (? & [= <-] & Hin). simpl in Hin. by apply elem_of_singleton in Hin.
    + rewrite lookup_insert_ne by done. case_decide; naive_solver congruence.
  - intros loc' d' [(<- & <-)|(_ & ?)]%lookup_insert_Some; [simpl; set_solver | eauto].
  - rewrite map_size_insert_None by done. by rewrite Hr, H3.
  - congruence.
Qed.
End Arcs.

(** ** The state of the process *)

Section State.
Context {K B : Type} `{!Fcntl K} `{!Backoff B}.
Implicit Types s : daemon K B.

Definition main_arc (m : main_pc) : option nat :=
  match m with
  | MCommand _ loc _ | MSpawning _ loc => Some loc
  | MInit | MReady | MEnded _ => None
  end.

Definition lock_arc (lt : LockThread) : option nat :=
  match lt_pc lt with
  | PDropped | PUntracked | PEnded => None
  | _ => Some (lt_loc lt)
  end.

Definition unreg_arc (u : unreg_pc B * Fd) : option nat :=
  match u.1 with
  | UBegin loc | UStop loc _ | UWait loc => Some loc
  | URemove _ | UReply _ => None
  end.

(** The clone that a holder is due to have. *)
Definition arc_of s (h : holder) : option nat :=
  match h with
  | HMap id => descriptors (d_inner s) !! id
  | HMain => main_arc (d_main s)
  | HLock t => d_locks s !! t ≫= lock_arc
  | HUnreg u => d_unregs s !! u ≫= unreg_arc
  end.

Record daemon_inv s : Prop := {
  di_arcs : arcs_inv (d_fds s) (exit_lock (d_inner s)) (arc_of s);
  (** the tracker of an [FdData] outlives it *)
  di_fd_tracker : forall loc d, d_fds s !! loc = Some d -> is_Some (d_trackers s !! loc);
  di_lock_tracker : forall t lt, d_locks s !! t = Some lt -> is_Some (d_trackers s !! lt_loc lt);
  di_spawning : forall t loc, d_main s = MSpawning t loc -> is_Some (d_locks s !! t);
  di_ids : is_u64 (next_id (d_inner s)) /\ is_u64 (interrupt_next_id (d_inner s));
  di_handles : forall id h, interrupts (d_inner s) !! id = Some h -> is_Some (d_locks s !! h_exit h);
  di_stopping : forall n h l p fd, d_intrs s !! n = Some (IStop h l, p, fd) ->
    is_Some (d_locks s !! h_exit h);
  (** [start] returns by itself only when it set the exit flag *)
  di_start : match d_start s with
             | SReturned _ => rw_value (exit_lock (d_inner s)) = true \/ exists r, d_main s = MEnded r
             | SFinished true => exists r, d_main s = MEnded r
             | SRecv | SFinished false | SExit => True
             end }.

Lemma daemon_inv_init k : daemon_inv (daemon_init k).
Proof.
  split; simpl; try done.
  - split; simpl; try done. intros h loc. unfold held. split.
    + by destruct h.
    + by intros (d & Hd & _).
Qed.

(** *** What the building blocks of a step change *)

Definition fds_drop (fds : gmap nat FdData) (loc : nat) (h : holder) : gmap nat FdData :=
  match fds !! loc with
  | None => fds
  | Some d =>
      if bool_decide (holders d ∖ {[h]} = ∅) then delete loc fds
      else <[loc := mkFdData (descriptor d) (holders d ∖ {[h]})]> fds
  end.

Definition lock_drop (fds : gmap nat FdData) (loc : nat) (h : holder) (xl : ExitLock) : ExitLock :=
  match fds !! loc with
  | None => xl
  | Some d =>
      if bool_decide (holders d ∖ {[h]} = ∅)
      then mkExitLock (rw_value xl) (pred (rw_readers xl)) else xl
  end.

Lemma drop_arc_fds s loc h : d_fds (drop_arc s loc h) = fds_drop (d_fds s) loc h.
Proof. unfold drop_arc, fds_drop. by repeat case_match. Qed.
Lemma drop_arc_exit s loc h :
  exit_lock (d_inner (drop_arc s loc h)) = lock_drop (d_fds s) loc h (exit_lock (d_inner s)).
Proof. unfold drop_arc, lock_drop. by repeat case_match. Qed.

(** The fields that dropping a clone leaves alone. *)
Lemma drop_arc_trackers s loc h : d_trackers (drop_arc s loc h) = d_trackers s.
Proof. unfold drop_arc. by repeat case_match. Qed.
Lemma drop_arc_main s loc h : d_main (drop_arc s loc h) = d_main s.
Proof. unfold drop_arc. by repeat case_match. Qed.
Lemma drop_arc_ttl s loc h : d_ttl (drop_arc s loc h) = d_ttl s.
Proof. unfold drop_arc. by repeat case_match. Qed.
Lemma drop_arc_start s loc h : d_start (drop_arc s loc h) = d_start s.
Proof. unfold drop_arc. by repeat case_match. Qed.
Lemma drop_arc_locks s loc h : d_locks (drop_arc s loc h) = d_locks s.
Proof. unfold drop_arc. by repeat case_match. Qed.
Lemma drop_arc_unregs s loc h : d_unregs (drop_arc s loc h) = d_unregs s.
Proof. unfold drop_arc. by repeat case_match. Qed.
Lemma drop_arc_intrs s loc h : d_intrs (drop_arc s loc h) = d_intrs s.
Proof. unfold drop_arc. by repeat case_match. Qed.
Lemma drop_arc_events s loc h : d_events (drop_arc s loc h) = d_events s.
Proof. unfold drop_arc. by repeat case_match. Qed.
Lemma drop_arc_descriptors s loc h :
  descriptors (d_inner (drop_arc s loc h)) = descriptors (d_inner s).
Proof. unfold drop_arc. by repeat case_match. Qed.
Lemma drop_arc_interrupts s loc h :
  interrupts (d_inner (drop_arc s loc h)) = interrupts (d_inner s).
Proof. unfold drop_arc. by repeat case_match. Qed.
Lemma drop_arc_next_id s loc h :
  next_id (d_inner (drop_arc s loc h)) = next_id (d_inner s).
Proof. unfold drop_arc. by repeat case_match. Qed.
Lemma drop_arc_interrupt_next_id s loc h :
  interrupt_next_id (d_inner (drop_arc s loc h)) = interrupt_next_id (d_inner s).
Proof. unfold drop_arc. by repeat case_match. Qed.
Lemma lock_drop_value fds loc h xl : rw_value (lock_drop fds loc h xl) = rw_value xl.
Proof. unfold lock_drop. by repeat case_match. Qed.

Lemma pthread_kill_arc ls p t : (pthread_kill ls p !! t ≫= lock_arc) = (ls !! t ≫= lock_arc).
Proof.
  unfold pthread_kill. rewrite lookup_fmap. destruct (ls !! t) as [lt|]; simpl; [| done].
  by case_bool_decide.
Qed.

(** A signal changes one flag of a thread, nothing else. *)
Lemma kill_locks ps (ls : gmap nat LockThread) t lt :
  foldl pthread_kill ls ps !! t = Some lt ->
  exists lt', ls !! t = Some lt' /\ lt_loc lt = lt_loc lt' /\ lt_pc lt = lt_pc lt' /\
    lt_exited lt = lt_exited lt' /\ lt_reply lt = lt_reply lt' /\
    lt_pthread lt = lt_pthread lt' /\ lt_params lt = lt_params lt'.
Proof.
  revert ls; induction ps as [|p ps IH]; intros ls H; simpl in H.
  { exists lt. by split_and!. }
  apply IH in H as (lt1 & H & E). unfold pthread_kill in H. rewrite lookup_fmap in H.
  destruct (ls !! t) as [lt0|]; simplify_eq/=. exists lt0. split; [done |].
  by case_bool_decide.
Qed.

Lemma kill_is_Some ps (ls : gmap nat LockThread) t :
  is_Some (ls !! t) -> is_Some (foldl pthread_kill ls ps !! t).
Proof.
  revert ls; induction ps as [|p ps IH]; intros ls H; simpl; [done |]. apply IH.
  unfold pthread_kill. rewrite lookup_fmap. by apply fmap_is_Some.
Qed.

Lemma kill_arc ps (ls : gmap nat LockThread) t :
  (foldl pthread_kill ls ps !! t ≫= lock_arc) = (ls !! t ≫= lock_arc).
Proof.
  revert ls; induction ps as [|p ps IH]; intros ls; simpl; [done |].
  by rewrite IH, pthread_kill_arc.
Qed.

(** *** The accounting of the clones, step by step *)

Definition arcs_ok s : Prop := arcs_inv (d_fds s) (exit_lock (d_inner s)) (arc_of s).

Lemma arcs_ok_frame s s' :
  arcs_ok s -> d_fds s' = d_fds s -> exit_lock (d_inner s') = exit_lock (d_inner s) ->
  (forall h, arc_of s' h = arc_of s h) -> arcs_ok s'.
Proof.
  unfold arcs_ok. intros H -> -> Ha. by rewrite (Ha : pointwise_relation _ eq _ _).
Qed.

Lemma arcs_ok_drop s s' loc h :
  arcs_ok s -> arc_of s h = Some loc -> d_fds s' = fds_drop (d_fds s) loc h ->
  exit_lock (d_inner s') = lock_drop (d_fds s) loc h (exit_lock (d_inner s)) ->
  (forall h', arc_of s' h' = arcs_set (arc_of s) h None h') -> arcs_ok s'.
Proof.
  unfold arcs_ok. intros H Hh -> -> Ha. rewrite (Ha : pointwise_relation _ eq _ _).
  rewrite <- drop_arc_fds, <- drop_arc_exit. by apply arcs_inv_drop.
Qed.

Lemma arcs_ok_clone s s' loc h :
  arcs_ok s -> is_Some (d_fds s !! loc) -> arc_of s h = None ->
  d_fds s' = d_fds (clone_arc s loc h) ->
  exit_lock (d_inner s') = exit_lock (d_inner s) ->
  (forall h', arc_of s' h' = arcs_set (arc_of s) h (Some loc) h') -> arcs_ok s'.
Proof.
  unfold arcs_ok. intros H Hl Hh -> -> Ha. rewrite (Ha : pointwise_relation _ eq _ _).
  by apply arcs_inv_clone.
Qed.

(** A clone that is due points to a live [FdData]. *)
Lemma arcs_ok_live s h loc : arcs_ok s -> arc_of s h = Some loc -> is_Some (d_fds s !! loc).
Proof. intros H Hh. apply (ai_held _ _ _ H) in Hh as (d & Hd & _). eauto. Qed.
End State.

Create HintDb daemon.
#[export] Hint Rewrite @drop_arc_fds @drop_arc_exit @drop_arc_trackers @drop_arc_main @drop_arc_ttl
  @drop_arc_start @drop_arc_locks @drop_arc_unregs @drop_arc_intrs @drop_arc_events
  @drop_arc_descriptors @drop_arc_interrupts @drop_arc_next_id @drop_arc_interrupt_next_id
  @lock_drop_value @kill_arc : daemon.

(** Simplify projections of a state built by the operations. *)
Ltac daemon_simpl := repeat (progress (simpl in *; autorewrite with daemon in *)).

(** Two descriptions of who holds a clone agree. *)
Ltac solve_arcs :=
  intros [?| |?|?]; unfold arcs_set; daemon_simpl; repeat case_decide; simplify_eq;
  try done; simplify_map_eq; try done; by autorewrite with daemon.

Section Arcs_steps.
Context {K B : Type} `{!Fcntl K} `{!Backoff B}.
Implicit Types s : daemon K B.

(** The fields the accounting reads. *)
Definition core s :=
  (d_fds s, exit_lock (d_inner s), descriptors (d_inner s), d_main s, d_locks s, d_unregs s).

Lemma arc_of_core s s1 : core s1 = core s -> forall h, arc_of s1 h = arc_of s h.
Proof. unfold core. intros [= ? ? E1 E2 E3 E4] h. unfold arc_of. by rewrite E1, E2, E3, E4. Qed.

Lemma arcs_ok_core s s1 : core s1 = core s -> arcs_ok s -> arcs_ok s1.
Proof.
  intros E H. apply (arcs_ok_frame s); [done | | | by apply arc_of_core]; unfold core in E; congruence.
Qed.

(** A locking thread moves and keeps or has no clone. *)
Lemma arcs_ok_put_lock s s1 t lt lt' :
  arcs_ok s -> core s1 = core s -> d_locks s !! t = Some lt -> lock_arc lt' = lock_arc lt ->
  arcs_ok (put_lock s1 t lt').
Proof.
  intros H E Ht Ha. apply (arcs_ok_core s s1) in H; [| done].
  assert (d_locks s1 = d_locks s) as El by (unfold core in E; congruence). rewrite <- El in Ht.
  apply (arcs_ok_frame s1); [done.. |].
  intros [?| |t'|?]; simpl; try done.
  destruct (decide (t' = t)) as [->|]; simplify_map_eq; [| done]. by rewrite Ha.
Qed.

(** A locking thread drops its clone. *)
Lemma arcs_ok_lock_drop s s1 t lt lt' :
  arcs_ok s -> core s1 = core s -> d_locks s !! t = Some lt -> lock_arc lt = Some (lt_loc lt) ->
  lock_arc lt' = None -> arcs_ok (put_lock (drop_arc s1 (lt_loc lt) (HLock t)) t lt').
Proof.
  intros H E Ht Ha Ha'. apply (arcs_ok_core s s1) in H; [| done].
  assert (d_locks s1 = d_locks s) as El by (unfold core in E; congruence). rewrite <- El in Ht.
  apply (arcs_ok_drop s1 _ (lt_loc lt) (HLock t)); [done | | daemon_simpl; done.. |].
  - simpl. by rewrite Ht.
  - intros [?| |t'|?]; unfold arcs_set; daemon_simpl; try done.
    destruct (decide (t' = t)) as [->|]; simplify_map_eq; by repeat case_decide; simplify_eq.
Qed.

Lemma lock_step_arcs s t masked interrupt s' :
  arcs_ok s -> lock_thread_step s t masked interrupt = Some s' -> arcs_ok s'.
Proof.
  intros H Hs. unfold lock_thread_step in Hs.
  destruct (d_locks s !! t) as [lt|] eqn:Ht; [| done].
  destruct (lt_pc lt) eqn:Hpc;
    unfold set_lock_try, set_lock_candidate, set_lock_entry, set_lock_window, set_lock_wait,
      handle_interrupt_add_candidate, handle_interrupt_add_entry, lock_return in Hs;
    repeat (case_match; try discriminate Hs); simplify_eq;
    first [ eapply arcs_ok_put_lock; [exact H | reflexivity | exact Ht |]
          | eapply arcs_ok_lock_drop; [exact H | reflexivity | exact Ht | |] ];
    unfold lock_arc; simpl; by rewrite ?Hpc.
Qed.

Lemma arcs_ok_put_unreg s s1 u pc fd o :
  arcs_ok s -> core s1 = core s -> d_unregs s !! u = o -> unreg_arc (pc, fd) = (o ≫= unreg_arc) ->
  arcs_ok (put_unreg s1 u pc fd).
Proof.
  intros H E Hu Ha. apply (arcs_ok_core s s1) in H; [| done].
  assert (d_unregs s1 = d_unregs s) as El by (unfold core in E; congruence). rewrite <- El in Hu.
  apply (arcs_ok_frame s1); [done.. |].
  intros [?| |?|u']; simpl; try done.
  destruct (decide (u' = u)) as [->|]; simplify_map_eq; [| done]. by rewrite Ha.
Qed.

(** Taking an entry out of the map moves the clone to the thread. *)
Lemma arcs_ok_remove s u id loc fd pc0 :
  arcs_ok s -> d_unregs s !! u = Some (pc0, fd) -> unreg_arc (pc0, fd) = None ->
  descriptors (d_inner s) !! id = Some loc ->
  arcs_ok (put_unreg (drop_arc
    (set_inner (clone_arc s loc (HUnreg u))
       (with_descriptors (d_inner s) (next_id (d_inner s)) (delete id (descriptors (d_inner s)))))
    loc (HMap id)) u (UBegin loc) fd).
Proof.
  intros H Hu Hn Hid.
  assert (arcs_ok (put_unreg (clone_arc s loc (HUnreg u)) u (UBegin loc) fd)) as H1.
  { apply (arcs_ok_clone s _ loc (HUnreg u)); simpl; try done.
    - by apply (arcs_ok_live s (HMap id)).
    - by rewrite Hu.
    - intros [?| |?|u']; unfold arcs_set; simpl; try done.
      destruct (decide (u' = u)) as [->|]; simplify_map_eq; by repeat case_decide; simplify_eq. }
  apply (arcs_ok_drop _ _ loc (HMap id) H1); daemon_simpl; try done.
  intros [id'| |?|u']; unfold arcs_set; daemon_simpl; try done.
  destruct (decide (id' = id)) as [->|]; simplify_map_eq; by repeat case_decide; simplify_eq.
Qed.

Lemma arcs_ok_unreg_drop s u loc fd r :
  arcs_ok s -> d_unregs s !! u = Some (UWait loc, fd) ->
  arcs_ok (put_unreg (drop_arc s loc (HUnreg u)) u (UReply r) fd).
Proof.
  intros H Hu. apply (arcs_ok_drop s _ loc (HUnreg u) H); daemon_simpl; try done.
  - by rewrite Hu.
  - intros [?| |?|u']; unfold arcs_set; daemon_simpl; try done.
    destruct (decide (u' = u)) as [->|]; simplify_map_eq; by repeat case_decide; simplify_eq.
Qed.

Lemma arcs_ok_unreg_end s s1 u r fd :
  arcs_ok s -> core s1 = core s -> d_unregs s !! u = Some (UReply r, fd) ->
  arcs_ok (set_unregs s1 (delete u (d_unregs s))).
Proof.
  intros H E Hu. apply (arcs_ok_core s s1) in H; [| done].
  assert (d_unregs s1 = d_unregs s) as El by (unfold core in E; congruence). rewrite <- El in *.
  apply (arcs_ok_frame s1); [done.. |].
  intros [?| |?|u']; simpl; try done.
  destruct (decide (u' = u)) as [->|]; by simplify_map_eq.
Qed.

Lemma kill_all_arcs s ps : arcs_ok s -> arcs_ok (kill_all s ps).
Proof. intros H. apply (arcs_ok_frame s); try done. solve_arcs. Qed.

Lemma unreg_step_arcs s u fails s' :
  arcs_ok s -> handle_fd_unregister s u fails = Some s' -> arcs_ok s'.
Proof.
  intros H Hs. unfold handle_fd_unregister in Hs.
  destruct (d_unregs s !! u) as [[[id|loc|loc l|loc|r] fd]|] eqn:Hu; [..| done].
  - case_match; simplify_eq; [by eapply arcs_ok_remove |].
    by eapply arcs_ok_put_unreg.
  - case_match; simplify_eq. by eapply arcs_ok_put_unreg.
  - repeat case_match; simplify_eq.
    + eapply (arcs_ok_put_unreg (kill_all s _)); [by apply kill_all_arcs | done | exact Hu | done].
    + by eapply arcs_ok_put_unreg.
  - repeat case_match; simplify_eq; [by eapply arcs_ok_unreg_drop | done].
  - simplify_eq. by eapply arcs_ok_unreg_end.
Qed.

Lemma arcs_ok_set_main s s1 m :
  arcs_ok s -> core s1 = core s -> main_arc m = main_arc (d_main s) -> arcs_ok (set_main s1 m).
Proof.
  intros H E Ha. apply (arcs_ok_core s s1) in H; [| done].
  apply (arcs_ok_frame s1); [done.. |]. intros [?| |?|?]; simpl; try done.
  rewrite Ha. unfold core in E. by assert (d_main s1 = d_main s) as -> by congruence.
Qed.

Lemma arcs_ok_main_drop s s1 s' loc :
  arcs_ok s -> core s1 = core s -> main_arc (d_main s) = Some loc ->
  core s' = core (set_main (drop_arc s1 loc HMain) MReady) -> arcs_ok s'.
Proof.
  intros H E Ha E'. apply (arcs_ok_core _ s' E'). apply (arcs_ok_core s s1) in H; [| done].
  assert (d_main s1 = d_main s) as El by (unfold core in E; congruence).
  apply (arcs_ok_drop s1 _ loc HMain H); daemon_simpl; try done.
  - by rewrite El.
  - intros [?| |?|?]; unfold arcs_set; daemon_simpl; by repeat case_decide.
Qed.

Lemma command_arcs s c loc fd e s' :
  arcs_ok s -> d_main s = MCommand c loc fd -> lock_command_run s c loc fd e = Some s' -> arcs_ok s'.
Proof.
  intros H Hm Hs. unfold lock_command_run in Hs.
  repeat (case_match; try discriminate Hs); simplify_eq;
    try (eapply arcs_ok_main_drop; [exact H | reflexivity | by rewrite Hm |];
         unfold core; daemon_simpl; reflexivity).
  apply (arcs_ok_clone s _ loc (HLock (e_name e))); [done | by eauto | | done | done |].
  { simpl. by simplify_map_eq. }
  intros [?| |t'|?]; unfold arcs_set; simpl; try done; [by rewrite Hm |].
  destruct (decide (t' = e_name e)) as [->|]; simplify_map_eq; by repeat case_decide; simplify_eq.
Qed.

Lemma register_arcs s m e r s' :
  arcs_ok s -> (forall loc d, d_fds s !! loc = Some d -> is_Some (d_trackers s !! loc)) ->
  is_u64 (next_id (d_inner s)) ->
  handle_fd_register s m e = Some (r, s') -> arcs_ok s'.
Proof.
  intros H Ht Hn Hs. unfold handle_fd_register, acquire_exit_lock in Hs.
  destruct (rw_value (exit_lock (d_inner s))) eqn:Hv.
  { simplify_eq. by eapply arcs_ok_core. }
  destruct (e_sigaction e); simpl in Hs; cycle 1.
  { simplify_eq. apply (arcs_ok_frame s); try done. simpl.
    rewrite <- Hv. by destruct (exit_lock (d_inner s)). }
  destruct (alloc_id (S (size (descriptors (d_inner s)))) (next_id (d_inner s))
                     (descriptors (d_inner s))) as [[id next]|] eqn:Ha; [| by case_match].
  destruct (d_trackers s !! e_name e) eqn:Hloc; [done |]. simplify_eq.
  apply alloc_id_sound in Ha as (Hid & _); [| done].
  assert (d_fds s !! e_name e = None) as Hfree.
  { apply eq_None_not_Some. intros [d Hd]. apply Ht in Hd as [? ?]. congruence. }
  pose proof (arcs_inv_register s (e_name e) id (Register.fd m) (arc_of s)
    (mkExitLock false (S (rw_readers (exit_lock (d_inner s))))) H Hfree Hid eq_refl eq_refl) as H'.
  unfold arcs_ok; simpl. eapply arcs_inv_proper; [| exact H'].
  intros [id'| |?|?]; unfold arcs_set; simpl; try done.
  destruct (decide (id' = id)) as [->|]; simplify_map_eq; by repeat case_decide; simplify_eq.
Qed.

Lemma receive_arcs s r e s' :
  daemon_inv s -> d_main s = MReady -> owner_receiving_loop s r e = Some s' -> arcs_ok s'.
Proof.
  intros [H Ht _ _ [Hn _] _ _ _] Hm Hs. unfold owner_receiving_loop in Hs.
  destruct r as [[[msg fd]|err]|]; cycle 1.
  { repeat case_match; simplify_eq; try (by eapply arcs_ok_core);
      (eapply arcs_ok_set_main; [exact H | done | by rewrite Hm]). }
  { simplify_eq. eapply arcs_ok_set_main; [exact H | done | by rewrite Hm]. }
  destruct msg; simpl in Hs.
  - simplify_eq. by eapply arcs_ok_core.
  - repeat (case_match; try discriminate Hs); simplify_eq; [by eapply arcs_ok_core |].
    eapply arcs_ok_set_main; [exact H | done | by rewrite Hm].
  - unfold handle_interrupt_remove in Hs. repeat case_match; simplify_eq; by eapply arcs_ok_core.
  - destruct (handle_fd_register (set_ttl s true) m e) as [[r s1]|] eqn:E; simplify_eq.
    assert (arcs_ok s1) as H1; [| by eapply arcs_ok_core].
    by eapply (register_arcs (set_ttl s true)).
  - repeat (case_match; try discriminate Hs); simplify_eq.
    + eapply arcs_ok_put_unreg; [exact H | done.. |]. by simplify_map_eq.
    + eapply arcs_ok_set_main; [exact H | done | by rewrite Hm].
  - unfold handle_lock_command in Hs. case_match; simplify_eq; [| by eapply arcs_ok_core].
    apply (arcs_ok_clone s _ n HMain); try done.
    + by apply (arcs_ok_live s (HMap (LockCommand.id m))).
    + simpl. by rewrite Hm.
    + intros [?| |?|?]; unfold arcs_set; simpl; by repeat case_decide.
Qed.

Lemma start_arcs s s' : arcs_ok s -> start_iter s = Some s' -> arcs_ok s'.
Proof.
  intros H Hs. unfold start_iter, try_exit in Hs.
  repeat (case_match; try discriminate Hs); simplify_eq; try (by eapply arcs_ok_core).
  all: destruct H as [Ha Hb Hc Hd]; simpl in Hc;
    assert (d_fds s = ∅) as He by (apply map_size_empty_inv; congruence).
  all: split; simpl; [exact Ha | exact Hb | by rewrite He | done].
Qed.

Lemma daemon_step_arcs s l s' : daemon_inv s -> daemon_step s l = Some s' -> arcs_ok s'.
Proof.
  intros HI Hs. pose proof (di_arcs _ HI) as H. destruct l; simpl in Hs.
  - simplify_eq. by eapply arcs_ok_core.
  - destruct (d_main s) eqn:Hm; try done.
    case_match; simplify_eq; (eapply arcs_ok_set_main; [exact H | done | by rewrite Hm]).
  - case_match; try done. by eapply receive_arcs.
  - case_match; try done. by eapply command_arcs.
  - destruct (d_main s) eqn:Hm; try done. unfold lock_command_spawned in Hs.
    repeat (case_match; try discriminate Hs); simplify_eq.
    eapply arcs_ok_main_drop; [exact H | done | by rewrite Hm | done].
  - by eapply lock_step_arcs.
  - by eapply unreg_step_arcs.
  - unfold handle_interrupt in Hs. repeat (case_match; try discriminate Hs); simplify_eq;
      try (by eapply arcs_ok_core).
    apply (arcs_ok_core (kill_all s [h_thread h])); [done |]. by apply kill_all_arcs.
  - by eapply start_arcs.
Qed.
End Arcs_steps.

(** ** The rest of the invariant *)

(** All the ways a step can go, from [Hs : daemon_step s l = Some s']. *)
Ltac step_cases Hs :=
  unfold daemon_step, owner_receiving_loop, lock_command_run, lock_command_spawned,
    lock_thread_step, set_lock_try, set_lock_candidate, set_lock_entry, set_lock_window, set_lock_wait,
    handle_fd_unregister, handle_interrupt, start_iter, handle_lock_command, handle_fd_register,
    handle_interrupt_add_candidate, handle_interrupt_add_entry, handle_interrupt_remove, acquire_exit_lock, try_exit, lock_return in Hs;
  repeat (case_match; simpl in *; try discriminate; simplify_eq);
  simplify_eq; daemon_simpl.

Section Rest.
Context {K B : Type} `{!Fcntl K} `{!Backoff B}.
Implicit Types s : daemon K B.

(** Trackers and locking threads are never forgotten. *)
Lemma step_trackers s l s' loc :
  daemon_step s l = Some s' -> is_Some (d_trackers s !! loc) -> is_Some (d_trackers s' !! loc).
Proof.
  intros Hs Ht. destruct l; step_cases Hs; try done; apply lookup_insert_is_Some'; by right.
Qed.

Lemma step_locks s l s' t :
  daemon_step s l = Some s' -> is_Some (d_locks s !! t) -> is_Some (d_locks s' !! t).
Proof.
  intros Hs Ht. destruct l; step_cases Hs; try done;
    first [apply lookup_insert_is_Some'; by right | by apply kill_is_Some | by apply (kill_is_Some [_])].
Qed.

Lemma fds_drop_Some fds loc h loc' :
  is_Some (fds_drop fds loc h !! loc') -> is_Some (fds !! loc').
Proof.
  unfold fds_drop. case_match eqn:E; [| done]. case_bool_decide.
  - intros [? [_ ?]%lookup_delete_Some]. eauto.
  - intros [[= ->]|?]%lookup_insert_is_Some'; eauto.
Qed.

(** A new [FdData] comes with its tracker. *)
Lemma step_fds s l s' loc :
  daemon_step s l = Some s' -> is_Some (d_fds s' !! loc) ->
  is_Some (d_fds s !! loc) \/ is_Some (d_trackers s' !! loc).
Proof.
  intros Hs Ht. destruct l; step_cases Hs; auto.
  all: try (apply fds_drop_Some in Ht); auto.
  all: try (apply lookup_alter_is_Some in Ht); auto.
  all: apply lookup_insert_is_Some' in Ht as [->|Ht]; auto.
  all: right; apply lookup_insert_is_Some'; auto.
Qed.

Lemma step_lock_loc s l s' t lt' :
  daemon_inv s -> daemon_step s l = Some s' -> d_locks s' !! t = Some lt' ->
  (exists lt, d_locks s !! t = Some lt /\ lt_loc lt' = lt_loc lt) \/
  is_Some (d_fds s !! lt_loc lt').
Proof.
  intros HI Hs Ht. destruct l; step_cases Hs; eauto.
  all: try (apply (kill_locks [_]) in Ht as (lt0 & Ht & E & _); by eauto).
  all: try (apply kill_locks in Ht as (lt0 & Ht & E & _); by eauto).
  all: apply lookup_insert_Some in Ht as [(<- & <-)|(_ & Ht)]; simpl; eauto.
Qed.

Lemma step_spawning s l s' t loc :
  daemon_inv s -> daemon_step s l = Some s' -> d_main s' = MSpawning t loc -> is_Some (d_locks s' !! t).
Proof.
  intros HI Hs Hm.
  assert (d_main s = MSpawning t loc \/ is_Some (d_locks s' !! t)) as [?|?]; [| | done].
  - destruct l; step_cases Hs; auto; try congruence; [| left; congruence..].
    right. simplify_eq. apply lookup_insert_is_Some'. auto.
  - eapply step_locks; [done |]. by eapply di_spawning.
Qed.

Lemma step_ids s l s' :
  daemon_inv s -> daemon_step s l = Some s' ->
  is_u64 (next_id (d_inner s')) /\ is_u64 (interrupt_next_id (d_inner s')).
Proof.
  intros HI Hs. pose proof (di_ids _ HI) as [Hn Hi].
  destruct l; step_cases Hs; auto; split; auto using wrap64_range.
  all: match goal with E : alloc_id _ _ _ = Some _ |- _ => by apply alloc_id_sound in E as (_ & _ & ?) end.
Qed.

Lemma step_handles s l s' id h :
  daemon_inv s -> daemon_step s l = Some s' -> interrupts (d_inner s') !! id = Some h ->
  is_Some (d_locks s' !! h_exit h).
Proof.
  intros HI Hs Hid.
  assert (interrupts (d_inner s) !! id = Some h \/ is_Some (d_locks s' !! h_exit h)) as [?|?]; [| | done].
  - destruct l; step_cases Hs; auto.
    + by apply lookup_delete_Some in Hid as [_ ?]; left.
    + apply lookup_insert_Some in Hid as [(_ & <-)|(_ & ?)]; [right | by left].
      apply lookup_insert_is_Some'. by left.
  - eapply step_locks; [done |]. by eapply di_handles.
Qed.

Lemma step_stopping s l s' n h lo p fd :
  daemon_inv s -> daemon_step s l = Some s' -> d_intrs s' !! n = Some (IStop h lo, p, fd) ->
  is_Some (d_locks s' !! h_exit h).
Proof.
  intros HI Hs Hn.
  assert ((exists lo, d_intrs s !! n = Some (IStop h lo, p, fd)) \/ is_Some (d_locks s !! h_exit h))
    as [[lo' Hlo]|?]; cycle 1.
  - eapply step_locks; [done |]. by eapply di_stopping.
  - by eapply step_locks.
  - destruct l; step_cases Hs; eauto.
    all: try (apply lookup_delete_Some in Hn as [_ Hn]; by eauto).
    all: apply lookup_insert_Some in Hn as [(<- & [= ])|(_ & Hn)]; simplify_eq; eauto.
    right. unfold handle_interrupt_get, ok_or in *. case_match; simplify_eq. by eapply di_handles.
Qed.

(** The receiving loop, once ended, stays so. *)
Lemma step_main_ended s l s' :
  daemon_step s l = Some s' -> (exists r, d_main s = MEnded r) -> exists r, d_main s' = MEnded r.
Proof. intros Hs [r Hm]. destruct l; step_cases Hs; eauto; congruence. Qed.

(** The exit flag, once set, stays set. *)
Lemma step_exit_flag s l s' :
  daemon_step s l = Some s' -> rw_value (exit_lock (d_inner s)) = true ->
  rw_value (exit_lock (d_inner s')) = true.
Proof. intros Hs Hx. destruct l; step_cases Hs; auto. Qed.

(** Only the loop of [start] moves it. *)
Lemma step_start_moves s l s' :
  daemon_step s l = Some s' -> d_start s' = d_start s \/ (l = DStart /\ start_iter s = Some s').
Proof. intros Hs. destruct l; [step_cases Hs; auto.. | auto]. Qed.

Lemma step_start s l s' :
  daemon_inv s -> daemon_step s l = Some s' ->
  match d_start s' with
  | SReturned _ => rw_value (exit_lock (d_inner s')) = true \/ exists r, d_main s' = MEnded r
  | SFinished true => exists r, d_main s' = MEnded r
  | SRecv | SFinished false | SExit => True
  end.
Proof.
  intros HI Hs. destruct (step_start_moves s l s' Hs) as [->|[-> Hi]].
  - pose proof (di_start _ HI) as H. destruct (d_start s) as [|[]| |r]; try done.
    + by eapply step_main_ended.
    + destruct H; [left; by eapply step_exit_flag | right; by eapply step_main_ended].
  - unfold start_iter, try_exit in Hi.
    repeat (case_match; try discriminate Hi); simplify_eq/=; eauto; congruence.
Qed.

Lemma daemon_step_inv s l s' : daemon_inv s -> daemon_step s l = Some s' -> daemon_inv s'.
Proof.
  intros HI Hs. split.
  - by eapply daemon_step_arcs.
  - intros loc d Hd. destruct (step_fds s l s' loc) as [[d' Hd']|]; [done | by eauto | | done].
    eapply step_trackers; [done |]. by eapply di_fd_tracker.
  - intros t lt Ht. eapply step_trackers; [done |].
    destruct (step_lock_loc s l s' t lt) as [(lt0 & Hl & ->)|[d Hd]]; try done.
    + by eapply di_lock_tracker.
    + by eapply di_fd_tracker.
  - intros t loc. by eapply step_spawning.
  - by eapply step_ids.
  - intros id h. by eapply step_handles.
  - intros n h lo p fd. by eapply step_stopping.
  - by eapply step_start.
Qed.

Lemma daemon_reachable_inv k s : reachable daemon_step (daemon_init k) s -> daemon_inv s.
Proof. apply reachable_invariant; eauto using daemon_step_inv, daemon_inv_init. Qed.

Lemma step_start_stays s l s' r :
  daemon_step s l = Some s' -> d_start s = SReturned r -> d_start s' = SReturned r.
Proof.
  intros Hs Hr. destruct (step_start_moves s l s' Hs) as [->|[-> Hi]]; [done |].
  unfold start_iter in Hi. by rewrite Hr in Hi.
Qed.

(** A freed [FdData] is not used again. *)
Lemma step_freed s l s' loc :
  daemon_inv s -> daemon_step s l = Some s' -> is_Some (d_trackers s !! loc) ->
  d_fds s !! loc = None -> d_fds s' !! loc = None.
Proof.
  intros HI Hs [tr Ht] Hf. apply eq_None_not_Some. intros Hd.
  assert (is_Some (d_fds s !! loc)) as [? ?]; [| congruence].
  destruct l; step_cases Hs; auto.
  all: try (apply fds_drop_Some in Hd); auto.
  all: try (apply lookup_alter_is_Some in Hd); auto.
  all: apply lookup_insert_is_Some' in Hd as [E|Hd]; auto; subst; congruence.
Qed.
End Rest.
