(* ===== verification/DaemonHandles.v ===== *)
(** * Interrupt handles of the owner process

    A handle that is stored in the map of interrupts, or being stopped, belongs
    to a thread that has its guard and whose [pthread_t] it carries; running
    threads have different [pthread_t]s. *)

From Stdlib Require Import ZArith Lia.
From stdpp Require Import base tactics numbers list gmap.
From S2P Require Import Prelude.
From S2P Require Import Std.
From S2P Require Import Types.
From S2P Require Import Wire.
From S2P Require Import Helpers.
From S2P Require Import Tracker.
From S2P Require Import Daemon.
From S2P Require Import DaemonInv.
Local Open Scope Z_scope.

(** ** Handles of locking threads *)

Section Handles.
Context {K B : Type} `{!Fcntl K} `{!Backoff B}.
Implicit Types s : daemon K B.

(** A thread past the creation of its guard whose exit flag is set exactly
    when it has ended. *)
Definition guarded (lt : LockThread) : Prop :=
  match lt_pc lt with
  | PTrack | PRefused => False
  | PEnded => lt_exited lt = true
  | _ => lt_exited lt = false
  end.

Definition handle_ok s (h : InterruptibleHandle) : Prop :=
  exists lt, d_locks s !! h_exit h = Some lt /\ lt_pthread lt = h_thread h /\ guarded lt.

Record handles_inv s : Prop := {
  hi_exited : forall t lt, d_locks s !! t = Some lt -> lt_exited lt = true -> lt_pc lt = PEnded;
  hi_map : forall id h, interrupts (d_inner s) !! id = Some h -> handle_ok s h;
  hi_stop : forall n h l p fd, d_intrs s !! n = Some (IStop h l, p, fd) -> handle_ok s h;
  hi_distinct : forall n pc p fd t lt, d_intrs s !! n = Some (pc, p, fd) ->
    d_locks s !! t = Some lt -> lt_pc lt <> PEnded -> lt_pthread lt <> p }.

Lemma handles_inv_init k : handles_inv (daemon_init k).
Proof. split; simpl; intros; by simplify_map_eq. Qed.

Lemma kill_locks_fwd ps (ls : gmap nat LockThread) t lt :
  ls !! t = Some lt ->
  exists lt', foldl pthread_kill ls ps !! t = Some lt' /\ lt_pc lt' = lt_pc lt /\
    lt_exited lt' = lt_exited lt /\ lt_pthread lt' = lt_pthread lt.
Proof.
  intros Ht. destruct (kill_is_Some ps ls t) as [lt' Ht']; [by eauto |]. exists lt'.
  split; [done |]. apply kill_locks in Ht' as (lt0 & Ht0 & E). simplify_eq. naive_solver.
Qed.

Lemma step_exited s l s' t lt :
  handles_inv s -> daemon_step s l = Some s' -> d_locks s' !! t = Some lt ->
  lt_exited lt = true -> lt_pc lt = PEnded.
Proof.
  intros [H _ _ _] Hs Ht Hx. destruct l; step_cases Hs; eauto.
  all: try (apply (kill_locks [_]) in Ht as (lt0 & Ht & _ & -> & E & _); rewrite E in Hx; by eauto).
  all: try (apply kill_locks in Ht as (lt0 & Ht & _ & -> & E & _); rewrite E in Hx; by eauto).
  all: apply lookup_insert_Some in Ht as [(<- & <-)|(_ & Ht)]; simpl in *; eauto; try congruence.
  all: match goal with E : d_locks _ !! _ = Some ?lt |- _ => pose proof (H _ lt E Hx) end; congruence.
Qed.

(** A guarded thread stays the thread of its handles. *)
Lemma step_handle_ok s l s' h :
  handles_inv s -> daemon_step s l = Some s' -> handle_ok s h -> handle_ok s' h.
Proof.
  intros HI Hs (lt & Ht & Hp & Hg). unfold handle_ok.
  destruct l; step_cases Hs; eauto.
  all: try (destruct (kill_locks_fwd [h_thread h0] _ _ _ Ht) as (lt' & E1 & E2 & E3 & E4);
            exists lt'; unfold guarded; rewrite E2, E3, E4; by eauto).
  all: try (edestruct kill_locks_fwd as (lt' & E1 & E2 & E3 & E4); [exact Ht |];
            exists lt'; unfold guarded; rewrite E2, E3, E4; by eauto).
  all: match goal with
       | |- exists lt', <[?t := _]> _ !! _ = _ /\ _ =>
           destruct (decide (t = h_exit h)) as [E|Hne];
           [rewrite <- E in Ht |- *; rewrite lookup_insert_eq; simplify_eq
           | rewrite lookup_insert_ne by done; by eauto]
       end.
  all: eexists; split; [done |]; split; [done |].
  all: unfold guarded in *; simpl.
  all: match goal with E : lt_pc _ = _ |- _ => rewrite E in Hg end; done.
Qed.

(** Where running threads come from. *)
Lemma step_lock_origin s l s' t lt :
  daemon_step s l = Some s' -> d_locks s' !! t = Some lt -> lt_pc lt <> PEnded ->
  (exists lt0, d_locks s !! t = Some lt0 /\ lt_pc lt0 <> PEnded /\ lt_pthread lt = lt_pthread lt0) \/
  (pthread_unused s (lt_pthread lt) = true /\ d_intrs s' = d_intrs s).
Proof.
  intros Hs Ht Hpc. destruct l; step_cases Hs; eauto.
  all: try (apply (kill_locks [_]) in Ht as (lt0 & Ht & _ & E & _ & _ & -> & _); rewrite E in Hpc; by eauto).
  all: try (apply kill_locks in Ht as (lt0 & Ht & _ & E & _ & _ & -> & _); rewrite E in Hpc; by eauto).
  all: apply lookup_insert_Some in Ht as [(<- & <-)|(_ & Ht)]; simpl in *; eauto; try congruence.
  all: left; eexists; split; [done |]; split; [congruence | done].
Qed.

Lemma step_intr_origin s l s' n pc p fd :
  daemon_step s l = Some s' -> d_intrs s' !! n = Some (pc, p, fd) ->
  (exists pc0, d_intrs s !! n = Some (pc0, p, fd)) \/
  (pthread_unused s p = true /\ d_locks s' = d_locks s).
Proof.
  intros Hs Hn. destruct l; step_cases Hs; eauto.
  all: try (apply lookup_delete_Some in Hn as [_ Hn]; by eauto).
  all: apply lookup_insert_Some in Hn as [(<- & [= <- <- <-])|(_ & Hn)]; eauto.
Qed.

Lemma pthread_unused_spec s p :
  pthread_unused s p = true ->
  (forall t lt, d_locks s !! t = Some lt -> lt_pc lt <> PEnded -> lt_pthread lt <> p) /\
  (forall n pc q fd, d_intrs s !! n = Some (pc, q, fd) -> q <> p).
Proof.
  unfold pthread_unused. rewrite andb_true_iff, !bool_decide_eq_true. intros [H1 H2].
  split; [exact H1 |]. intros n pc q fd Hn. apply (H2 n _ Hn).
Qed.

Lemma step_distinct s l s' n pc p fd t lt :
  handles_inv s -> daemon_step s l = Some s' -> d_intrs s' !! n = Some (pc, p, fd) ->
  d_locks s' !! t = Some lt -> lt_pc lt <> PEnded -> lt_pthread lt <> p.
Proof.
  intros HI Hs Hn Ht Hpc.
  destruct (step_intr_origin s l s' n pc p fd Hs Hn) as [[pc0 Hn0]|[[Hu _]%pthread_unused_spec El]].
  - destruct (step_lock_origin s l s' t lt Hs Ht Hpc)
      as [(lt0 & Ht0 & Hpc0 & ->)|[[_ Hu]%pthread_unused_spec _]].
    + by eapply (hi_distinct _ HI).
    + symmetry. by eapply Hu.
  - rewrite El in Ht. by eapply Hu.
Qed.

(** A handle is made by a thread that has its guard. *)
Lemma step_handle_map s l s' id h :
  handles_inv s -> daemon_step s l = Some s' -> interrupts (d_inner s') !! id = Some h -> handle_ok s' h.
Proof.
  intros HI Hs Hid.
  assert (interrupts (d_inner s) !! id = Some h \/ handle_ok s' h) as [Hm|?]; [| | done]; cycle 1.
  { eapply step_handle_ok; eauto. by eapply (hi_map _ HI). }
  destruct l; step_cases Hs; auto.
  - by apply lookup_delete_Some in Hid as [_ ?]; left.
  - apply lookup_insert_Some in Hid as [(_ & <-)|(_ & ?)]; [right | by left].
    eexists. simpl. rewrite lookup_insert_eq. split; [done |]. split; [done |].
    unfold guarded; simpl. destruct (lt_exited l) eqn:E; [| done].
    eapply (hi_exited _ HI) in E; [| done]. congruence.
Qed.

Lemma step_handle_stop s l s' n h lo p fd :
  handles_inv s -> daemon_step s l = Some s' -> d_intrs s' !! n = Some (IStop h lo, p, fd) -> handle_ok s' h.
Proof.
  intros HI Hs Hn. eapply step_handle_ok; [done | done |].
  assert ((exists lo, d_intrs s !! n = Some (IStop h lo, p, fd)) \/ handle_ok s h) as [[lo' Hn']|?];
    [| by eapply (hi_stop _ HI) | done].
  destruct l; step_cases Hs; eauto.
  all: try (apply lookup_delete_Some in Hn as [_ Hn]; by eauto).
  all: apply lookup_insert_Some in Hn as [(<- & [= ])|(_ & Hn)]; simplify_eq; eauto.
  right. unfold handle_interrupt_get, ok_or in *. case_match; simplify_eq. by eapply (hi_map _ HI).
Qed.

Lemma daemon_step_handles s l s' : handles_inv s -> daemon_step s l = Some s' -> handles_inv s'.
Proof.
  intros HI Hs. split.
  - intros t lt. by eapply step_exited.
  - intros id h. by eapply step_handle_map.
  - intros n h lo p fd. by eapply step_handle_stop.
  - intros n pc p fd t lt. by eapply step_distinct.
Qed.

Lemma daemon_reachable_handles k s : reachable daemon_step (daemon_init k) s -> handles_inv s.
Proof. apply reachable_invariant; eauto using daemon_step_handles, handles_inv_init. Qed.

(** An identifier keeps its handle until it is removed. *)
Lemma step_interrupt_stays s l s' id h :
  daemon_inv s -> daemon_step s l = Some s' ->
  (forall fd e, l <> DReceive (Done (Ok (Message.RemoveInterrupt (RemoveInterrupt.mk id), fd))) e) ->
  interrupts (d_inner s) !! id = Some h -> interrupts (d_inner s') !! id = Some h.
Proof.
  intros HI Hs Hno Hid. destruct l; step_cases Hs; auto.
  - destruct m as [id']. simpl in *. rewrite lookup_delete_ne; [done |]. intros ->. by eapply Hno.
  - rewrite lookup_insert_ne; [done |]. intros ->. congruence.
Qed.

Lemma interrupt_stays ls s s' id h :
  daemon_inv s -> run daemon_step s ls = Some s' ->
  Forall (fun l => forall fd e,
    l <> DReceive (Done (Ok (Message.RemoveInterrupt (RemoveInterrupt.mk id), fd))) e) ls ->
  interrupts (d_inner s) !! id = Some h -> interrupts (d_inner s') !! id = Some h.
Proof.
  revert s; induction ls as [|l ls IH]; intros s HI Hr Hno Hid; simpl in Hr; [by simplify_eq |].
  apply Forall_cons in Hno as [Hl Hno]. destruct (daemon_step s l) as [s1|] eqn:E; [| done].
  eapply IH; [by eapply daemon_step_inv | done | done |]. by eapply step_interrupt_stays.
Qed.
End Handles.
