(* ===== verification/DaemonThreads.v ===== *)
(** * Threads and trackers of the owner process

    The tracker of a file holds exactly the [pthread_t]s of the locking threads
    of that file that are inside their guards; running locking threads have
    different [pthread_t]s; an [FdData] is registered, or being unregistered by
    one thread, never both; and a thread that is past the start of
    [tracker.stop] has closed the tracker for new threads. *)

From Stdlib Require Import ZArith Lia.
From stdpp Require Import base tactics numbers list gmap.
From S2P Require Import Prelude.
From S2P Require Import Std.
From S2P Require Import Types.
From S2P Require Import Wire.
From S2P Require Import Helpers.
From S2P Require Import Tracker.
From S2P Require Import Daemon.
From S2P Require Import DaemonInv.
From S2P Require Import DaemonHandles.
Local Open Scope Z_scope.

(** ** Tracked threads *)

(** Between [track] and [untrack]. *)
Definition tracked_pc (pc : lock_pc) : bool :=
  match pc with
  | PTry | PAdd | PEntry _ | PWindow | PEnter | PWait | PReturn | PDropped => true
  | PTrack | PRefused | PUntracked | PEnded => false
  end.

(** Some locking thread of the file at [loc] is inside its guard as [p]. *)
Definition tracked (ls : gmap nat LockThread) (loc : nat) (p : Pthread) : Prop :=
  exists t lt, ls !! t = Some lt /\ lt_loc lt = loc /\ lt_pthread lt = p /\
    tracked_pc (lt_pc lt) = true.

(** Threads that have not ended have different [pthread_t]s. *)
Definition pthreads_distinct (ls : gmap nat LockThread) : Prop :=
  forall t1 t2 lt1 lt2, ls !! t1 = Some lt1 -> ls !! t2 = Some lt2 ->
    lt_pc lt1 <> PEnded -> lt_pc lt2 <> PEnded -> lt_pthread lt1 = lt_pthread lt2 -> t1 = t2.

Lemma tracked_kill ps ls loc p : tracked (foldl pthread_kill ls ps) loc p <-> tracked ls loc p.
Proof.
  split; intros (t & lt & Ht & H).
  - apply kill_locks in Ht as (lt0 & Ht & E1 & E2 & _ & _ & E3 & _). exists t, lt0.
    by rewrite <- E1, <- E2, <- E3.
  - destruct (kill_is_Some ps ls t) as [lt' Ht']; [by eauto |]. exists t, lt'. split; [done |].
    apply kill_locks in Ht' as (lt0 & Ht0 & -> & -> & _ & _ & -> & _). by simplify_eq.
Qed.

Lemma distinct_kill ps ls : pthreads_distinct ls -> pthreads_distinct (foldl pthread_kill ls ps).
Proof.
  intros H t1 t2 lt1 lt2 H1 H2.
  apply kill_locks in H1 as (lt1' & H1 & _ & -> & _ & _ & -> & _).
  apply kill_locks in H2 as (lt2' & H2 & _ & -> & _ & _ & -> & _). by eapply H.
Qed.

Lemma distinct_insert ls t lt lt' :
  pthreads_distinct ls -> ls !! t = Some lt -> lt_pthread lt' = lt_pthread lt -> lt_pc lt <> PEnded ->
  pthreads_distinct (<[t := lt']> ls).
Proof.
  intros H Ht Ep Hpc t1 t2 lt1 lt2 H1 H2 Hp1 Hp2 E.
  apply lookup_insert_Some in H1 as [(<- & <-)|(_ & H1)];
    apply lookup_insert_Some in H2 as [(<- & <-)|(_ & H2)]; [done | | | by eapply H].
  - eapply (H t t2); try done. congruence.
  - eapply (H t1 t); try done. congruence.
Qed.

Lemma distinct_insert_new ls t lt' :
  pthreads_distinct ls ->
  (forall t' lt, ls !! t' = Some lt -> lt_pc lt <> PEnded -> lt_pthread lt <> lt_pthread lt') ->
  pthreads_distinct (<[t := lt']> ls).
Proof.
  intros H Hu t1 t2 lt1 lt2 H1 H2 Hp1 Hp2 E.
  apply lookup_insert_Some in H1 as [(<- & <-)|(_ & H1)];
    apply lookup_insert_Some in H2 as [(<- & <-)|(_ & H2)]; [done | | | by eapply H].
  - by destruct (Hu _ _ H2 Hp2).
  - by destruct (Hu _ _ H1 Hp1).
Qed.

Section Insert.
Context (ls : gmap nat LockThread) (t : nat) (lt lt' : LockThread).

(** A thread that is not tracked after the step adds nothing. *)
Lemma tracked_insert_new loc p :
  ls !! t = None -> tracked_pc (lt_pc lt') = false -> tracked (<[t := lt']> ls) loc p <-> tracked ls loc p.
Proof.
  intros Ht Hpc. split; intros (t' & lt0 & Ht' & H).
  - apply lookup_insert_Some in Ht' as [(<- & <-)|(_ & Ht')]; [naive_solver congruence |].
    by exists t', lt0.
  - exists t', lt0. split; [| done]. rewrite lookup_insert_ne; [done |]. congruence.
Qed.

Hypothesis Ht : ls !! t = Some lt.
Hypothesis Hloc : lt_loc lt' = lt_loc lt.
Hypothesis Hp : lt_pthread lt' = lt_pthread lt.

Lemma tracked_insert_same loc p :
  tracked_pc (lt_pc lt') = tracked_pc (lt_pc lt) ->
  tracked (<[t := lt']> ls) loc p <-> tracked ls loc p.
Proof.
  intros Hpc. split; intros (t' & lt0 & Ht' & H).
  - apply lookup_insert_Some in Ht' as [(<- & <-)|(_ & Ht')]; [| by exists t', lt0].
    exists t, lt. by rewrite <- Hpc, <- Hloc, <- Hp.
  - destruct (decide (t = t')) as [<-|Hne].
    + exists t, lt'. rewrite lookup_insert_eq, Hloc, Hp, Hpc. by simplify_eq.
    + exists t', lt0. by rewrite lookup_insert_ne.
Qed.

Lemma tracked_insert_add loc p :
  tracked_pc (lt_pc lt) = false -> tracked_pc (lt_pc lt') = true ->
  tracked (<[t := lt']> ls) loc p <-> (loc = lt_loc lt /\ p = lt_pthread lt) \/ tracked ls loc p.
Proof.
  intros Hpc Hpc'. split.
  - intros (t' & lt0 & Ht' & H).
    apply lookup_insert_Some in Ht' as [(<- & <-)|(_ & Ht')]; [| by right; exists t', lt0].
    left. destruct H as (<- & <- & _). by rewrite Hloc, Hp.
  - intros [[-> ->]|(t' & lt0 & Ht' & H)].
    + exists t, lt'. by rewrite lookup_insert_eq.
    + exists t', lt0. split; [| done]. rewrite lookup_insert_ne; [done |].
      intros <-. simplify_eq. naive_solver congruence.
Qed.

Lemma tracked_insert_remove loc p :
  pthreads_distinct ls -> tracked_pc (lt_pc lt) = true -> tracked_pc (lt_pc lt') = false ->
  tracked (<[t := lt']> ls) loc p <-> tracked ls loc p /\ ~ (loc = lt_loc lt /\ p = lt_pthread lt).
Proof.
  intros Hd Hpc Hpc'. split.
  - intros (t' & lt0 & Ht' & H).
    apply lookup_insert_Some in Ht' as [(<- & <-)|(Hne & Ht')]; [naive_solver congruence |].
    split; [by exists t', lt0 |]. intros [_ Ep]. apply Hne.
    destruct H as (_ & E & Hpc0). eapply Hd; [exact Ht | exact Ht' | | | congruence].
    + intros E'. by rewrite E' in Hpc.
    + intros E'. by rewrite E' in Hpc0.
  - intros [(t' & lt0 & Ht' & H) Hn]. exists t', lt0. split; [| done].
    rewrite lookup_insert_ne; [done |]. intros <-. simplify_eq. naive_solver.
Qed.
End Insert.

(** ** The invariant *)

Section Threads.
Context {K B : Type} `{!Fcntl K} `{!Backoff B}.
Implicit Types s : daemon K B.

(** The holders that can own a registration. *)
Definition registrar (h : holder) : Prop :=
  match h with HMap _ | HUnreg _ => True | HMain | HLock _ => False end.

(** What a thread that has called [tracker.stop] has done to the tracker. *)
Definition unreg_ok s (pc : unreg_pc B) : Prop :=
  match pc with
  | UStop loc l => exists tr, d_trackers s !! loc = Some tr /\ can_spawn tr = false
  | UWait loc => exists tr, d_trackers s !! loc = Some tr /\ can_spawn tr = false /\ threads tr = ∅
  | URemove _ | UBegin _ | UReply _ => True
  end.

Record threads_inv s : Prop := {
  ti_distinct : pthreads_distinct (d_locks s);
  ti_tracked : forall loc tr p, d_trackers s !! loc = Some tr ->
    p ∈ threads tr <-> tracked (d_locks s) loc p;
  ti_registrar : forall h1 h2 loc, registrar h1 -> registrar h2 ->
    arc_of s h1 = Some loc -> arc_of s h2 = Some loc -> h1 = h2;
  ti_unreg : forall u pc fd, d_unregs s !! u = Some (pc, fd) -> unreg_ok s pc }.

Lemma threads_inv_init k : threads_inv (daemon_init k).
Proof.
  split; try (unfold pthreads_distinct; simpl; intros; by simplify_map_eq).
  intros [] ? ? ? ?; simpl; intros; by simplify_map_eq.
Qed.

(** What an iteration of [tracker.stop] leaves of the data. *)
Local Ltac stop_data :=
  match goal with
  | E : tracker_stop_iter _ _ _ = Some _ |- _ =>
      let E1 := fresh "E1" in let E2 := fresh "E2" in
      apply tracker_stop_iter_data in E as (_ & E1 & E2 & _)
  end.

Lemma step_pthreads s l s' :
  threads_inv s -> daemon_step s l = Some s' -> pthreads_distinct (d_locks s').
Proof.
  intros HI Hs. pose proof (ti_distinct _ HI) as Hd.
  destruct l; step_cases Hs; try done; try (by apply (distinct_kill [_])); try (by apply distinct_kill).
  all: first [ eapply distinct_insert; [done | done | done | congruence]
             | apply distinct_insert_new; [done |]; by apply pthread_unused_spec ].
Qed.

(** Which threads are tracked changes where the code of the step says so. *)
Lemma step_tracked s l s' loc tr p :
  daemon_inv s -> threads_inv s -> daemon_step s l = Some s' -> d_trackers s' !! loc = Some tr ->
  p ∈ threads tr <-> tracked (d_locks s') loc p.
Proof.
  intros HD HI Hs Htr. pose proof (ti_tracked _ HI) as Ht.
  destruct l; step_cases Hs; eauto.
  all: try (rewrite (tracked_insert_same _ _ l) by (simpl; first [done | by match goal with E : lt_pc _ = _ |- _ => rewrite E end]);
            by eauto).
  - apply lookup_insert_Some in Htr as [(<- & <-)|(_ & Htr)]; [| by eauto]. split; [set_solver |].
    intros (t & lt & Hlt & E & _). destruct (di_lock_tracker _ HD _ _ Hlt). rewrite E in *. congruence.
  - rewrite tracked_insert_new by done. eauto.
  - rewrite (tracked_insert_add _ _ l); [| done.. | by match goal with E : lt_pc _ = _ |- _ => rewrite E end | done].
    unfold track in *. case_match; simplify_eq.
    apply lookup_insert_Some in Htr as [(<- & <-)|(Hne & Htr)]; simpl.
    + rewrite elem_of_union, elem_of_singleton, (Ht _ _ _ ltac:(eassumption)). naive_solver.
    + rewrite (Ht _ _ _ Htr). naive_solver.
  - rewrite (tracked_insert_remove _ _ l);
      [| done.. | by apply ti_distinct | by match goal with E : lt_pc _ = _ |- _ => rewrite E end | done].
    apply lookup_insert_Some in Htr as [(<- & <-)|(Hne & Htr)]; simpl.
    + rewrite elem_of_difference, elem_of_singleton, (Ht _ _ _ ltac:(eassumption)). naive_solver.
    + rewrite (Ht _ _ _ Htr). naive_solver.
  - apply lookup_insert_Some in Htr as [(<- & <-)|(_ & Htr)]; [by apply (Ht _ r) | by eauto].
  - rewrite tracked_kill. apply lookup_insert_Some in Htr as [(<- & <-)|(_ & Htr)]; [| by eauto].
    stop_data. rewrite E1. eauto.
  - rewrite (Ht _ _ p Htr). symmetry. apply (tracked_kill [h_thread h] (d_locks s)).
Qed.

(** Where the clone of a registrar comes from: it had it, it is new, or the
    unregistering thread has taken it over from the map. *)
Lemma step_registrar_arc s l s' h loc :
  daemon_step s l = Some s' -> registrar h -> arc_of s' h = Some loc ->
  arc_of s h = Some loc \/
  (exists id next, h = HMap id /\ d_trackers s !! loc = None /\
     alloc_id (S (size (descriptors (d_inner s)))) (next_id (d_inner s)) (descriptors (d_inner s))
       = Some (id, next)) \/
  (exists id u fails, h = HUnreg u /\ l = DUnreg u fails /\ arc_of s (HMap id) = Some loc /\
     arc_of s' (HMap id) = None).
Proof.
  intros Hs Hh Ha. destruct h as [id| |t|u]; simpl in Hh; try done.
  - destruct l; step_cases Hs; eauto 10.
    + apply lookup_insert_Some in Ha as [(<- & <-)|(_ & Ha)]; eauto 10.
    + apply lookup_delete_Some in Ha as [_ Ha]. eauto.
  - destruct l; step_cases Hs; auto.
    all: match goal with
         | H : context [<[?n := _]> _ !! ?v] |- _ => destruct (decide (n = v)) as [E|]; [rewrite E in * |]
         | H : context [delete ?n _ !! ?v] |- _ => destruct (decide (n = v)) as [E|]; [rewrite E in * |]
         end; simplify_map_eq; auto.
    right; right. injection Ha as <-. do 3 eexists. split_and!; [done | done | done | apply lookup_delete_eq].
Qed.

Lemma step_registrars s l s' h1 h2 loc :
  daemon_inv s -> threads_inv s -> daemon_step s l = Some s' -> registrar h1 -> registrar h2 ->
  arc_of s' h1 = Some loc -> arc_of s' h2 = Some loc -> h1 = h2.
Proof.
  intros HD HI Hs R1 R2 A1 A2.
  assert (forall h, arc_of s h = Some loc -> d_trackers s !! loc <> None) as Hlive.
  { intros h Hh Hn. destruct (arcs_ok_live s h loc (di_arcs _ HD) Hh) as [d Hd].
    destruct (di_fd_tracker _ HD _ _ Hd). congruence. }
  pose proof (fun h1 h2 => ti_registrar _ HI h1 h2 loc) as HR.
  destruct (step_registrar_arc s l s' h1 loc Hs R1 A1)
    as [O1|[(id1 & n1 & -> & N1 & E1)|(id1 & u1 & f1 & -> & -> & O1 & D1)]];
  destruct (step_registrar_arc s _ s' h2 loc Hs R2 A2)
    as [O2|[(id2 & n2 & -> & N2 & E2)|(id2 & u2 & f2 & -> & L2 & O2 & D2)]];
  try (by destruct (Hlive _ O1)); try (by destruct (Hlive _ O2)).
  - by apply HR.
  - assert (h1 = HMap id2) as -> by by apply HR. congruence.
  - congruence.
  - assert (h2 = HMap id1) as -> by by apply HR. congruence.
  - congruence.
Qed.

(** A tracker that is closed stays closed, and then no thread is added. *)
Lemma step_closed s l s' loc tr :
  daemon_step s l = Some s' -> d_trackers s !! loc = Some tr -> can_spawn tr = false ->
  exists tr', d_trackers s' !! loc = Some tr' /\ can_spawn tr' = false /\ threads tr' ⊆ threads tr.
Proof.
  intros Hs Htr Hc. destruct l; step_cases Hs; eauto.
  all: match goal with |- exists _, <[?n := _]> _ !! ?v = _ /\ _ => destruct (decide (n = v)) as [E|] end;
    [rewrite E in *; simplify_map_eq | simplify_map_eq; by eauto].
  all: eexists; split; [done |].
  - unfold track in *. rewrite Hc in *. simplify_eq/=.
  - split; [done |]. simpl. set_solver.
  - done.
  - stop_data. by rewrite E1, E2.
Qed.

Lemma step_unreg_ok s l s' pc :
  daemon_step s l = Some s' -> unreg_ok s pc -> unreg_ok s' pc.
Proof.
  intros Hs. destruct pc as [id|loc|loc lo|loc|r]; simpl; try done.
  - intros (tr & Htr & Hc). destruct (step_closed s l s' loc tr) as (tr' & ? & ? & _); eauto.
  - intros (tr & Htr & Hc & He). destruct (step_closed s l s' loc tr) as (tr' & ? & ? & Hsub); try done.
    exists tr'. split_and!; [done.. |]. set_solver.
Qed.

Lemma step_unregs s l s' u pc fd :
  threads_inv s -> daemon_step s l = Some s' -> d_unregs s' !! u = Some (pc, fd) -> unreg_ok s' pc.
Proof.
  intros HI Hs Hu. pose proof (ti_unreg _ HI) as HU.
  assert (d_unregs s !! u = Some (pc, fd) \/ unreg_ok s' pc) as [?|?]; [| | done]; cycle 1.
  { eapply step_unreg_ok; eauto. }
  destruct l; step_cases Hs; auto.
  all: try (apply lookup_delete_Some in Hu as [_ Hu]; by auto).
  all: apply lookup_insert_Some in Hu as [(<- & [= <- <-])|(_ & Hu)]; auto; right; simpl; try done.
  - exists (tracker_stop_begin r). by rewrite lookup_insert_eq.
  - eexists. rewrite lookup_insert_eq. split; [done |].
    destruct (HU _ _ _ ltac:(eassumption)) as (tr & ? & ?). simplify_eq.
    stop_data. by rewrite E2.
  - destruct (HU _ _ _ ltac:(eassumption)) as (tr & ? & ?). simplify_eq. exists r.
    unfold tracker_stop_iter in *. case_bool_decide; [done |]. repeat case_match; by simplify_eq.
Qed.

Lemma daemon_step_threads s l s' :
  daemon_inv s -> threads_inv s -> daemon_step s l = Some s' -> threads_inv s'.
Proof.
  intros HD HI Hs. split.
  - by eapply step_pthreads.
  - intros loc tr p. by eapply step_tracked.
  - intros h1 h2 loc. by eapply step_registrars.
  - intros u pc fd. by eapply step_unregs.
Qed.

Lemma daemon_reachable_threads k s : reachable daemon_step (daemon_init k) s -> threads_inv s.
Proof.
  intros Hr. apply (reachable_invariant daemon_step (fun s => daemon_inv s /\ threads_inv s) (daemon_init k));
    [| by split; [apply daemon_inv_init | apply threads_inv_init] | done].
  intros s1 l s2 [HD HI] Hs. split; [by eapply daemon_step_inv | by eapply daemon_step_threads].
Qed.
End Threads.

(** ** Steps of a locking thread *)

(** What a locking thread has before it: the iterations of
    [handle_interrupt_add] count as one. *)
Definition rank (pc : lock_pc) : nat :=
  match pc with
  | PTrack => 10 | PTry => 9 | PAdd | PEntry _ => 8 | PWindow => 7 | PEnter => 6 | PWait => 5
  | PReturn => 4 | PDropped => 3 | PUntracked => 2 | PRefused => 1 | PEnded => 0
  end%nat.

(** Threads that may still ask for an interrupt identifier. *)
Definition may_pend (pc : lock_pc) : nat :=
  match pc with PTrack | PTry | PAdd | PEntry _ => 1 | _ => 0 end%nat.

Section Moves.
Context {K B : Type} `{!Fcntl K} `{!Backoff B}.
Implicit Types s : daemon K B.

(** A run whose steps are all of an allowed kind. *)
Definition leads (ok : daemon_label K -> bool) s s' : Prop :=
  exists ls, Forall (fun l => ok l = true) ls /\ run daemon_step s ls = Some s'.

#[export] Instance leads_preorder ok : PreOrder (leads ok).
Proof.
  split.
  - intros s. by exists [].
  - intros s1 s2 s3 (ls1 & F1 & R1) (ls2 & F2 & R2). exists (ls1 ++ ls2).
    split; [by apply Forall_app |]. by rewrite run_app, R1.
Qed.

Lemma leads_step ok l s s' : ok l = true -> daemon_step s l = Some s' -> leads ok s s'.
Proof. intros Hc Hs. exists [l]. split; [by constructor |]. simpl. by rewrite Hs. Qed.

Lemma leads_weaken ok ok' s s' : (forall l, ok l = true -> ok' l = true) -> leads ok s s' -> leads ok' s s'.
Proof. intros Hok (ls & F & R). exists ls. split; [| done]. by eapply Forall_impl. Qed.

(** Steps of thread [t] that nothing disturbs; [F_SETLKW] does not return by
    itself. *)
Definition alone (t : nat) (l : daemon_label K) : bool :=
  match l with DLock t' (Ok _) interrupt => bool_decide (t' = t) && interrupt | _ => false end.

(** Thread [t] goes on by itself, and what it leaves alone. *)
Definition lock_moves s (t : nat) (lt : LockThread) s' : Prop :=
  leads (alone t) s s' /\
  exists lt', d_locks s' = <[t := lt']> (d_locks s) /\ lt_loc lt' = lt_loc lt /\
    (rank (lt_pc lt') < rank (lt_pc lt))%nat /\
    d_main s' = d_main s /\ d_unregs s' = d_unregs s /\ d_intrs s' = d_intrs s /\
    (size (interrupts (d_inner s')) + may_pend (lt_pc lt') <=
     size (interrupts (d_inner s)) + may_pend (lt_pc lt))%nat.

Lemma leads_alone s t s' : lock_thread_step s t (Ok tt) true = Some s' -> leads (alone t) s s'.
Proof. intros Hs. apply (leads_step _ (DLock t (Ok tt) true)); [| done]. simpl. by rewrite bool_decide_true. Qed.

(** A step that does not change where the thread is going may come first. *)
Lemma lock_moves_after s t lt s1 lt1 s' :
  d_locks s !! t = Some lt -> leads (alone t) s s1 -> d_locks s1 = <[t := lt1]> (d_locks s) ->
  lt_loc lt1 = lt_loc lt -> rank (lt_pc lt1) = rank (lt_pc lt) -> may_pend (lt_pc lt1) = may_pend (lt_pc lt) ->
  d_main s1 = d_main s -> d_unregs s1 = d_unregs s -> d_intrs s1 = d_intrs s ->
  interrupts (d_inner s1) = interrupts (d_inner s) ->
  lock_moves s1 t lt1 s' -> lock_moves s t lt s'.
Proof.
  intros Ht L El Eloc Er Ep Em Eu Ei En (L' & lt' & El' & Eloc' & Hr & Em' & Eu' & Ei' & Hsz).
  split; [by etrans |]. exists lt'. rewrite El', El, insert_insert_eq, Em', Eu', Ei', Eloc'.
  rewrite En, Ep in Hsz. split_and!; first [done | lia].
Qed.

(** A vacant entry is filled. *)
Lemma entry_moves s t lt c :
  d_locks s !! t = Some lt -> lt_pc lt = PEntry c -> interrupts (d_inner s) !! c = None ->
  exists s', lock_moves s t lt s'.
Proof.
  intros Ht Hpc Hc. unfold lock_moves. rewrite Hpc.
  eexists. split; [apply leads_alone; unfold lock_thread_step; rewrite Ht, Hpc; reflexivity |].
  unfold set_lock_entry, handle_interrupt_add_entry. rewrite Hc. eexists. simpl. split; [done |].
  rewrite map_size_insert_None by done. split_and!; first [done | simpl; lia].
Qed.

Section Add.
Context s t lt (Ht : d_locks s !! t = Some lt) (Hpc : lt_pc lt = PAdd).

Abbreviation candidate := (interrupt_next_id (d_inner s)).

Lemma candidate_step : leads (alone t) s (set_lock_candidate s t lt).
Proof using Ht Hpc. apply leads_alone. unfold lock_thread_step. by rewrite Ht, Hpc. Qed.

Lemma candidate_free : interrupts (d_inner s) !! candidate = None -> exists s', lock_moves s t lt s'.
Proof using Ht Hpc.
  intros Hc. destruct (entry_moves (set_lock_candidate s t lt) t (lt_at lt (PEntry candidate)) candidate)
    as [s' Hm]; [apply lookup_insert_eq | done.. |].
  exists s'. eapply (lock_moves_after s t lt); [done | apply candidate_step | done.. | | | | | | | exact Hm];
    rewrite ?Hpc; done.
Qed.

Lemma candidate_taken :
  is_Some (interrupts (d_inner s) !! candidate) ->
  leads (alone t) s (put_lock (set_lock_candidate s t lt) t (lt_at lt PAdd)).
Proof using Ht Hpc.
  intros [h Hc]. etrans; [apply candidate_step |]. apply leads_alone. unfold lock_thread_step. simpl.
  rewrite lookup_insert_eq. simpl. unfold set_lock_entry, handle_interrupt_add_entry. simpl. by rewrite Hc.
Qed.
End Add.

(** The loop of [handle_interrupt_add], when nothing disturbs it, finds a
    candidate no later than the first free one. *)
Lemma add_moves i s t lt :
  d_locks s !! t = Some lt -> lt_pc lt = PAdd -> is_u64 (interrupt_next_id (d_inner s)) ->
  interrupts (d_inner s) !! wrap64 (interrupt_next_id (d_inner s) + Z.of_nat i) = None ->
  exists s', lock_moves s t lt s'.
Proof.
  revert s lt. induction i as [|i IH]; intros s lt Ht Hpc Hn Hi.
  { rewrite Z.add_0_r, wrap64_id in Hi by done. by apply candidate_free. }
  destruct (interrupts (d_inner s) !! interrupt_next_id (d_inner s)) as [h|] eqn:Hc;
    [| by apply candidate_free].
  set (s2 := put_lock (set_lock_candidate s t lt) t (lt_at lt PAdd)).
  destruct (IH s2 (lt_at lt PAdd)) as [s' Hm]; [apply lookup_insert_eq | done | apply wrap64_range | |].
  { simpl. unfold wrap64 in *. rewrite Zplus_mod_idemp_l.
    by replace (interrupt_next_id (d_inner s) + 1 + Z.of_nat i)
      with (interrupt_next_id (d_inner s) + Z.of_nat (S i)) by lia. }
  exists s'. eapply (lock_moves_after s t lt s2); [done | by apply candidate_taken | apply insert_insert_eq | .. | exact Hm];
    rewrite ?Hpc; done.
Qed.

Lemma lock_thread_moves s t lt :
  daemon_inv s -> d_locks s !! t = Some lt -> lt_pc lt <> PEnded ->
  Z.of_nat (size (interrupts (d_inner s))) < u64_modulus ->
  (lt_pc lt = PWait -> lt_interrupted lt = true) ->
  exists s', lock_moves s t lt s'.
Proof.
  intros HI Ht Hpc Hsz Hw.
  destruct (di_lock_tracker _ HI _ _ Ht) as [tr Htr]. destruct (di_ids _ HI) as [_ Hi].
  destruct (candidates_free _ (interrupt_next_id (d_inner s)) Hsz) as (i & _ & Hfree).
  assert (lt_pc lt = PAdd -> exists s', lock_moves s t lt s') as Hadd.
  { intros E. by apply (add_moves i). }
  assert (forall c, lt_pc lt = PEntry c -> exists s', lock_moves s t lt s') as Hentry.
  { intros c E. destruct (interrupts (d_inner s) !! c) as [h|] eqn:Hc; [| by eapply entry_moves].
    set (s1 := put_lock s t (lt_at lt PAdd)).
    destruct (add_moves i s1 t (lt_at lt PAdd)) as [s' Hm]; [apply lookup_insert_eq | done.. |].
    exists s'. eapply (lock_moves_after s t lt s1); [done | | done | .. | exact Hm]; rewrite ?E; try done.
    apply leads_alone.
    unfold lock_thread_step. rewrite Ht, E. unfold set_lock_entry, handle_interrupt_add_entry. by rewrite Hc. }
  assert (lock_arc lt = Some (lt_loc lt) -> is_Some (d_fds s !! lt_loc lt)) as Hd.
  { intros Ha. apply (arcs_ok_live s (HLock t) _ (di_arcs _ HI)). simpl. by rewrite Ht. }
  destruct (lock_thread_step s t (Ok tt) true) as [s'|] eqn:Hs;
    [assert (leads (alone t) s s') as L by by apply leads_alone |];
    unfold lock_thread_step in Hs; rewrite Ht in Hs;
    destruct (lt_pc lt) eqn:E; eauto; try done;
    rewrite ?Htr in Hs; unfold set_lock_try, set_lock_wait in Hs;
    rewrite ?Hw in Hs by done;
    try (destruct Hd as [d Hd]; [unfold lock_arc; by rewrite E |]; rewrite Hd in Hs);
    repeat (case_match; try discriminate Hs); simplify_eq.
  all: eexists; split; [exact L |]; rewrite E; eexists; daemon_simpl; (split; [done |]);
    simpl; split_and!; first [done | lia].
Qed.
End Moves.
