(* ===== verification/DaemonSpec.v ===== *)
(** * Properties of the owner process

    The exit of the process, registration, unregistration, interrupts and
    blocking locks of owner.rs in every interleaving of its threads. *)

From Stdlib Require Import ZArith Lia.
From Stdlib Require Import Strings.Byte.
From stdpp Require Import base tactics numbers list gmap.
From S2P Require Import Prelude.
From S2P Require Import Std.
From S2P Require Import Types.
From S2P Require Import Wire.
From S2P Require Import Messages.
From S2P Require Import Transport.
From S2P Require Import Net.
From S2P Require Import Helpers.
From S2P Require Import Tracker.
From S2P Require Import TrackerSpec.
From S2P Require Import Daemon.
From S2P Require Import DaemonInv.
From S2P Require Import DaemonHandles.
From S2P Require Import DaemonThreads.
Local Open Scope Z_scope.

(** ** A concrete file *)

(** One file, the lock on all of it that this process has, and whether another
    process has a write lock on it; closing a descriptor of the file releases
    the lock of the process. *)
Record one_file : Type := mkFile { f_mine : Z; f_other : bool }.

Definition file_setlk (fl : flock) (k : one_file) : option one_file :=
  if l_type fl =? libc.F_UNLCK then Some (mkFile libc.F_UNLCK (f_other k))
  else if f_other k then None else Some (mkFile (l_type fl) (f_other k)).

#[export] Instance one_file_Fcntl : Fcntl one_file := {
  fcntl_getlk _ fl k :=
    (Ok (if f_other k then fl
         else mkFlock libc.F_UNLCK (l_whence fl) (l_start fl) (l_len fl) (l_pid fl)), k);
  fcntl_setlk _ fl k :=
    match file_setlk fl k with Some k' => (Ok tt, k') | None => (Err Errno.EAGAIN, k) end;
  fcntl_setlkw _ fl k :=
    match file_setlk fl k with Some k' => Some (Ok tt, k') | None => None end;
  fd_close _ k := mkFile libc.F_UNLCK (f_other k) }.

Definition free_file : one_file := mkFile libc.F_UNLCK false.
Definition taken_file : one_file := mkFile libc.F_UNLCK true.

Definition whole_file (ty : LockType) : LockParams :=
  mkLockParams ty LockWhence.Start 0 0 0.

Abbreviation file_label := (daemon_label one_file).
Abbreviation file_daemon := (daemon one_file nat).

Definition demo_env (name : nat) (p : Pthread) : env := mkEnv name p true (Ok tt).
Definition demo_recv (m : Message) (fd : Fd) (e : env) : file_label := DReceive (Done (Ok (m, fd))) e.
(** A step of locking thread 0 that no system call disturbs. *)
Definition demo_lock : file_label := DLock 0 (Ok tt) false.

(** Descriptor 7 is registered; the reply descriptor is 20. *)
Definition demo_register : list file_label :=
  [DMask (Ok tt); demo_recv (Message.Register (Register.mk 7)) 20 (demo_env 0 0)].
(** A blocking write lock on file 0, with reply descriptor 21, up to its first
    attempt. *)
Definition demo_blocking : list file_label :=
  demo_register ++
  [demo_recv (Message.LockCommand
     (LockCommand.mk 0 LockAction.SetLockBlocking (whole_file LockType.Write))) 21 (demo_env 0 0);
   DCommand (demo_env 0 100); demo_lock; DSpawned].

Definition after (k : one_file) (ls : list file_label) : file_daemon :=
  default (daemon_init k) (run daemon_step (daemon_init k) ls).

Lemma after_reachable k ls :
  is_Some (run (daemon_step (B := nat)) (daemon_init k) ls) ->
  reachable daemon_step (daemon_init k) (after k ls).
Proof. intros [s Hs]. exists ls. unfold after. by rewrite Hs. Qed.

(** ** The exit of the process *)

Section Exit.
Context {K B : Type} `{!Fcntl K} `{!Backoff B}.
Implicit Types s : daemon K B.

(** No file is registered and none is in use. *)
Definition unused s : Prop := d_fds s = ∅ /\ descriptors (d_inner s) = ∅.

Lemma exit_flag_unused s :
  daemon_inv s -> rw_value (exit_lock (d_inner s)) = true -> unused s.
Proof.
  intros HI Hx. pose proof (ai_exit _ _ _ (di_arcs _ HI) Hx) as He. split; [done |].
  apply map_empty. intros id. apply eq_None_not_Some. intros [loc Hid].
  destruct (arcs_ok_live s (HMap id) loc (di_arcs _ HI) Hid) as [d Hd]. by rewrite He in Hd.
Qed.
End Exit.

(** C5. As long as the receiving loop runs, [DaemonOwner::start] returns
    only when no file is registered and no lock operation uses one, and from
    then on none can be registered: the process does not exit under a client
    that has a file registered. *)
Theorem exit_only_when_unused {K B} `{!Fcntl K} `{!Backoff B} (k : K) (s s' : daemon K B) r ls :
  reachable daemon_step (daemon_init k) s -> d_start s = SReturned r ->
  run daemon_step s ls = Some s' ->
  unused s' \/ exists r', d_main s' = MEnded r'.
Proof.
  intros Hr Hst Hrun. pose proof (daemon_reachable_inv k s Hr) as HI.
  assert (daemon_inv s' /\ d_start s' = SReturned r) as [HI' Hst'].
  { eapply (run_invariant daemon_step (fun s => daemon_inv s /\ d_start s = SReturned r)); [| done | exact Hrun].
    intros s1 l s2 [H1 H2] Hstep. split; [by eapply daemon_step_inv | by eapply step_start_stays]. }
  pose proof (di_start _ HI') as H. rewrite Hst' in H.
  destruct H as [Hx|?]; [left | by right]. by apply exit_flag_unused.
Qed.

(** The TTL of an unused process runs out. *)
Definition demo_exit : list file_label := [DMask (Ok tt); DStart; DStart; DStart].

Lemma exit_only_when_unused_witness :
  unused (after free_file demo_exit) \/ exists r', d_main (after free_file demo_exit) = MEnded r'.
Proof.
  apply (exit_only_when_unused free_file (after free_file demo_exit) _ (Ok tt) []).
  - apply after_reachable. vm_compute. eauto.
  - vm_compute. reflexivity.
  - reflexivity.
Defined.

(** C22. While a file is registered and the receiving loop runs, the loop
    of [DaemonOwner::start] goes round: its steps change nothing but its own
    position and the refresh channel, it does not return, and when it comes to
    [try_exit] this fails, because the [FdData] holds the exit lock, and the
    loop starts again. *)
Theorem registered_files_keep_process {K B} `{!Fcntl K} `{!Backoff B} (k : K) (s s' : daemon K B) id loc :
  reachable daemon_step (daemon_init k) s -> descriptors (d_inner s) !! id = Some loc ->
  (forall r, d_main s <> MEnded r) -> daemon_step s DStart = Some s' ->
  s' = set_start (set_ttl s (d_ttl s')) (d_start s') /\
  (forall r, d_start s' <> SReturned r) /\ (d_start s = SExit -> d_start s' = SRecv) /\
  fst (try_exit (d_inner s)) = Err (Custom ErrorKind.ResourceBusy).
Proof.
  intros Hr Hid Hm Hs. pose proof (di_arcs _ (daemon_reachable_inv k s Hr)) as H.
  destruct (arcs_ok_live s (HMap id) loc H Hid) as [d Hd].
  pose proof (ai_readers _ _ _ H) as Hrd.
  destruct (rw_readers (exit_lock (d_inner s))) as [|n] eqn:En.
  { symmetry in Hrd. apply map_size_empty_inv in Hrd. by rewrite Hrd in Hd. }
  unfold daemon_step, start_iter, try_exit in *. rewrite En in *.
  destruct (d_start s) as [|b| |r] eqn:Est; try done.
  - destruct (d_ttl s); simplify_eq/=; rewrite ?Est; (split; [by destruct s; simpl in *; subst | done]).
  - destruct (d_main s) as [| | | |r] eqn:Em; [..| by destruct (Hm r)];
      destruct b; simplify_eq/=; (split; [by destruct s; simpl in *; subst | done]).
  - simplify_eq/=. split; [by destruct s; simpl in *; subst | done].
Qed.

Definition demo_idle : file_daemon := after free_file (demo_register ++ [DStart; DStart; DStart]).

Lemma registered_files_keep_process_witness :
  default demo_idle (daemon_step demo_idle DStart) = set_start (set_ttl demo_idle false) SRecv /\
  (forall r, SRecv <> SReturned r) /\ (d_start demo_idle = SExit -> SRecv = SRecv) /\
  fst (try_exit (d_inner demo_idle)) = Err (Custom ErrorKind.ResourceBusy).
Proof.
  apply (registered_files_keep_process free_file demo_idle (default demo_idle (daemon_step demo_idle DStart)) 0 0).
  - apply after_reachable. vm_compute. eauto.
  - vm_compute. reflexivity.
  - vm_compute. discriminate.
  - vm_compute. reflexivity.
Defined.

(** ** Registration *)

(** The reference: the first candidate, counting from [next] and wrapping, that
    is not in use. *)
Definition first_free {A} (next : Z) (m : gmap Z A) : option nat :=
  fst <$> list_find (fun i => m !! wrap64 (next + Z.of_nat i) = None) (seq 0 (S (size m))).

Lemma alloc_id_spec {A} fuel next (m : gmap Z A) id next' :
  is_u64 next -> alloc_id fuel next m = Some (id, next') ->
  exists i, (i < fuel)%nat /\ id = wrap64 (next + Z.of_nat i) /\ next' = wrap64 (next + Z.of_nat i + 1) /\
    m !! id = None /\ forall j, (j < i)%nat -> m !! wrap64 (next + Z.of_nat j) <> None.
Proof.
  revert next; induction fuel as [|fuel IH]; intros next Hn Ha; unfold alloc_id in Ha; fold (@alloc_id A) in Ha; [done |].
  destruct (m !! next) eqn:E; cycle 1.
  { simplify_eq. exists 0%nat. rewrite Z.add_0_r, wrap64_id by done. split_and!; try done; lia. }
  apply IH in Ha as (i & Hi & -> & -> & Hfree & Htaken); [| apply wrap64_range].
  assert (forall j, wrap64 (wrap64 (next + 1) + Z.of_nat j) = wrap64 (next + Z.of_nat (S j))) as Hw.
  { intros j. unfold wrap64. rewrite Zplus_mod_idemp_l. f_equal. lia. }
  exists (S i). rewrite Hw in Hfree |- *. split_and!; [lia | done | | done |].
  - unfold wrap64 in *. replace ((next + 1) mod u64_modulus + Z.of_nat i + 1)
      with ((next + 1) mod u64_modulus + (Z.of_nat i + 1)) by lia.
    rewrite Zplus_mod_idemp_l. f_equal. lia.
  - intros [|j] Hj; [rewrite Z.add_0_r, wrap64_id by done; congruence |]. rewrite <- Hw. apply Htaken. lia.
Qed.

(** C16. The search for an identifier in [handle_fd_register] is the
    reference search, and it ends: there is a free candidate no further from the
    counter than there are identifiers in use, also when the 64-bit counter
    wraps, and the search gives the first one and leaves the counter behind
    it. *)
Theorem alloc_id_is_first_free {A} (next : Z) (m : gmap Z A) :
  is_u64 next -> Z.of_nat (size m) < u64_modulus ->
  exists i, first_free next m = Some i /\ (i <= size m)%nat /\
    alloc_id (S (size m)) next m =
      Some (wrap64 (next + Z.of_nat i), wrap64 (next + Z.of_nat i + 1)).
Proof.
  intros Hn Hsz. destruct (alloc_id_total next m Hn Hsz) as [[id next'] Ha]. rewrite Ha.
  apply alloc_id_spec in Ha as (i & Hi & -> & -> & Hfree & Htaken); [| done].
  exists i. split_and!; [| lia | done]. unfold first_free.
  enough (list_find (fun i => m !! wrap64 (next + Z.of_nat i) = None) (seq 0 (S (size m))) = Some (i, i)) as -> by done.
  apply list_find_Some. split_and!; [apply lookup_seq; lia | done |].
  intros j y [-> Hj]%lookup_seq Hlt. by apply Htaken.
Qed.

(** The counter is at its last value, which is in use, and so is 0. *)
Definition demo_ids : gmap Z unit := <[u64_modulus - 1 := tt]> {[0 := tt]}.

Lemma alloc_id_is_first_free_witness :
  alloc_id (S (size demo_ids)) (u64_modulus - 1) demo_ids = Some (1, 2) /\
  exists i, first_free (u64_modulus - 1) demo_ids = Some i /\ (i <= size demo_ids)%nat /\
    alloc_id (S (size demo_ids)) (u64_modulus - 1) demo_ids =
      Some (wrap64 (u64_modulus - 1 + Z.of_nat i), wrap64 (u64_modulus - 1 + Z.of_nat i + 1)).
Proof.
  split; [vm_compute; reflexivity |]. apply (alloc_id_is_first_free (u64_modulus - 1) demo_ids).
  - unfold is_u64, u64_modulus. lia.
  - vm_compute. reflexivity.
Defined.

(** C14. While the process is not exiting, [handle_fd_register] replies
    an identifier that no registered file has, the identifier leads to a new
    [FdData] with the descriptor that was sent, whose only clone is in the map,
    and no other registration changes. The search for the identifier ends,
    also when the 64-bit counter has wrapped around. *)
Theorem register_fresh {K B} `{!Fcntl K} `{!Backoff B} (k : K) (s : daemon K B) fd reply_fd loc p sp :
  reachable daemon_step (daemon_init k) s -> d_main s = MReady ->
  rw_value (exit_lock (d_inner s)) = false ->
  Z.of_nat (size (descriptors (d_inner s))) < u64_modulus -> d_trackers s !! loc = None ->
  exists id s',
    daemon_step s (DReceive (Done (Ok (Message.Register (Register.mk fd), reply_fd)))
                            (mkEnv loc p sp (Ok tt))) = Some s' /\
    is_u64 id /\ descriptors (d_inner s) !! id = None /\
    descriptors (d_inner s') = <[id := loc]> (descriptors (d_inner s)) /\
    d_fds s !! loc = None /\ d_fds s' = <[loc := mkFdData fd {[HMap id]}]> (d_fds s) /\
    d_events s' = Hangup reply_fd :: Sent reply_fd (RId (Ok id)) :: d_events s.
Proof.
  intros Hr Hm Hx Hsz Hloc. pose proof (daemon_reachable_inv k s Hr) as HI.
  destruct (di_ids _ HI) as [Hn _].
  destruct (alloc_id_total (next_id (d_inner s)) (descriptors (d_inner s)) Hn Hsz) as [[id next] Ha].
  destruct (alloc_id_sound _ _ _ _ _ Hn Ha) as (Hid & Hu & _).
  assert (d_fds s !! loc = None) as Hf.
  { apply eq_None_not_Some. intros [d Hd]. apply (di_fd_tracker _ HI) in Hd as [? ?]. congruence. }
  exists id. eexists. unfold daemon_step. rewrite Hm. unfold owner_receiving_loop.
  unfold handle_fd_register, acquire_exit_lock. simpl. rewrite Hx. simpl. rewrite Hloc, Ha.
  split_and!; [reflexivity | done.. | reflexivity | done | reflexivity | reflexivity].
Qed.

Lemma register_fresh_witness :
  exists id s',
    daemon_step (after free_file [DMask (Ok tt)])
      (DReceive (Done (Ok (Message.Register (Register.mk 7), 20))) (mkEnv 0 0 true (Ok tt))) = Some s' /\
    is_u64 id /\ descriptors (d_inner (after free_file [DMask (Ok tt)])) !! id = None /\
    descriptors (d_inner s') = <[id := 0%nat]> (descriptors (d_inner (after free_file [DMask (Ok tt)]))) /\
    d_fds (after free_file [DMask (Ok tt)]) !! 0%nat = None /\
    d_fds s' = <[0%nat := mkFdData 7 {[HMap id]}]> (d_fds (after free_file [DMask (Ok tt)])) /\
    d_events s' = Hangup 20 :: Sent 20 (RId (Ok id)) :: d_events (after free_file [DMask (Ok tt)]).
Proof.
  apply (register_fresh free_file (after free_file [DMask (Ok tt)]) 7 20 0 0 true).
  - apply after_reachable. vm_compute. eauto.
  - reflexivity.
  - reflexivity.
  - vm_compute. reflexivity.
  - reflexivity.
Defined.

(** C35. Once the process has decided to exit, a registration is refused:
    the descriptor that was sent is closed and nothing is registered. The
    reply carries EIO, because [io_cvt] has no case for the [BrokenPipe] of
    [acquire_exit_lock]; the client reads an error whose kind is not
    [BrokenPipe]. *)
Theorem register_after_exit {K B} `{!Fcntl K} `{!Backoff B} (s : daemon K B) fd reply_fd e :
  d_main s = MReady -> rw_value (exit_lock (d_inner s)) = true ->
  exists s',
    daemon_step s (DReceive (Done (Ok (Message.Register (Register.mk fd), reply_fd))) e) = Some s' /\
    d_inner s' = d_inner s /\ d_fds s' = d_fds s /\ d_kernel s' = fd_close fd (d_kernel s) /\
    d_events s' = Hangup reply_fd :: Sent reply_fd (RId (Err Errno.EIO)) :: d_events s /\
    kind (Os Errno.EIO) <> ErrorKind.BrokenPipe.
Proof.
  intros Hm Hx. eexists. unfold daemon_step. rewrite Hm. unfold owner_receiving_loop.
  unfold handle_fd_register, acquire_exit_lock. simpl. rewrite Hx. by split_and!.
Qed.

Lemma register_after_exit_witness :
  exists s',
    daemon_step (after free_file demo_exit)
      (DReceive (Done (Ok (Message.Register (Register.mk 7), 20))) (demo_env 0 0)) = Some s' /\
    d_inner s' = d_inner (after free_file demo_exit) /\ d_fds s' = d_fds (after free_file demo_exit) /\
    d_kernel s' = fd_close 7 (d_kernel (after free_file demo_exit)) /\
    d_events s' = Hangup 20 :: Sent 20 (RId (Err Errno.EIO)) :: d_events (after free_file demo_exit) /\
    kind (Os Errno.EIO) <> ErrorKind.BrokenPipe.
Proof.
  apply (register_after_exit (after free_file demo_exit) 7 20 (demo_env 0 0)); reflexivity.
Defined.

(** The kinds that have a code of their own on the wire. *)
Definition wire_kinds : list ErrorKind :=
  [ErrorKind.NotFound; ErrorKind.PermissionDenied; ErrorKind.ConnectionRefused;
   ErrorKind.ConnectionReset; ErrorKind.ConnectionAborted; ErrorKind.NotConnected;
   ErrorKind.AddrInUse; ErrorKind.AddrNotAvailable; ErrorKind.TimedOut; ErrorKind.WouldBlock;
   ErrorKind.AlreadyExists; ErrorKind.InvalidInput; ErrorKind.Deadlock].

(** C33. What [io_cvt] keeps of an error that crosses the wire: an OS error
    keeps its code; an error made from a kind of [wire_kinds] arrives as an
    error of the same kind, [InvalidData] arrives as [InvalidInput], and every
    other kind, [BrokenPipe] included, arrives as EIO, which has no kind. *)
Theorem io_cvt_preserves {A} (e : io_error) :
  exists errno, io_cvt (Err e : io_result A) = Err errno /\
    match e with
    | Os n => errno = n
    | Custom k =>
        if bool_decide (k ∈ wire_kinds) then kind (Os errno) = k
        else if bool_decide (k = ErrorKind.InvalidData) then kind (Os errno) = ErrorKind.InvalidInput
        else errno = Errno.EIO /\ kind (Os errno) = ErrorKind.Uncategorized
    end.
Proof.
  destruct e as [n|k]; simpl; [by eexists |]. eexists. split; [reflexivity |].
  by destruct k; vm_compute.
Qed.

(** ** Unregistration *)

Section Freed.
Context {K B : Type} `{!Fcntl K} `{!Backoff B}.
Implicit Types s : daemon K B.

(** Nothing refers to the [FdData] any more: it is gone, its descriptor is
    closed, and neither the map nor a thread has a clone. *)
Definition freed s (loc : nat) : Prop :=
  d_fds s !! loc = None /\ is_Some (d_trackers s !! loc) /\ forall h, arc_of s h <> Some loc.

Lemma freed_intro s loc :
  daemon_inv s -> d_fds s !! loc = None -> is_Some (d_trackers s !! loc) -> freed s loc.
Proof.
  intros HI Hf Ht. split_and!; [done.. |]. intros h Hh.
  destruct (arcs_ok_live s h loc (di_arcs _ HI) Hh) as [? ?]. congruence.
Qed.

Lemma step_keeps_freed s l s' loc :
  daemon_inv s -> daemon_step s l = Some s' -> freed s loc -> freed s' loc.
Proof.
  intros HI Hs (Hf & Ht & _). apply freed_intro.
  - by eapply daemon_step_inv.
  - by eapply step_freed.
  - by eapply step_trackers.
Qed.

(** The unregistering thread keeps its clone until the [FdData] goes. *)
Definition unregistering s (u loc : nat) : Prop := (d_unregs s !! u ≫= unreg_arc) = Some loc.

Lemma drop_last s u loc d :
  daemon_inv s -> unregistering s u loc -> d_fds s !! loc = Some d -> strong_count d = 1%nat ->
  fds_drop (d_fds s) loc (HUnreg u) = delete loc (d_fds s).
Proof.
  intros HI Hu Hd Hc. unfold fds_drop. rewrite Hd. rewrite bool_decide_true; [done |].
  destruct (proj1 (ai_held _ _ _ (di_arcs _ HI) (HUnreg u) loc) Hu) as (d' & Hd' & Hin).
  simplify_eq. unfold strong_count in Hc. apply size_1_elem_of in Hc as [h Hh].
  apply leibniz_equiv_iff in Hh. rewrite Hh in *. apply elem_of_singleton in Hin as <-. set_solver.
Qed.

Lemma step_unregistering s l s' u loc :
  daemon_inv s -> daemon_step s l = Some s' -> unregistering s u loc ->
  unregistering s' u loc \/ freed s' loc.
Proof.
  intros HI Hs Hu.
  assert (is_Some (d_trackers s' !! loc)) as Ht'.
  { eapply step_trackers; [done |].
    destruct (arcs_ok_live s (HUnreg u) loc (di_arcs _ HI) Hu) as [d Hd]. by eapply di_fd_tracker. }
  assert (unregistering s' u loc \/ d_fds s' !! loc = None) as [?|?]; [| by left |
    right; apply freed_intro; [by eapply daemon_step_inv | done..]].
  unfold unregistering in *. destruct l; step_cases Hs; auto.
  all: match goal with
       | |- context [<[?n := _]> _ !! _] => destruct (decide (n = u)) as [E|]
       | |- context [delete ?n _ !! _] => destruct (decide (n = u)) as [E|]
       end; try rewrite E in *; simplify_map_eq; auto.
  right. injection Hu as ->. erewrite (drop_last s u loc); [apply lookup_delete_eq | done | | done |].
  - unfold unregistering. by simplify_map_eq.
  - by eapply bool_decide_eq_true.
Qed.
End Freed.

(** C1. When an unregistration has taken file [id] out of the map and its
    thread is past its waiting loop (its reply is sent after that), the
    [FdData] is gone for good: its descriptor is closed, and no thread, running
    a lock command or about to run one, refers to it, now or later. *)
Theorem unregister_frees {K B} `{!Fcntl K} `{!Backoff B} (k : K) (s0 s1 s : daemon K B) u fails id loc fd ls :
  reachable daemon_step (daemon_init k) s0 ->
  d_unregs s0 !! u = Some (URemove id, fd) -> descriptors (d_inner s0) !! id = Some loc ->
  daemon_step s0 (DUnreg u fails) = Some s1 ->
  run daemon_step s1 ls = Some s -> (d_unregs s !! u ≫= unreg_arc) = None ->
  freed s loc.
Proof.
  intros Hr Hu Hid Hs Hrun Hend. pose proof (daemon_reachable_inv k s0 Hr) as HI0.
  assert (daemon_inv s /\ (unregistering s u loc \/ freed s loc)) as [HI [H|H]]; [| | done].
  - eapply (run_invariant daemon_step (fun s => daemon_inv s /\ (unregistering s u loc \/ freed s loc)));
      [| | exact Hrun].
    + intros s2 l s3 [H1 H2] Hstep. split; [by eapply daemon_step_inv |].
      destruct H2; [by eapply step_unregistering | right; by eapply step_keeps_freed].
    + split; [by eapply daemon_step_inv |]. left. unfold daemon_step, handle_fd_unregister in Hs.
      rewrite Hu, Hid in Hs. simplify_eq. unfold unregistering. simpl. by rewrite lookup_insert_eq.
  - unfold unregistering in H. congruence.
Qed.

(** A blocking lock waits for a lock of another process; its file is
    unregistered: the thread is interrupted, ends, and the unregistration
    goes on. *)
Definition demo_unregister : list file_label :=
  demo_blocking ++
  replicate 5 demo_lock ++
  [demo_recv (Message.Unregister (Unregister.mk 0)) 22 (demo_env 0 0)].
Definition demo_unregister_rest : list file_label :=
  [DUnreg 0 0; DUnreg 0 0; DLock 0 (Ok tt) true; demo_lock; demo_lock; demo_lock;
   DUnreg 0 0; DUnreg 0 0].

Lemma unregister_frees_witness :
  freed (after taken_file (demo_unregister ++ DUnreg 0 0 :: demo_unregister_rest)) 0.
Proof.
  apply (unregister_frees taken_file (after taken_file demo_unregister)
           (after taken_file (demo_unregister ++ [DUnreg 0 0])) _ 0 0 0 0 22 demo_unregister_rest).
  - apply after_reachable. vm_compute. eauto.
  - vm_compute. reflexivity.
  - vm_compute. reflexivity.
  - vm_compute. reflexivity.
  - vm_compute. reflexivity.
  - vm_compute. reflexivity.
Defined.

(** ** Interrupts *)

Section Interrupted.
Context {K B : Type} `{!Fcntl K} `{!Backoff B}.
Implicit Types s : daemon K B.

(** The thread of the handle has ended: it holds no clone of the file and will
    send no further reply. *)
Definition thread_ended s (h : InterruptibleHandle) : Prop :=
  exists lt, d_locks s !! h_exit h = Some lt /\ lt_pthread lt = h_thread h /\ lt_pc lt = PEnded.

Lemma step_ended s l s' h : daemon_step s l = Some s' -> thread_ended s h -> thread_ended s' h.
Proof.
  intros Hs (lt & Ht & Hp & Hpc). unfold thread_ended. destruct l; step_cases Hs; eauto.
  all: try (match goal with |- exists _, foldl pthread_kill _ ?ps !! _ = _ /\ _ =>
              edestruct (kill_locks_fwd ps) as (lt' & E1 & E2 & _ & E4) end; [exact Ht |];
            exists lt'; split_and!; congruence).
  all: try (destruct (kill_locks_fwd [h_thread h0] _ _ _ Ht) as (lt' & E1 & E2 & _ & E4);
            exists lt'; split_and!; [exact E1 | congruence..]).
  all: exists lt; (split; [| done]); rewrite lookup_insert_ne; [done |]; congruence.
Qed.

Lemma step_sent s l s' e : daemon_step s l = Some s' -> e ∈ d_events s -> e ∈ d_events s'.
Proof. intros Hs He. destruct l; step_cases Hs; try done; set_solver. Qed.

(** Thread [n] replies [r] on [fd], or has done so. *)
Definition replies s (n : nat) (r : io_result unit) (p : Pthread) (fd : Fd) : Prop :=
  d_intrs s !! n = Some (IReply r, p, fd) \/ Sent fd (RUnit (io_cvt r)) ∈ d_events s.

Lemma step_replies s l s' n r p fd : daemon_step s l = Some s' -> replies s n r p fd -> replies s' n r p fd.
Proof.
  intros Hs [Hn|?]; [| right; by eapply step_sent]. unfold replies.
  destruct l; step_cases Hs; auto.
  all: try (destruct (decide (n = e_name e)) as [->|]; [congruence |]; left; by rewrite lookup_insert_ne).
  all: destruct (decide (n0 = n)) as [->|];
    [simplify_eq; right; set_solver | left; by rewrite ?lookup_insert_ne, ?lookup_delete_ne by done].
Qed.

(** What thread [n] owes once it has looked up [h]: it is stopping the thread
    of [h], or that thread has ended and the reply is [Ok]. *)
Definition interrupting s (n : nat) (h : InterruptibleHandle) (p : Pthread) (fd : Fd) : Prop :=
  (exists l, d_intrs s !! n = Some (IStop h l, p, fd)) \/
  (thread_ended s h /\ replies s n (Ok tt) p fd).

(** Only thread [n] moves thread [n]. *)
Lemma step_intr_stays s l s' n x :
  daemon_step s l = Some s' -> (forall fails, l <> DIntr n fails) -> d_intrs s !! n = Some x ->
  d_intrs s' !! n = Some x.
Proof.
  intros Hs Hl Hn. destruct l; step_cases Hs; try done.
  all: rewrite ?lookup_insert_ne, ?lookup_delete_ne; try done; try congruence; by intros ->; eapply Hl.
Qed.

Lemma step_interrupting s l s' n h p fd :
  handles_inv s -> daemon_step s l = Some s' -> interrupting s n h p fd -> interrupting s' n h p fd.
Proof.
  intros HH Hs [[lo Hn]|[He Hrep]];
    [| right; split; [by eapply step_ended | by eapply step_replies]].
  assert ((exists fails, l = DIntr n fails) \/ forall fails, l <> DIntr n fails) as [[fails ->]|Hl].
  { destruct l; try (by right). destruct (decide (n0 = n)) as [->|]; [by left; eexists | right; congruence]. }
  2: { left. exists lo. by eapply step_intr_stays. }
  destruct (hi_stop _ HH _ _ _ _ _ Hn) as (lt & Ht & Hp & Hg).
  unfold daemon_step, handle_interrupt in Hs. rewrite Hn, Ht in Hs.
  unfold handle_stop_iter in Hs. destruct (lt_exited lt) eqn:Hx.
  { right. simplify_eq. split; [exists lt; by eauto using hi_exited |]. left. apply lookup_insert_eq. }
  rewrite bool_decide_false in Hs; cycle 1.
  { rewrite <- Hp. eapply (hi_distinct _ HH); [done.. |]. unfold guarded in Hg. intros E.
    rewrite E in Hg. congruence. }
  left. repeat case_match; simplify_eq; simpl; rewrite lookup_insert_eq; eauto.
Qed.
End Interrupted.


(** A blocking lock that is pending is interrupted with its identifier. *)
Definition demo_interrupting : list file_label :=
  demo_blocking ++
  replicate 5 demo_lock ++
  [demo_recv (Message.Interrupt (Interrupt.mk 0)) 23 (demo_env 0 101)].
Definition demo_interrupt : list file_label :=
  demo_interrupting ++
  [DIntr 0 0; DIntr 0 0; DLock 0 (Ok tt) true; demo_lock; demo_lock; demo_lock].

(** The rest of the run, from the look-up on; the reply is sent at its end. *)
Definition demo_interrupted : list file_label :=
  [DIntr 0 0; DLock 0 (Ok tt) true; demo_lock; demo_lock; demo_lock; DIntr 0 0; DIntr 0 0].


(** C13. The identifier of a [Pending] reply is new when it is entered, it
    leads to the thread that replies it, and it leads to no other thread until
    the client asks to remove it: an interrupt cannot hit the operation of
    someone else. *)
Theorem pending_id_names_thread {K B} `{!Fcntl K} `{!Backoff B} (k : K) (s s1 s2 : daemon K B)
    t lt masked i ls id :
  reachable daemon_step (daemon_init k) s -> d_locks s !! t = Some lt ->
  daemon_step s (DLock t masked i) = Some s1 ->
  d_events s1 = Sent (lt_reply lt) (RLock (Ok (ReplyLockCommandData.Pending id))) :: d_events s ->
  run daemon_step s1 ls = Some s2 ->
  Forall (fun l => forall fd e,
    l <> DReceive (Done (Ok (Message.RemoveInterrupt (RemoveInterrupt.mk id), fd))) e) ls ->
  interrupts (d_inner s) !! id = None /\
  interrupts (d_inner s2) !! id = Some (mkHandle (lt_pthread lt) t).
Proof.
  intros Hr Ht Hs Hev Hrun Hno. pose proof (daemon_reachable_inv k s Hr) as HI.
  pose proof (daemon_step_inv _ _ _ HI Hs) as HI1.
  enough (interrupts (d_inner s) !! id = None /\
          interrupts (d_inner s1) !! id = Some (mkHandle (lt_pthread lt) t)) as [? ?].
  { split; [done |]. by eapply interrupt_stays. }
  assert (forall e (l : list reply_event), l <> e :: l) as Hlen.
  { intros e l E%(f_equal length). simpl in E. lia. }
  step_cases Hs.
  all: try discriminate; try (by destruct (Hlen _ _ Hev)).
  all: split; [done | apply lookup_insert_eq].
Qed.

Definition demo_pending : list file_label := demo_blocking ++ replicate 2 demo_lock.

Lemma pending_id_names_thread_witness :
  interrupts (d_inner (after taken_file demo_pending)) !! 0 = None /\
  interrupts (d_inner (after taken_file demo_interrupt)) !! 0 = Some (mkHandle 100 0).
Proof.
  apply (pending_id_names_thread taken_file (after taken_file demo_pending)
           (after taken_file (demo_pending ++ [demo_lock])) (after taken_file demo_interrupt) 0
           (mkLockThread 100 0 (whole_file LockType.Write) 21 (PEntry 0) false false) (Ok tt) false
           (drop (S (length demo_pending)) demo_interrupt) 0).
  - apply after_reachable. vm_compute. eauto.
  - vm_compute. reflexivity.
  - vm_compute. reflexivity.
  - vm_compute. reflexivity.
  - vm_compute. reflexivity.
  - repeat constructor; discriminate.
Defined.

(** ** Blocking locks *)

(** A blocking lock that is granted at once is requested a second
    time: [set_lock_blocking] does not return after the [F_SETLK] that
    succeeded, it replies [Done], goes on to [F_SETLKW] and replies again. *)
Lemma granted_lock_taken_twice {K B} `{!Fcntl K} `{!Backoff B} (s : daemon K B) t lt d k1 k2 :
  d_locks s !! t = Some lt -> lt_pc lt = PTry -> d_fds s !! lt_loc lt = Some d ->
  fcntl_setlk (descriptor d) (flock_from (lt_params lt)) (d_kernel s) = (Ok tt, k1) ->
  fcntl_setlkw (descriptor d) (flock_from (lt_params lt)) k1 = Some (Ok tt, k2) ->
  exists s', run daemon_step s (replicate 4 (DLock t (Ok tt) false)) = Some s' /\
    d_kernel s' = k2 /\
    d_events s' =
      let done := Sent (lt_reply lt) (RLock (Ok (ReplyLockCommandData.Done (lt_params lt)))) in
      Hangup (lt_reply lt) :: done :: done :: d_events s.
Proof.
  intros Ht Hpc Hd H1 H2. eexists. unfold run, replicate.
  unfold daemon_step, lock_thread_step. rewrite Ht, Hpc. unfold set_lock_try. rewrite Hd, H1. simpl.
  rewrite lookup_insert_eq. simpl. rewrite lookup_insert_eq. simpl. rewrite lookup_insert_eq. simpl.
  unfold set_lock_wait. simpl. rewrite Hd, H2. by split_and!.
Qed.

Definition demo_thread : LockThread :=
  mkLockThread 100 0 (whole_file LockType.Write) 21 PTry false false.

Lemma granted_lock_taken_twice_witness :
  exists s', run daemon_step (after free_file demo_blocking) (replicate 4 (DLock 0 (Ok tt) false)) = Some s' /\
    d_kernel s' = mkFile libc.F_WRLCK false /\
    d_events s' =
      let done := Sent 21 (RLock (Ok (ReplyLockCommandData.Done (whole_file LockType.Write)))) in
      Hangup 21 :: done :: done :: d_events (after free_file demo_blocking).
Proof.
  apply (granted_lock_taken_twice (after free_file demo_blocking) 0 demo_thread
           (mkFdData 7 {[HMap 0; HLock 0]}) (mkFile libc.F_WRLCK false)); vm_compute; reflexivity.
Defined.

(** C34. That second request can undo an unlock: a client locks a free file
    with a blocking command, gets [Done], unlocks the file, gets [Done] again,
    and afterwards, when every thread of the process has ended and no request
    is open, the process holds the write lock. *)
Theorem unlock_can_be_undone :
  exists ls (s : file_daemon),
    run daemon_step (daemon_init free_file) ls = Some s /\
    rev (d_events s) =
      [Sent 20 (RId (Ok 0)); Hangup 20;
       Sent 21 (RLock (Ok (ReplyLockCommandData.Done (whole_file LockType.Write))));
       Sent 22 (RLock (Ok (ReplyLockCommandData.Done (whole_file LockType.Unlock)))); Hangup 22;
       Sent 21 (RLock (Ok (ReplyLockCommandData.Done (whole_file LockType.Write)))); Hangup 21] /\
    d_main s = MReady /\ map_Forall (fun _ lt => lt_pc lt = PEnded) (d_locks s) /\
    f_mine (d_kernel s) = libc.F_WRLCK.
Proof.
  exists (demo_blocking ++
    [demo_lock;
     demo_recv (Message.LockCommand
       (LockCommand.mk 0 LockAction.SetLockNonBlocking (whole_file LockType.Unlock))) 22 (demo_env 0 0);
     DCommand (demo_env 0 0)] ++ replicate 6 demo_lock).
  eexists. split; [vm_compute; reflexivity |].
  split; [vm_compute; reflexivity |]. split; [vm_compute; reflexivity |].
  split; [| vm_compute; reflexivity].
  apply (bool_decide_unpack _). vm_compute. exact I.
Qed.

(** ** Truncated headers *)

(** A header that was cut short is never consumed: when the peer has
    closed after fewer than the 16 bytes of a header, [receive_request] fails
    with [UnexpectedEof] and leaves the socket as it was, and the receiving
    loop treats this as recoverable: it refreshes the TTL and is where it was
    before, any number of times. *)
Lemma short_header_spins {W K B} `{!Sys W} `{!Fcntl K} `{!Backoff B} `{!Bincode (Payload Message)}
    (socket : Fd) (bytes : list byte) (w : W) (s : daemon K B) (e : env) (n : nat) :
  sys_recvmsg socket [8; 8] 0 true w = (Ok (mkReceived bytes []), w) ->
  (0 < length bytes < 16)%nat -> d_main s = MReady ->
  receive_request (R := Message) socket w = (Done (Err (Custom ErrorKind.UnexpectedEof)), w) /\
  run daemon_step s (replicate (S n) (DReceive (fst (receive_request (R := Message) socket w)) e)) =
    Some (set_ttl s true).
Proof.
  intros Hrecv Hlen Hm.
  assert (receive_request (R := Message) socket w =
          (Done (Err (Custom ErrorKind.UnexpectedEof)), w)) as Hr.
  { unfold receive_request, receive_raw_message. apply try_bind_err, try_bind_err. unfold recv_exact.
    rewrite (try_bind_ok _ _ _ (mkReceived bytes []) w) by (unfold os, bind, lift, ret; by rewrite Hrecv).
    destruct (Nat.eqb_spec (length bytes) 0) as [?|_]; [lia |].
    cbn [rc_bytes rc_ancillary]. destruct (Nat.eqb_spec (length bytes) 0) as [?|_]; [lia |].
    rewrite (try_bind_ok _ _ _ (mkReceived bytes []) w) by done. cbn [rc_bytes rc_ancillary].
    destruct (Z.eqb_spec (zlen bytes) (sum_lens [8; 8])) as [E|_]; [| done].
    unfold zlen, sum_lens in E; simpl in E. lia. }
  split; [done |]. rewrite Hr. simpl fst.
  revert s Hm; induction n as [|n IH]; intros s Hm; simpl.
  { by rewrite Hm. }
  rewrite Hm. by apply (IH (set_ttl s true)).
Qed.

(** Five bytes on socket 2, whose peer is closed. *)
Definition demo_short : net :=
  mkNet {[2 := (0, false)]} {[(0, false) := [mkFrame [x01; x02; x03; x04; x05] []]]}.

Lemma short_header_spins_witness :
  receive_request (R := Message) 2 demo_short =
    (Done (Err (Custom ErrorKind.UnexpectedEof)), demo_short) /\
  run daemon_step (after free_file [DMask (Ok tt)])
    (replicate 4 (DReceive (fst (receive_request (R := Message) 2 demo_short)) (demo_env 0 0))) =
    Some (set_ttl (after free_file [DMask (Ok tt)]) true).
Proof.
  apply (short_header_spins 2 [x01; x02; x03; x04; x05] demo_short
           (after free_file [DMask (Ok tt)]) (demo_env 0 0) 3).
  - vm_compute. reflexivity.
  - simpl. lia.
  - reflexivity.
Defined.
