(* ===== verification/DaemonReplies.v ===== *)
(** * Reply streams of the owner process

    What a client sees on the reply descriptor of its request: at most one
    reply, or two for a blocking lock, then the end of the stream and nothing
    after it; [Pending] comes first if at all. Each open reply descriptor
    belongs to the main loop or to one thread. *)

From Stdlib Require Import ZArith Lia.
From stdpp Require Import base tactics numbers list gmap.
From S2P Require Import Prelude.
From S2P Require Import Std.
From S2P Require Import Types.
From S2P Require Import Wire.
From S2P Require Import Messages.
From S2P Require Import Helpers.
From S2P Require Import Tracker.
From S2P Require Import TrackerSpec.
From S2P Require Import Daemon.
From S2P Require Import DaemonInv.
From S2P Require Import DaemonSpec.
Local Open Scope Z_scope.

(** ** Streams *)

(** What was sent on [fd], latest first; [None] is the end. *)
Definition stream (fd : Fd) (evs : list reply_event) : list (option reply_value) :=
  omap (fun e => match e with
                 | Sent f v => if decide (f = fd) then Some (Some v) else None
                 | Hangup f => if decide (f = fd) then Some None else None
                 end) evs.

Definition is_pending (v : reply_value) : bool :=
  match v with RLock (Ok (ReplyLockCommandData.Pending _)) => true | _ => false end.

(** The streams that a client has to expect, latest first. *)
Definition legal (st : list (option reply_value)) : Prop :=
  match st with
  | [] => True
  | [Some _] | [None] => True
  | [None; Some _] => True
  | [None; Some v2; Some _] => is_pending v2 = false
  | _ => False
  end.

Definition event_fd (e : reply_event) : Fd := match e with Sent f _ => f | Hangup f => f end.

Lemma stream_app fd evs evs' : stream fd (evs ++ evs') = stream fd evs ++ stream fd evs'.
Proof. apply omap_app. Qed.

Lemma stream_other fd fd' evs :
  Forall (fun e => event_fd e = fd) evs -> fd' <> fd -> stream fd' evs = [].
Proof.
  intros Hf Hne. induction Hf as [|e evs He _ IH]; [done |]. unfold stream in *. simpl.
  destruct e; simpl in He; subst; rewrite decide_False by congruence; done.
Qed.

(** ** Who owns a reply descriptor *)

Inductive reply_owner : Type := OMain | OLock (t : nat) | OUnreg (u : nat) | OIntr (n : nat).

#[export] Instance reply_owner_eq_dec : EqDecision reply_owner.
Proof. solve_decision. Defined.

Section Replies.
Context {K B : Type} `{!Fcntl K} `{!Backoff B}.
Implicit Types s : daemon K B.

(** The descriptor, and whether a reply was sent on it. *)
Definition lock_fd (lt : LockThread) : option (Fd * bool) :=
  match lt_pc lt with
  | PTrack | PRefused | PTry | PAdd | PEntry _ => Some (lt_reply lt, false)
  | PWindow | PEnter | PWait => Some (lt_reply lt, true)
  | PReturn | PDropped | PUntracked | PEnded => None
  end.

Definition main_fd (m : main_pc) : option (Fd * bool) :=
  match m with MCommand _ _ fd => Some (fd, false) | _ => None end.

Definition reply_of s (o : reply_owner) : option (Fd * bool) :=
  match o with
  | OMain => main_fd (d_main s)
  | OLock t => d_locks s !! t ≫= lock_fd
  | OUnreg u => (fun x => (x.2, false)) <$> d_unregs s !! u
  | OIntr n => (fun x => (x.2, false)) <$> d_intrs s !! n
  end.

Definition put (f : reply_owner -> option (Fd * bool)) (o : reply_owner) (v : option (Fd * bool))
  : reply_owner -> option (Fd * bool) := fun o' => if decide (o' = o) then v else f o'.

(** The descriptor that arrives with a request. *)
Definition received (l : daemon_label K) : option Fd :=
  match l with DReceive (Done (Ok (_, fd))) _ => Some fd | _ => None end.

(** What an owner may do with its descriptor: send a first reply and keep it,
    or finish with at most one more reply, which is not [Pending] when there
    was one before. *)
Inductive allowed (fd : Fd) : bool -> option (Fd * bool) -> list reply_event -> Prop :=
  | first_reply v : allowed fd false (Some (fd, true)) [Sent fd v]
  | just_end : allowed fd false None [Hangup fd]
  | last_reply b v : (b = true -> is_pending v = false) -> allowed fd b None [Hangup fd; Sent fd v].

Inductive reply_move s (l : daemon_label K) s' : Prop :=
  | move_none :
      d_events s' = d_events s -> (forall o, reply_of s' o = reply_of s o) -> reply_move s l s'
  | move_own o fd b v evs :
      reply_of s o = Some (fd, b) -> d_events s' = evs ++ d_events s -> allowed fd b v evs ->
      (forall o', reply_of s' o' = put (reply_of s) o v o') -> reply_move s l s'
  | move_give o1 o2 fd :
      reply_of s o1 = Some (fd, false) -> reply_of s o2 = None -> d_events s' = d_events s ->
      (forall o', reply_of s' o' = put (put (reply_of s) o1 None) o2 (Some (fd, false)) o') ->
      reply_move s l s'
  | move_new fd o :
      received l = Some fd -> reply_of s o = None -> d_events s' = d_events s ->
      (forall o', reply_of s' o' = put (reply_of s) o (Some (fd, false)) o') -> reply_move s l s'
  | move_now fd evs :
      received l = Some fd -> d_events s' = evs ++ d_events s -> allowed fd false None evs ->
      (forall o, reply_of s' o = reply_of s o) -> reply_move s l s'.

(** ** Every step is one of these *)

Lemma kill_reply s ps t :
  (foldl pthread_kill (d_locks s) ps !! t ≫= lock_fd) = (d_locks s !! t ≫= lock_fd).
Proof.
  destruct (d_locks s !! t) as [lt|] eqn:Ht.
  - destruct (kill_is_Some ps (d_locks s) t) as [lt' Ht']; [by eauto |]. rewrite Ht'. simpl.
    apply kill_locks in Ht' as (lt0 & Ht0 & _ & Epc & _ & Er & _). simplify_eq.
    unfold lock_fd. by rewrite Epc, Er.
  - destruct (foldl pthread_kill (d_locks s) ps !! t) as [lt'|] eqn:Ht'; [| done].
    apply kill_locks in Ht' as (lt0 & Ht0 & _). congruence.
Qed.

Lemma lock_reply_of s s1 t lt' :
  d_main s1 = d_main s -> d_locks s1 = d_locks s -> d_unregs s1 = d_unregs s -> d_intrs s1 = d_intrs s ->
  forall o, reply_of (put_lock s1 t lt') o = put (reply_of s) (OLock t) (lock_fd lt') o.
Proof.
  intros E1 E2 E3 E4 [|t'|u|n]; unfold put; simpl; rewrite ?E1, ?E2, ?E3, ?E4; try done.
  destruct (decide (OLock t' = OLock t)) as [[= ->]|Hne].
  - by rewrite lookup_insert_eq.
  - rewrite lookup_insert_ne by congruence. done.
Qed.

Lemma put_same (f : reply_owner -> option (Fd * bool)) o v o' : f o = v -> put f o v o' = f o'.
Proof. intros <-. unfold put. by case_decide; subst. Qed.

Section Lock.
Context (s : daemon K B) (l : daemon_label K) (t : nat) (lt : LockThread).
Hypothesis Ht : d_locks s !! t = Some lt.

Lemma lock_quiet s1 lt' :
  d_main s1 = d_main s -> d_locks s1 = d_locks s -> d_unregs s1 = d_unregs s -> d_intrs s1 = d_intrs s ->
  d_events s1 = d_events s -> lock_fd lt' = lock_fd lt -> reply_move s l (put_lock s1 t lt').
Proof.
  intros E1 E2 E3 E4 E5 El. apply move_none; [done |]. intros o. rewrite (lock_reply_of s) by done.
  apply put_same. simpl. by rewrite Ht.
Qed.

Lemma lock_sends s1 lt' b evs :
  d_main s1 = d_main s -> d_locks s1 = d_locks s -> d_unregs s1 = d_unregs s -> d_intrs s1 = d_intrs s ->
  d_events s1 = evs ++ d_events s -> lock_fd lt = Some (lt_reply lt, b) ->
  allowed (lt_reply lt) b (lock_fd lt') evs -> reply_move s l (put_lock s1 t lt').
Proof.
  intros E1 E2 E3 E4 E5 El Ha. eapply (move_own _ _ _ (OLock t)); [| exact E5 | exact Ha |].
  - simpl. by rewrite Ht.
  - by apply lock_reply_of.
Qed.
End Lock.

Lemma lock_step_move s t masked interrupt s' :
  lock_thread_step s t masked interrupt = Some s' -> reply_move s (DLock t masked interrupt) s'.
Proof.
  intros Hs. unfold lock_thread_step in Hs. destruct (d_locks s !! t) as [lt|] eqn:Ht; [| done].
  destruct (lt_pc lt) eqn:Hpc;
    unfold set_lock_try, set_lock_candidate, set_lock_entry, set_lock_window, set_lock_wait,
      handle_interrupt_add_candidate, handle_interrupt_add_entry, lock_return, lock_reply in Hs;
    repeat (case_match; try discriminate Hs); simplify_eq.
  all: first
    [ eapply (lock_quiet _ _ _ lt Ht); daemon_simpl; try done; unfold lock_fd; by rewrite Hpc
    | eapply (lock_sends _ _ _ lt Ht _ _ _ [_]); daemon_simpl; try done;
      [unfold lock_fd; by rewrite Hpc | constructor]
    | eapply (lock_sends _ _ _ lt Ht _ _ _ [_; _]); daemon_simpl; try done;
      [unfold lock_fd; by rewrite Hpc | by constructor] ].
Qed.

(** Two descriptions of the owners agree. *)
Ltac solve_owner :=
  intros [|?|?|?]; unfold put; daemon_simpl;
  repeat match goal with
         | |- context [<[?a := _]> _ !! ?b] => destruct (decide (b = a)) as [->|]; simplify_map_eq
         | |- context [delete ?a _ !! ?b] => destruct (decide (b = a)) as [->|]; simplify_map_eq
         end;
  repeat case_decide; simplify_eq; rewrite ?kill_reply; try done;
  try (apply (kill_reply _ [_])); by simplify_map_eq.

Lemma unreg_step_move s u fails s' :
  handle_fd_unregister s u fails = Some s' -> reply_move s (DUnreg u fails) s'.
Proof.
  intros Hs. unfold handle_fd_unregister in Hs.
  destruct (d_unregs s !! u) as [[pc fd]|] eqn:Hu; [| done].
  destruct pc; repeat (case_match; try discriminate Hs); simplify_eq.
  all: try (apply move_none; [by daemon_simpl | solve_owner]).
  eapply (move_own _ _ _ (OUnreg u) fd false None [_; _]); [simpl; by rewrite Hu | reflexivity | by constructor |].
  solve_owner.
Qed.

Lemma intr_step_move s n fails s' :
  handle_interrupt s n fails = Some s' -> reply_move s (DIntr n fails) s'.
Proof.
  intros Hs. unfold handle_interrupt in Hs.
  destruct (d_intrs s !! n) as [[[pc p] fd]|] eqn:Hn; [| done].
  destruct pc; repeat (case_match; try discriminate Hs); simplify_eq.
  all: try (apply move_none; [by daemon_simpl | solve_owner]).
  - eapply (move_own _ _ _ (OIntr n) fd false None [_]); [simpl; by rewrite Hn | reflexivity | by constructor |].
    solve_owner.
  - eapply (move_own _ _ _ (OIntr n) fd false None [_; _]); [simpl; by rewrite Hn | reflexivity | by constructor |].
    solve_owner.
Qed.

Lemma command_step_move s c loc fd e s' :
  d_main s = MCommand c loc fd -> lock_command_run s c loc fd e = Some s' -> reply_move s (DCommand e) s'.
Proof.
  intros Hm Hs. unfold lock_command_run in Hs.
  repeat (case_match; try discriminate Hs); simplify_eq.
  - eapply (move_own _ _ _ OMain fd false None [_; _]); [simpl; by rewrite Hm | daemon_simpl; reflexivity | by constructor |].
    solve_owner.
  - apply (move_give _ _ _ OMain (OLock (e_name e)) fd); [simpl; by rewrite Hm | | done |].
    + simpl. match goal with E : d_locks s !! _ = None |- _ => by rewrite E end.
    + solve_owner.
  - eapply (move_own _ _ _ OMain fd false None [_]); [simpl; by rewrite Hm | daemon_simpl; reflexivity | by constructor |].
    solve_owner.
  - eapply (move_own _ _ _ OMain fd false None [_; _]); [simpl; by rewrite Hm | daemon_simpl; reflexivity | by constructor |].
    solve_owner.
Qed.

Lemma receive_step_move s r e s' :
  d_main s = MReady -> owner_receiving_loop s r e = Some s' -> reply_move s (DReceive r e) s'.
Proof.
  intros Hm Hs. destruct r as [[[m fd]|err]|]; cycle 1.
  { simpl in Hs. repeat (case_match; try discriminate Hs); simplify_eq; apply move_none; try done;
      intros []; simpl; by rewrite ?Hm. }
  { simpl in Hs. simplify_eq. apply move_none; [done |]. intros []; simpl; by rewrite ?Hm. }
  destruct m; simpl in Hs; unfold handle_fd_register, handle_lock_command in Hs;
    repeat (case_match; try discriminate Hs); simplify_eq;
    first [ eapply (move_now _ _ _ fd [_; _]); [done | daemon_simpl; reflexivity | by constructor |];
            intros []; daemon_simpl; by rewrite ?Hm
          | eapply (move_now _ _ _ fd [_]); [done | daemon_simpl; reflexivity | by constructor |];
            intros []; daemon_simpl; by rewrite ?Hm
          | idtac ].
  - apply (move_new _ _ _ fd (OIntr (e_name e))); [done | | done | solve_owner].
    simpl in *. match goal with E : d_intrs s !! _ = None |- _ => by rewrite E end.
  - apply (move_new _ _ _ fd (OUnreg (e_name e))); [done | | done | solve_owner].
    simpl in *. match goal with E : d_unregs s !! _ = None |- _ => by rewrite E end.
  - apply (move_new _ _ _ fd OMain); [done | simpl; by rewrite Hm | done |].
    intros []; unfold put; by daemon_simpl.
Qed.

Lemma step_move s l s' : daemon_step s l = Some s' -> reply_move s l s'.
Proof.
  intros Hs. destruct l; simpl in Hs.
  - simplify_eq. by apply move_none; [| intros []].
  - repeat (case_match; try discriminate Hs); simplify_eq; apply move_none; try done;
      intros []; simpl; try done; match goal with E : d_main s = _ |- _ => by rewrite E end.
  - case_match; try done. by apply receive_step_move.
  - destruct (d_main s) eqn:Hm; try done. by eapply command_step_move.
  - destruct (d_main s) eqn:Hm; try done. unfold lock_command_spawned in Hs.
    repeat (case_match; try discriminate Hs); simplify_eq. apply move_none; [by daemon_simpl |].
    intros []; daemon_simpl; by rewrite ?Hm.
  - by apply lock_step_move.
  - by apply unreg_step_move.
  - by apply intr_step_move.
  - unfold start_iter in Hs. repeat (case_match; try discriminate Hs); simplify_eq;
      apply move_none; try done; by intros [].
Qed.

(** ** The invariant *)

(** [seen] are the descriptors that have arrived. *)
Record replies_inv s (seen : list Fd) : Prop := {
  ri_owner : forall o1 o2 fd b1 b2, reply_of s o1 = Some (fd, b1) -> reply_of s o2 = Some (fd, b2) -> o1 = o2;
  ri_open : forall o fd b, reply_of s o = Some (fd, b) ->
    if b then exists v, stream fd (d_events s) = [Some v] else stream fd (d_events s) = [];
  ri_legal : forall fd, legal (stream fd (d_events s));
  ri_seen : forall o fd b, reply_of s o = Some (fd, b) -> fd ∈ seen;
  ri_sent : forall fd, stream fd (d_events s) <> [] -> fd ∈ seen }.

Lemma allowed_fd fd b v evs : allowed fd b v evs -> Forall (fun e => event_fd e = fd) evs.
Proof. by intros []; repeat constructor. Qed.

(** What becomes of the stream of the descriptor. *)
Lemma allowed_stream fd b v evs st :
  allowed fd b v evs -> (if b then exists v, st = [Some v] else st = []) ->
  legal (stream fd evs ++ st) /\
  match v with Some (fd', b') => fd' = fd /\ b' = true /\ exists v, stream fd evs ++ st = [Some v] | None => True end.
Proof.
  intros Ha Hst. destruct Ha as [v| |b v Hp]; unfold stream; simpl; rewrite ?decide_True by done; simpl.
  - subst st. eauto.
  - by subst st.
  - destruct b; [destruct Hst as [v0 ->] | subst st]; simpl; auto.
Qed.

Lemma replies_inv_init k : replies_inv (daemon_init k) [].
Proof. split; try (intros []; simpl; intros; by simplify_map_eq). all: done. Qed.

(** Descriptors that are not touched keep their stream. *)
Lemma stream_frame fd b v evs fd' evs0 :
  allowed fd b v evs -> fd' <> fd -> stream fd' (evs ++ evs0) = stream fd' evs0.
Proof. intros Ha Hne. by rewrite stream_app, (stream_other fd) by eauto using allowed_fd. Qed.

Lemma inv_quiet s s' seen seen' :
  replies_inv s seen -> d_events s' = d_events s -> (forall o, reply_of s' o = reply_of s o) ->
  seen ⊆ seen' -> replies_inv s' seen'.
Proof.
  intros [H1 H2 H3 H4 H5] E Ho Hs. split.
  - intros o1 o2 fd b1 b2. rewrite !Ho. apply H1.
  - intros o fd b. rewrite Ho, E. apply H2.
  - intros fd. rewrite E. apply H3.
  - intros o fd b. rewrite Ho. eauto.
  - intros fd. rewrite E. eauto.
Qed.

Lemma inv_own s s' seen seen' o fd b v evs :
  replies_inv s seen -> reply_of s o = Some (fd, b) -> d_events s' = evs ++ d_events s ->
  allowed fd b v evs -> (forall o', reply_of s' o' = put (reply_of s) o v o') ->
  seen ⊆ seen' -> replies_inv s' seen'.
Proof.
  intros [H1 H2 H3 H4 H5] Ho E Ha Hp Hs.
  destruct (allowed_stream fd b v evs _ Ha (H2 _ _ _ Ho)) as [Hl Hv]. rewrite <- stream_app in Hl, Hv.
  assert (forall o' fd' b', reply_of s' o' = Some (fd', b') ->
    (o' = o /\ fd' = fd /\ b' = true /\ exists v, stream fd (evs ++ d_events s) = [Some v]) \/
    (o' <> o /\ fd' <> fd /\ reply_of s o' = Some (fd', b'))) as Hr.
  { intros o' fd' b'. rewrite Hp. unfold put. case_decide as Hd.
    - intros ->. destruct Hv as (-> & -> & ?). auto.
    - intros Hr. right. split_and!; [done | | done]. intros ->. by apply Hd, (H1 _ _ fd b' b). }
  split.
  - intros o1 o2 fd' b1 b2 R1 R2.
    destruct (Hr _ _ _ R1) as [(? & ? & _)|(? & ? & ?)], (Hr _ _ _ R2) as [(? & ? & _)|(? & ? & ?)];
      try congruence. by eapply H1.
  - intros o' fd' b' R. rewrite E. destruct (Hr _ _ _ R) as [(-> & -> & -> & ?)|(? & ? & R')]; [done |].
    rewrite (stream_frame fd b v) by done. by eapply H2.
  - intros fd'. rewrite E. destruct (decide (fd' = fd)) as [->|]; [done |]. by rewrite (stream_frame fd b v).
  - intros o' fd' b' R. destruct (Hr _ _ _ R) as [(-> & -> & _)|(? & ? & R')]; eauto.
  - intros fd'. rewrite E. destruct (decide (fd' = fd)) as [->|]; [by eauto |].
    rewrite (stream_frame fd b v) by done. eauto.
Qed.

(** A descriptor gets an owner; [o0] is the one it had, if any. *)
Lemma inv_gets s s' seen seen' o fd :
  replies_inv s seen -> d_events s' = d_events s -> stream fd (d_events s) = [] ->
  (forall o' b', reply_of s o' = Some (fd, b') -> reply_of s' o' = None \/ o' = o) ->
  (forall o' x, reply_of s' o' = Some x -> (o' = o /\ x = (fd, false)) \/ reply_of s o' = Some x) ->
  fd ∈ seen' -> seen ⊆ seen' -> replies_inv s' seen'.
Proof.
  intros [H1 H2 H3 H4 H5] E Hst Hold Hp Hin Hs. split; rewrite ?E; eauto.
  - intros o1 o2 fd' b1 b2 R1 R2.
    destruct (Hp _ _ R1) as [[? ?]|R1'], (Hp _ _ R2) as [[? ?]|R2']; simplify_eq; try done.
    + destruct (Hold _ _ R2'); congruence.
    + destruct (Hold _ _ R1'); congruence.
    + by eapply H1.
  - intros o' fd' b' R. destruct (Hp _ _ R) as [[? ?]|R']; [by simplify_eq |]. by eapply H2.
  - intros o' fd' b' R. destruct (Hp _ _ R) as [[? ?]|R']; simplify_eq; eauto.
Qed.

Lemma move_inv s l s' seen :
  replies_inv s seen -> reply_move s l s' -> (forall fd, received l = Some fd -> fd ∉ seen) ->
  replies_inv s' (option_list (received l) ++ seen).
Proof.
  intros HI Hm Hfresh. assert (seen ⊆ option_list (received l) ++ seen) as Hsub by set_solver.
  destruct Hm as [E Ho|o fd b v evs Ho E Ha Hp|o1 o2 fd H1 H2 E Hp|fd o Hr Ho E Hp|fd evs Hr E Ha Ho].
  - by eapply inv_quiet.
  - by eapply inv_own.
  - eapply (inv_gets s s' seen _ o2 fd); try done.
    + exact (ri_open _ _ HI _ _ _ H1).
    + intros o' b' R. assert (o' = o1) as -> by by eapply (ri_owner _ _ HI).
      rewrite Hp. unfold put. repeat case_decide; auto; congruence.
    + intros o' x R. rewrite Hp in R. unfold put in R. repeat case_decide; simplify_eq; auto.
    + apply Hsub. by eapply (ri_seen _ _ HI).
  - rewrite Hr in *. specialize (Hfresh fd eq_refl).
    eapply (inv_gets s s' seen _ o fd); try done.
    + destruct (stream fd (d_events s)) eqn:Es; [done |]. destruct Hfresh. apply (ri_sent _ _ HI). by rewrite Es.
    + intros o' b' R. by destruct Hfresh; eapply (ri_seen _ _ HI).
    + intros o' x R. rewrite Hp in R. unfold put in R. case_decide; simplify_eq; auto.
    + simpl. set_solver.
  - rewrite Hr in *. specialize (Hfresh fd eq_refl).
    assert (stream fd (d_events s) = []) as Hst.
    { destruct (stream fd (d_events s)) eqn:Es; [done |]. destruct Hfresh. apply (ri_sent _ _ HI). by rewrite Es. }
    destruct (allowed_stream fd false None evs [] Ha eq_refl) as [Hl _].
    destruct HI as [H1 H2 H3 H4 H5].
    assert (forall o' fd' b', reply_of s o' = Some (fd', b') -> fd' <> fd) as Hne.
    { intros o' fd' b' R ->. by apply Hfresh, (H4 o' fd b'). }
    split.
    + intros o1 o2 fd' b1 b2. rewrite !Ho. apply H1.
    + intros o' fd' b' R. rewrite Ho in R. rewrite E, (stream_frame fd false None) by eauto. by eapply H2.
    + intros fd'. rewrite E. destruct (decide (fd' = fd)) as [->|].
      * by rewrite stream_app, Hst.
      * by rewrite (stream_frame fd false None).
    + intros o' fd' b' R. rewrite Ho in R. eauto.
    + intros fd'. rewrite E. destruct (decide (fd' = fd)) as [->|]; [simpl; set_solver |].
      rewrite (stream_frame fd false None) by done. eauto.
Qed.

(** The descriptors that arrive in a run. *)
Definition arrivals (ls : list (daemon_label K)) : list Fd := omap received ls.

Lemma run_replies ls s s' seen :
  replies_inv s seen -> NoDup (seen ++ arrivals ls) -> run daemon_step s ls = Some s' ->
  exists seen', replies_inv s' seen'.
Proof.
  revert s seen; induction ls as [|l ls IH]; intros s seen HI Hnd Hr; simpl in Hr.
  { simplify_eq. eauto. }
  destruct (daemon_step s l) as [s1|] eqn:E; [| done].
  assert (arrivals (l :: ls) = option_list (received l) ++ arrivals ls) as Ea.
  { unfold arrivals. simpl. by destruct (received l). }
  rewrite Ea in Hnd. eapply (IH s1 (option_list (received l) ++ seen)); [| | done].
  - apply (move_inv s l); [done | by apply step_move |].
    intros fd Hfd Hin. apply NoDup_app in Hnd as (_ & Hd & _). apply (Hd fd Hin). rewrite Hfd. simpl. set_solver.
  - by rewrite <- (assoc_L (++)), Permutation_app_swap_app.
Qed.
End Replies.

(** C4. What a client gets on its reply descriptor is a prefix of one
    reply, or of two replies of which the second is not [Pending], followed by
    the end of the stream: nothing comes after the end, no request is answered
    three times, and [Pending] comes first if at all, in every interleaving.
    (Reply descriptors are different for different requests.) So the client's
    check for a second [Pending] never fires. *)
Theorem reply_streams_legal {K B} `{!Fcntl K} `{!Backoff B} (k : K) (s : daemon K B) ls fd :
  run daemon_step (daemon_init k) ls = Some s -> NoDup (arrivals ls) ->
  legal (stream fd (d_events s)).
Proof.
  intros Hr Hnd.
  destruct (run_replies ls (daemon_init k) s []) as [seen HI]; [apply replies_inv_init | done | done |].
  apply (ri_legal _ _ HI).
Qed.

(** A blocking lock that is pending is interrupted: [Pending], an error, the
    end. *)
Lemma reply_streams_legal_witness :
  legal (stream 21 (d_events (after taken_file demo_interrupt))).
Proof.
  apply (reply_streams_legal taken_file (after taken_file demo_interrupt) demo_interrupt).
  - vm_compute. reflexivity.
  - apply (bool_decide_unpack _). vm_compute. exact I.
Defined.
