(* ===== verification/DaemonLive.v ===== *)
(** * Every unregistration is answered

    From every reachable state of the owner process a thread that handles an
    [Unregister] request can finish and reply, with no help from outside: no
    request has to arrive, no lock has to be granted, no system call has to
    fail. The argument goes in phases: the main loop gives its clone of the
    [FdData] back, every locking thread of the file ends (a thread that waits
    in [F_SETLKW] is signalled by [tracker.stop] first), then the loops of the
    unregistering thread end. *)

From Stdlib Require Import ZArith Lia.
From stdpp Require Import base tactics numbers list gmap.
From S2P Require Import Prelude.
From S2P Require Import Std.
From S2P Require Import Types.
From S2P Require Import Wire.
From S2P Require Import Helpers.
From S2P Require Import Tracker.
From S2P Require Import TrackerSpec.
From S2P Require Import Daemon.
From S2P Require Import DaemonInv.
From S2P Require Import DaemonHandles.
From S2P Require Import DaemonThreads.
From S2P Require Import DaemonSpec.
Local Open Scope Z_scope.

(** ** Sums over the locking threads *)

Section Weight.
Context (f : LockThread -> nat).
Implicit Types ls : gmap nat LockThread.

Definition weight ls : nat := map_fold (fun _ lt n => f lt + n)%nat 0%nat ls.

Lemma weight_new ls t lt : ls !! t = None -> weight (<[t := lt]> ls) = (f lt + weight ls)%nat.
Proof. intros Ht. unfold weight.
  apply (map_fold_insert_L (fun _ lt n => f lt + n)%nat); [intros; lia | done]. Qed.

Lemma weight_insert ls t lt lt' :
  ls !! t = Some lt -> (weight (<[t := lt']> ls) + f lt = weight ls + f lt')%nat.
Proof.
  intros Ht. rewrite <- (insert_delete_id ls t lt Ht) at 2. rewrite <- insert_delete_eq.
  rewrite !weight_new by apply lookup_delete_eq. lia.
Qed.

Lemma weight_pos ls : weight ls <> 0%nat -> exists t lt, ls !! t = Some lt /\ f lt <> 0%nat.
Proof.
  induction ls as [|t lt ls Ht IH] using map_ind; [done |]. rewrite weight_new by done.
  intros Hw. destruct (decide (f lt = 0%nat)) as [E|?].
  - destruct IH as (t' & lt' & Ht' & Hf); [lia |]. exists t', lt'.
    rewrite lookup_insert_ne; [done |]. congruence.
  - exists t, lt. by rewrite lookup_insert_eq.
Qed.

Lemma weight_zero ls t lt : weight ls = 0%nat -> ls !! t = Some lt -> f lt = 0%nat.
Proof.
  intros Hw Ht. rewrite <- (insert_delete_id ls t lt Ht) in Hw.
  rewrite weight_new in Hw by apply lookup_delete_eq. lia.
Qed.

Lemma weight_kill ps ls :
  (forall lt b, f (mkLockThread (lt_pthread lt) (lt_loc lt) (lt_params lt) (lt_reply lt) (lt_pc lt)
                     (lt_exited lt) b) = f lt) ->
  weight (foldl pthread_kill ls ps) = weight ls.
Proof.
  intros Hf. revert ls; induction ps as [|p ps IH]; intros ls; simpl; [done |]. rewrite IH.
  clear IH. unfold pthread_kill. induction ls as [|t lt ls Ht IH] using map_ind; [done |].
  rewrite fmap_insert, !weight_new by (rewrite ?lookup_fmap, ?Ht; done). rewrite IH.
  case_bool_decide; by rewrite ?Hf.
Qed.
End Weight.

(** What the locking threads of the file at [loc] have before them. *)
Definition rank_at (loc : nat) (lt : LockThread) : nat :=
  if decide (lt_loc lt = loc) then rank (lt_pc lt) else 0.

Definition pends (lt : LockThread) : nat := may_pend (lt_pc lt).

Lemma weight_pends ls : (weight pends ls <= size ls)%nat.
Proof.
  induction ls as [|t lt ls Ht IH] using map_ind; [done |].
  rewrite weight_new, map_size_insert_None by done. unfold pends at 1. destruct (lt_pc lt); simpl; lia.
Qed.

(** ** Runs that need nothing from outside *)

Section Live.
Context {K B : Type} `{!Fcntl K} `{!Backoff B} `{!BackoffLaws B}.
Implicit Types s : daemon K B.

(** Steps of the process's own threads: of the unregistering threads only
    [u] moves, and every system call succeeds; [F_SETLKW] does not return by
    itself. No request arrives, and the files do not change otherwise. *)
Definition calm (u : nat) (l : daemon_label K) : bool :=
  match l with
  | DCommand e => e_spawned e
  | DSpawned => true
  | DLock _ (Ok _) interrupt => interrupt
  | DUnreg u' _ => bool_decide (u' = u)
  | DKernel _ | DMask _ | DReceive _ _ | DLock _ (Err _) _ | DIntr _ _ | DStart => false
  end.

(** *** The invariant *)

Record live_inv s : Prop := {
  li_daemon : daemon_inv s;
  li_threads : threads_inv s;
  li_handles : handles_inv s;
  (** a running [stop] has its back-off from [Backoff::new] *)
  li_backoff : forall u loc l fd, d_unregs s !! u = Some (UStop loc l, fd) -> snoozed 0 (backoff l);
  li_ibackoff : forall n h l p fd, d_intrs s !! n = Some (IStop h l, p, fd) -> snoozed 0 (backoff l) }.

Lemma snoozed_le n m (b : B) : (n <= m)%nat -> snoozed m b -> snoozed n b.
Proof. intros Hn [?|(i & ? & ->)]; [by left | right; exists i; split; [lia | done]]. Qed.

Lemma stop_iter_snoozed fails tr (l l' : stop_locals B) tr' kills :
  tracker_stop_iter fails tr l = Some (tr', l', kills) -> snoozed 0 (backoff l) -> snoozed 0 (backoff l').
Proof.
  assert (forall b : B, snoozed 1 b -> snoozed 0 b) as Hle by (intros b; by apply snoozed_le; lia).
  assert (snoozed 0 (backoff_new (B := B))) as Hnew by (right; by exists 0%nat).
  unfold tracker_stop_iter. case_bool_decide; [done |]. intros Hs Hl.
  destruct (new_thread tr); cbn [backoff] in Hs; rewrite ?reset_is_new in Hs;
    case_match; simplify_eq/=; rewrite ?reset_is_new; auto using snoozed_reacquire, snoozed_snooze.
Qed.

Lemma step_backoff s l s' u loc lo fd :
  live_inv s -> daemon_step s l = Some s' -> d_unregs s' !! u = Some (UStop loc lo, fd) ->
  snoozed 0 (backoff lo).
Proof.
  intros HI Hs Hu. pose proof (li_backoff _ HI) as HB. destruct l; step_cases Hs; eauto.
  all: try (apply lookup_delete_Some in Hu as [_ Hu]; by eauto).
  all: apply lookup_insert_Some in Hu as [(<- & [= ])|(_ & Hu)]; simplify_eq; eauto.
  - right. by exists 0%nat.
  - eapply stop_iter_snoozed; eauto.
Qed.

Lemma handle_iter_snoozes m fails ex self (l l' : stop_locals B) kill :
  handle_stop_iter fails ex self l = HContinue l' kill -> snoozed m (backoff l) -> snoozed (S m) (backoff l').
Proof.
  unfold handle_stop_iter. intros Hs Hl. destruct ex, self; try done.
  destruct (is_completed (backoff l)) eqn:E; simplify_eq/=; [by left |].
  by apply snoozed_reacquire, snoozed_snooze.
Qed.

Lemma step_ibackoff s l s' n h lo p fd :
  live_inv s -> daemon_step s l = Some s' -> d_intrs s' !! n = Some (IStop h lo, p, fd) ->
  snoozed 0 (backoff lo).
Proof.
  intros HI Hs Hn. pose proof (li_ibackoff _ HI) as HB. destruct l; step_cases Hs; eauto.
  all: try (apply lookup_delete_Some in Hn as [_ Hn]; by eauto).
  all: apply lookup_insert_Some in Hn as [(<- & [= ])|(_ & Hn)]; simplify_eq; eauto.
  - right. by exists 0%nat.
  - eapply snoozed_le; [| by eapply handle_iter_snoozes; eauto]. lia.
  - eapply snoozed_le; [| by eapply handle_iter_snoozes; eauto]. lia.
Qed.

Lemma step_live s l s' : live_inv s -> daemon_step s l = Some s' -> live_inv s'.
Proof.
  intros HI Hs. split.
  - eapply daemon_step_inv; eauto using li_daemon.
  - eapply daemon_step_threads; eauto using li_daemon, li_threads.
  - eapply daemon_step_handles; eauto using li_handles.
  - intros u loc lo fd. by eapply step_backoff.
  - intros n h lo p fd. by eapply step_ibackoff.
Qed.

Lemma leads_live ok s s' : leads ok s s' -> live_inv s -> live_inv s'.
Proof. intros (ls & _ & Hr) HI. eapply (run_invariant daemon_step); eauto using step_live. Qed.

Lemma reachable_live k s : reachable daemon_step (daemon_init k) s -> live_inv s.
Proof.
  intros Hr. eapply (reachable_invariant daemon_step); eauto using step_live.
  split; [apply daemon_inv_init | apply threads_inv_init | apply handles_inv_init | |];
    simpl; intros; by simplify_map_eq.
Qed.

(** *** The phases *)

(** Thread [u] unregisters the [FdData] at [loc] and owes a reply on [fd]. *)
Definition unreg_at s (u loc : nat) (fd : Fd) : Prop :=
  exists pc, d_unregs s !! u = Some (pc, fd) /\ unreg_arc (pc, fd) = Some loc.

(** Interrupt identifiers in use, or that may be asked for. *)
Definition slots s : nat :=
  size (interrupts (d_inner s)) + weight pends (d_locks s) +
  match d_main s with MCommand _ _ _ => 1 | _ => 0 end.

Lemma pthread_exists s : exists p, pthread_unused s p = true.
Proof.
  set (ps := (lt_pthread <$> (map_to_list (d_locks s)).*2) ++ ((fun i => i.1.2) <$> (map_to_list (d_intrs s)).*2)).
  exists (fresh ps). pose proof (infinite_is_fresh ps) as Hf. apply not_elem_of_app in Hf as [Hf1 Hf2].
  unfold pthread_unused. apply andb_true_iff. split; apply bool_decide_eq_true.
  - intros t lt Ht _ E. apply Hf1. rewrite <- E. apply list_elem_of_fmap_2, list_elem_of_fmap.
    exists (t, lt). split; [done |]. by apply elem_of_map_to_list.
  - intros n i Hn E. apply Hf2. rewrite <- E. apply (list_elem_of_fmap_2 (fun i => i.1.2)), list_elem_of_fmap.
    exists (n, i). split; [done |]. by apply elem_of_map_to_list.
Qed.

(** *** Signals *)

Lemma pthread_kill_wait (ls : gmap nat LockThread) p t lt :
  ls !! t = Some lt -> lt_pc lt = PWait ->
  exists lt', pthread_kill ls p !! t = Some lt' /\ lt_loc lt' = lt_loc lt /\ lt_pc lt' = PWait /\
    lt_pthread lt' = lt_pthread lt /\
    lt_interrupted lt' = bool_decide (lt_pthread lt = p) || lt_interrupted lt.
Proof.
  intros Ht Hpc. unfold pthread_kill. rewrite lookup_fmap, Ht. simpl. eexists; split; [done |].
  destruct (decide (lt_pthread lt = p)) as [E|E].
  - by rewrite !bool_decide_true.
  - rewrite !bool_decide_false; [done | done | by intros [? _]].
Qed.

Lemma kill_sets ps (ls : gmap nat LockThread) t lt :
  ls !! t = Some lt -> lt_pc lt = PWait -> lt_pthread lt ∈ ps \/ lt_interrupted lt = true ->
  exists lt', foldl pthread_kill ls ps !! t = Some lt' /\ lt_loc lt' = lt_loc lt /\
    lt_pc lt' = PWait /\ lt_interrupted lt' = true.
Proof.
  revert ls lt. induction ps as [|p ps IH]; intros ls lt Ht Hpc Hin; simpl.
  { exists lt. destruct Hin as [[]%not_elem_of_nil|?]. by split_and!. }
  destruct (pthread_kill_wait ls p t lt Ht Hpc) as (lt1 & Ht1 & El & Hpc1 & Ep & Ei).
  destruct (IH _ lt1 Ht1 Hpc1) as (lt2 & ? & ? & ? & ?); [| exists lt2; split_and!; congruence].
  rewrite Ei, Ep. destruct (decide (lt_pthread lt = p)) as [E|E].
  - right. by rewrite bool_decide_true.
  - rewrite bool_decide_false by done. destruct Hin as [[?|?]%elem_of_cons|?]; by auto.
Qed.

Section Phases.
Context (u loc : nat) (fd : Fd).

(** A run of threads other than the main loop that keeps what is owed. *)
Definition keeps s s' : Prop :=
  leads (calm u) s s' /\ unreg_at s' u loc fd /\ d_main s' = d_main s /\ (slots s' <= slots s)%nat.

Lemma keeps_trans s1 s2 s3 : keeps s1 s2 -> keeps s2 s3 -> keeps s1 s3.
Proof.
  intros (L1 & _ & M1 & S1) (L2 & U2 & M2 & S2). split_and!; [by etrans | done | congruence | lia].
Qed.

(** A locking thread takes its next step. *)
Lemma move_keeps s t lt :
  live_inv s -> unreg_at s u loc fd -> Z.of_nat (slots s) < u64_modulus ->
  d_locks s !! t = Some lt -> lt_pc lt <> PEnded -> (lt_pc lt = PWait -> lt_interrupted lt = true) ->
  exists s', keeps s s' /\ lock_moves s t lt s'.
Proof.
  intros HI Hu Hsl Ht Hpc Hw.
  destruct (lock_thread_moves s t lt) as [s' Hm]; eauto using li_daemon.
  { unfold slots in Hsl. lia. }
  exists s'. split; [| done]. destruct Hm as (Hs & lt' & El & _ & _ & Em & Eu & _ & Hsz).
  split_and!; [| | done |].
  - eapply leads_weaken; [| exact Hs]. intros []; simpl; try done.
    destruct masked; [by intros []%andb_true_iff | done].
  - unfold unreg_at. by rewrite Eu.
  - unfold slots. rewrite Em, El. pose proof (weight_insert pends _ _ _ lt' Ht) as Hwt.
    unfold pends at 2 4 in Hwt. lia.
Qed.

(** The thread [u] makes an iteration of [tracker.stop]. *)
Lemma stop_step s tr l :
  d_unregs s !! u = Some (UStop loc l, fd) -> d_trackers s !! loc = Some tr -> threads tr <> ∅ ->
  exists s' tr' l' kills, tracker_stop_iter 0 tr l = Some (tr', l', kills) /\ keeps s s' /\
    d_unregs s' !! u = Some (UStop loc l', fd) /\ d_trackers s' !! loc = Some tr' /\
    d_locks s' = foldl pthread_kill (d_locks s) kills.
Proof.
  intros Hu Htr Hne.
  destruct (tracker_stop_iter 0 tr l) as [[[tr' l'] kills]|] eqn:E; cycle 1.
  { unfold tracker_stop_iter in E. rewrite bool_decide_false in E by done. repeat case_match; done. }
  set (s' := put_unreg (kill_all (put_tracker s loc tr') kills) u (UStop loc l') fd).
  assert (d_unregs s' !! u = Some (UStop loc l', fd)) as Hu' by apply lookup_insert_eq.
  exists s', tr', l', kills. split_and!; [done | | done | apply lookup_insert_eq | done].
  split_and!; [| by exists (UStop loc l') | done |].
  - apply (leads_step (calm u) (DUnreg u 0)); [by apply bool_decide_eq_true |].
    simpl. unfold handle_fd_unregister. by rewrite Hu, Htr, E.
  - unfold slots. simpl. by rewrite weight_kill.
Qed.

(** With nothing new, the back-off is used up after a number of iterations,
    and then all threads are signalled. *)
Lemma stop_signals n m s tr l :
  d_unregs s !! u = Some (UStop loc l, fd) -> d_trackers s !! loc = Some tr -> threads tr <> ∅ ->
  new_thread tr = false -> snoozed m (backoff l) -> (backoff_limit <= n + m)%nat ->
  exists s', keeps s s' /\ d_locks s' = foldl pthread_kill (d_locks s) (elements (threads tr)).
Proof.
  revert m s tr l. induction n as [|n IH]; intros m s tr l Hu Htr Hne Hnew Hsn Hlim.
  - destruct (stop_step s tr l) as (s' & tr' & l' & kills & E & Hk & _ & _ & El); try done.
    exists s'. split; [done |]. rewrite El. f_equal. unfold tracker_stop_iter in E.
    rewrite bool_decide_false in E by done. rewrite Hnew in E.
    rewrite (snoozed_enough m) in E by (done || lia). by simplify_eq.
  - destruct (stop_step s tr l) as (s' & tr' & l' & kills & E & Hk & Hu' & Htr' & El); try done.
    pose proof (tracker_stop_iter_data _ _ _ _ _ _ E) as (_ & Eth & _ & Hn' & [->| ->]); [| by exists s'].
    simpl in El. destruct (IH (S m) s' tr' l') as (s2 & Hk2 & El2); try done.
    + by rewrite Eth.
    + by eapply stop_iter_snoozes.
    + lia.
    + exists s2. split; [by eapply keeps_trans |]. by rewrite El2, El, Eth.
Qed.

Lemma stop_signals_all s tr l :
  live_inv s -> d_unregs s !! u = Some (UStop loc l, fd) -> d_trackers s !! loc = Some tr ->
  threads tr <> ∅ ->
  exists s', keeps s s' /\ d_locks s' = foldl pthread_kill (d_locks s) (elements (threads tr)).
Proof.
  intros HI Hu Htr Hne.
  destruct (stop_step s tr l) as (s' & tr' & l' & kills & E & Hk & Hu' & Htr' & El); try done.
  pose proof (tracker_stop_iter_data _ _ _ _ _ _ E) as (_ & Eth & _ & Hn' & [->| ->]); [| by exists s'].
  simpl in El. destruct (stop_signals backoff_limit 0 s' tr' l') as (s2 & Hk2 & El2); try done.
  - by rewrite Eth.
  - eapply stop_iter_snoozed; [done |]. by eapply li_backoff.
  - lia.
  - exists s2. split; [by eapply keeps_trans |]. by rewrite El2, El, Eth.
Qed.

(** A waiting thread of the file gets the signal. *)
Lemma signal_waiting s t lt :
  live_inv s -> unreg_at s u loc fd -> d_locks s !! t = Some lt -> lt_loc lt = loc -> lt_pc lt = PWait ->
  exists s' lt', keeps s s' /\ d_locks s' !! t = Some lt' /\ lt_loc lt' = loc /\ lt_pc lt' = PWait /\
    lt_interrupted lt' = true /\ weight (rank_at loc) (d_locks s') = weight (rank_at loc) (d_locks s).
Proof.
  intros HI (pc & Hu & Ha) Ht Hloc Hpc.
  destruct (di_lock_tracker _ (li_daemon _ HI) _ _ Ht) as [tr Htr]. rewrite Hloc in Htr.
  assert (lt_pthread lt ∈ threads tr) as Hin.
  { apply (ti_tracked _ (li_threads _ HI) loc tr _ Htr). exists t, lt. by rewrite Hpc. }
  assert (threads tr <> ∅) as Hne by set_solver.
  enough (exists s', keeps s s' /\ d_locks s' = foldl pthread_kill (d_locks s) (elements (threads tr)))
    as (s' & Hk & El).
  { destruct (kill_sets (elements (threads tr)) _ t lt Ht Hpc) as (lt' & H1 & H2 & H3 & H4).
    { left. by apply elem_of_elements. }
    exists s', lt'. rewrite El, weight_kill by done. split_and!; try done. congruence. }
  destruct pc as [id|loc'|loc' l|loc'|r]; try discriminate; injection Ha as ->.
  - (* about to call [stop] *)
    set (s1 := put_unreg (put_tracker s loc (tracker_stop_begin tr)) u (UStop loc stop_start) fd).
    assert (daemon_step s (DUnreg u 0) = Some s1) as Hs1.
    { simpl. unfold handle_fd_unregister. by rewrite Hu, Htr. }
    destruct (stop_signals_all s1 (tracker_stop_begin tr) stop_start) as (s' & Hk & El); try done.
    { by eapply step_live. }
    { apply lookup_insert_eq. }
    { apply lookup_insert_eq. }
    exists s'. split; [| done]. destruct Hk as (L & U & M & S). split_and!; try done.
    etrans; [| exact L]. apply (leads_step (calm u) (DUnreg u 0)); [by apply bool_decide_eq_true | done].
  - by eapply stop_signals_all.
  - destruct (ti_unreg _ (li_threads _ HI) _ _ _ Hu) as (tr' & ? & _ & ?). by simplify_eq.
Qed.

(** The locking threads of the file end, one step after the other. *)
Lemma threads_step s :
  live_inv s -> unreg_at s u loc fd -> Z.of_nat (slots s) < u64_modulus ->
  weight (rank_at loc) (d_locks s) <> 0%nat ->
  exists s', keeps s s' /\ (weight (rank_at loc) (d_locks s') < weight (rank_at loc) (d_locks s))%nat.
Proof.
  intros HI Hu Hsl (t & lt & Ht & Hr)%weight_pos. unfold rank_at in Hr. case_decide as Hloc; [| done].
  assert (exists s1 lt1, keeps s s1 /\ d_locks s1 !! t = Some lt1 /\ lt_loc lt1 = loc /\
    lt_pc lt1 = lt_pc lt /\ (lt_pc lt1 = PWait -> lt_interrupted lt1 = true) /\
    weight (rank_at loc) (d_locks s1) = weight (rank_at loc) (d_locks s))
    as (s1 & lt1 & Hk1 & Ht1 & Hloc1 & Epc & Hw1 & Ew).
  { destruct (decide (lt_pc lt = PWait)) as [E|?].
    - destruct (signal_waiting s t lt) as (s1 & lt1 & H1 & H2 & H3 & H4 & H5 & H6); try done.
      exists s1, lt1. split_and!; try done. congruence.
    - exists s, lt. split_and!; try done. }
  destruct Hk1 as (L1 & U1 & M1 & S1).
  destruct (move_keeps s1 t lt1) as (s2 & Hk2 & _ & lt2 & El & Hl2 & Hr2 & _); try done.
  { by eapply leads_live. }
  { lia. }
  { intros E. rewrite <- Epc, E in Hr. done. }
  exists s2. split; [by eapply keeps_trans |].
  pose proof (weight_insert (rank_at loc) _ _ _ lt2 Ht1) as Hwt. rewrite <- El in Hwt.
  unfold rank_at at 2 4 in Hwt. rewrite !decide_True in Hwt by congruence. lia.
Qed.

Lemma threads_end s :
  live_inv s -> unreg_at s u loc fd -> Z.of_nat (slots s) < u64_modulus ->
  exists s', keeps s s' /\ weight (rank_at loc) (d_locks s') = 0%nat.
Proof.
  remember (weight (rank_at loc) (d_locks s)) as n eqn:En. revert s En.
  induction n as [n IH] using lt_wf_ind. intros s En HI Hu Hsl.
  destruct (decide (n = 0%nat)) as [->|Hn].
  { exists s. split; [by split_and! | done]. }
  destruct (threads_step s) as (s1 & Hk1 & Hlt); try done; [congruence |].
  pose proof Hk1 as (L1 & U1 & _ & S1).
  destruct (IH (weight (rank_at loc) (d_locks s1)) ltac:(lia) s1) as (s2 & Hk2 & H0);
    [done | by eapply leads_live | done | lia |].
  exists s2. split; [by eapply keeps_trans | done].
Qed.

(** The main loop hears of the thread it has spawned. *)
Lemma spawning_done s t loc' :
  live_inv s -> unreg_at s u loc fd -> Z.of_nat (slots s) < u64_modulus -> d_main s = MSpawning t loc' ->
  exists s', leads (calm u) s s' /\ unreg_at s' u loc fd /\ (slots s' <= slots s)%nat /\ d_main s' = MReady.
Proof.
  intros HI Hu Hsl Hm.
  destruct (di_spawning _ (li_daemon _ HI) _ _ Hm) as [lt Ht].
  assert (exists s1 lt1, keeps s s1 /\ d_locks s1 !! t = Some lt1 /\ lt_pc lt1 <> PTrack)
    as (s1 & lt1 & (L1 & U1 & M1 & S1) & Ht1 & Hpc1).
  { destruct (decide (lt_pc lt = PTrack)) as [E|?]; [| by exists s, lt].
    destruct (move_keeps s t lt) as (s1 & Hk & _ & lt1 & El & _ & Hr & _); try done; [congruence.. |].
    exists s1, lt1. split; [done |]. rewrite El, lookup_insert_eq. split; [done |].
    intros E'. rewrite E, E' in Hr. lia. }
  rewrite Hm in M1. exists (set_main (drop_arc s1 loc' HMain) MReady). split_and!.
  - etrans; [exact L1 |]. apply (leads_step (calm u) DSpawned); [done |].
    simpl. rewrite M1. unfold lock_command_spawned. by rewrite Ht1, bool_decide_false.
  - unfold unreg_at. daemon_simpl. done.
  - unfold slots in *. daemon_simpl. rewrite M1 in S1. lia.
  - done.
Qed.

(** A command that the main loop has begun is run. *)
Lemma command_done s c loc' rfd :
  live_inv s -> unreg_at s u loc fd -> Z.of_nat (slots s) < u64_modulus ->
  d_main s = MCommand c loc' rfd ->
  exists s', leads (calm u) s s' /\ unreg_at s' u loc fd /\ (slots s' <= slots s)%nat /\ d_main s' = MReady.
Proof.
  intros HI Hu Hsl Hm. destruct (pthread_exists s) as [p Hp].
  set (t := fresh (dom (d_locks s))). set (e := mkEnv t p true (Ok tt)).
  assert (d_locks s !! t = None) as Ht by apply not_elem_of_dom, is_fresh.
  destruct (arcs_ok_live s HMain loc' (di_arcs _ (li_daemon _ HI))) as [d Hd]; [by simpl; rewrite Hm |].
  assert (exists s1, daemon_step s (DCommand e) = Some s1 /\ unreg_at s1 u loc fd /\
    (slots s1 <= slots s)%nat /\ (d_main s1 = MReady \/ d_main s1 = MSpawning t loc'))
    as (s1 & Hs1 & U1 & S1 & M1).
  { simpl. rewrite Hm. unfold lock_command_run, slots. rewrite Hd, Hm. simpl.
    rewrite Ht, Hp. destruct (LockCommand.action c); try case_match;
      (eexists; split; [done |]); unfold unreg_at; daemon_simpl; (split; [done |]);
      (split; [| by auto]); try (rewrite weight_new by done; unfold pends at 1; simpl); lia. }
  assert (leads (calm u) s s1) as L1 by by eapply (leads_step (calm u) (DCommand e)).
  destruct M1 as [M1|M1]; [by exists s1 |].
  destruct (spawning_done s1 t loc') as (s2 & L2 & U2 & S2 & M2); try done.
  { by eapply leads_live. }
  { lia. }
  exists s2. split_and!; [by etrans | done | lia | done].
Qed.

Lemma main_done s :
  live_inv s -> unreg_at s u loc fd -> Z.of_nat (slots s) < u64_modulus ->
  exists s', leads (calm u) s s' /\ unreg_at s' u loc fd /\ (slots s' <= slots s)%nat /\
    main_arc (d_main s') = None.
Proof.
  intros HI Hu Hsl. destruct (d_main s) as [| |c loc' rfd|t loc'|r] eqn:Hm.
  - exists s. by rewrite Hm.
  - exists s. by rewrite Hm.
  - edestruct command_done as (s' & ? & ? & ? & E); eauto. exists s'. by rewrite E.
  - edestruct spawning_done as (s' & ? & ? & ? & E); eauto. exists s'. by rewrite E.
  - exists s. by rewrite Hm.
Qed.

(** Nothing is left to wait for. *)
Definition settled s : Prop :=
  weight (rank_at loc) (d_locks s) = 0%nat /\ main_arc (d_main s) = None.

Lemma settled_threads s tr :
  live_inv s -> settled s -> d_trackers s !! loc = Some tr -> threads tr = ∅.
Proof.
  intros HI [Hw _] Htr. apply set_eq. intros p. split; [| set_solver].
  rewrite (ti_tracked _ (li_threads _ HI) _ _ _ Htr). intros (t & lt & Ht & Hloc & _ & Hpc).
  pose proof (weight_zero (rank_at loc) _ t lt Hw Ht) as Hr. unfold rank_at in Hr.
  rewrite decide_True in Hr by done. by destruct (lt_pc lt).
Qed.

Lemma settled_count s d :
  live_inv s -> settled s -> unreg_at s u loc fd -> d_fds s !! loc = Some d -> strong_count d = 1%nat.
Proof.
  intros HI [Hw Hm] (pc & Hu & Ha) Hd. unfold strong_count.
  assert (arc_of s (HUnreg u) = Some loc) as Hau by (simpl; by rewrite Hu).
  pose proof (ai_held _ _ _ (di_arcs _ (li_daemon _ HI))) as Hh.
  enough (holders d = {[HUnreg u]}) as -> by apply size_singleton.
  apply set_eq. intros h. rewrite elem_of_singleton. split.
  - intros Hin. assert (arc_of s h = Some loc) as Hah by (apply Hh; by exists d).
    destruct h as [id| |t|u'].
    + by apply (ti_registrar _ (li_threads _ HI) _ _ loc).
    + simpl in Hah. congruence.
    + simpl in Hah. destruct (d_locks s !! t) as [lt|] eqn:Ht; [| done]. simpl in Hah.
      pose proof (weight_zero (rank_at loc) _ t lt Hw Ht) as Hr. unfold lock_arc, rank_at in *.
      destruct (lt_pc lt); simplify_eq/=; by rewrite decide_True in Hr.
    + by apply (ti_registrar _ (li_threads _ HI) _ _ loc).
  - intros ->. apply Hh in Hau as (d' & Hd' & Hin). by simplify_eq.
Qed.

(** The request is answered with [r]. *)
Definition answered s (r : result Z unit) : Prop :=
  d_unregs s !! u = None /\ Sent fd (RUnit r) ∈ d_events s.

Lemma unreg_leads s s' fails : handle_fd_unregister s u fails = Some s' -> leads (calm u) s s'.
Proof. intros Hs. apply (leads_step (calm u) (DUnreg u fails)); [by apply bool_decide_eq_true | done]. Qed.

Lemma finish_reply s r :
  d_unregs s !! u = Some (UReply r, fd) -> exists s', leads (calm u) s s' /\ answered s' (io_cvt r).
Proof.
  intros Hu. eexists. split; [apply (unreg_leads _ _ 0); unfold handle_fd_unregister; by rewrite Hu |].
  split; simpl; [apply lookup_delete_eq | set_solver].
Qed.

Lemma finish_wait s :
  live_inv s -> settled s -> d_unregs s !! u = Some (UWait loc, fd) ->
  exists s', leads (calm u) s s' /\ answered s' (Ok tt).
Proof.
  intros HI Hset Hu.
  destruct (arcs_ok_live s (HUnreg u) loc (di_arcs _ (li_daemon _ HI))) as [d Hd]; [by simpl; rewrite Hu |].
  set (s1 := put_unreg (drop_arc s loc (HUnreg u)) u (UReply (Ok tt)) fd).
  destruct (finish_reply s1 (Ok tt)) as (s' & L & A); [apply lookup_insert_eq |].
  exists s'. split; [| done]. etrans; [| exact L]. apply (unreg_leads _ _ 0).
  unfold handle_fd_unregister. rewrite Hu, Hd, bool_decide_true; [done |].
  eapply settled_count; eauto. by exists (UWait loc).
Qed.

Lemma finish_stop s l :
  live_inv s -> settled s -> d_unregs s !! u = Some (UStop loc l, fd) ->
  exists s', leads (calm u) s s' /\ answered s' (Ok tt).
Proof.
  intros HI Hset Hu. destruct (ti_unreg _ (li_threads _ HI) _ _ _ Hu) as (tr & Htr & _).
  assert (daemon_step s (DUnreg u 0) = Some (put_unreg s u (UWait loc) fd)) as Hs.
  { simpl. unfold handle_fd_unregister. rewrite Hu, Htr. unfold tracker_stop_iter.
    rewrite bool_decide_true; [done |]. by eapply settled_threads. }
  destruct (finish_wait (put_unreg s u (UWait loc) fd)) as (s' & L & A);
    [by eapply step_live | done | apply lookup_insert_eq |].
  exists s'. split; [| done]. etrans; [by eapply unreg_leads | done].
Qed.

Lemma finish s :
  live_inv s -> settled s -> unreg_at s u loc fd -> exists s', leads (calm u) s s' /\ answered s' (Ok tt).
Proof.
  intros HI Hset (pc & Hu & Ha).
  destruct pc as [id|loc'|loc' l|loc'|r]; try discriminate; injection Ha as ->;
    [| by eapply finish_stop | by eapply finish_wait].
  destruct (arcs_ok_live s (HUnreg u) loc (di_arcs _ (li_daemon _ HI))) as [d Hd]; [by simpl; rewrite Hu |].
  destruct (di_fd_tracker _ (li_daemon _ HI) _ _ Hd) as [tr Htr].
  set (s1 := put_unreg (put_tracker s loc (tracker_stop_begin tr)) u (UStop loc stop_start) fd).
  assert (daemon_step s (DUnreg u 0) = Some s1) as Hs.
  { simpl. unfold handle_fd_unregister. by rewrite Hu, Htr. }
  destruct (finish_stop s1 stop_start) as (s' & L & A); [by eapply step_live | done | apply lookup_insert_eq |].
  exists s'. split; [| done]. etrans; [by eapply unreg_leads | done].
Qed.

Lemma unreg_at_answered s :
  live_inv s -> unreg_at s u loc fd -> Z.of_nat (slots s) < u64_modulus ->
  exists s', leads (calm u) s s' /\ answered s' (Ok tt).
Proof.
  intros HI Hu Hsl.
  destruct (main_done s) as (s1 & L1 & U1 & S1 & M1); try done.
  destruct (threads_end s1) as (s2 & (L2 & U2 & M2 & S2) & W2); [by eapply leads_live | done | lia |].
  destruct (finish s2) as (s3 & L3 & A3); [| | done |].
  - by eapply leads_live; [| eapply leads_live].
  - split; [done | congruence].
  - exists s3. split; [| done]. etrans; [exact L1 |]. by etrans.
Qed.
End Phases.
End Live.

(** What an unregistration owes: an error only when the file is unknown. *)
Definition unreg_result {K B} (s : daemon K B) (pc : unreg_pc B) : result Z unit :=
  match pc with
  | URemove id =>
      match descriptors (d_inner s) !! id with Some _ => Ok tt | None => Err Errno.ENOENT end
  | UBegin _ | UStop _ _ | UWait _ => Ok tt
  | UReply r => io_cvt r
  end.

(** C3. Every unregistration can finish: from every reachable state, a
    run of the process's own threads in which no request arrives, no lock is
    granted and no system call fails brings the unregistering thread to its
    reply, which is [Ok], or ENOENT when the identifier is unknown. Locking threads
    that wait in [F_SETLKW], also those that enter it later, are no obstacle,
    and neither is a lock command that the main loop is working on. The
    identifiers of interrupts must not be used up. *)
Theorem unregister_is_answered {K B} `{!Fcntl K} `{!Backoff B} `{!BackoffLaws B}
    (k : K) (s : daemon K B) u pc fd :
  reachable daemon_step (daemon_init k) s -> d_unregs s !! u = Some (pc, fd) ->
  Z.of_nat (size (interrupts (d_inner s)) + size (d_locks s)) + 1 < u64_modulus ->
  exists ls s', Forall (fun l => calm u l = true) ls /\ run daemon_step s ls = Some s' /\
    d_unregs s' !! u = None /\ Sent fd (RUnit (unreg_result s pc)) ∈ d_events s'.
Proof.
  intros Hr Hu Hsz. pose proof (reachable_live k s Hr) as HI.
  assert (Z.of_nat (slots s) < u64_modulus) as Hsl.
  { unfold slots. pose proof (weight_pends (d_locks s)). case_match; lia. }
  enough (exists s', leads (calm u) s s' /\ answered u fd s' (unreg_result s pc)) as (s' & (ls & F & R) & A).
  { exists ls, s'. by destruct A. }
  destruct pc as [id|loc|loc l|loc|r]; simpl.
  - destruct (descriptors (d_inner s) !! id) as [loc|] eqn:Hid.
    + destruct (daemon_step s (DUnreg u 0)) as [s1|] eqn:Hs;
        simpl in Hs; unfold handle_fd_unregister in Hs; rewrite Hu, Hid in Hs; [| done].
      simplify_eq. edestruct (unreg_at_answered u loc fd) as (s' & L & A); [| | | exists s'; split; [| exact A]].
      * eapply (step_live _ (DUnreg u 0)); [exact HI |]. simpl. unfold handle_fd_unregister. by rewrite Hu, Hid.
      * exists (UBegin loc). split; [apply lookup_insert_eq | done].
      * unfold slots in *. daemon_simpl. done.
      * etrans; [| exact L]. eapply (unreg_leads _ _ _ 0). unfold handle_fd_unregister. by rewrite Hu, Hid.
    + set (s1 := put_unreg s u (UReply (Err (Custom ErrorKind.NotFound))) fd).
      destruct (finish_reply u fd s1 (Err (Custom ErrorKind.NotFound))) as (s' & L & A); [apply lookup_insert_eq |].
      exists s'. split; [| done]. etrans; [| exact L]. apply (unreg_leads _ _ _ 0).
      unfold handle_fd_unregister. by rewrite Hu, Hid.
  - eapply (unreg_at_answered u loc); eauto. by exists (UBegin loc).
  - eapply (unreg_at_answered u loc); eauto. by exists (UStop loc l).
  - eapply (unreg_at_answered u loc); eauto. by exists (UWait loc).
  - by apply finish_reply.
Qed.

(** A thread waits for a lock of another process when the file is
    unregistered; the lock is never released. *)
Lemma unregister_is_answered_witness :
  exists ls s', Forall (fun l => calm 0 l = true) ls /\
    run daemon_step (after taken_file demo_unregister) ls = Some s' /\
    d_unregs s' !! 0%nat = None /\ Sent 22 (RUnit (Ok tt)) ∈ d_events s'.
Proof.
  apply (unregister_is_answered taken_file (after taken_file demo_unregister) 0 (URemove 0) 22).
  - apply after_reachable. vm_compute. eauto.
  - vm_compute. reflexivity.
  - vm_compute. reflexivity.
Defined.
