(* ===== verification/DaemonInterrupt.v ===== *)
(** * Every interrupt is answered

    From every reachable state of the owner process a thread that handles an
    [Interrupt] request can finish and reply, with no help from outside: the
    locking thread that its handle belongs to is signalled until it leaves
    [F_SETLKW], and ends. *)

From Stdlib Require Import ZArith Lia.
From stdpp Require Import base tactics numbers list gmap.
From S2P Require Import Prelude.
From S2P Require Import Std.
From S2P Require Import Types.
From S2P Require Import Wire.
From S2P Require Import Helpers.
From S2P Require Import Tracker.
From S2P Require Import TrackerSpec.
From S2P Require Import Daemon.
From S2P Require Import DaemonInv.
From S2P Require Import DaemonHandles.
From S2P Require Import DaemonThreads.
From S2P Require Import DaemonSpec.
From S2P Require Import DaemonLive.
Local Open Scope Z_scope.

(** Steps of locking threads and of the interrupting thread [n]; system calls
    succeed and [F_SETLKW] does not return by itself. *)
Definition calm_intr {K} (n : nat) (l : daemon_label K) : bool :=
  match l with
  | DLock _ (Ok _) interrupt => interrupt
  | DIntr n' _ => bool_decide (n' = n)
  | _ => false
  end.

Section Interrupt.
Context {K B : Type} `{!Fcntl K} `{!Backoff B} `{!BackoffLaws B}.
Implicit Types s : daemon K B.
Context (n : nat) (h : InterruptibleHandle) (p : Pthread) (fd : Fd).

(** Thread [n] is in [h.stop()]. *)
Definition stopping s (l : stop_locals B) : Prop := d_intrs s !! n = Some (IStop h l, p, fd).

(** A run during which it stays there. *)
Definition waits s s' : Prop := leads (calm_intr n) s s' /\ exists l, stopping s' l.

Lemma waits_trans s1 s2 s3 : waits s1 s2 -> waits s2 s3 -> waits s1 s3.
Proof. intros [L1 _] [L2 S2]. split; [by etrans | done]. Qed.

Lemma intr_leads s s' fails : handle_interrupt s n fails = Some s' -> leads (calm_intr n) s s'.
Proof. intros Hs. apply (leads_step _ (DIntr n fails)); [by apply bool_decide_eq_true | done]. Qed.

(** An iteration of the loop while the thread of the handle runs. *)
Lemma intr_step s l lt :
  live_inv s -> stopping s l -> d_locks s !! h_exit h = Some lt -> lt_pc lt <> PEnded ->
  exists s' l' (kill : bool), waits s s' /\ stopping s' l' /\ d_inner s' = d_inner s /\
    d_locks s' = foldl pthread_kill (d_locks s) (if kill then [h_thread h] else []) /\
    (kill = false -> is_completed (backoff l) = false) /\
    forall m, snoozed m (backoff l) -> snoozed (S m) (backoff l').
Proof.
  intros HI Hn Ht Hpc. pose proof (li_handles _ HI) as HH.
  destruct (hi_stop _ HH _ _ _ _ _ Hn) as (lt' & Ht' & Hp & Hg). simplify_eq.
  assert (lt_exited lt = false) as Hx.
  { destruct (lt_exited lt) eqn:E; [| done]. by destruct Hpc; apply (hi_exited _ HH (h_exit h)). }
  assert (h_thread h <> p) as Hne by (rewrite <- Hp; by eapply (hi_distinct _ HH)).
  destruct (handle_stop_iter 0 (lt_exited lt) (bool_decide (h_thread h = p)) l) as [| |l' kill] eqn:E.
  1, 2: by unfold handle_stop_iter in E; rewrite Hx, bool_decide_false in E by done; case_match.
  set (s' := put_intr (if kill then kill_all s [h_thread h] else s) n (IStop h l') p fd).
  assert (stopping s' l') as Hs' by apply lookup_insert_eq.
  exists s', l', kill. split_and!; [| done | by destruct kill | by destruct kill | |].
  - split; [| by eauto]. apply (intr_leads _ _ 0). unfold handle_interrupt, s'. rewrite Hn, Ht, E. done.
  - intros ->. unfold handle_stop_iter in E. rewrite Hx, bool_decide_false in E by done.
    by destruct (is_completed (backoff l)).
  - intros m. by eapply handle_iter_snoozes.
Qed.

(** After some iterations the thread is signalled. *)
Lemma intr_signals k m s l lt :
  live_inv s -> stopping s l -> d_locks s !! h_exit h = Some lt -> lt_pc lt <> PEnded ->
  snoozed m (backoff l) -> (backoff_limit <= k + m)%nat ->
  exists s', waits s s' /\ d_inner s' = d_inner s /\ d_locks s' = foldl pthread_kill (d_locks s) [h_thread h].
Proof.
  revert m s l. induction k as [|k IH]; intros m s l HI Hn Ht Hpc Hsn Hlim;
    destruct (intr_step s l lt) as (s1 & l1 & [] & Hw & Hs1 & Ei & El & Hc & Hb); try done; eauto.
  - rewrite (snoozed_enough m) in Hc by (done || lia). by specialize (Hc eq_refl).
  - destruct (IH (S m) s1 l1) as (s2 & Hw2 & Ei2 & El2); try done.
    + by eapply leads_live; [apply Hw |].
    + by rewrite El.
    + by apply Hb.
    + lia.
    + exists s2. split; [by eapply waits_trans |]. rewrite Ei2, El2, El. done.
Qed.

(** The thread makes its next step. *)
Lemma thread_step s l lt :
  live_inv s -> stopping s l -> d_locks s !! h_exit h = Some lt -> lt_pc lt <> PEnded ->
  Z.of_nat (size (interrupts (d_inner s)) + may_pend (lt_pc lt)) < u64_modulus ->
  exists s' lt', waits s s' /\ d_locks s' !! h_exit h = Some lt' /\
    (rank (lt_pc lt') < rank (lt_pc lt))%nat /\
    Z.of_nat (size (interrupts (d_inner s')) + may_pend (lt_pc lt')) < u64_modulus.
Proof.
  intros HI Hn Ht Hpc Hsz.
  assert (exists s1 lt1 l1, leads (calm_intr n) s s1 /\ stopping s1 l1 /\ d_inner s1 = d_inner s /\
    d_locks s1 !! h_exit h = Some lt1 /\ lt_pc lt1 = lt_pc lt /\
    (lt_pc lt1 = PWait -> lt_interrupted lt1 = true)) as (s1 & lt1 & l1 & L1 & S1 & Ei & Ht1 & Epc & Hw1).
  { destruct (decide (lt_pc lt = PWait)) as [E|?]; [| by exists s, lt, l].
    destruct (intr_signals backoff_limit 0 s l lt) as (s1 & [L1 [l1 S1]] & Ei & El); try done.
    - by eapply li_ibackoff.
    - lia.
    - destruct (hi_stop _ (li_handles _ HI) _ _ _ _ _ Hn) as (lt0 & Ht0 & Hp & _). simplify_eq.
      destruct (kill_sets [h_thread h] _ _ lt Ht E) as (lt1 & Ht1 & _ & Hpc1 & Hi1).
      { left. rewrite Hp. by apply list_elem_of_singleton. }
      exists s1, lt1, l1. rewrite El. split_and!; try done. congruence. }
  destruct (lock_thread_moves s1 (h_exit h) lt1) as (s2 & L2 & lt2 & El & _ & Hr & _ & _ & Ein & Hsz2).
  - by eapply li_daemon, leads_live.
  - done.
  - congruence.
  - rewrite Ei. lia.
  - done.
  - exists s2, lt2. rewrite El, lookup_insert_eq. split_and!; [| done | by rewrite <- Epc |].
    + split; [| exists l1; unfold stopping; by rewrite Ein].
      etrans; [exact L1 |]. eapply leads_weaken; [| exact L2]. intros []; simpl; try done.
      destruct masked; [by intros []%andb_true_iff | done].
    + rewrite Ei, Epc in Hsz2. lia.
Qed.

Lemma thread_ends s l lt :
  live_inv s -> stopping s l -> d_locks s !! h_exit h = Some lt ->
  Z.of_nat (size (interrupts (d_inner s)) + may_pend (lt_pc lt)) < u64_modulus ->
  exists s' lt', waits s s' /\ d_locks s' !! h_exit h = Some lt' /\ lt_pc lt' = PEnded.
Proof.
  remember (rank (lt_pc lt)) as r eqn:Er. revert s l lt Er.
  induction r as [r IH] using lt_wf_ind. intros s l lt Er HI Hn Ht Hsz.
  destruct (decide (lt_pc lt = PEnded)) as [E|E].
  { exists s, lt. split; [| done]. split; [done | eauto]. }
  destruct (thread_step s l lt) as (s1 & lt1 & [L1 [l1 S1]] & Ht1 & Hr1 & Hsz1); try done.
  destruct (IH (rank (lt_pc lt1)) ltac:(lia) s1 l1 lt1) as (s2 & lt2 & Hw2 & Ht2 & Hpc2); try done.
  { by eapply leads_live. }
  exists s2, lt2. split; [| done]. eapply waits_trans; [| done]. split; [done | eauto].
Qed.

Lemma stopping_answered s l lt :
  live_inv s -> stopping s l -> d_locks s !! h_exit h = Some lt ->
  Z.of_nat (size (interrupts (d_inner s)) + may_pend (lt_pc lt)) < u64_modulus ->
  exists s', leads (calm_intr n) s s' /\ d_intrs s' !! n = Some (IReply (Ok tt), p, fd).
Proof.
  intros HI Hn Ht Hsz. destruct (thread_ends s l lt) as (s1 & lt1 & [L1 [l1 S1]] & Ht1 & Hpc1); try done.
  assert (live_inv s1) as HI1 by by eapply leads_live.
  destruct (hi_stop _ (li_handles _ HI1) _ _ _ _ _ S1) as (lt2 & Ht2 & _ & Hg). simplify_eq.
  unfold guarded in Hg. rewrite Hpc1 in Hg.
  exists (put_intr s1 n (IReply (Ok tt)) p fd). split; [| apply lookup_insert_eq].
  etrans; [exact L1 |]. apply (intr_leads _ _ 0). unfold handle_interrupt. rewrite S1, Ht1.
  unfold handle_stop_iter. by rewrite Hg.
Qed.
End Interrupt.

(** What an interrupt owes: an error only when the identifier is unknown. *)
Definition intr_result {K B} (s : daemon K B) (pc : intr_pc B) : result Z unit :=
  match pc with
  | IGet id => match interrupts (d_inner s) !! id with Some _ => Ok tt | None => Err Errno.ENOENT end
  | IStop _ _ => Ok tt
  | IReply r => io_cvt r
  end.

Lemma finish_intr {K B} `{!Fcntl K} `{!Backoff B} (s : daemon K B) n r p fd :
  d_intrs s !! n = Some (IReply r, p, fd) ->
  exists s', leads (calm_intr n) s s' /\ d_intrs s' !! n = None /\ Sent fd (RUnit (io_cvt r)) ∈ d_events s'.
Proof.
  intros Hn. eexists. split; [apply (intr_leads _ _ _ 0); unfold handle_interrupt; by rewrite Hn |].
  split; simpl; [apply lookup_delete_eq | set_solver].
Qed.

(** C9. Every interrupt can finish: from every reachable state, a run of
    the interrupting thread and the locking thread of its handle, in which no
    lock is granted and no system call fails, brings the interrupting thread to
    its reply, which is [Ok] unless the identifier was unknown. *)
Theorem interrupt_is_answered {K B} `{!Fcntl K} `{!Backoff B} `{!BackoffLaws B}
    (k : K) (s : daemon K B) n pc p fd :
  reachable daemon_step (daemon_init k) s -> d_intrs s !! n = Some (pc, p, fd) ->
  Z.of_nat (size (interrupts (d_inner s))) + 1 < u64_modulus ->
  exists ls s', Forall (fun l => calm_intr n l = true) ls /\ run daemon_step s ls = Some s' /\
    d_intrs s' !! n = None /\ Sent fd (RUnit (intr_result s pc)) ∈ d_events s'.
Proof.
  intros Hr Hn Hsz. pose proof (reachable_live k s Hr) as HI.
  enough (exists s1 r, leads (calm_intr n) s s1 /\ d_intrs s1 !! n = Some (IReply r, p, fd) /\
    io_cvt r = intr_result s pc) as (s1 & r & L1 & Hn1 & <-).
  { destruct (finish_intr s1 n r p fd Hn1) as (s' & L2 & A).
    destruct (transitivity L1 L2) as (ls & F & R). by exists ls, s'. }
  assert (forall s1 h l, leads (calm_intr n) s s1 -> d_inner s1 = d_inner s ->
    d_intrs s1 !! n = Some (IStop h l, p, fd) ->
    exists s2, leads (calm_intr n) s s2 /\ d_intrs s2 !! n = Some (IReply (Ok tt), p, fd)) as Hstop.
  { intros s1 h l L1 Ei Hn1. assert (live_inv s1) as HI1 by by eapply leads_live.
    destruct (hi_stop _ (li_handles _ HI1) _ _ _ _ _ Hn1) as (lt & Ht & _).
    destruct (stopping_answered n h p fd s1 l lt) as (s2 & L2 & Hn2); try done.
    - rewrite Ei. destruct (lt_pc lt); simpl; lia.
    - exists s2. split; [by etrans | done]. }
  destruct pc as [id|h l|r]; simpl.
  - destruct (interrupts (d_inner s) !! id) as [h|] eqn:Hid.
    + destruct (Hstop (put_intr s n (IStop h stop_start) p fd) h stop_start) as (s2 & L2 & Hn2).
      * apply (intr_leads _ _ _ 0). unfold handle_interrupt, handle_interrupt_get. simpl. by rewrite Hn, Hid.
      * done.
      * apply lookup_insert_eq.
      * by exists s2, (Ok tt).
    + exists (put_intr s n (IReply (Err (Custom ErrorKind.NotFound))) p fd), (Err (Custom ErrorKind.NotFound)).
      split_and!; [| apply lookup_insert_eq | done]. apply (intr_leads _ _ _ 0).
      unfold handle_interrupt, handle_interrupt_get. simpl. by rewrite Hn, Hid.
  - destruct (Hstop s h l) as (s2 & L2 & Hn2); try done. by exists s2, (Ok tt).
  - by exists s, r.
Qed.

(** A lock that is pending is interrupted; it is never granted. *)
Lemma interrupt_is_answered_witness :
  exists ls s', Forall (fun l => calm_intr 0 l = true) ls /\
    run daemon_step (after taken_file demo_interrupting) ls = Some s' /\
    d_intrs s' !! 0%nat = None /\ Sent 23 (RUnit (Ok tt)) ∈ d_events s'.
Proof.
  apply (interrupt_is_answered taken_file (after taken_file demo_interrupting) 0 (IGet 0) 101 23).
  - apply after_reachable. vm_compute. eauto.
  - vm_compute. reflexivity.
  - vm_compute. reflexivity.
Defined.
