(* ===== verification/DaemonRefine.v ===== *)
(** * The owner process as a registry of files

    An abstract owner process: a map from identifiers to descriptors and a flag
    that says that the process exits, with four atomic actions. Every run of
    the owner process, of all its threads, performs a sequence of these actions,
    which is read off what the run does to its clients (the requests it
    receives, the replies it sends, the descriptors its handlers take), and the
    abstract process accepts that sequence. *)

From Stdlib Require Import ZArith Lia.
From stdpp Require Import base tactics numbers list gmap.
From S2P Require Import Prelude.
From S2P Require Import Std.
From S2P Require Import Types.
From S2P Require Import Wire.
From S2P Require Import Helpers.
From S2P Require Import Tracker.
From S2P Require Import TrackerSpec.
From S2P Require Import Daemon.
From S2P Require Import DaemonInv.
From S2P Require Import DaemonSpec.
Local Open Scope Z_scope.

(** ** The specification *)

Record registry : Type := mkRegistry { reg_files : gmap Z Fd; reg_exiting : bool }.

Definition empty_registry : registry := mkRegistry ∅ false.

(** What happens, with what the client or the thread gets to see: a
    registration of a descriptor and its reply; a lock command that looks an
    identifier up, and the descriptor it will use; an unregistration that takes
    an identifier out, and the descriptor it will close; the decision to
    exit. *)
Inductive action : Type :=
  | ARegister (fd : Fd) (reply : result Z Z)
  | ALookup (id : Z) (found : option Fd)
  | ARemove (id : Z) (found : option Fd)
  | AExit.

Lemma registry_eq r1 r2 : reg_files r1 = reg_files r2 -> reg_exiting r1 = reg_exiting r2 -> r1 = r2.
Proof. by destruct r1, r2; simpl; intros -> ->. Qed.

(** [None]: the registry does not do this. *)
Definition registry_step (r : registry) (a : action) : option registry :=
  match a with
  | ARegister fd (Ok id) =>
      if reg_exiting r then None
      else match reg_files r !! id with
           | None => Some (mkRegistry (<[id := fd]> (reg_files r)) false)
           | Some _ => None
           end
  | ARegister fd (Err e) =>
      if reg_exiting r && negb (e =? Errno.EIO) then None else Some r
  | ALookup id found => if bool_decide (found = reg_files r !! id) then Some r else None
  | ARemove id found =>
      if bool_decide (found = reg_files r !! id)
      then Some (mkRegistry (delete id (reg_files r)) (reg_exiting r)) else None
  | AExit =>
      if bool_decide (reg_files r = ∅) then Some (mkRegistry ∅ true) else None
  end.

Lemma registry_register r fd id :
  reg_exiting r = false -> reg_files r !! id = None ->
  registry_step r (ARegister fd (Ok id)) = Some (mkRegistry (<[id := fd]> (reg_files r)) false).
Proof. simpl. by intros -> ->. Qed.

Lemma registry_refuse r fd e :
  (reg_exiting r = true -> e = Errno.EIO) -> registry_step r (ARegister fd (Err e)) = Some r.
Proof. simpl. destruct (reg_exiting r); [by intros -> | done]. Qed.

Lemma registry_lookup r id found :
  found = reg_files r !! id -> registry_step r (ALookup id found) = Some r.
Proof. intros ->. simpl. by rewrite bool_decide_true. Qed.

Lemma registry_remove r id found :
  found = reg_files r !! id ->
  registry_step r (ARemove id found) = Some (mkRegistry (delete id (reg_files r)) (reg_exiting r)).
Proof. intros ->. simpl. by rewrite bool_decide_true. Qed.

Lemma registry_exit r : reg_files r = ∅ -> registry_step r AExit = Some (mkRegistry ∅ true).
Proof. intros He. simpl. by rewrite bool_decide_true. Qed.

#[local] Arguments registry_step : simpl never.

(** ** What a step does *)

Section Refinement.
Context {K B : Type} `{!Fcntl K} `{!Backoff B}.
Implicit Types s : daemon K B.

(** The descriptor that a thread at work on [loc] uses. *)
Definition descriptor_at s (loc : nat) : option Fd := descriptor <$> d_fds s !! loc.

(** The action of a step, from what it received, what it replied and what its
    thread goes on with. *)
Definition action_of s (l : daemon_label K) s' : option action :=
  match l with
  | DReceive (Done (Ok (Message.Register m, _))) _ =>
      match d_events s' with
      | Hangup _ :: Sent _ (RId r) :: _ => Some (ARegister (Register.fd m) r)
      | _ => None
      end
  | DReceive (Done (Ok (Message.LockCommand c, _))) _ =>
      Some (ALookup (LockCommand.id c)
              (match d_main s' with MCommand _ loc _ => descriptor_at s' loc | _ => None end))
  | DUnreg u _ =>
      match d_unregs s !! u with
      | Some (URemove id, _) =>
          Some (ARemove id (match d_unregs s' !! u with
                            | Some (UBegin loc, _) => descriptor_at s' loc
                            | _ => None
                            end))
      | _ => None
      end
  | DStart =>
      match d_start s, d_start s' with
      | SExit, SReturned _ => Some AExit
      | _, _ => None
      end
  | _ => None
  end.

(** The actions of a run. *)
Fixpoint actions s (ls : list (daemon_label K)) : list action :=
  match ls with
  | [] => []
  | l :: ls =>
      match daemon_step s l with
      | None => []
      | Some s' => option_list (action_of s l s') ++ actions s' ls
      end
  end.

(** ** The abstraction *)

Definition abstract s : registry :=
  mkRegistry (omap (descriptor_at s) (descriptors (d_inner s))) (rw_value (exit_lock (d_inner s))).

Lemma abstract_lookup s id :
  reg_files (abstract s) !! id = descriptors (d_inner s) !! id ≫= descriptor_at s.
Proof. apply lookup_omap. Qed.

Lemma fds_drop_descriptor fds loc h loc' d' :
  fds_drop fds loc h !! loc' = Some d' ->
  exists d, fds !! loc' = Some d /\ descriptor d' = descriptor d.
Proof.
  unfold fds_drop. destruct (fds !! loc) as [d|] eqn:E; [| by eauto]. case_bool_decide.
  - intros [_ ?]%lookup_delete_Some. eauto.
  - intros [(<- & <-)|(_ & ?)]%lookup_insert_Some; eauto.
Qed.

(** The descriptor of an [FdData] does not change while it lives. *)
Lemma step_descriptor s l s' loc d d' :
  daemon_inv s -> daemon_step s l = Some s' ->
  d_fds s !! loc = Some d -> d_fds s' !! loc = Some d' -> descriptor d' = descriptor d.
Proof.
  intros HI Hs Hd Hd'.
  assert (forall f h loc0, (forall d, descriptor (f d) = descriptor d) ->
    fds_drop (alter f loc0 (d_fds s)) loc0 h !! loc = Some d' -> descriptor d' = descriptor d) as Hmove.
  { intros f h loc0 Hf H. apply fds_drop_descriptor in H as (d1 & H & ->).
    apply lookup_alter_Some in H as [(<- & d2 & ? & ->)|(_ & ?)]; simplify_eq; [apply Hf | done]. }
  destruct l; step_cases Hs; try (by simplify_eq).
  all: try (by eapply Hmove; [| exact Hd']).
  all: try (apply fds_drop_descriptor in Hd' as (d1 & ? & ->); by simplify_eq).
  all: try (apply lookup_alter_Some in Hd' as [(<- & d2 & ? & ->)|(_ & ?)]; by simplify_eq).
  apply lookup_insert_Some in Hd' as [(<- & <-)|(_ & ?)]; [| by simplify_eq].
  apply (di_fd_tracker _ HI) in Hd as [? ?]. congruence.
Qed.

(** A file that stays open keeps its descriptor. *)
Lemma step_descriptor_at s l s' h h' loc :
  daemon_inv s -> daemon_step s l = Some s' -> arc_of s h = Some loc -> arc_of s' h' = Some loc ->
  descriptor_at s' loc = descriptor_at s loc.
Proof.
  intros HI Hs Hh Hh'. pose proof (daemon_step_inv _ _ _ HI Hs) as HI'. unfold descriptor_at.
  destruct (arcs_ok_live s h loc (di_arcs _ HI) Hh) as [d Hd].
  destruct (arcs_ok_live s' h' loc (di_arcs _ HI') Hh') as [d' Hd'].
  rewrite Hd, Hd'. simpl. by rewrite (step_descriptor s l s' loc d d').
Qed.

Lemma step_files s l s' id :
  daemon_inv s -> daemon_step s l = Some s' ->
  descriptors (d_inner s') !! id = descriptors (d_inner s) !! id ->
  reg_files (abstract s') !! id = reg_files (abstract s) !! id.
Proof.
  intros HI Hs E. rewrite !abstract_lookup, E.
  destruct (descriptors (d_inner s) !! id) as [loc|] eqn:Eid; [| done]. simpl.
  eapply (step_descriptor_at _ _ _ (HMap id) (HMap id)); [done | done | done | simpl; congruence].
Qed.

(** How the registry changes follows from how the map of identifiers and the
    exit flag do. *)
Lemma abstract_same s l s' :
  daemon_inv s -> daemon_step s l = Some s' -> descriptors (d_inner s') = descriptors (d_inner s) ->
  rw_value (exit_lock (d_inner s')) = rw_value (exit_lock (d_inner s)) -> abstract s' = abstract s.
Proof.
  intros HI Hs E Ex. apply registry_eq; [| done].
  apply map_eq. intros id. eapply step_files; [done | done | by rewrite E].
Qed.

Lemma abstract_insert s l s' id loc fd :
  daemon_inv s -> daemon_step s l = Some s' ->
  descriptors (d_inner s') = <[id := loc]> (descriptors (d_inner s)) -> descriptor_at s' loc = Some fd ->
  rw_value (exit_lock (d_inner s')) = false ->
  abstract s' = mkRegistry (<[id := fd]> (reg_files (abstract s))) false.
Proof.
  intros HI Hs E Hfd Ex. apply registry_eq; [| done].
  apply map_eq. intros i. cbn [reg_files]. destruct (decide (i = id)) as [->|Hne].
  - by rewrite abstract_lookup, E, !lookup_insert_eq.
  - rewrite lookup_insert_ne by done. eapply step_files; [done | done |].
    by rewrite E, lookup_insert_ne.
Qed.

Lemma abstract_delete s l s' id :
  daemon_inv s -> daemon_step s l = Some s' ->
  descriptors (d_inner s') = delete id (descriptors (d_inner s)) ->
  rw_value (exit_lock (d_inner s')) = rw_value (exit_lock (d_inner s)) ->
  abstract s' = mkRegistry (delete id (reg_files (abstract s))) (reg_exiting (abstract s)).
Proof.
  intros HI Hs E Ex. apply registry_eq; [| done].
  apply map_eq. intros i. cbn [reg_files]. destruct (decide (i = id)) as [->|Hne].
  - by rewrite abstract_lookup, E, !lookup_delete_eq.
  - rewrite lookup_delete_ne by done. eapply step_files; [done | done |].
    by rewrite E, lookup_delete_ne.
Qed.

(** ** Every step performs its action *)

Definition performs s (a : option action) s' : Prop :=
  match a with
  | None => abstract s' = abstract s
  | Some a => registry_step (abstract s) a = Some (abstract s')
  end.

#[local] Arguments abstract : simpl never.

Lemma register_performs s m fd e s' :
  daemon_inv s -> daemon_step s (DReceive (Done (Ok (Message.Register m, fd))) e) = Some s' ->
  performs s (action_of s (DReceive (Done (Ok (Message.Register m, fd))) e) s') s'.
Proof.
  intros HI Hs. pose proof Hs as Hs0. simpl in Hs. destruct (d_main s); try done.
  unfold handle_fd_register, acquire_exit_lock in Hs. simpl in Hs.
  destruct (rw_value (exit_lock (d_inner s))) eqn:Hx; cycle 1.
  1: destruct (e_sigaction e) as [u|err]; cycle 1.
  2: { destruct (d_trackers s !! e_name e) eqn:Hloc; [done |].
    destruct (alloc_id _ _ _) as [[id next]|] eqn:Ha; [| done]. simplify_eq. simpl.
    apply alloc_id_sound in Ha as (Hid & _); [| apply (di_ids _ HI)].
    rewrite registry_register; [| done | by rewrite abstract_lookup; simpl in Hid; rewrite Hid].
    apply f_equal. symmetry. eapply (abstract_insert _ _ _ id (e_name e)); [done | exact Hs0 | done | | done].
    unfold descriptor_at. simpl. by rewrite lookup_insert_eq. }
  all: simplify_eq; simpl; rewrite registry_refuse; [| done || by simpl; rewrite Hx].
  all: apply f_equal; symmetry; (eapply abstract_same; [done | exact Hs0 | done | done]).
Qed.

Lemma command_performs s c fd e s' :
  daemon_inv s -> daemon_step s (DReceive (Done (Ok (Message.LockCommand c, fd))) e) = Some s' ->
  performs s (action_of s (DReceive (Done (Ok (Message.LockCommand c, fd))) e) s') s'.
Proof.
  intros HI Hs. pose proof Hs as Hs0. simpl in Hs. destruct (d_main s) eqn:Hm; try done.
  unfold handle_lock_command in Hs. simpl in Hs. unfold performs, action_of. rewrite registry_lookup.
  - apply f_equal. symmetry. destruct (descriptors (d_inner s) !! LockCommand.id c); simplify_eq;
      (eapply abstract_same; [done | exact Hs0 | done | done]).
  - rewrite abstract_lookup. destruct (descriptors (d_inner s) !! LockCommand.id c) as [loc|]; simplify_eq; simpl.
    + unfold descriptor_at. simpl. rewrite lookup_alter_eq. by destruct (d_fds s !! loc).
    + by rewrite Hm.
Qed.

Lemma unregister_performs s u fails s' :
  daemon_inv s -> daemon_step s (DUnreg u fails) = Some s' ->
  performs s (action_of s (DUnreg u fails) s') s'.
Proof.
  intros HI Hs. pose proof Hs as Hs0. simpl in Hs. unfold handle_fd_unregister in Hs.
  unfold performs, action_of.
  destruct (d_unregs s !! u) as [[[id|loc|loc lo|loc|r] fd]|] eqn:Hu; [..| done].
  2-5: repeat (case_match; try discriminate Hs); simplify_eq;
       (eapply abstract_same; [done | exact Hs0 | by daemon_simpl | by daemon_simpl]).
  rewrite registry_remove; destruct (descriptors (d_inner s) !! id) as [loc|] eqn:Hid; simplify_eq.
  - apply f_equal. symmetry.
    eapply abstract_delete; [done | exact Hs0 | by daemon_simpl | by daemon_simpl].
  - apply f_equal. symmetry.
    eapply abstract_delete; [done | exact Hs0 | simpl; by rewrite delete_id | by daemon_simpl].
  - rewrite abstract_lookup, Hid. simpl. rewrite lookup_insert_eq.
    eapply (step_descriptor_at _ _ _ (HMap id) (HUnreg u)); [done | exact Hs0 | done |].
    simpl. by rewrite lookup_insert_eq.
  - rewrite abstract_lookup, Hid. simpl. by rewrite lookup_insert_eq.
Qed.

Lemma start_performs s s' :
  daemon_inv s -> daemon_step s DStart = Some s' -> performs s (action_of s DStart s') s'.
Proof.
  intros HI Hs. pose proof Hs as Hs0. pose proof (daemon_step_inv _ _ _ HI Hs) as HI'.
  simpl in Hs. unfold start_iter, try_exit in Hs. unfold performs, action_of.
  destruct (d_start s) eqn:Hst; repeat (case_match; try discriminate Hs); simplify_eq;
    try (eapply abstract_same; [done | exact Hs0 | done | done]); simpl in *; try congruence.
  destruct (exit_flag_unused _ HI' eq_refl) as [_ He]. simpl in He.
  rewrite registry_exit; [apply f_equal, registry_eq; [| done] |];
    apply map_eq; intros id; by rewrite ?abstract_lookup; simpl; rewrite He.
Qed.

Lemma step_performs s l s' :
  daemon_inv s -> daemon_step s l = Some s' -> performs s (action_of s l s') s'.
Proof.
  intros HI Hs. destruct l as [k|masked|[[[msg fd]|err]|] e|e| |t masked i|u fails|n fails|].
  3: destruct msg; try (by apply register_performs); try (by apply command_performs).
  all: try (by apply unregister_performs); try (by apply start_performs).
  all: (eapply abstract_same; [done | exact Hs | by step_cases Hs | by step_cases Hs]).
Qed.

Lemma run_performs ls s s' :
  daemon_inv s -> run daemon_step s ls = Some s' ->
  run registry_step (abstract s) (actions s ls) = Some (abstract s').
Proof.
  revert s. induction ls as [|l ls IH]; intros s HI Hr; simpl in Hr |- *; [by simplify_eq |].
  destruct (daemon_step s l) as [s1|] eqn:Hs; [| done].
  pose proof (step_performs s l s1 HI Hs) as Hp. rewrite run_app.
  destruct (action_of s l s1) as [a|]; simpl in *; [rewrite Hp | rewrite <- Hp];
    by apply IH; [eapply daemon_step_inv |].
Qed.
End Refinement.

(** ** The refinement *)

(** C2. The owner process, with all its threads, implements the registry: in
    every run from the start, the actions of the run (registrations with their
    replies, the descriptors that lock commands and unregistrations find, the
    decision to exit) are accepted by the abstract registry, which ends in the
    state that the process is in. So an identifier stands for the descriptor
    that was sent with the registration that was answered with it, and for no
    other, until an unregistration of that identifier takes it out; lock
    commands and unregistrations get that descriptor or, if there is none,
    nothing; and the process decides to exit only when nothing is registered,
    and registers nothing afterwards. *)
Theorem daemon_refines_registry {K B} `{!Fcntl K} `{!Backoff B} (k : K) (s : daemon K B) ls :
  run daemon_step (daemon_init k) ls = Some s ->
  run registry_step empty_registry (actions (daemon_init (B := B) k) ls) = Some (abstract s).
Proof.
  intros Hr. assert (empty_registry = abstract (daemon_init (B := B) k)) as ->.
  { apply registry_eq; [| done]. apply map_eq. intros id. by rewrite abstract_lookup. }
  apply run_performs; [apply daemon_inv_init | done].
Qed.

(** Registered, used, taken out, looked up in vain; then the process exits. *)
Definition demo_registry : list file_label :=
  demo_unregister ++ DUnreg 0 0 :: demo_unregister_rest ++
  [demo_recv (Message.LockCommand
     (LockCommand.mk 0 LockAction.GetLockStatus (whole_file LockType.Read))) 24 (demo_env 0 0);
   DStart; DStart; DStart; DStart].

Lemma daemon_refines_registry_witness :
  actions (daemon_init (B := nat) taken_file) demo_registry =
    [ARegister 7 (Ok 0); ALookup 0 (Some 7); ARemove 0 (Some 7); ALookup 0 None; AExit] /\
  run registry_step empty_registry (actions (daemon_init (B := nat) taken_file) demo_registry) =
    Some (abstract (after taken_file demo_registry)).
Proof.
  split; [vm_compute; reflexivity |].
  apply (daemon_refines_registry taken_file (after taken_file demo_registry) demo_registry).
  vm_compute. reflexivity.
Defined.
