(* ===== verification/Client.v ===== *)
(** * src/src/owner.rs, lines 456-732: the client side of an owner process

    [Owner], [RawLockable], [Lockable], [Interruptable] and [Invoker]. The code
    is written against the class [Rpc], the requests it makes; [sys_Rpc]
    implements the class with the functions of messages.rs. *)

From Stdlib Require Import ZArith Lia.
From stdpp Require Import base tactics numbers list gmap.
From S2P Require Import Prelude.
From S2P Require Import Std.
From S2P Require Import Types.
From S2P Require Import Wire.
From S2P Require Import Messages.
From S2P Require Import Helpers.
Local Open Scope Z_scope.
Local Open Scope ulock_scope.

(** ** The requests a client makes *)

(** Each is [messages::send_request] or one of its variants at one message
    type, on the socket behind the [communication] mutex. *)
Class Rpc (W : Type) : Type := {
  rpc_ping : Fd -> Ping -> prog W (FetchedReplyResult unit);
  rpc_register : Fd -> Register -> prog W (FetchedReplyResult Z);
  rpc_unregister : Fd -> Unregister -> prog W (FetchedReplyResult unit);
  rpc_interrupt : Fd -> Interrupt -> prog W (FetchedReplyResult unit);
  rpc_remove_interrupt : Fd -> RemoveInterrupt -> prog W (FetchedReplyResult unit);
  rpc_lock : Fd -> LockCommand -> prog W (FetchedReplyResult ReplyLockCommandData);
  rpc_lock_iter : Fd -> LockCommand -> prog W (io_result ReplyIterator);
  rpc_next : ReplyIterator -> prog W (option (FetchedReplyResult ReplyLockCommandData));
  (** dropping the iterator *)
  rpc_end : ReplyIterator -> prog W unit;
  rpc_spawn : Fd -> RequestSpawnOwner -> prog W (FetchedReplyResult (unit * list Fd));
  (** dropping received descriptors *)
  rpc_drop_fds : list Fd -> prog W unit }.

Section SysRpc.
Context {W : Type} `{!Sys W} `{!Bincode RawMessage} `{!Bincode Duration}
  `{!Bincode (result Z unit)} `{!Bincode (result Z Z)} `{!Bincode (result Z ReplyLockCommandData)}.

#[export] Instance sys_Rpc : Rpc W := {|
  rpc_ping := send_request (R := Ping) (Bincode0 := _ : Bincode RawMessage) (Bincode1 := _ : Bincode (result Z unit));
  rpc_register := send_request (R := Register) (Bincode0 := _ : Bincode RawMessage) (Bincode1 := _ : Bincode (result Z Z));
  rpc_unregister := send_request (R := Unregister) (Bincode0 := _ : Bincode RawMessage) (Bincode1 := _ : Bincode (result Z unit));
  rpc_interrupt := send_request (R := Interrupt) (Bincode0 := _ : Bincode RawMessage) (Bincode1 := _ : Bincode (result Z unit));
  rpc_remove_interrupt := send_request (R := RemoveInterrupt) (Bincode0 := _ : Bincode RawMessage) (Bincode1 := _ : Bincode (result Z unit));
  rpc_lock := send_request (R := LockCommand) (Bincode0 := _ : Bincode RawMessage) (Bincode1 := _ : Bincode (result Z ReplyLockCommandData));
  rpc_lock_iter := send_request_iter (R := LockCommand) (Bincode0 := _ : Bincode RawMessage);
  rpc_next := next_data (T := ReplyLockCommandData);
  rpc_end it := drop_fd (oneshot it);
  rpc_spawn := send_request_with_fds (R := RequestSpawnOwner) (Bincode0 := _ : Bincode Duration) (Bincode1 := _ : Bincode (result Z unit));
  rpc_drop_fds := drop_fds |}.
End SysRpc.

(** [try_clone_to_owned]: [fcntl(fd, F_DUPFD_CLOEXEC)]. *)
Class Dup (W : Type) : Type := { sys_dup : Fd -> W -> result Z Fd * W }.

(** ** The code *)

(** [Owner] and [OwnerInner]: the communication socket. *)
Record Owner : Type := Owner_new { communication : Fd }.

(** [RawLockable]: the owner it belongs to and the identifier of the file. *)
Record RawLockable : Type := mkRawLockable { rl_owner : Owner; rl_id : Z }.

(** [Lockable]: the handle that is given to the user. *)
Record Lockable : Type := mkLockable { lk_inner : RawLockable }.

(** The double [?] of a request: its own failure, then the error in the reply. *)
Definition flatten_reply {A} (r : FetchedReplyResult A) : io_result A := and_then r id.

(** A body whose locals run [fin] when they are dropped, on return and on
    unwinding. *)
Definition finally {W A} (body : prog W A) (fin : prog W unit) : prog W A :=
  fun w =>
    let '(r, w1) := body w in
    match fin w1 with
    | (Done _, w2) => (r, w2)
    | (Panicked, w2) => (Panicked, w2)
    end.

Section Client.
Context {W : Type} `{!Rpc W} `{!SigSys W}.

Definition rl_comm (self : RawLockable) : Fd := communication (rl_owner self).

(** The reply of an operation that cannot be pending. *)
Definition done_only (r : io_result ReplyLockCommandData) : io_result LockParams :=
  and_then r (fun d =>
    match d with
    | ReplyLockCommandData.Done params => Ok params
    | ReplyLockCommandData.Pending _ => Err (Custom ErrorKind.InvalidData)
    end).

(** [RawLockable::get_lock]. *)
Definition get_lock (self : RawLockable) (params : LockParams) : prog W (io_result LockParams) :=
  with_signals_blocked
    (let! res := rpc_lock (rl_comm self) (LockCommand.mk (rl_id self) LockAction.GetLockStatus params) in
     ret (done_only (flatten_reply res))).

(** [RawLockable::set_lock_nonblocking]. *)
Definition set_lock_nonblocking (self : RawLockable) (params : LockParams) : prog W (io_result LockParams) :=
  with_signals_blocked
    (let! res := rpc_lock (rl_comm self) (LockCommand.mk (rl_id self) LockAction.SetLockNonBlocking params) in
     ret (done_only (flatten_reply res))).

(** [Drop for Interruptable]. *)
Definition Interruptable_drop (lockable : RawLockable) (id : Z) : prog W unit :=
  let! _ := rpc_remove_interrupt (rl_comm lockable) (RemoveInterrupt.mk id) in ret tt.

(** [iterator.next()] inside the block that unblocks SIGUSR1 unless the
    operation was interrupted already. *)
Definition next_interruptible (interrupted : bool) (it : ReplyIterator)
  : prog W (io_result (option (FetchedReplyResult ReplyLockCommandData))) :=
  let receive := (let! item := rpc_next it in ret (Ok item)) in
  if interrupted then receive
  else let? restore := unblock_signal libc.SIGUSR1 in with_guard restore receive.

(** The loop of [RawLockable::set_lock_blocking]; [Ok None] when it has not
    returned after [fuel] iterations. *)
Fixpoint wait_reply (fuel : nat) (self : RawLockable) (id : Z) (it : ReplyIterator) (interrupted : bool)
  : prog W (io_result (option LockParams)) :=
  match fuel with
  | O => ret (Ok None)
  | S fuel =>
      let? next_item := next_interruptible interrupted it in
      match next_item with
      | None => ret (Err (Custom ErrorKind.BrokenPipe))
      | Some (Ok (Ok (ReplyLockCommandData.Done params))) => ret (Ok (Some params))
      | Some (Ok (Ok (ReplyLockCommandData.Pending _))) => ret (Err (Custom ErrorKind.InvalidData))
      | Some (Ok (Err e)) => ret (Err e)
      | Some (Err e) =>
          if kind_is ErrorKind.Interrupted e then
            let! r := rpc_interrupt (rl_comm self) (Interrupt.mk id) in
            match flatten_reply r with
            | Err e => ret (Err e)
            | Ok _ => wait_reply fuel self id it true
            end
          else ret (Err e)
      end
  end.

(** [RawLockable::set_lock_blocking] after the request was sent. *)
Definition blocking_replies (fuel : nat) (self : RawLockable) (it : ReplyIterator)
  : prog W (io_result (option LockParams)) :=
  let! first := rpc_next it in
  match first with
  | None => ret (Err (Custom ErrorKind.BrokenPipe))
  | Some (Err e) => ret (Err e)
  | Some (Ok (Err e)) => ret (Err e)
  | Some (Ok (Ok (ReplyLockCommandData.Done params))) => ret (Ok (Some params))
  | Some (Ok (Ok (ReplyLockCommandData.Pending id))) =>
      finally (wait_reply fuel self id it false) (Interruptable_drop self id)
  end.

(** [RawLockable::set_lock_blocking]. *)
Definition set_lock_blocking (fuel : nat) (self : RawLockable) (params : LockParams)
  : prog W (io_result (option LockParams)) :=
  with_signals_blocked
    (let? iterator := rpc_lock_iter (rl_comm self)
                        (LockCommand.mk (rl_id self) LockAction.SetLockBlocking params) in
     finally (blocking_replies fuel self iterator) (rpc_end iterator)).

(** *** [Lockable] *)

(** [Drop for Lockable]. *)
Definition Lockable_drop (self : Lockable) : prog W unit :=
  let! _ := rpc_unregister (rl_comm (lk_inner self)) (Unregister.mk (rl_id (lk_inner self))) in ret tt.

Definition Lockable_get_lock (self : Lockable) (params : LockParams) : prog W (io_result LockParams) :=
  get_lock (lk_inner self) params.

Definition Lockable_set_lock_nonblocking (self : Lockable) (params : LockParams)
  : prog W (io_result LockParams) :=
  set_lock_nonblocking (lk_inner self) params.

Definition Lockable_set_lock_blocking (fuel : nat) (self : Lockable) (params : LockParams)
  : prog W (io_result (option LockParams)) :=
  set_lock_blocking fuel (lk_inner self) params.

(** *** [Owner] *)

(** [Owner::register]. *)
Definition Owner_register `{!Dup W} (self : Owner) (fd : Fd) : prog W (io_result Lockable) :=
  with_signals_blocked
    (let? cloned := (let! r := lift (sys_dup fd) in ret (map_err Os r)) in
     let! id := rpc_register (communication self) (Register.mk cloned) in
     ret (map_ok (fun id => mkLockable (mkRawLockable self id)) (flatten_reply id))).

(** [Owner::ping]. *)
Definition Owner_ping (self : Owner) : prog W (io_result unit) :=
  with_signals_blocked
    (let! r := rpc_ping (communication self) Ping.mk in ret (flatten_reply r)).

(** *** [set_lock_blocking_detached] *)

(** [Invoker]: the callback, until it is taken. *)
Definition Invoker : Type := option (io_result LockParams -> prog W unit).

(** [Invoker::invoke], and the invoker it leaves, also when the callback
    panics. *)
Definition Invoker_invoke (self : Invoker) (r : io_result LockParams) : prog W unit * Invoker :=
  match self with
  | Some f => (f r, None)
  | None => (ret tt, None)
  end.

(** [Drop for Invoker]. *)
Definition Invoker_drop (self : Invoker) : prog W unit :=
  fst (Invoker_invoke self (Err io_other)).

(** The closure that [set_lock_blocking_detached] gives to [tracker.spawn]:
    called with [Some handle] on the new thread, or dropped ([None]) when the
    thread is refused. [lock] is the call of [set_lock_blocking]. *)
Definition detached_closure {H} (pre : H -> prog W (io_result unit)) (lock : prog W (io_result LockParams))
    (done : io_result LockParams -> prog W unit) (handle : option H) : prog W unit :=
  let invoker := Some done in
  match handle with
  | None => Invoker_drop invoker
  | Some h =>
      fun w =>
        match pre h w with
        | (Panicked, w1) => (Panicked, (Invoker_drop invoker w1).2)
        | (Done (Err e), w1) =>
            let '(call, invoker) := Invoker_invoke invoker (Err e) in
            finally call (Invoker_drop invoker) w1
        | (Done (Ok _), w1) =>
            match lock w1 with
            | (Panicked, w2) => (Panicked, (Invoker_drop invoker w2).2)
            | (Done res, w2) =>
                let '(call, invoker) := Invoker_invoke invoker res in
                finally call (Invoker_drop invoker) w2
            end
        end
  end.
End Client.
