(* ===== verification/ClientSpec.v ===== *)
(** * Properties of the client side

    What a blocking lock asks of the owner process, that it terminates and
    restores the signal mask, and that the callback of a detached lock is called
    exactly once. The laws of the requests are proved for messages.rs from
    documented behaviour of the socket calls, and evaluated on a client and an
    owner process that talk over concrete sockets. *)

From Stdlib Require Import ZArith Lia.
From stdpp Require Import base tactics numbers list gmap.
From S2P Require Import Prelude.
From S2P Require Import Std.
From S2P Require Import Types.
From S2P Require Import Wire.
From S2P Require Import Messages.
From S2P Require Import Transport.
From S2P Require Import Net.
From S2P Require Import Helpers.
From S2P Require Import TrackerSpec.
From S2P Require Import Client.
Local Open Scope Z_scope.

(** ** What the requests promise the client *)

(** A program that leaves the signal mask of the thread alone. *)
Definition keeps_mask {W} `{!SigSys W} `{!SigLaws W} {A} (p : prog W A) : Prop :=
  forall w, mask (p w).2 = mask w.

(** No request changes the signal mask, and with every signal blocked waiting
    for a reply is not interrupted. *)
Class RpcLaws (W : Type) `{!Rpc W} `{!SigSys W} `{!SigLaws W} : Prop := {
  law_lock_iter : forall fd c, keeps_mask (rpc_lock_iter fd c);
  law_interrupt : forall fd c, keeps_mask (rpc_interrupt fd c);
  law_remove : forall fd c, keeps_mask (rpc_remove_interrupt fd c);
  law_next : forall it, keeps_mask (rpc_next it);
  law_end : forall it, keeps_mask (rpc_end it);
  law_blocked : forall it w e w', mask w = maskable ->
    rpc_next it w = (Done (Some (Err e)), w') -> kind_is ErrorKind.Interrupted e = false }.

(** *** messages.rs keeps the promise *)

(** Documented: the system calls on sockets leave the signal mask alone, and
    [recvmsg] fails with EINTR only when a signal was delivered. *)
Class SysSigLaws (W : Type) `{!Sys W} `{!SigSys W} `{!SigLaws W} : Prop := {
  socketpair_mask : forall w, mask (sys_socketpair w).2 = mask w;
  sendmsg_mask : forall s iov fds w, mask (sys_sendmsg s iov fds w).2 = mask w;
  recvmsg_mask : forall s lens cap peek w, mask (sys_recvmsg s lens cap peek w).2 = mask w;
  close_mask : forall fd w, mask (sys_close fd w) = mask w;
  recvmsg_blocked : forall s lens cap peek w, mask w = maskable ->
    (sys_recvmsg s lens cap peek w).1 <> Err Errno.EINTR }.

Create HintDb keeps discriminated.

Section Keeps.
Context {W : Type} `{!Sys W} `{!SigSys W} `{!SigLaws W} `{!SysSigLaws W}.

Lemma mask_ret {A} (a : A) : keeps_mask (W := W) (ret a).
Proof. done. Qed.

Lemma mask_panic {A} : keeps_mask (W := W) (panic (A := A)).
Proof. done. Qed.

Lemma mask_bind {A B} (m : prog W A) (k : A -> prog W B) :
  keeps_mask m -> (forall a, keeps_mask (k a)) -> keeps_mask (bind m k).
Proof.
  intros Hm Hk w. unfold bind. specialize (Hm w). destruct (m w) as [[a|] w1]; [| done].
  simpl in Hm. by rewrite Hk.
Qed.

Lemma mask_try_bind {E A B} (m : prog W (result E A)) (k : A -> prog W (result E B)) :
  keeps_mask m -> (forall a, keeps_mask (k a)) -> keeps_mask (try_bind m k).
Proof. intros Hm Hk. apply mask_bind; [done |]. intros [a|e]; [apply Hk | apply mask_ret]. Qed.

Lemma mask_os {A} (f : W -> result Z A * W) :
  (forall w, mask (f w).2 = mask w) -> keeps_mask (os f).
Proof. intros Hf. unfold os. apply mask_bind; [exact Hf | intros; apply mask_ret]. Qed.

Lemma mask_drop_fds fds : keeps_mask (drop_fds (W := W) fds).
Proof.
  induction fds as [|fd fds IH]; [apply mask_ret |].
  apply mask_bind; [exact (close_mask fd) | by intros]. 
Qed.

Lemma mask_drop_fd fd : keeps_mask (drop_fd (W := W) fd).
Proof. exact (close_mask fd). Qed.

Lemma mask_vec_alloc n size : keeps_mask (vec_alloc (W := W) n size).
Proof. unfold vec_alloc. by case_match. Qed.
End Keeps.

#[export] Hint Resolve mask_ret mask_panic mask_drop_fd mask_drop_fds mask_vec_alloc
  socketpair_mask sendmsg_mask recvmsg_mask : keeps.

(** Walks down a program, a step at a time. *)
Ltac keeps :=
  repeat first
    [ progress intros
    | solve [auto with keeps]
    | apply mask_bind | apply mask_try_bind | apply mask_os
    | progress case_match ].

Section SysLaws.
Context {W : Type} `{!Sys W} `{!SigSys W} `{!SigLaws W} `{!SysSigLaws W}.

Lemma mask_recv_exact s lens cap peek : keeps_mask (recv_exact (W := W) s lens cap peek).
Proof. unfold recv_exact. keeps. Qed.
#[local] Hint Resolve mask_recv_exact : keeps.

Lemma mask_receive_raw s : keeps_mask (receive_raw_message (W := W) s).
Proof. unfold receive_raw_message. keeps. Qed.

Lemma mask_send_raw s buffer fds : keeps_mask (send_raw_message (W := W) s buffer fds).
Proof. unfold send_raw_message. keeps. Qed.
#[local] Hint Resolve mask_receive_raw mask_send_raw : keeps.

Lemma mask_next_data {T} `{!Bincode (result Z T)} it : keeps_mask (next_data (W := W) (T := T) it).
Proof. unfold next_data, next. keeps. Qed.

Lemma mask_send_iter {R} `{!Serializable R} `{!Bincode (Payload R)} s (m : R) :
  keeps_mask (send_request_iter (W := W) s m).
Proof. unfold send_request_iter, send_request_iter_with_fds. destruct (serialize m). keeps. Qed.
#[local] Hint Resolve @mask_next_data @mask_send_iter : keeps.

Lemma mask_send_request {R} `{!Serializable R} `{!Bincode (Payload R)} `{!Replyable R}
    `{!Bincode (result Z (reply_type R))} s (m : R) :
  keeps_mask (send_request (W := W) s m).
Proof. unfold send_request. keeps. Qed.

(** A program that, with every signal blocked, does not fail because of one. *)
Definition uninterrupted {A} (p : prog W (io_result A)) : Prop :=
  forall w e w', mask w = maskable -> p w = (Done (Err e), w') -> kind_is ErrorKind.Interrupted e = false.

Lemma uninterrupted_ret {A} (r : io_result A) :
  (forall e, r = Err e -> kind_is ErrorKind.Interrupted e = false) -> uninterrupted (ret r).
Proof. intros H w e w' _ [= -> _]. by apply H. Qed.

Lemma uninterrupted_bind {A B} (m : prog W A) (k : A -> prog W (io_result B)) :
  keeps_mask m -> (forall a, uninterrupted (k a)) -> uninterrupted (bind m k).
Proof.
  intros Hm Hk w e w' Hw. unfold bind. specialize (Hm w). destruct (m w) as [[a|] w1]; [| done].
  simpl in Hm. apply Hk. congruence.
Qed.

Lemma uninterrupted_try_bind {A B} (m : prog W (io_result A)) (k : A -> prog W (io_result B)) :
  keeps_mask m -> uninterrupted m -> (forall a, uninterrupted (k a)) -> uninterrupted (try_bind m k).
Proof.
  intros Hm Hu Hk w e w' Hw. unfold try_bind, bind. specialize (Hm w). specialize (Hu w).
  destruct (m w) as [[[a|e1]|] w1]; [| | done]; simpl in Hm.
  - apply Hk. congruence.
  - intros [= <- _]. by eapply Hu.
Qed.

Lemma uninterrupted_recvmsg s lens cap peek : uninterrupted (os (sys_recvmsg (W := W) s lens cap peek)).
Proof.
  intros w e w' Hw. unfold os, bind, lift, ret. pose proof (recvmsg_blocked s lens cap peek w Hw) as Hne.
  destruct (sys_recvmsg s lens cap peek w) as [[m|n] w1]; [done |]. simpl in *. intros [= <- _].
  unfold kind_is, kind_eqb. apply bool_decide_eq_false. simpl.
  unfold decode_error_kind. repeat case_match; try done.
  match goal with H : (n =? Errno.EINTR) = true |- _ => apply Z.eqb_eq in H as -> end. done.
Qed.

Ltac uninterrupted :=
  repeat first
    [ progress intros
    | apply uninterrupted_recvmsg
    | apply uninterrupted_ret; intros; simplify_eq/=; done
    | apply uninterrupted_try_bind; [solve [keeps] | |]
    | apply uninterrupted_bind; [solve [keeps] |]
    | progress case_match ].

Lemma uninterrupted_recv_exact s lens cap peek : uninterrupted (recv_exact s lens cap peek).
Proof. unfold recv_exact. uninterrupted. Qed.

Lemma uninterrupted_receive_raw s : uninterrupted (receive_raw_message s).
Proof.
  unfold receive_raw_message.
  apply uninterrupted_try_bind; [solve [keeps] | apply uninterrupted_recv_exact |].
  intros header. apply uninterrupted_bind; [solve [keeps] |]. intros _.
  do 2 (apply uninterrupted_try_bind; [solve [keeps] | |];
        [unfold usize_try_from; uninterrupted | intros ?]).
  do 3 (apply uninterrupted_bind; [solve [keeps] | intros _]).
  apply uninterrupted_try_bind; [solve [keeps] | apply uninterrupted_recv_exact |].
  intros message. destruct (drain_ancillary (rc_ancillary message) []) as [fds|e] eqn:E; [uninterrupted |].
  apply uninterrupted_bind; [solve [keeps] |]. intros _. apply uninterrupted_ret. intros e' [= <-].
  revert E. generalize (@nil Fd). induction (rc_ancillary message) as [|[|] l IH]; intros acc; simpl; try done.
  - apply IH.
  - by intros [= <-].
Qed.

Lemma next_data_blocked {T} `{!Bincode (result Z T)} it (w : W) e w' :
  mask w = maskable -> next_data (T := T) it w = (Done (Some (Err e)), w') ->
  kind_is ErrorKind.Interrupted e = false.
Proof.
  intros Hw. unfold next_data, next, bind. pose proof (uninterrupted_receive_raw (oneshot it) w) as Hu.
  destruct (receive_raw_message (oneshot it) w) as [[[[raw fds]|e1]|] w1]; simpl; [| | done].
  - destruct (bincode_deserialize raw) as [[item|n]|]; simpl; rewrite ?drop_fds_run; try done.
    by intros [= <- _].
  - destruct (kind_is ErrorKind.BrokenPipe e1); [done |]. simpl. intros [= -> _]. by eapply Hu.
Qed.
End SysLaws.

#[export] Instance sys_RpcLaws {W} `{!Sys W} `{!SigSys W} `{!SigLaws W} `{!SysSigLaws W}
    `{!Bincode RawMessage} `{!Bincode Duration}
    `{!Bincode (result Z unit)} `{!Bincode (result Z Z)} `{!Bincode (result Z ReplyLockCommandData)} :
  RpcLaws W.
Proof.
  constructor; intros.
  - apply (mask_send_iter (R := LockCommand) (Serializable0 := LockCommand_Serializable)
             (Bincode0 := _ : Bincode RawMessage)).
  - apply (mask_send_request (R := Interrupt) (Serializable0 := Interrupt_Serializable)
             (Bincode0 := _ : Bincode RawMessage) (Replyable0 := Interrupt_Replyable)
             (Bincode1 := _ : Bincode (result Z unit))).
  - apply (mask_send_request (R := RemoveInterrupt) (Serializable0 := RemoveInterrupt_Serializable)
             (Bincode0 := _ : Bincode RawMessage) (Replyable0 := RemoveInterrupt_Replyable)
             (Bincode1 := _ : Bincode (result Z unit))).
  - apply (mask_next_data (T := ReplyLockCommandData)).
  - apply mask_drop_fd.
  - by apply (next_data_blocked (T := ReplyLockCommandData) it w e w').
Qed.

(** ** The requests a run makes *)

(** A world that records each request at the call that makes it, and does
    then what the world it is made of does. *)
Record traced (W : Type) : Type := Traced { tr_log : list (Fd * RawMessage); tr_world : W }.
Arguments Traced {W} _ _.
Arguments tr_log {W} _.
Arguments tr_world {W} _.

Section Tracing.
Context {W : Type}.

Definition untouched {A} (f : W -> A * W) (s : traced W) : A * traced W :=
  ((f (tr_world s)).1, Traced (tr_log s) (f (tr_world s)).2).

Definition logged {A} (m : Fd * RawMessage) (f : W -> A * W) (s : traced W) : A * traced W :=
  ((f (tr_world s)).1, Traced (tr_log s ++ [m]) (f (tr_world s)).2).

#[export] Instance traced_Rpc `{!Rpc W} : Rpc (traced W) := {|
  rpc_ping fd m := logged (fd, (Ping.serialize m).1) (rpc_ping fd m);
  rpc_register fd m := logged (fd, (Register.serialize m).1) (rpc_register fd m);
  rpc_unregister fd m := logged (fd, (Unregister.serialize m).1) (rpc_unregister fd m);
  rpc_interrupt fd m := logged (fd, (Interrupt.serialize m).1) (rpc_interrupt fd m);
  rpc_remove_interrupt fd m := logged (fd, (RemoveInterrupt.serialize m).1) (rpc_remove_interrupt fd m);
  rpc_lock fd m := logged (fd, (LockCommand.serialize m).1) (rpc_lock fd m);
  rpc_lock_iter fd m := logged (fd, (LockCommand.serialize m).1) (rpc_lock_iter fd m);
  rpc_next it := untouched (rpc_next it);
  rpc_end it := untouched (rpc_end it);
  rpc_spawn fd m := untouched (rpc_spawn fd m);
  rpc_drop_fds fds := untouched (rpc_drop_fds fds) |}.

Context `{!SigSys W}.

#[export] Instance traced_SigSys : SigSys (traced W) := {
  sys_sigmask how set := untouched (sys_sigmask how set);
  sys_sigaction := untouched sys_sigaction }.

#[export] Instance traced_SigLaws `{!SigLaws W} : SigLaws (traced W).
Proof.
  refine {| mask := fun s => mask (tr_world s); maskable := maskable |}.
  - intros how set s o s'. simpl. unfold untouched.
    destruct (sys_sigmask how set (tr_world s)) as [r w'] eqn:E. intros [= -> <-]. by eapply sigmask_law.
  - intros how set s e s'. simpl. unfold untouched.
    destruct (sys_sigmask how set (tr_world s)) as [r w'] eqn:E. intros [= -> <-]. by eapply sigmask_err_law.
  - intros set s. destruct (setmask_law set (tr_world s)) as [w' E]. simpl. unfold untouched. rewrite E. eauto.
  - intros s. apply mask_maskable.
  - apply maskable_all.
  - apply usr1_maskable.
Defined.
End Tracing.

(** The same program in the two worlds. *)
Definition untraces {W A} (p' : prog (traced W) A) (p : prog W A) : Prop :=
  forall s, (p' s).1 = (p (tr_world s)).1 /\ tr_world (p' s).2 = (p (tr_world s)).2.

Section Untraces.
Context {W : Type} `{!Rpc W} `{!SigSys W}.

Lemma untraces_ret {A} (a : A) : untraces (W := W) (ret a) (ret a).
Proof. done. Qed.

Lemma untraces_bind {A B} (m' : prog (traced W) A) (m : prog W A) k' (k : A -> prog W B) :
  untraces m' m -> (forall a, untraces (k' a) (k a)) -> untraces (bind m' k') (bind m k).
Proof.
  intros Hm Hk s. unfold bind. destruct (Hm s) as [H1 H2].
  destruct (m' s) as [r' s1], (m (tr_world s)) as [r w1]; simpl in *. subst.
  destruct r as [a|]; [apply Hk | done].
Qed.

Lemma untraces_try_bind {E A B} (m' : prog (traced W) (result E A)) (m : prog W (result E A)) k'
    (k : A -> prog W (result E B)) :
  untraces m' m -> (forall a, untraces (k' a) (k a)) -> untraces (try_bind m' k') (try_bind m k).
Proof. intros Hm Hk. apply untraces_bind; [done |]. intros [a|e]; [apply Hk | done]. Qed.

Lemma untraces_finally {A} (b' : prog (traced W) A) (b : prog W A) f' (f : prog W unit) :
  untraces b' b -> untraces f' f -> untraces (finally b' f') (finally b f).
Proof.
  intros Hb Hf s. unfold finally. destruct (Hb s) as [H1 H2].
  destruct (b' s) as [r' s1], (b (tr_world s)) as [r w1]; simpl in *. subst.
  destruct (Hf s1) as [H1 H2]. destruct (f' s1) as [q' s2], (f (tr_world s1)) as [q w2]; simpl in *.
  subst. by destruct q.
Qed.

Lemma untraces_sigmask how set : untraces (sigmask (W := traced W) how set) (sigmask how set).
Proof. apply untraces_bind; done. Qed.

Lemma untraces_with_guard {A} g (b' : prog (traced W) A) (b : prog W A) :
  untraces b' b -> untraces (with_guard g b') (with_guard g b).
Proof.
  intros Hb s. unfold with_guard. destruct (Hb s) as [H1 H2].
  destruct (b' s) as [r' s1], (b (tr_world s)) as [r w1]; simpl in *. subst. split; [done |].
  apply (untraces_bind _ _ _ _ (untraces_sigmask SIG_SETMASK (old g)) (fun _ => untraces_ret tt)).
Qed.

Lemma untraces_next_interruptible b it :
  untraces (next_interruptible (W := traced W) b it) (next_interruptible b it).
Proof.
  assert (untraces (bind (rpc_next (W := traced W) it) (fun item => ret (Ok (E := io_error) item)))
            (bind (rpc_next it) (fun item => ret (Ok item)))) as H by by apply untraces_bind.
  unfold next_interruptible. destruct b; [done |].
  apply untraces_try_bind; [| by intros; apply untraces_with_guard].
  apply untraces_try_bind; [apply untraces_sigmask | by intros].
Qed.

Lemma untraces_wait_reply fuel self id it b :
  untraces (wait_reply (W := traced W) fuel self id it b) (wait_reply fuel self id it b).
Proof.
  revert b; induction fuel as [|fuel IH]; intros b; [apply untraces_ret |]. cbn [wait_reply].
  apply untraces_try_bind; [apply untraces_next_interruptible |]. intros item.
  repeat case_match; try apply untraces_ret.
  apply untraces_bind; [done |]. intros ?. case_match; [apply IH | apply untraces_ret].
Qed.

Lemma untraces_set_lock_blocking fuel self params :
  untraces (set_lock_blocking (W := traced W) fuel self params) (set_lock_blocking fuel self params).
Proof.
  apply untraces_try_bind; [by apply untraces_try_bind; [apply untraces_sigmask |] |].
  intros g. apply untraces_with_guard, untraces_try_bind; [done |]. intros it.
  apply untraces_finally; [| done]. apply untraces_bind; [done |]. intros first.
  repeat case_match; try apply untraces_ret.
  apply untraces_finally; [apply untraces_wait_reply | by apply untraces_bind].
Qed.
End Untraces.

(** ** The protocol *)

(** The identifier of the first reply, when that reply is [Pending]. *)
Definition pending_of (r : exec (option (FetchedReplyResult ReplyLockCommandData))) : option Z :=
  match r with
  | Done (Some (Ok (Ok (ReplyLockCommandData.Pending id)))) => Some id
  | _ => None
  end.

(** The first reply that a call of [set_lock_blocking] from [w] gets. *)
Definition first_pending {W} `{!Rpc W} `{!SigSys W} (self : RawLockable) (params : LockParams) (w : W) : option Z :=
  match block_all_signals w with
  | (Done (Ok _), w1) =>
      match rpc_lock_iter (rl_comm self) (LockCommand.mk (rl_id self) LockAction.SetLockBlocking params) w1 with
      | (Done (Ok it), w2) => pending_of (rpc_next it w2).1
      | _ => None
      end
  | _ => None
  end.

Section Protocol.
Context {W : Type} `{!Rpc W} `{!SigSys W} `{!SigLaws W} `{!RpcLaws W}.
Implicit Types (w : traced W).
Abbreviation calls := (tr_log (W := W)).
#[local] Arguments mask {W _ _} _ : simpl never.
#[local] Arguments rpc_next {W _} _ _ : simpl never.
#[local] Arguments rpc_end {W _} _ _ : simpl never.
#[local] Arguments rpc_lock_iter {W _} _ _ _ : simpl never.
#[local] Arguments rpc_interrupt {W _} _ _ _ : simpl never.
#[local] Arguments rpc_remove_interrupt {W _} _ _ _ : simpl never.

(** What a run adds to the log, with the mask before and after. *)
Definition adds {A} (p : prog (traced W) A) w (t : list (Fd * RawMessage)) : Prop :=
  mask (p w).2 = mask w /\ calls (p w).2 = calls w ++ t.

Lemma sigmask_calls how set w : calls (sigmask how set w).2 = calls w.
Proof. done. Qed.

Lemma guard_drop_calls g w : calls (SigSetGuard_drop g w).2 = calls w.
Proof.
  unfold SigSetGuard_drop, bind. pose proof (sigmask_calls SIG_SETMASK (old g) w) as H.
  by destruct (sigmask SIG_SETMASK (old g) w) as [[?|] ?].
Qed.

(** A body under a guard of the mask of [w0]. *)
Lemma with_guard_adds {A} w0 (body : prog (traced W) A) w t :
  adds body w t ->
  mask (with_guard (SigSetGuard_new (mask w0)) body w).2 = mask w0 /\
  calls (with_guard (SigSetGuard_new (mask w0)) body w).2 = calls w ++ t /\
  (with_guard (SigSetGuard_new (mask w0)) body w).1 = (body w).1.
Proof.
  intros [_ Hc]. destruct (with_guard_mask w0 body w) as (w' & E & Hm). rewrite E. simpl.
  split; [done |]. split; [| done]. unfold with_guard in E.
  destruct (body w) as [r w1]. simpl in Hc. rewrite <- Hc, <- (guard_drop_calls (SigSetGuard_new (mask w0)) w1).
  by injection E as <-.
Qed.

Lemma finally_adds {A} (body : prog (traced W) A) (fin : prog (traced W) unit) w t1 t2 :
  adds body w t1 -> adds fin (body w).2 t2 ->
  adds (finally body fin) w (t1 ++ t2).
Proof.
  unfold adds, finally. destruct (body w) as [r w1]; simpl. intros [H1 H2] [H3 H4].
  destruct (fin w1) as [[?|] w2]; simpl in *; rewrite H3, H4, H2, app_assoc; done.
Qed.

Lemma adds_ret {A} (a : A) w : adds (ret a) w [].
Proof. split; [done |]. by rewrite app_nil_r. Qed.

Lemma untouched_adds {A} (p : prog W A) w : keeps_mask p -> adds (untouched p) w [].
Proof. intros H. split; [apply (H (tr_world w)) |]. simpl. by rewrite app_nil_r. Qed.

Lemma logged_adds {A} m (p : prog W A) w : keeps_mask p -> adds (logged m p) w [m].
Proof. intros H. split; [apply (H (tr_world w)) | done]. Qed.

Lemma next_adds it w : adds (rpc_next it) w [].
Proof. exact (untouched_adds _ w (law_next it)). Qed.

Lemma end_adds it w : adds (rpc_end it) w [].
Proof. exact (untouched_adds _ w (law_end it)). Qed.

Lemma lock_iter_adds fd c w : adds (rpc_lock_iter fd c) w [(fd, (LockCommand.serialize c).1)].
Proof. exact (logged_adds _ _ w (law_lock_iter fd c)). Qed.

Lemma interrupt_adds fd c w : adds (rpc_interrupt fd c) w [(fd, (Interrupt.serialize c).1)].
Proof. exact (logged_adds _ _ w (law_interrupt fd c)). Qed.

Lemma remove_adds fd c w : adds (rpc_remove_interrupt fd c) w [(fd, (RemoveInterrupt.serialize c).1)].
Proof. exact (logged_adds _ _ w (law_remove fd c)). Qed.

(** [p] returns, from [w], after the requests of some list in [P]. *)
Definition returns {A} (p : prog (traced W) (io_result (option A))) w
    (P : list (Fd * RawMessage) -> Prop) : Prop :=
  (exists t, adds p w t /\ P t) /\ (p w).1 <> Done (Ok None).

Lemma returns_bind {A B} (m : prog (traced W) A) (k : A -> prog (traced W) (io_result (option B))) w t1 P :
  adds m w t1 -> P t1 ->
  (forall a w1, m w = (Done a, w1) -> mask w1 = mask w -> returns (k a) w1 (fun t => P (t1 ++ t))) ->
  returns (bind m k) w P.
Proof.
  unfold returns, adds, bind. intros [H1 H2] HP Hk.
  destruct (m w) as [[a|] w1]; simpl in *; [| by eauto].
  destruct (Hk a w1 eq_refl H1) as [(t2 & [H3 H4] & HP2) Hn]. split; [| done].
  exists (t1 ++ t2). by rewrite H3, H4, H2, app_assoc.
Qed.

Lemma returns_ret {A} (a : io_result (option A)) w (P : list (Fd * RawMessage) -> Prop) :
  P [] -> a <> Ok None -> returns (ret a) w P.
Proof. intros HP Ha. split; [exists []; auto using adds_ret |]. simpl. congruence. Qed.

Lemma next_blocked it w e w' :
  mask w = maskable -> rpc_next it w = (Done (Some (Err e)), w') -> kind_is ErrorKind.Interrupted e = false.
Proof.
  intros Hm E. apply (law_blocked it (tr_world w) e (tr_world w') Hm).
  simpl in E. unfold untouched in E. by injection E as <- <-; destruct (rpc_next it (tr_world w)).
Qed.

(** The request of the wait, with every signal blocked around it. *)
Lemma next_interruptible_adds b it w :
  mask w = maskable ->
  adds (next_interruptible b it) w [] /\
  (b = true -> forall e w', next_interruptible b it w = (Done (Ok (Some (Err e))), w') ->
     kind_is ErrorKind.Interrupted e = false).
Proof.
  intros Hm. unfold next_interruptible.
  assert (forall w, adds (bind (rpc_next it) (fun item => ret (Ok (E := io_error) item))) w []) as Hrecv.
  { intros w0. pose proof (next_adds it w0) as [H1 H2]. unfold adds, bind.
    by destruct (rpc_next it w0) as [[?|] ?]. }
  destruct b.
  - split; [apply Hrecv |]. intros _ e w'. unfold bind. destruct (rpc_next it w) as [[item|] w1] eqn:E; [| done].
    unfold ret. intros [= -> _]. by apply (next_blocked it w e w1).
  - split; [| done].
    assert (calls (unblock_signal libc.SIGUSR1 w).2 = calls w) as Hc.
    { unfold unblock_signal, try_bind, bind.
      pose proof (sigmask_calls SIG_UNBLOCK ({[libc.SIGUSR1]} ∪ SigSet_empty) w) as H.
      by destruct (sigmask SIG_UNBLOCK _ w) as [[[?|?]|] ?]. }
    destruct (unblock_cases libc.SIGUSR1 w) as [(w1 & E & H1)|(e & w1 & E & H1)]; rewrite E in Hc; simpl in Hc.
    + unfold adds. rewrite (try_bind_ok _ _ _ _ _ E).
      destruct (with_guard_adds w _ w1 [] (Hrecv w1)) as (G1 & G2 & _). by rewrite G1, G2, Hc.
    + unfold adds. rewrite (try_bind_err _ _ _ _ _ E). simpl. by rewrite app_nil_r.
Qed.

(** Once interrupted, the wait ends with the next item. *)
Lemma wait_reply_blocked fuel self id it w :
  (1 <= fuel)%nat -> mask w = maskable ->
  returns (wait_reply fuel self id it true) w (fun t => t = []).
Proof.
  intros Hf Hm. destruct fuel as [|fuel]; [lia |]. cbn [wait_reply]. unfold try_bind.
  destruct (next_interruptible_adds true it w Hm) as [Ha Hb].
  eapply returns_bind; [exact Ha | done |]. intros [item|e] w1 E Hm1; [| by apply returns_ret].
  repeat case_match; try (by apply returns_ret).
  match goal with H : kind_is _ ?e = true |- _ => rewrite (Hb eq_refl e w1 E) in H end. done.
Qed.

Lemma wait_reply_returns fuel self id it w :
  (2 <= fuel)%nat -> mask w = maskable ->
  returns (wait_reply fuel self id it false) w
    (fun t => t = [] \/ t = [(rl_comm self, RawMessage.Interrupt id)]).
Proof.
  intros Hf Hm. destruct fuel as [|fuel]; [lia |]. cbn [wait_reply]. unfold try_bind.
  destruct (next_interruptible_adds false it w Hm) as [Ha _].
  eapply returns_bind; [exact Ha | by left |]. intros [item|e] w1 _ Hm1; [| by apply returns_ret; [left |]].
  repeat case_match; try (by apply returns_ret; [left |]).
  eapply returns_bind; [apply interrupt_adds | by right |]. intros reply w2 _ Hm2.
  case_match; [| by apply returns_ret; [right |]].
  destruct (wait_reply_blocked fuel self id it w2) as [(t & Ht & ->) Hn]; [lia | congruence |].
  split; [| done]. exists []. split; [done |]. by right.
Qed.

(** The requests that may follow the lock request. *)
Definition followed_by (comm : Fd) (pending : option Z) (t : list (Fd * RawMessage)) : Prop :=
  match pending with
  | None => t = []
  | Some id =>
      t = [(comm, RawMessage.RemoveInterrupt id)] \/
      t = [(comm, RawMessage.Interrupt id); (comm, RawMessage.RemoveInterrupt id)]
  end.

Lemma blocking_replies_returns fuel self it w :
  (2 <= fuel)%nat -> mask w = maskable ->
  returns (blocking_replies fuel self it) w
    (followed_by (rl_comm self) (pending_of (rpc_next it w).1)).
Proof.
  intros Hf Hm. unfold blocking_replies.
  pose proof (next_adds it w) as Hn.
  unfold returns, adds, bind in *. destruct (rpc_next it w) as [[first|] w1] eqn:E; simpl in *; [| by eauto].
  destruct Hn as [Hm1 Hc1]. rewrite app_nil_r in Hc1.
  assert (forall r : io_result (option LockParams), r <> Ok None ->
    (exists t, (mask (ret r w1).2 = mask w /\ calls (ret r w1).2 = calls w ++ t) /\ t = []) /\
    (ret r w1).1 <> Done (Ok None)) as Hret.
  { intros r Hr. simpl. rewrite Hm1, Hc1. split; [| congruence]. exists []. by rewrite app_nil_r. }
  destruct first as [[[[id|p]|e]|e]|]; simpl; try (by apply Hret).
  destruct (wait_reply_returns fuel self id it w1 Hf) as [(t & Ht & Hcase) Hnn]; [congruence |].
  pose proof (remove_adds (rl_comm self) (RemoveInterrupt.mk id)
    (wait_reply fuel self id it false w1).2) as Hrem.
  assert (adds (Interruptable_drop self id) (wait_reply fuel self id it false w1).2
            [(rl_comm self, RawMessage.RemoveInterrupt id)]) as Hdrop.
  { unfold adds, Interruptable_drop, bind in *.
    by destruct (rpc_remove_interrupt _ _ _) as [[?|] ?]. }
  destruct (finally_adds _ _ _ _ _ Ht Hdrop) as [F1 F2]. split.
  - exists (t ++ [(rl_comm self, RawMessage.RemoveInterrupt id)]).
    rewrite F1, F2, Hm1, Hc1. split; [done |]. destruct Hcase as [-> | ->]; auto.
  - unfold finally. destruct (wait_reply fuel self id it false w1) as [r w2]. simpl in Hnn.
    by destruct (Interruptable_drop self id w2) as [[?|] ?].
Qed.

Lemma block_all_calls w : calls (block_all_signals w).2 = calls w.
Proof.
  unfold block_all_signals, try_bind, bind.
  pose proof (sigmask_calls SIG_BLOCK SigSet_all w) as H.
  by destruct (sigmask SIG_BLOCK _ w) as [[[?|?]|] ?].
Qed.
Lemma set_lock_blocking_traced fuel self params w :
  (2 <= fuel)%nat ->
  let '(r, w') := set_lock_blocking fuel self params w in
  r <> Done (Ok None) /\ mask w' = mask w /\
  ((exists e, r = Done (Err (Os e))) /\ calls w' = calls w \/
   exists t, followed_by (rl_comm self) (first_pending self params w) t /\
     calls w' = calls w ++
       (rl_comm self, RawMessage.LockCommand (rl_id self) LockAction.SetLockBlocking params) :: t).
Proof.
  intros Hf. unfold set_lock_blocking, with_signals_blocked, first_pending.
  pose proof (block_all_calls w) as Hc0.
  destruct (block_all_cases w) as [(w1 & E & Hm)|(e & w1 & E & Hm)]; rewrite E in *; simpl in Hc0; cycle 1.
  { rewrite (try_bind_err _ _ _ _ _ E). eauto 8. }
  rewrite (try_bind_ok _ _ _ _ _ E).
  set (c := LockCommand.mk (rl_id self) LockAction.SetLockBlocking params).
  destruct (lock_iter_adds (rl_comm self) c w1) as [Hm1 Hc1].
  set (body := try_bind (rpc_lock_iter (rl_comm self) c) _).
  assert (returns body w1 (fun t => exists t', t = (rl_comm self, (LockCommand.serialize c).1) :: t' /\
    followed_by (rl_comm self)
      match rpc_lock_iter (rl_comm self) c w1 with
      | (Done (Ok it), w2) => pending_of (rpc_next it w2).1
      | _ => None
      end t')) as [(t & Ht & t' & -> & Hfol) Hn].
  { unfold body, returns, adds, try_bind, bind. destruct (rpc_lock_iter (rl_comm self) c w1) as [[[it|e]|] w2];
      simpl in *; rewrite ?Hm1, ?Hc1; eauto 10.
    destruct (blocking_replies_returns fuel self it w2 Hf) as [(t & Ht & Hfol) Hn]; [congruence |].
    destruct (finally_adds _ (rpc_end it) _ _ [] Ht (end_adds it _)) as [F1 F2].
    rewrite app_nil_r in F2. split.
    - exists ((rl_comm self, (LockCommand.serialize c).1) :: t). rewrite F1, F2, Hm1, Hc1.
      rewrite <- app_assoc. eauto.
    - unfold finally. destruct (blocking_replies fuel self it w2) as [r w3]. simpl in Hn.
      by destruct (rpc_end it w3) as [[?|] ?]. }
  destruct (with_guard_adds w body w1 _ Ht) as (G1 & G2 & G3).
  destruct (with_guard (SigSetGuard_new (mask w)) body w1) as [r w'] eqn:Eg. simpl in *. subst r.
  split; [done |]. split; [done |]. right. exists t'. split; [done |]. by rewrite G2, Hc0.
Qed.

Lemma first_pending_traced self params w :
  first_pending self params w = first_pending self params (tr_world w).
Proof.
  unfold first_pending.
  assert (untraces (block_all_signals (W := traced W)) block_all_signals) as H.
  { apply untraces_try_bind; [apply untraces_sigmask | done]. }
  destruct (H w) as [H1 H2].
  destruct (block_all_signals w) as [r' s1], (block_all_signals (tr_world w)) as [r w1].
  simpl in H1, H2. subst. destruct r as [[g|]|]; [| done..].
  unfold rpc_lock_iter at 1. simpl. unfold logged.
  destruct (rpc_lock_iter (rl_comm self) _ (tr_world s1)) as [[[it|]|] w2]; done.
Qed.
End Protocol.

(** C8. [Lockable::set_lock_blocking] returns after at most two waits
    (the second only after an interrupt), with the signal mask it was called
    with. It asks messages.rs to send the lock request, and if the first reply
    is [Pending(id)] it asks to remove the interrupt [id] exactly once and
    last, on every path, after at most one request to interrupt [id]; if it is
    not, it asks for nothing more. Nothing is asked for when the mask cannot
    be changed. *)
Theorem set_lock_blocking_protocol {W} `{!Rpc W} `{!SigSys W} `{!SigLaws W} `{!RpcLaws W}
    (fuel : nat) (self : RawLockable) (params : LockParams) (w : W) :
  (2 <= fuel)%nat ->
  let '(r, w') := set_lock_blocking fuel self params w in
  let '(r', s') := set_lock_blocking fuel self params (Traced [] w) in
  r' = r /\ tr_world s' = w' /\ r <> Done (Ok None) /\ mask w' = mask w /\
  ((exists e, r = Done (Err (Os e))) /\ tr_log s' = [] \/
   exists t, followed_by (rl_comm self) (first_pending self params w) t /\
     tr_log s' =
       (rl_comm self, RawMessage.LockCommand (rl_id self) LockAction.SetLockBlocking params) :: t).
Proof.
  intros Hf. pose proof (set_lock_blocking_traced fuel self params (Traced [] w) Hf) as H.
  destruct (untraces_set_lock_blocking fuel self params (Traced [] w)) as [E1 E2].
  destruct (set_lock_blocking (W := traced W) fuel self params (Traced [] w)) as [r' s'].
  simpl in E1, E2. destruct (set_lock_blocking fuel self params w) as [r w'].
  rewrite first_pending_traced in H. simpl in E1, E2, H. subst. tauto.
Qed.

(** ** A client and its owner process

    The concrete sockets of [Net], the signal mask of the client's thread, a
    SIGUSR1 that may be pending, and an owner process at the other end of the
    client's socket: it answers each request when it is written, with
    [receive_request] and [reply]. A lock operation is always pending; when it
    is interrupted it ends with EINTR. *)

Record office : Type := mkOffice {
  of_net : net;
  of_mask : SigSet;
  of_usr1 : bool;
  (** the reply descriptor of the lock operation that is pending *)
  of_lock : option Fd }.

Definition client_end : Fd := 1.
Definition owner_end : Fd := 2.

(** A reply, and the drop of its descriptor. *)
Definition answer_last {P} `{!Reply P} `{!Bincode (result Z (Reply_Type P))} (r : P)
    (v : result Z (Reply_Type P)) (n : net) : net :=
  sys_close (channel (raw_reply r)) (reply r v n).2.

Definition owner_serve (lock : option Fd) (n : net) : net * option Fd :=
  match receive_request (R := Message) owner_end n with
  | (Done (Ok (Message.LockCommand _, fd)), n) =>
      ((reply (LockCommand.create_reply fd) (Ok (ReplyLockCommandData.Pending 3)) n).2, Some fd)
  | (Done (Ok (Message.Interrupt _, fd)), n) =>
      let n := match lock with
               | Some lock => answer_last (LockCommand.create_reply lock) (Err Errno.EINTR) n
               | None => n
               end in
      (answer_last (Interrupt.create_reply fd) (Ok tt) n, None)
  | (Done (Ok (Message.RemoveInterrupt _, fd)), n) =>
      (answer_last (RemoveInterrupt.create_reply fd) (Ok tt) n, lock)
  | (_, n) => (n, lock)
  end.

Definition with_net (w : office) (n : net) : office := mkOffice n (of_mask w) (of_usr1 w) (of_lock w).

#[export] Instance office_Sys : Sys office := {
  sys_socketpair w := let '(r, n) := net_socketpair (of_net w) in (r, with_net w n);
  sys_sendmsg s iov fds w :=
    let '(r, n) := net_sendmsg s iov fds (of_net w) in
    if s =? client_end then
      let '(n, lock) := owner_serve (of_lock w) n in (r, mkOffice n (of_mask w) (of_usr1 w) lock)
    else (r, with_net w n);
  sys_recvmsg s lens cap peek w :=
    if bool_decide (net_rx (of_net w) s = []) && of_usr1 w && negb (bool_decide (libc.SIGUSR1 ∈ of_mask w))
    then (Err Errno.EINTR, mkOffice (of_net w) (of_mask w) false (of_lock w))
    else let '(r, n) := net_recvmsg s lens cap peek (of_net w) in (r, with_net w n);
  sys_close fd w := with_net w (net_close fd (of_net w));
  cmsg_space n := 8 * n }.

#[export] Instance office_SigSys : SigSys office := {
  sys_sigmask how set w :=
    (Ok (of_mask w ∩ demo_maskable),
     mkOffice (of_net w) (apply_how how set (of_mask w ∩ demo_maskable)) (of_usr1 w) (of_lock w));
  sys_sigaction w := ((0, 0, 4096), w) }.

#[export] Instance office_SigLaws : SigLaws office.
Proof.
  refine {| mask := fun w => of_mask w ∩ demo_maskable; maskable := demo_maskable |}.
  - intros how set w o w' [= <- <-]. done.
  - done.
  - intros set w. by eexists.
  - intros w. apply intersection_subseteq_r.
  - apply demo_maskable_all.
  - apply demo_maskable_usr1.
Defined.

Lemma net_recvmsg_err s lens cap peek n : (net_recvmsg s lens cap peek n).1 <> Err Errno.EINTR.
Proof. unfold net_recvmsg. repeat case_match; by intros [=]. Qed.

#[export] Instance office_SysSigLaws : SysSigLaws office.
Proof.
  constructor.
  - intros w. simpl. by destruct (net_socketpair (of_net w)) as [? ?].
  - intros s iov fds w. simpl. destruct (net_sendmsg s iov fds (of_net w)) as [r n].
    case_match; [| done]. by destruct (owner_serve (of_lock w) n) as [? ?].
  - intros s lens cap peek w. simpl. case_match; [done |].
    by destruct (net_recvmsg s lens cap peek (of_net w)) as [? ?].
  - done.
  - intros s lens cap peek w Hm. simpl. rewrite (bool_decide_true (libc.SIGUSR1 ∈ of_mask w)).
    + rewrite andb_false_r. pose proof (net_recvmsg_err s lens cap peek (of_net w)) as Hne.
      by destruct (net_recvmsg s lens cap peek (of_net w)) as [? ?].
    + pose proof (usr1_maskable (W := office)) as Hu. rewrite <- Hm in Hu.
      exact (proj1 (proj1 (elem_of_intersection _ _ _) Hu)).
Qed.

(** The requests are those of messages.rs. *)
#[export] Instance office_Rpc : Rpc office := sys_Rpc.
#[export] Instance office_RpcLaws : RpcLaws office := sys_RpcLaws.

(** SIGUSR1 arrives while the client waits for the pending lock. *)
Definition demo_office : office := mkOffice (mkNet {[1 := (0, true); 2 := (0, false)]} ∅) ∅ true None.
Definition demo_lockable : RawLockable := mkRawLockable (Owner_new client_end) 0.
Definition demo_lock_params : LockParams := mkLockParams LockType.Write LockWhence.Start 0 0 0.

Lemma set_lock_blocking_protocol_witness :
  (set_lock_blocking 2 demo_lockable demo_lock_params demo_office).1 = Done (Err (Os Errno.EINTR)) /\
  first_pending demo_lockable demo_lock_params demo_office = Some 3 /\
  tr_log (set_lock_blocking 2 demo_lockable demo_lock_params (Traced [] demo_office)).2 =
    [(1, RawMessage.LockCommand 0 LockAction.SetLockBlocking demo_lock_params);
     (1, RawMessage.Interrupt 3); (1, RawMessage.RemoveInterrupt 3)] /\
  let '(r, w') := set_lock_blocking 2 demo_lockable demo_lock_params demo_office in
  let '(r', s') := set_lock_blocking 2 demo_lockable demo_lock_params (Traced [] demo_office) in
  r' = r /\ tr_world s' = w' /\ r <> Done (Ok None) /\ mask w' = mask demo_office /\
  ((exists e, r = Done (Err (Os e))) /\ tr_log s' = [] \/
   exists t, followed_by (rl_comm demo_lockable) (first_pending demo_lockable demo_lock_params demo_office) t /\
     tr_log s' =
       (rl_comm demo_lockable,
        RawMessage.LockCommand (rl_id demo_lockable) LockAction.SetLockBlocking demo_lock_params) :: t).
Proof.
  split; [vm_compute; reflexivity |]. split; [vm_compute; reflexivity |].
  split; [vm_compute; reflexivity |].
  pose proof (set_lock_blocking_protocol 2 demo_lockable demo_lock_params demo_office (le_n 2)) as H.
  exact H.
Defined.

(** ** Detached locks *)

(** C23. The callback [done] of [set_lock_blocking_detached] is called
    exactly once whatever happens: the thread is refused, [pre] fails or
    panics, the lock operation returns or panics. The result it gets is that
    of [pre] or of the lock operation if there is one. *)
Theorem done_called_once {W H} (results : W -> list (io_result LockParams))
    (pre : H -> prog W (io_result unit)) (lock : prog W (io_result LockParams))
    (done : io_result LockParams -> prog W unit) (handle : option H) (w : W) :
  (forall h w, results (pre h w).2 = results w) -> (forall w, results (lock w).2 = results w) ->
  (forall r w, results (done r w).2 = results w ++ [r]) ->
  exists r, results (detached_closure pre lock done handle w).2 = results w ++ [r] /\
    match handle with
    | None => r = Err io_other
    | Some h =>
        match pre h w with
        | (Panicked, _) => r = Err io_other
        | (Done (Err e), _) => r = Err e
        | (Done (Ok _), w1) => match (lock w1).1 with Done res => r = res | Panicked => r = Err io_other end
        end
    end.
Proof.
  intros Hpre Hlock Hdone. unfold detached_closure, Invoker_drop, Invoker_invoke, finally. simpl.
  assert (forall r w, results (match done r w with (r1, w1) => (r1, w1) end).2 = results w ++ [r]) as Hdone'.
  { intros r w0. rewrite <- Hdone. by destruct (done r w0). }
  destruct handle as [h|]; [| eauto].
  specialize (Hpre h w). destruct (pre h w) as [[[?|e]|] w1]; simpl in *.
  - specialize (Hlock w1). destruct (lock w1) as [[res|] w2]; simpl in *; rewrite <- Hpre, <- Hlock;
      eexists; (split; [by rewrite ?Hdone, ?Hdone' | done]).
  - rewrite <- Hpre. eexists; (split; [by rewrite ?Hdone, ?Hdone' | done]).
  - rewrite <- Hpre. eexists; (split; [by rewrite ?Hdone, ?Hdone' | done]).
Qed.

(** The callback of a lock operation that panics. *)
Lemma done_called_once_witness :
  exists r : io_result LockParams,
    (detached_closure (fun _ : unit => ret (Ok tt)) panic
       (fun r => modify (fun l => l ++ [r])) (Some tt) []).2 = [] ++ [r] /\ r = Err io_other.
Proof.
  apply (done_called_once id (fun _ : unit => ret (Ok tt)) panic (fun r => modify (fun l => l ++ [r]))
           (Some tt) []); done.
Defined.
