(* ===== verification/Spawner.v ===== *)
(** * src/src/processes.rs, owner_spawner.rs and communication.rs

    The coordinator process and the start of processes: command lines, the
    close-on-exec flag of the inherited socket, the pipes of a [Child] and
    the loop of [OwnerSpawner].
    Creating a process, [waitpid] and [fcntl] on descriptor flags are the class
    [Proc]. *)

From Stdlib Require Import ZArith Lia.
From Stdlib Require Import Strings.String Numbers.DecimalString Numbers.DecimalZ.
From stdpp Require Import base tactics numbers list gmap strings.
From S2P Require Import Prelude.
From S2P Require Import Std.
From S2P Require Import Types.
From S2P Require Import Wire.
From S2P Require Import Messages.
From S2P Require Import Helpers.
Local Open Scope Z_scope.
Local Open Scope ulock_scope.

(** ** Processes *)

(** [to_string] of an integer. *)
Definition to_string (z : Z) : string := NilZero.string_of_int (Z.to_int z).

Inductive Stdio : Type := Stdio_inherit | Stdio_piped.

(** [Command] as the code fills it in; [c_inherit] is the descriptor that the
    child makes inheritable before it executes the program. *)
Record Command : Type := mkCommand {
  c_program : string;
  c_args : list string;
  c_stdout : Stdio;
  c_stderr : Stdio;
  c_inherit : Fd }.

(** [Child]: the process identifier, and the reading ends of the pipes that
    [Stdio::piped] makes for the outputs of the process. *)
Record Child : Type := mkChild { ch_id : Z; ch_stdout : option Fd; ch_stderr : option Fd }.

(** The descriptors that a [Child] owns. *)
Definition Child_fds (c : Child) : list Fd := option_list (ch_stdout c) ++ option_list (ch_stderr c).

Class Proc (W : Type) : Type := {
  (** [Command::spawn] *)
  sys_spawn : Command -> W -> io_result Child * W;
  (** [waitpid(pid, WNOHANG)] *)
  sys_waitpid : Z -> W -> result Z (option Z) * W;
  sys_getfd : Fd -> W -> result Z Z * W;
  sys_setfd : Fd -> Z -> W -> result Z unit * W }.

Definition FD_CLOEXEC : Z := 1.

Section Processes.
Context {W : Type} `{!Sys W} `{!Proc W}.
(** [cfg(debug_assertions)]. *)
Context (debug_assertions : bool).

(** The closure of [clear_cloexec_in_pre_exec], which the child runs. *)
Definition clear_cloexec_in_pre_exec (fd : Fd) : prog W (io_result unit) :=
  let? flags := os (sys_getfd fd) in
  let flags := Z.land flags (Z.lnot FD_CLOEXEC) in
  os (sys_setfd fd flags).

Definition default_stdio_type : Stdio := if debug_assertions then Stdio_inherit else Stdio_piped.

Definition owner_command (child_fd : Fd) (ttl : Duration) : Command :=
  mkCommand "/proc/self/exe"
    (["owner"%string; to_string child_fd] ++ ["--ttl-secs"%string; to_string (as_secs ttl)]
       ++ ["--ttl-nsecs"%string; to_string (subsec_nanos ttl)])
    default_stdio_type default_stdio_type child_fd.

Definition coordinator_command (path : string) (child_fd : Fd) : Command :=
  mkCommand path ["coordinator"%string; to_string child_fd]
    default_stdio_type default_stdio_type child_fd.

(** Dropping a [Child] closes the pipes; the process goes on. *)
Definition Child_drop (c : Child) : prog W unit := drop_fds (Child_fds c).

(** The part that [spawn_owner_process] and [spawn_coordinator_process] have
    in common: the socket pair, the child with its end, the parent's end.
    [process] is dropped when the function returns. *)
Definition spawn_with_socket (command : Fd -> Command) : prog W (io_result Fd) :=
  let? (parent_fd, child_fd) := os sys_socketpair in
  let! process := lift (sys_spawn (command child_fd)) in
  match process with
  | Err e => do! drop_fds [child_fd; parent_fd] in ret (Err e)
  | Ok process =>
      let! waited := os (sys_waitpid (ch_id process)) in
      match waited with
      | Err e =>
          do! Child_drop process in
          do! drop_fds [child_fd; parent_fd] in
          ret (Err e)
      | Ok _ =>
          do! drop_fd child_fd in
          do! Child_drop process in
          ret (Ok parent_fd)
      end
  end.

Definition spawn_owner_process (ttl : Duration) : prog W (io_result Fd) :=
  spawn_with_socket (fun child_fd => owner_command child_fd ttl).

Definition spawn_coordinator_process (path : string) : prog W (io_result Fd) :=
  spawn_with_socket (coordinator_command path).

(** [hydrate_forked_fd]. *)
Definition hydrate_forked_fd (fd : Fd) : prog W (io_result Fd) :=
  let? _ := os (sys_setfd fd FD_CLOEXEC) in ret (Ok fd).

(** ** The coordinator *)

Section Coordinator.
Context `{!SigSys W} `{!Bincode (Payload RequestSpawnOwner)}
  `{!Bincode (result Z (reply_type RequestSpawnOwner))}.

(** [OwnerSpawner] and [OwnerSpawner::new]. *)
Record OwnerSpawner : Type := OwnerSpawner_new { os_communication : Fd }.

(** [reply.reply_with_fds(Ok(()), vec![parent_fd])]. *)
Definition reply_spawned (reply_oneshot parent_fd : Fd) : prog W unit :=
  let reply := create_reply RequestSpawnOwner reply_oneshot in
  reply_with_fds reply (Ok tt) [parent_fd].

(** One iteration of [OwnerSpawner::run]: [Some] when it returns. *)
Definition spawner_iter (communication : Fd) : prog W (option (io_result unit)) :=
  let! r := receive_request (R := RequestSpawnOwner) communication in
  match r with
  | Err e => if kind_is ErrorKind.BrokenPipe e then ret (Some (Ok tt)) else ret (Some (Err e))
  | Ok (request, reply_oneshot) =>
      let! p := spawn_owner_process (RequestSpawnOwner.ttl request) in
      match p with
      | Err e => do! drop_fd reply_oneshot in ret (Some (Err e))
      | Ok parent_fd =>
          do! reply_spawned reply_oneshot parent_fd in
          do! drop_fd reply_oneshot in
          ret None
      end
  end.

Fixpoint spawner_loop (fuel : nat) (communication : Fd) : prog W (io_result bool) :=
  match fuel with
  | O => ret (Ok false)
  | S fuel =>
      let! r := spawner_iter communication in
      match r with
      | Some r => ret (map_ok (fun _ => true) r)
      | None => spawner_loop fuel communication
      end
  end.

(** [OwnerSpawner::run]; [Ok false] when it still runs after [fuel] requests. *)
Definition OwnerSpawner_run (fuel : nat) (self : OwnerSpawner) : prog W (io_result bool) :=
  with_signals_blocked (spawner_loop fuel (os_communication self)).

End Coordinator.
End Processes.
Global Arguments default_stdio_type : simpl never.
