(* ===== verification/SpawnerSpec.v ===== *)
(** * Properties of the start of processes

    No descriptor leaks, a client's request for an owner process is served end
    to end, and the inherited socket survives exactly one [exec]; evaluated on
    the concrete sockets of [Net], with processes that end at once. *)

From Stdlib Require Import ZArith Lia.
From Stdlib Require Import Strings.String Numbers.DecimalString Numbers.DecimalZ.
From stdpp Require Import base tactics numbers list gmap strings.
From S2P Require Import Prelude.
From S2P Require Import Std.
From S2P Require Import Types.
From S2P Require Import Wire.
From S2P Require Import Messages.
From S2P Require Import Transport.
From S2P Require Import Net.
From S2P Require Import Helpers.
From S2P Require Import Spawner.
Local Open Scope Z_scope.
Local Open Scope ulock_scope.

(** ** Descriptors of a new process *)

(** Documented: a process that cannot be started leaves the descriptors as
    they were. One that is started leaves its parent's as they were but for the
    new reading ends of the pipes that were asked for; the copies of descriptors
    that the process itself gets have other names, which are not [mine]. *)
Class ProcLaws (W : Type) `{!Sys W} `{!StreamLaws W} `{!Proc W} : Type := {
  (** the names of the descriptors of the calling process *)
  mine : Fd -> Prop;
  pair_mine : forall w a b w', sys_socketpair w = (Ok (a, b), w') -> mine a /\ mine b;
  spawn_err_law : forall c w e w',
    sys_spawn c w = (Err e, w') -> forall t, ofd w' t = ofd w t;
  spawn_law : forall c w p w',
    sys_spawn c w = (Ok p, w') ->
    (is_Some (ch_stdout p) <-> c_stdout c = Stdio_piped) /\
    (is_Some (ch_stderr p) <-> c_stderr c = Stdio_piped) /\
    NoDup (Child_fds p) /\
    Forall (fun f => mine f /\ ofd w f = None /\ is_Some (ofd w' f)) (Child_fds p) /\
    (forall t, mine t -> t ∉ Child_fds p -> ofd w' t = ofd w t) /\
    (forall t, is_Some (ofd w t) -> ofd w' t = ofd w t /\ rx w' t = rx w t) /\
    (forall x y, connected w x y -> connected w' x y);
  waitpid_law : forall p w,
    (forall t, ofd (sys_waitpid p w).2 t = ofd w t) /\
    (forall t, rx (sys_waitpid p w).2 t = rx w t) /\
    (forall x y, connected w x y -> connected (sys_waitpid p w).2 x y) }.

Section Spawn.
Context {W : Type} `{!Sys W} `{!StreamLaws W} `{!Proc W} `{!ProcLaws W}.

(** Closing descriptors that were not open gives back the old ones. *)
Lemma close_all_restores (w w' : W) fds t :
  Forall (fun f => ofd w f = None) fds -> (t ∉ fds -> ofd w' t = ofd w t) ->
  ofd (close_all fds w') t = ofd w t.
Proof.
  intros Hn Ho. destruct (decide (t ∈ fds)) as [Hin|Hnot].
  - rewrite close_all_closed by done. symmetry. by apply (proj1 (Forall_forall _ _) Hn).
  - rewrite (proj2 (close_all_other fds w' t Hnot)). auto.
Qed.

(** How a start of a process ends: the socket pair [a], [b], the child [p],
    and the descriptors that are closed on the way, the pipes among them. *)
Lemma spawn_with_socket_run (command : Fd -> Command) (w w' : W) r :
  spawn_with_socket command w = (Done r, w') ->
  match r with
  | Err _ =>
      (exists e, sys_socketpair w = (Err e, w')) \/
      exists a b w1 w2 pipes,
        sys_socketpair w = (Ok (a, b), w1) /\ w' = close_all (pipes ++ [b; a]) w2 /\
        Forall (fun f => ofd w1 f = None) pipes /\
        forall t, mine t -> t ∉ pipes -> ofd w2 t = ofd w1 t
  | Ok a =>
      exists b w1 w2 w3 p,
        sys_socketpair w = (Ok (a, b), w1) /\ sys_spawn (command b) w1 = (Ok p, w2) /\
        w3 = (sys_waitpid (ch_id p) w2).2 /\ w' = close_all (b :: Child_fds p) w3
  end.
Proof.
  unfold spawn_with_socket, try_bind, os, bind, lift, ret. intros Hs.
  destruct (sys_socketpair w) as [[[a b]|e] w1] eqn:Ep; cbn [fst snd map_err] in Hs; cycle 1.
  { simplify_eq/=. by left; eexists. }
  destruct (sys_spawn (command b) w1) as [[p|e] w2] eqn:Es; cbn [fst snd map_err] in *; cycle 1.
  { rewrite (drop_fds_run [b; a] w2) in Hs. simplify_eq. right. exists a, b, w1, w2, [].
    split_and!; [done.. | constructor |]. intros t _ _. by eapply spawn_err_law. }
  pose proof (waitpid_law (ch_id p) w2) as (Hw & _).
  destruct (sys_waitpid (ch_id p) w2) as [[st|e] w3] eqn:Ew; cbn [fst snd map_err] in *;
    unfold Child_drop, drop_fd, modify in Hs; rewrite !drop_fds_run in Hs; simplify_eq.
  - exists b, w1, w2, w3, p. split_and!; [done | done | by rewrite Ew | done].
  - destruct (spawn_law _ _ _ _ Es) as (_ & _ & _ & Hp & Ho & _). right.
    exists a, b, w1, w3, (Child_fds p). split_and!; [done | by unfold close_all; rewrite foldl_app | |].
    + eapply Forall_impl; [exact Hp | naive_solver].
    + intros t Hm Ht. rewrite Hw. by apply Ho.
Qed.

(** What starting a process with a socket leaves of the descriptors. *)
Lemma spawn_with_socket_leaks (command : Fd -> Command) (w w' : W) r :
  spawn_with_socket command w = (Done r, w') ->
  (forall e w1, sys_socketpair w = (Err e, w1) -> forall t, ofd w1 t = ofd w t) ->
  match r with
  | Ok parent => mine parent /\ ofd w parent = None /\ is_Some (ofd w' parent) /\
                 forall t, mine t -> t <> parent -> ofd w' t = ofd w t
  | Err _ => forall t, mine t -> ofd w' t = ofd w t
  end.
Proof.
  intros Hs Herr. apply spawn_with_socket_run in Hs. destruct r as [a|e].
  - destruct Hs as (b & w1 & w2 & w3 & p & Ep & Es & -> & ->).
    destruct (pair_law _ _ _ _ Ep) as (Hab & Ha & Hb & Ha' & _ & _ & _ & _ & _ & _ & Hother & _).
    destruct (spawn_law _ _ _ _ Es) as (_ & _ & _ & Hp & Ho & Hopen & _).
    destruct (waitpid_law (ch_id p) w2) as (Hw & _). rewrite Forall_forall in Hp.
    assert (a ∉ b :: Child_fds p) as Hnot.
    { intros [->|Hin]%elem_of_cons; [done |]. destruct (Hp a Hin) as (_ & Hn & _).
      rewrite Hn in Ha'. by destruct Ha'. }
    split; [by apply (pair_mine _ _ _ _ Ep) |]. split; [done |]. split.
    + rewrite (proj2 (close_all_other _ _ _ Hnot)), Hw. by rewrite (proj1 (Hopen a Ha')).
    + intros t Hm Hne. apply close_all_restores.
      * constructor; [done |]. apply Forall_forall. intros f Hf. destruct (Hp f Hf) as (_ & Hn & _).
        destruct (decide (f = a)) as [->|]; [done |]. destruct (decide (f = b)) as [->|]; [done |].
        by rewrite <- (proj2 (Hother f ltac:(done) ltac:(done))).
      * intros [Htb Htp]%not_elem_of_cons. rewrite Hw, Ho by done. by apply Hother.
  - destruct Hs as [(e' & Ee)|(a & b & w1 & w2 & pipes & Ep & -> & Hp & Ho)]; [by intros; eapply Herr |].
    destruct (pair_law _ _ _ _ Ep) as (Hab & Ha & Hb & _ & _ & _ & _ & _ & _ & _ & Hother & _).
    intros t Hm. apply close_all_restores.
    + apply Forall_app. split; [| by repeat constructor].
      eapply Forall_impl; [exact Hp |]. simpl. intros f Hf.
      destruct (decide (f = a)) as [->|]; [done |]. destruct (decide (f = b)) as [->|]; [done |].
      by rewrite <- (proj2 (Hother f ltac:(done) ltac:(done))).
    + rewrite not_elem_of_app, !not_elem_of_cons. intros (Htp & Htb & Hta & _).
      rewrite Ho by done. by apply Hother.
Qed.

(** A successful start leaves what was open alone. *)
Lemma spawn_with_socket_frame (command : Fd -> Command) (w w' : W) a :
  spawn_with_socket command w = (Done (Ok a), w') ->
  ofd w a = None /\ is_Some (ofd w' a) /\
  (forall t, is_Some (ofd w t) -> ofd w' t = ofd w t /\ rx w' t = rx w t) /\
  (forall x y, connected w x y -> connected w' x y).
Proof.
  intros Hs. apply spawn_with_socket_run in Hs as (b & w1 & w2 & w3 & p & Ep & Es & -> & ->).
  destruct (pair_law _ _ _ _ Ep) as (Hab & Ha & Hb & Ha' & _ & _ & _ & _ & _ & _ & Hother & Hcon).
  destruct (spawn_law _ _ _ _ Es) as (_ & _ & _ & Hp & _ & Hopen & Hcon').
  destruct (waitpid_law (ch_id p) w2) as (Hw & Hwr & Hwc). rewrite Forall_forall in Hp.
  assert (forall t, t <> b -> is_Some (ofd w1 t) -> t ∉ b :: Child_fds p) as Hnot.
  { intros t Hne Ht [->|Hin]%elem_of_cons; [done |]. destruct (Hp t Hin) as (_ & Hn & _).
    rewrite Hn in Ht. by destruct Ht. }
  assert (forall t, is_Some (ofd w t) -> t <> b /\ ofd w1 t = ofd w t /\ rx w1 t = rx w t) as H1.
  { intros t Ht. assert (t <> a) by (intros ->; rewrite Ha in Ht; by destruct Ht).
    assert (t <> b) by (intros ->; rewrite Hb in Ht; by destruct Ht).
    by destruct (Hother t) as [-> ->]. }
  assert (forall t, t <> b -> is_Some (ofd w1 t) ->
    ofd (close_all (b :: Child_fds p) (sys_waitpid (ch_id p) w2).2) t = ofd w1 t /\
    rx (close_all (b :: Child_fds p) (sys_waitpid (ch_id p) w2).2) t = rx w1 t) as H2.
  { intros t Hne Ht. destruct (close_all_other (b :: Child_fds p) (sys_waitpid (ch_id p) w2).2 t) as [-> ->].
    - by apply Hnot.
    - rewrite Hw, Hwr. by apply Hopen. }
  split; [done |]. split; [by rewrite (proj1 (H2 a Hab Ha')) |]. split.
  - intros t Ht. destruct (H1 t Ht) as (Hne & Eo & Er). destruct (H2 t Hne) as [-> ->]; [by rewrite Eo | done].
  - intros x y Hxy. destruct (connected_open _ _ _ Hxy) as [Hx Hy].
    destruct (H1 x Hx) as (Hxb & Ex & _), (H1 y Hy) as (Hyb & Ey & _).
    apply close_all_connected; [by apply Hnot; rewrite ?Ex | by apply Hnot; rewrite ?Ey |]. auto.
Qed.
End Spawn.

(** C37. [spawn_owner_process] leaks no descriptor, in debug and in
    release builds: when it succeeds the calling process has one more open
    descriptor, the socket it returns; when it fails, because no socket pair or
    no process could be created or the child could not be waited for, its
    descriptors are what they were. The pipes that a release build makes for
    the outputs of the process are closed again in each case. *)
Theorem spawn_leaks_nothing {W} `{!Sys W} `{!StreamLaws W} `{!Proc W} `{!ProcLaws W} (debug : bool)
    (ttl : Duration) (w w' : W) r :
  spawn_owner_process debug ttl w = (Done r, w') ->
  (forall e w1, sys_socketpair w = (Err e, w1) -> forall t, ofd w1 t = ofd w t) ->
  match r with
  | Ok parent => mine parent /\ ofd w parent = None /\ is_Some (ofd w' parent) /\
                 forall t, mine t -> t <> parent -> ofd w' t = ofd w t
  | Err _ => forall t, mine t -> ofd w' t = ofd w t
  end.
Proof.
  apply spawn_with_socket_leaks.
Qed.

(** *** Processes in the concrete sockets *)

(** The sockets of [net], where a process that is started ends at once: of
    what it had, the pipes it was given remain in its parent. *)
Definition net_pipe (stdio : Stdio) (f k : Z) (m : gmap Z sock_end) : option Fd * gmap Z sock_end :=
  match stdio with
  | Stdio_piped => (Some f, <[f := (k, true)]> m)
  | Stdio_inherit => (None, m)
  end.

Definition net_spawn (c : Command) (w : net) : io_result Child * net :=
  match fresh_list 2 (dom (n_end w)), fresh_list 2 (used_pairs w) with
  | [o; e], [ko; ke] =>
      let '(out, m) := net_pipe (c_stdout c) o ko (n_end w) in
      let '(err, m) := net_pipe (c_stderr c) e ke m in
      (Ok (mkChild 77 out err), mkNet m (n_queue w))
  | _, _ => (Err (Os Errno.EAGAIN), w)
  end.

#[export] Instance net_Proc : Proc net := {
  sys_spawn := net_spawn;
  sys_waitpid _ w := (Ok None, w);
  sys_getfd _ w := (Ok FD_CLOEXEC, w);
  sys_setfd _ _ w := (Ok tt, w) }.
#[export] Instance net_SigSys : SigSys net := {
  sys_sigmask how set w := (Ok ∅, w);
  sys_sigaction w := ((0, 0, 4096), w) }.
#[export] Instance RequestSpawnOwner_Bincode : Bincode (Payload RequestSpawnOwner) :=
  word_Bincode Duration.
#[export] Instance RequestSpawnOwner_reply_Bincode :
  Bincode (result Z (reply_type RequestSpawnOwner)) := word_Bincode (result Z unit).

Lemma net_spawn_ok c w p w' :
  net_spawn c w = (Ok p, w') ->
  n_queue w' = n_queue w /\
  (is_Some (ch_stdout p) <-> c_stdout c = Stdio_piped) /\
  (is_Some (ch_stderr p) <-> c_stderr c = Stdio_piped) /\
  NoDup (Child_fds p) /\
  Forall (fun f => n_end w !! f = None /\ is_Some (n_end w' !! f)) (Child_fds p) /\
  (forall t, t ∉ Child_fds p -> n_end w' !! t = n_end w !! t).
Proof.
  unfold net_spawn. destruct (fresh_names 2 (dom (n_end w))) as (_ & Hnd & Hnew).
  destruct (fresh_list 2 (dom (n_end w))) as [|o [|e [|]]]; try done.
  destruct (fresh_list 2 (used_pairs w)) as [|ko [|ke [|]]]; try done.
  apply NoDup_cons in Hnd as [Hoe _]. rewrite list_elem_of_singleton in Hoe.
  assert (n_end w !! o = None /\ n_end w !! e = None) as [Ho He].
  { split; apply not_elem_of_dom, Hnew; set_solver. }
  assert (forall f (m : gmap Z sock_end) x, is_Some (<[f := x]> m !! f)) as Hins.
  { intros. rewrite lookup_insert_eq. eauto. }
  destruct c as [prog args [] [] fd]; simpl; intros [= <- <-]; unfold Child_fds; simpl; split_and!; try done;
    try (split; [by intros [] | done]); try (split; [done | by eauto]); try (repeat constructor; set_solver);
    try (by intros t Ht; rewrite !lookup_insert_ne by set_solver);
    repeat (apply Forall_cons_2 || apply Forall_nil_2); split; try done; try apply Hins.
  rewrite lookup_insert_ne by done. apply Hins.
Qed.

#[export] Instance net_ProcLaws : ProcLaws net.
Proof.
  refine {| mine := fun _ => True |}.
  - done.
  - intros c w e w' Hs t. simpl in Hs. unfold net_spawn in Hs. repeat case_match; by simplify_eq.
  - intros c w p w' Hs. destruct (net_spawn_ok c w p w' Hs) as (Eq & H1 & H2 & H3 & H4 & H5).
    assert (forall t, is_Some (n_end w !! t) -> n_end w' !! t = n_end w !! t) as Hopen.
    { intros t [x Ht]. apply H5. intros Hin. rewrite Forall_forall in H4.
      destruct (H4 t Hin) as [Hn _]. congruence. }
    simpl. split_and!; try done.
    + eapply Forall_impl; [exact H4 | naive_solver].
    + intros t _. apply H5.
    + intros t Ht. split; [by apply Hopen |]. unfold net_rx, end_queue. by rewrite Hopen, Eq.
    + intros x y (e & Hx & Hy). exists e. rewrite !Hopen by eauto. done.
  - done.
Defined.

Definition demo_ttl : Duration := mkDuration 5 250.

(** In a release build: the pipes are open while the process is started, and
    closed at the end. *)
Lemma spawn_leaks_nothing_witness :
  (exists p w', sys_spawn (owner_command false 1 demo_ttl) (mkNet ∅ ∅) = (Ok p, w') /\
     length (Child_fds p) = 2%nat /\ size (n_end w') = 2%nat) /\
  mine (W := net) 0 /\ ofd (mkNet ∅ ∅) 0 = None /\
  is_Some (ofd (spawn_owner_process false demo_ttl (mkNet ∅ ∅)).2 0) /\
  forall t, mine (W := net) t -> t <> 0 ->
    ofd (spawn_owner_process false demo_ttl (mkNet ∅ ∅)).2 t = ofd (mkNet ∅ ∅) t.
Proof.
  split; [by do 2 eexists; split_and!; vm_compute |].
  apply (spawn_leaks_nothing false demo_ttl (mkNet ∅ ∅)
           (spawn_owner_process false demo_ttl (mkNet ∅ ∅)).2 (Ok 0)).
  - vm_compute. reflexivity.
  - vm_compute. discriminate.
Defined.

(** ** The coordinator *)

(** A process that cannot be started ends the coordinator: the error
    is returned from [OwnerSpawner::run] before anything is sent, and the reply
    descriptor is closed, so the client sees the end of the reply stream. *)
Lemma failed_spawn_ends_coordinator {W} `{!Sys W} `{!Proc W} `{!Bincode (Payload RequestSpawnOwner)}
    `{!Bincode (result Z (reply_type RequestSpawnOwner))}
    (debug : bool) (n : nat) (comm reply_fd : Fd) (req : RequestSpawnOwner) (e : io_error) (w w1 w2 : W) :
  receive_request (R := RequestSpawnOwner) comm w = (Done (Ok (req, reply_fd)), w1) ->
  spawn_owner_process debug (RequestSpawnOwner.ttl req) w1 = (Done (Err e), w2) ->
  spawner_loop debug (S n) comm w = (Done (Err e), sys_close reply_fd w2).
Proof.
  intros Hr Hs. cbn [spawner_loop]. unfold spawner_iter.
  rewrite bind_assoc. rewrite (bind_done _ _ _ _ _ Hr).
  rewrite bind_assoc. by rewrite (bind_done _ _ _ _ _ Hs).
Qed.

(** Socket 2 holds a request to spawn an owner process; its peer is closed. *)
Definition demo_spawn_net : net :=
  net_close 1 (send_request_iter (R := RequestSpawnOwner) 1 (RequestSpawnOwner.new demo_ttl)
                 (mkNet {[1 := (0, true); 2 := (0, false)]} ∅)).2.
Definition demo_received : net := (receive_request (R := RequestSpawnOwner) 2 demo_spawn_net).2.
(** The name of the reply descriptor in the coordinator. *)
Definition demo_reply_fd : Fd :=
  match (receive_request (R := RequestSpawnOwner) 2 demo_spawn_net).1 with
  | Done (Ok (_, fd)) => fd | _ => 0 end.

(** A system on which no process can be created. *)
Definition failing_Proc : Proc net := {|
  sys_spawn _ w := (Err (Os Errno.EAGAIN), w);
  sys_waitpid _ w := (Ok None, w);
  sys_getfd _ w := (Ok FD_CLOEXEC, w);
  sys_setfd _ _ w := (Ok tt, w) |}.

Lemma failed_spawn_ends_coordinator_witness :
  spawner_loop (Proc0 := failing_Proc) true 3 2 demo_spawn_net =
    (Done (Err (Os Errno.EAGAIN)),
     sys_close demo_reply_fd (spawn_owner_process (Proc0 := failing_Proc) true demo_ttl demo_received).2).
Proof.
  apply (failed_spawn_ends_coordinator (Proc0 := failing_Proc) true 2 2 demo_reply_fd
           (RequestSpawnOwner.new demo_ttl) (Os Errno.EAGAIN) demo_spawn_net demo_received);
    vm_compute; reflexivity.
Defined.

(** *** A client and the coordinator *)

(** A message without descriptors is what it serializes to. *)
Lemma RequestSpawnOwner_eq (m : RequestSpawnOwner) (ttl : Duration) :
  (serialize m).1 = (serialize (RequestSpawnOwner.new ttl)).1 -> m = RequestSpawnOwner.new ttl.
Proof. destruct m as [t]. simpl. by intros ->. Qed.

Section Serve.
Context {W : Type} `{!Sys W} `{!StreamLaws W} `{!Proc W} `{!ProcLaws W}.
Context `{!Bincode (Payload RequestSpawnOwner)} (pwf : Duration -> Prop)
  `{!BincodeLaws (Payload RequestSpawnOwner) pwf}.
Context `{!Bincode (result Z (reply_type RequestSpawnOwner))}
  (rwf : result Z (reply_type RequestSpawnOwner) -> Prop)
  `{!BincodeLaws (result Z (reply_type RequestSpawnOwner)) rwf}.

(** What the reply with the new socket puts on the reply stream. *)
Lemma reply_spawned_sends w reply_fd parent it :
  connected w reply_fd (oneshot it) -> rx w (oneshot it) = [] -> accepts w reply_fd -> rwf (Ok tt) ->
  is_Some (ofd w parent) -> parent <> reply_fd -> parent <> oneshot it ->
  exists w1 bs got,
    reply_spawned reply_fd parent w = (Done tt, w1) /\
    bincode_deserialize (A := result Z (reply_type RequestSpawnOwner)) bs = Some (Ok tt) /\
    zlen bs <= isize_max /\
    rx w1 (oneshot it) = [mkFrame (frame_bytes bs 1) [got]] /\
    ofd w1 got = ofd w parent /\ ofd w1 parent = None /\ ofd w got = None /\
    forall t, ofd w t <> ofd w (oneshot it) -> t <> parent -> is_Some (ofd w t) -> rx w1 t = rx w t.
Proof.
  intros Hcon Hrx Hacc Hwf Hp Hpr Hpo.
  destruct (bincode_law (Ok tt) Hwf) as (bs & Hser & Hlen & Hdes).
  unfold reply_spawned, reply_with_fds. simpl in Hser |- *. rewrite Hser. unfold RawReply_reply. simpl.
  destruct (Hacc [to_ne_bytes (zlen bs); to_ne_bytes (zlen [parent]); bs] [parent]) as [w0 Esend].
  assert (send_raw_message reply_fd bs [parent] w = (Done (Ok tt), sys_close parent w0)) as Hsend.
  { unfold send_raw_message, os, bind, lift, ret. rewrite Esend. cbn [fst snd map_err].
    rewrite drop_fds_run, Z.eqb_refl. done. }
  destruct (send_frame w reply_fd (oneshot it) bs [parent] (sys_close parent w0))
    as (fds' & Hal & Hnew & Hrx1 & Hoth & _); [done | | | by repeat constructor | done |];
    [by rewrite list_elem_of_singleton.. |].
  apply Forall2_cons_inv_l in Hal as (got & rest & Hgot & Hal & ->). apply Forall2_nil_inv_l in Hal as ->.
  apply Forall_inv in Hnew. rewrite Hrx in Hrx1.
  exists (sys_close parent w0), bs, got. rewrite (bind_done _ _ _ _ _ Hsend). split_and!; try done.
  - apply close_law.
  - intros t Ht Hne Hopen. apply Hoth; rewrite ?list_elem_of_singleton; [done.. |].
    intros ->. rewrite Hnew in Hopen. by destruct Hopen.
Qed.

(** The client's side: the reply is the next item of the stream. *)
Lemma next_spawned w it bs got :
  rx w (oneshot it) = [mkFrame (frame_bytes bs 1) [got]] -> zlen bs <= isize_max -> fds_fit (W := W) 1 ->
  bincode_deserialize (A := result Z (reply_type RequestSpawnOwner)) bs = Some (Ok tt) ->
  exists w1, next (T := reply_type RequestSpawnOwner) it w = (Done (Some (Ok (Ok (tt, [got])))), w1) /\
    forall t, ofd w1 t = ofd w t.
Proof.
  intros Hrx Hlen Hfit Hdes.
  destruct (receive_frame w (oneshot it) bs 1 [got] []) as (w1 & Hrecv & _ & _ & _ & Hofd); [done.. |].
  exists w1. unfold next. rewrite (bind_done _ _ _ _ _ Hrecv), Hdes. done.
Qed.
End Serve.

(** C39. A request that a client sends is served: the coordinator
    receives it, starts an owner process with the TTL of the request, and the
    next item of the client's reply stream is [Ok] with exactly one descriptor,
    which names the parent's end of the new process's socket; the coordinator
    keeps neither that end nor the reply descriptor and reads the next request.
    When nobody can send to it any more its loop ends without an error. (That
    the process can be started and the reply descriptor takes the reply is
    assumed.) *)
Theorem coordinator_serves {W} `{!Sys W} `{!StreamLaws W} `{!Proc W} `{!ProcLaws W}
    `{!Bincode (Payload RequestSpawnOwner)} (pwf : Duration -> Prop)
    `{!BincodeLaws (Payload RequestSpawnOwner) pwf}
    `{!Bincode (result Z (reply_type RequestSpawnOwner))}
    (rwf : result Z (reply_type RequestSpawnOwner) -> Prop)
    `{!BincodeLaws (result Z (reply_type RequestSpawnOwner)) rwf}
    (debug : bool) (s r : Fd) (ttl : Duration) (w : W) (it : ReplyIterator) (w1 : W) :
  may_send w s r [] -> rx w r = [] -> pwf ttl -> rwf (Ok tt) -> fds_fit (W := W) 1 ->
  send_request_iter_with_fds s (RequestSpawnOwner.new ttl) w = (Done (Ok it), w1) ->
  (forall req reply_fd w2, receive_request (R := RequestSpawnOwner) r w1 = (Done (Ok (req, reply_fd)), w2) ->
     exists parent w3, spawn_owner_process debug ttl w2 = (Done (Ok parent), w3) /\ accepts w3 reply_fd) ->
  exists reply_fd w2 parent w3 w4 got w5,
    receive_request r w1 = (Done (Ok (RequestSpawnOwner.new ttl, reply_fd)), w2) /\
    spawn_owner_process debug ttl w2 = (Done (Ok parent), w3) /\
    (forall n, spawner_loop debug (S n) r w1 = spawner_loop debug n r w4) /\
    ofd w4 parent = None /\ ofd w4 reply_fd = None /\ rx w4 r = [] /\
    next it w4 = (Done (Some (Ok (Ok (tt, [got])))), w5) /\
    is_Some (ofd w3 parent) /\ ofd w5 got = ofd w3 parent /\
    (forall n w', rx w' r = [] -> hung_up w' r -> spawner_loop debug (S n) r w' = (Done (Ok true), w')).
Proof.
  intros Hmay Hrx Hp Hwf Hfit Hsend Hspawn.
  destruct (request_roundtrip (R := RequestSpawnOwner) (Serializable0 := RequestSpawnOwner_Serializable)
              pwf s r (RequestSpawnOwner.new ttl) w it w1)
    as (m & reply_fd & w2 & (Hrecv & Hm & _ & Hcon & Hit & Hr2) & Hne & Hor & Hro & Hrr); [done.. |].
  apply RequestSpawnOwner_eq in Hm as ->.
  destruct (Hspawn _ _ _ Hrecv) as (parent & w3 & Hsp & Hacc).
  destruct (spawn_with_socket_frame _ _ _ _ Hsp) as (Hpn & Hpo & Hkeep & Hconn).
  destruct (connected_open _ _ _ Hcon) as [Hofr Hofo].
  destruct (Hkeep _ Hofo) as [Eo Er], (Hkeep _ Hor) as [Eor Err].
  assert (parent <> reply_fd) by (intros ->; rewrite Hpn in Hofr; by destruct Hofr).
  assert (parent <> oneshot it) by (intros ->; rewrite Hpn in Hofo; by destruct Hofo).
  assert (parent <> r) by (intros ->; rewrite Hpn in Hor; by destruct Hor).
  destruct (reply_spawned_sends rwf w3 reply_fd parent it)
    as (w4' & bs & got & Hrep & Hdes & Hlen & Hrx4 & Hgot & Hclosed & Hgn & Hoth); try done;
    [by apply Hconn | by rewrite Er |].
  destruct (close_law w4' reply_fd) as (Hcr & Hco & _).
  destruct (next_spawned (sys_close reply_fd w4') it bs got) as (w5 & Hnext & Hofd5); try done.
  { by rewrite (proj1 (Hco _ (not_eq_sym Hro))). }
  assert (got <> reply_fd) as Hgr.
  { intros ->. rewrite (proj1 (Hkeep _ Hofr)) in Hgn. rewrite Hgn in Hofr. by destruct Hofr. }
  exists reply_fd, w2, parent, w3, (sys_close reply_fd w4'), got, w5. split_and!; try done.
  - intros n. cbn [spawner_loop]. unfold spawner_iter.
    rewrite bind_assoc, (bind_done _ _ _ _ _ Hrecv). rewrite bind_assoc, (bind_done _ _ _ _ _ Hsp).
    rewrite bind_assoc, (bind_done _ _ _ _ _ Hrep). done.
  - by rewrite (proj2 (Hco parent ltac:(done))).
  - rewrite (proj1 (Hco _ (not_eq_sym Hrr))), Hoth; [by rewrite Err | | done | by rewrite Eor].
    rewrite Eo, Eor. auto.
  - by rewrite Hofd5, (proj2 (Hco _ Hgr)).
  - intros n w' Hr' Hup. cbn [spawner_loop]. unfold spawner_iter, receive_request.
    rewrite bind_assoc. erewrite bind_done; [| apply try_bind_err, receive_hung_up; done]. done.
Qed.

(** The client's socket is 1, the coordinator's 2; the process is started by a
    release build. *)
Definition demo_pair : net := mkNet {[1 := (0, true); 2 := (0, false)]} ∅.
Definition demo_asked : net := (send_request_iter (R := RequestSpawnOwner) 1 (RequestSpawnOwner.new demo_ttl) demo_pair).2.
Definition demo_it : ReplyIterator :=
  match (send_request_iter (R := RequestSpawnOwner) 1 (RequestSpawnOwner.new demo_ttl) demo_pair).1 with
  | Done (Ok it) => it | _ => ReplyIterator_new 0 end.
(** The coordinator has served one request, and then its client is gone. *)
Definition demo_served : net := (spawner_loop false 1 2 demo_asked).2.

#[export] Instance RequestSpawnOwner_BincodeLaws : BincodeLaws (Payload RequestSpawnOwner) Duration_wf.
Proof. exact (word_BincodeLaws Duration Duration_wf). Qed.
#[export] Instance RequestSpawnOwner_reply_BincodeLaws :
  BincodeLaws (result Z (reply_type RequestSpawnOwner)) (result_wf (fun _ => True)).
Proof.
  refine (@word_BincodeLaws (result Z unit) _ (result_wf (fun _ => True)) _).
  apply result_codec_laws; [apply _ | simpl; lia].
Qed.

Lemma coordinator_serves_witness :
  (spawner_loop false 2 2 (net_close 1 demo_served)).1 = Done (Ok true) /\
  exists parent w3 w4 got w5,
    spawn_owner_process false demo_ttl (receive_request (R := RequestSpawnOwner) 2 demo_asked).2 =
      (Done (Ok parent), w3) /\
    spawner_loop false 1 2 demo_asked = spawner_loop false 0 2 w4 /\
    next (T := reply_type RequestSpawnOwner) demo_it w4 = (Done (Some (Ok (Ok (tt, [got])))), w5) /\
    is_Some (n_end w3 !! parent) /\ n_end w5 !! got = n_end w3 !! parent.
Proof.
  split; [vm_compute; reflexivity |].
  destruct (coordinator_serves Duration_wf (result_wf (fun _ => True)) false 1 2 demo_ttl demo_pair demo_it demo_asked)
    as (reply_fd & w2 & parent & w3 & w4 & got & w5 & Hr & Hs & Hl & _ & _ & _ & Hn & Ho & Hg & _).
  - split; [by exists (0, true) |]. split_and!; [apply not_elem_of_nil.. | constructor | constructor].
  - reflexivity.
  - split; vm_compute; split; congruence.
  - exact I.
  - split; vm_compute; congruence.
  - vm_compute. reflexivity.
  - intros req reply_fd w2 Hr. vm_compute in Hr. injection Hr as <- <- <-.
    do 2 eexists. split; [vm_compute; reflexivity |]. intros iov fds. by eexists.
  - exists parent, w3, w4, got, w5. rewrite Hr. split; [exact Hs |]. split; [exact (Hl 0%nat) |].
    split; [exact Hn |]. split; [exact Ho | exact Hg].
Defined.

(** ** The inherited socket *)

(** The flags of the descriptors of a process. *)
Class FlagLaws (W : Type) `{!Proc W} : Type := {
  fd_flags : W -> Fd -> option Z;
  getfd_law : forall w fd f, fd_flags w fd = Some f -> sys_getfd fd w = (Ok f, w);
  setfd_law : forall w fd f f', fd_flags w fd = Some f ->
    exists w', sys_setfd fd f' w = (Ok tt, w') /\ fd_flags w' fd = Some f' /\
      forall t, t <> fd -> fd_flags w' t = fd_flags w t }.

(** C38. The socket of a child survives exactly one [exec]: before it the
    child clears the close-on-exec flag of this descriptor, and of no other, and
    keeps its other flags; after it [hydrate_forked_fd] overwrites the flags of
    this descriptor, and of no other, with [FD_CLOEXEC]. *)
Theorem socket_survives_one_exec {W} `{!Proc W} `{!FlagLaws W} (w : W) (fd : Fd) (f : Z) :
  fd_flags w fd = Some f ->
  exists w1 w2 f1,
    clear_cloexec_in_pre_exec fd w = (Done (Ok tt), w1) /\ fd_flags w1 fd = Some f1 /\
    Z.testbit f1 0 = false /\ (forall i, 0 < i -> Z.testbit f1 i = Z.testbit f i) /\
    hydrate_forked_fd fd w1 = (Done (Ok fd), w2) /\ fd_flags w2 fd = Some FD_CLOEXEC /\
    forall t, t <> fd -> fd_flags w1 t = fd_flags w t /\ fd_flags w2 t = fd_flags w t.
Proof.
  intros Hf. destruct (setfd_law w fd f (Z.land f (Z.lnot FD_CLOEXEC)) Hf) as (w1 & E1 & F1 & O1).
  destruct (setfd_law w1 fd _ FD_CLOEXEC F1) as (w2 & E2 & F2 & O2).
  exists w1, w2, (Z.land f (Z.lnot FD_CLOEXEC)). split_and!.
  - unfold clear_cloexec_in_pre_exec, try_bind, os, bind, lift, ret.
    rewrite (getfd_law _ _ _ Hf). simpl. by rewrite E1.
  - done.
  - rewrite Z.land_spec. simpl. apply andb_false_r.
  - intros i Hi. rewrite Z.land_spec, Z.lnot_spec by lia. unfold FD_CLOEXEC.
    rewrite (Z.bits_above_log2 1 i) by (simpl; lia). apply andb_true_r.
  - unfold hydrate_forked_fd, try_bind, os, bind, lift, ret. by rewrite E2.
  - done.
  - intros t Ht. rewrite O2, O1 by done. done.
Qed.

(** A table of flags. *)
#[export] Instance flags_Proc : Proc (gmap Z Z) := {
  sys_spawn _ w := (Ok (mkChild 77 None None), w);
  sys_waitpid _ w := (Ok None, w);
  sys_getfd fd w := (match w !! fd with Some f => Ok f | None => Err Errno.EBADF end, w);
  sys_setfd fd f w := match w !! fd with Some _ => (Ok tt, <[fd := f]> w) | None => (Err Errno.EBADF, w) end }.
#[export] Instance flags_FlagLaws : FlagLaws (gmap Z Z).
Proof.
  refine {| fd_flags := fun w fd => w !! fd |}.
  - intros w fd f Hf. simpl. by rewrite Hf.
  - intros w fd f f' Hf. simpl. rewrite Hf. eexists. split; [done |].
    split; [apply lookup_insert_eq |]. intros t Ht. by apply lookup_insert_ne.
Defined.

Lemma socket_survives_one_exec_witness :
  exists w1 w2 f1,
    clear_cloexec_in_pre_exec 6 ({[6 := 1]} : gmap Z Z) = (Done (Ok tt), w1) /\ fd_flags w1 6 = Some f1 /\
    Z.testbit f1 0 = false /\ (forall i, 0 < i -> Z.testbit f1 i = Z.testbit 1 i) /\
    hydrate_forked_fd 6 w1 = (Done (Ok 6), w2) /\ fd_flags w2 6 = Some FD_CLOEXEC /\
    forall t, t <> 6 -> fd_flags w1 t = fd_flags ({[6 := 1]} : gmap Z Z) t /\
                        fd_flags w2 t = fd_flags ({[6 := 1]} : gmap Z Z) t.
Proof. apply (socket_survives_one_exec ({[6 := 1]} : gmap Z Z) 6 1). reflexivity. Defined.
