(* ===== verification/Manager.v ===== *)
(** * src/src/lib.rs: the lock manager

    [LockManager] keeps one owner process per owner identifier. The map of
    owners is shared between threads, and every operation on it is atomic (a
    [DashMap] entry is locked while it is used), so [get_or_create_owner] is a
    program of atomic steps: [goc_step]. One thread that runs them in a row is
    the function [get_or_create_owner]; several threads that take turns are the
    machine [manager_step]. *)

From Stdlib Require Import ZArith Lia.
From stdpp Require Import base tactics numbers list gmap.
From S2P Require Import Prelude.
From S2P Require Import Std.
From S2P Require Import Types.
From S2P Require Import Wire.
From S2P Require Import Messages.
From S2P Require Import Helpers.
From S2P Require Import Client.
Local Open Scope Z_scope.
Local Open Scope ulock_scope.

(** ** The world with the map of owners *)

(** The owners, by owner identifier, beside the world of the system calls. *)
Abbreviation managed W := (gmap Z Owner * W)%type.

Section Lift.
Context {W : Type}.

(** Code that does not use the map. *)
Definition on_world {A} (p : prog W A) : prog (managed W) A :=
  fun m => let '(r, w) := p m.2 in (r, (m.1, w)).

#[export] Instance managed_SigSys `{!SigSys W} : SigSys (managed W) := {
  sys_sigmask how set m := let '(r, w) := sys_sigmask how set m.2 in (r, (m.1, w));
  sys_sigaction m := let '(r, w) := sys_sigaction m.2 in (r, (m.1, w)) }.

#[export] Instance managed_Dup `{!Dup W} : Dup (managed W) := {
  sys_dup fd m := let '(r, w) := sys_dup fd m.2 in (r, (m.1, w)) }.

#[export] Instance managed_Rpc `{!Rpc W} : Rpc (managed W) := {|
  rpc_ping fd m := on_world (rpc_ping fd m);
  rpc_register fd m := on_world (rpc_register fd m);
  rpc_unregister fd m := on_world (rpc_unregister fd m);
  rpc_interrupt fd m := on_world (rpc_interrupt fd m);
  rpc_remove_interrupt fd m := on_world (rpc_remove_interrupt fd m);
  rpc_lock fd m := on_world (rpc_lock fd m);
  rpc_lock_iter fd m := on_world (rpc_lock_iter fd m);
  rpc_next it := on_world (rpc_next it);
  rpc_end it := on_world (rpc_end it);
  rpc_spawn fd m := on_world (rpc_spawn fd m);
  rpc_drop_fds fds := on_world (rpc_drop_fds fds) |}.
End Lift.

(** ** The manager *)

(** The handle to join the cleanup thread, and the only sender of its
    channel. *)
Inductive JoinHandle : Type := mkJoinHandle.
Inductive Sender : Type := mkSender.

(** [LockManager]; the map of its owners is shared with the cleanup thread and
    is part of the state. *)
Record LockManager : Type := mkLockManager {
  lm_communication : Fd;
  lm_ttl : Duration;
  lm_cleanup_thread : option JoinHandle;
  lm_cleanup_tx : option Sender }.

(** Where a call of [get_or_create_owner] is: about to look the owner up, to
    take the entry, to ping, to remove the entry, returned. *)
Inductive goc_pc : Type :=
  | GGet
  | GEntry
  | GPing (owner : Owner)
  | GRemove
  | GReturn (r : io_result Owner).

Section Manager.
Context {W : Type} `{!Rpc W} `{!SigSys W}.
Abbreviation M := (managed W).

(** The closure of [or_try_insert_with]. *)
Definition spawn_owner (self : LockManager) (ttl : Duration) : prog M (io_result Owner) :=
  let? reply := (let! r := rpc_spawn (lm_communication self) (RequestSpawnOwner.new ttl) in
                 ret (flatten_reply r)) in
  match reply.2 with
  | [fd] => ret (Ok (Owner_new fd))
  | fds => do! rpc_drop_fds fds in ret (Err io_other)
  end.

(** One step of [get_or_create_owner]; [new_owner] is its local variable. *)
Definition goc_step (self : LockManager) (owner_id : Z) (ttl : Duration) (pc : goc_pc) (new_owner : bool)
  : prog M (goc_pc * bool) :=
  match pc with
  | GGet =>
      let! found := gets (fun m : M => m.1 !! owner_id) in
      match found with
      | Some owner => ret (GPing owner, new_owner)
      | None => ret (GEntry, new_owner)
      end
  | GEntry =>
      let! found := gets (fun m : M => m.1 !! owner_id) in
      match found with
      | Some owner => ret (GPing owner, new_owner)
      | None =>
          let! r := spawn_owner self ttl in
          match r with
          | Ok owner =>
              do! modify (fun m : M => (<[owner_id := owner]> m.1, m.2)) in
              ret (GPing owner, true)
          | Err e => ret (GReturn (Err e), new_owner)
          end
      end
  | GPing owner =>
      let new_owner_with_zero_ttl := bool_decide (ttl = Duration_from_secs 0) && new_owner in
      if new_owner_with_zero_ttl then ret (GReturn (Ok owner), new_owner)
      else
        let! r := Owner_ping owner in
        if is_err r then ret (GRemove, new_owner) else ret (GReturn (Ok owner), new_owner)
  | GRemove =>
      do! modify (fun m : M => (delete owner_id m.1, m.2)) in
      ret (GGet, new_owner)
  | GReturn r => ret (GReturn r, new_owner)
  end.

(** The loop, on one thread; [None] when it has not returned after [fuel]
    steps. *)
Fixpoint goc_loop (fuel : nat) (self : LockManager) (owner_id : Z) (ttl : Duration)
    (pc : goc_pc) (new_owner : bool) : prog M (io_result (option Owner)) :=
  match pc, fuel with
  | GReturn r, _ => ret (map_ok Some r)
  | _, O => ret (Ok None)
  | _, S fuel =>
      let! (pc, new_owner) := goc_step self owner_id ttl pc new_owner in
      goc_loop fuel self owner_id ttl pc new_owner
  end.

(** [LockManager::get_or_create_owner]. *)
Definition get_or_create_owner (fuel : nat) (self : LockManager) (owner_id : Z) (ttl : option Duration)
  : prog M (io_result (option Owner)) :=
  with_signals_blocked
    (goc_loop fuel self owner_id (default (lm_ttl self) ttl) GGet false).

(** [LockManager::register]: at most [rounds] rounds of the loop, each with
    [fuel] steps of [get_or_create_owner]. *)
Fixpoint register_loop `{!Dup W} (rounds fuel : nat) (self : LockManager) (owner_id : Z) (fd : Fd)
  : prog M (io_result (option Lockable)) :=
  match rounds with
  | O => ret (Ok None)
  | S rounds =>
      let? owner := get_or_create_owner fuel self owner_id None in
      match owner with
      | None => ret (Ok None)
      | Some owner =>
          let! r := Owner_register owner fd in
          match r with
          | Ok lockable => ret (Ok (Some lockable))
          | Err e =>
              if kind_is ErrorKind.BrokenPipe e then
                let! alive := Owner_ping owner in
                if is_err alive then register_loop rounds fuel self owner_id fd else ret (Err e)
              else ret (Err e)
          end
      end
  end.

Definition register `{!Dup W} (rounds fuel : nat) (self : LockManager) (owner_id : Z) (fd : Fd)
  : prog M (io_result (option Lockable)) :=
  with_signals_blocked (register_loop rounds fuel self owner_id fd).

(** ** Threads that share the manager *)

Record manager_state : Type := mkManagerState {
  ms_world : M;
  (** calls of [get_or_create_owner]: the owner identifier, where it is, its
      local variable *)
  ms_calls : gmap nat (Z * goc_pc * bool) }.

(** Thread [t] makes its next step. A thread that panics is gone. *)
Definition manager_step (self : LockManager) (ttl : Duration) (s : manager_state) (t : nat)
  : option manager_state :=
  match ms_calls s !! t with
  | None | Some (_, GReturn _, _) => None
  | Some (id, pc, new_owner) =>
      match goc_step self id ttl pc new_owner (ms_world s) with
      | (Done (pc, new_owner), w) => Some (mkManagerState w (<[t := (id, pc, new_owner)]> (ms_calls s)))
      | (Panicked, w) => Some (mkManagerState w (delete t (ms_calls s)))
      end
  end.

(** What can happen next: thread [t] calls [get_or_create_owner], or makes the
    next step of its call; anything else changes the world: the cleanup thread
    or a call with another TTL changes the map, an owner process exits. *)
Inductive manager_event : Type :=
  | MCall (t : nat) (owner_id : Z)
  | MStep (t : nat)
  | MWorld (m : M).

Definition manager_happens (self : LockManager) (ttl : Duration) (s : manager_state) (e : manager_event)
  : option manager_state :=
  match e with
  | MCall t owner_id =>
      match ms_calls s !! t with
      | Some _ => None
      | None => Some (mkManagerState (ms_world s) (<[t := (owner_id, GGet, false)]> (ms_calls s)))
      end
  | MStep t => manager_step self ttl s t
  | MWorld m => Some (mkManagerState m (ms_calls s))
  end.
End Manager.
