(* ===== verification/ManagerSpec.v ===== *)
(** * Properties of the lock manager

    What [get_or_create_owner] guarantees beside anything else that happens to
    the map and the owner processes, that it returns, exactly when [register]
    fails, and what two threads can do to one owner identifier. *)

From Stdlib Require Import ZArith Lia.
From stdpp Require Import base tactics numbers list gmap.
From S2P Require Import Prelude.
From S2P Require Import Std.
From S2P Require Import Types.
From S2P Require Import Wire.
From S2P Require Import Messages.
From S2P Require Import Helpers.
From S2P Require Import Client.
From S2P Require Import Manager.
Local Open Scope Z_scope.

(** ** Code that leaves the map alone *)

Section Keeps.
Context {W : Type} `{!Rpc W} `{!SigSys W}.

Definition keeps_owners {A} (p : prog (managed W) A) : Prop := forall m, (p m).2.1 = m.1.

Lemma keeps_on_world {A} (p : prog W A) : keeps_owners (on_world p).
Proof. intros m. unfold on_world. by destruct (p m.2). Qed.

Lemma keeps_ret {A} (a : A) : keeps_owners (ret a).
Proof. by intros m. Qed.

Lemma keeps_bind {A B} (p : prog (managed W) A) (k : A -> prog (managed W) B) :
  keeps_owners p -> (forall a, keeps_owners (k a)) -> keeps_owners (bind p k).
Proof.
  intros Hp Hk m. unfold bind. specialize (Hp m). destruct (p m) as [[a|] m1]; simpl in *; [| done].
  by rewrite (Hk a m1).
Qed.

Lemma keeps_try_bind {E A B} (p : prog (managed W) (result E A)) (k : A -> prog (managed W) (result E B)) :
  keeps_owners p -> (forall a, keeps_owners (k a)) -> keeps_owners (try_bind p k).
Proof. intros Hp Hk. apply keeps_bind; [done |]. intros [a|e]; [done | apply keeps_ret]. Qed.

Lemma keeps_sigmask how set : keeps_owners (sigmask how set).
Proof.
  apply keeps_bind; [| intros; apply keeps_ret]. intros m. unfold lift; simpl.
  by destruct (sys_sigmask how set m.2).
Qed.

Lemma keeps_guard_drop g : keeps_owners (SigSetGuard_drop g).
Proof. apply keeps_bind; [apply keeps_sigmask | intros; apply keeps_ret]. Qed.

Lemma keeps_with_guard {A} g (p : prog (managed W) A) : keeps_owners p -> keeps_owners (with_guard g p).
Proof.
  intros Hp m. unfold with_guard. specialize (Hp m). destruct (p m) as [r m1]. simpl in *.
  rewrite <- Hp. apply keeps_guard_drop.
Qed.

Lemma keeps_signals_blocked {A} (p : prog (managed W) (io_result A)) :
  keeps_owners p -> keeps_owners (with_signals_blocked p).
Proof.
  intros Hp. apply keeps_try_bind.
  - apply keeps_try_bind; [apply keeps_sigmask | intros; apply keeps_ret].
  - intros g. by apply keeps_with_guard.
Qed.

Lemma keeps_ping owner : keeps_owners (Owner_ping owner).
Proof.
  apply keeps_signals_blocked, keeps_bind; [apply keeps_on_world | intros; apply keeps_ret].
Qed.

Lemma keeps_register `{!Dup W} owner fd : keeps_owners (Owner_register owner fd).
Proof.
  apply keeps_signals_blocked, keeps_try_bind.
  - apply keeps_bind; [| intros; apply keeps_ret]. intros m. unfold lift; simpl.
    by destruct (sys_dup fd m.2).
  - intros cloned. apply keeps_bind; [apply keeps_on_world | intros; apply keeps_ret].
Qed.

Lemma keeps_spawn self ttl : keeps_owners (spawn_owner self ttl).
Proof.
  apply keeps_try_bind.
  - apply keeps_bind; [apply keeps_on_world | intros; apply keeps_ret].
  - intros [[] fds]; simpl. destruct fds as [|? [|]]; try apply keeps_ret;
      (apply keeps_bind; [apply keeps_on_world | intros; apply keeps_ret]).
Qed.
End Keeps.
#[export] Hint Resolve keeps_ping keeps_register keeps_spawn : ulock.

(** ** Where an owner that is returned comes from *)

Section Returned.
Context {W : Type} `{!Rpc W} `{!SigSys W}.
Context (self : LockManager) (ttl : Duration).
Abbreviation M := (managed W).
Abbreviation happens := (manager_happens (W := W) self ttl).

Definition calls_init (m : M) : manager_state := mkManagerState m ∅.

(** Event [i] of a run is step [t] from [s1] to [s2]. *)
Definition step_at (m : M) (evs : list manager_event) (t : nat) (s1 s2 s : manager_state) : Prop :=
  exists before after,
    evs = before ++ MStep t :: after /\ run happens (calls_init m) before = Some s1 /\
    manager_step self ttl s1 t = Some s2 /\ run happens s2 after = Some s.

(** In the run, the call of thread [t] for [id] created the owner [o]. *)
Definition created (m : M) evs (t : nat) (id : Z) (o : Owner) s : Prop :=
  exists s1 s2 m1, step_at m evs t s1 s2 s /\
    ms_calls s1 !! t = Some (id, GEntry, false) /\
    spawn_owner self ttl (ms_world s1) = (Done (Ok o), m1) /\
    ms_world s2 = (<[id := o]> m1.1, m1.2).

(** In the run, the step in which the call of thread [t] for [id] returned
    [o] is a ping that [o] answered, in the state of that step; or the call
    had created [o] for a TTL of zero. *)
Definition justified (m : M) evs (t : nat) (id : Z) (o : Owner) s : Prop :=
  exists s1 s2 n, step_at m evs t s1 s2 s /\
    ms_calls s1 !! t = Some (id, GPing o, n) /\ ms_calls s2 !! t = Some (id, GReturn (Ok o), n) /\
    (Owner_ping o (ms_world s1) = (Done (Ok tt), ms_world s2) \/
     ttl = Duration_from_secs 0 /\ created m evs t id o s).

(** What the history of a run says about a call. *)
Definition explained (m : M) evs s (t : nat) (id : Z) (pc : goc_pc) (new_owner : bool) : Prop :=
  match pc with
  | GGet | GEntry | GRemove => ttl = Duration_from_secs 0 -> new_owner = false
  | GPing o => ttl = Duration_from_secs 0 -> new_owner = true -> created m evs t id o s
  | GReturn (Ok o) => justified m evs t id o s
  | GReturn (Err _) => True
  end.

Lemma step_at_later m evs t s1 s2 s e s' :
  step_at m evs t s1 s2 s -> happens s e = Some s' -> step_at m (evs ++ [e]) t s1 s2 s'.
Proof.
  intros (before & after & -> & H1 & H2 & H3) He. exists before, (after ++ [e]).
  rewrite <- app_assoc. split_and!; [done | done | done |]. rewrite run_app, H3. simpl. by rewrite He.
Qed.

Lemma step_at_last m evs t s s' :
  run happens (calls_init m) evs = Some s -> manager_step self ttl s t = Some s' ->
  step_at m (evs ++ [MStep t]) t s s' s'.
Proof. intros Hr Hs. by exists evs, []. Qed.

Lemma explained_later m evs s t id pc n e s' :
  happens s e = Some s' -> explained m evs s t id pc n -> explained m (evs ++ [e]) s' t id pc n.
Proof.
  intros He. destruct pc as [| |o| |[o|e']]; simpl; try done.
  - intros H H0 H1. destruct (H H0 H1) as (s1 & s2 & m1 & Hat & Hc). exists s1, s2, m1.
    split; [by eapply step_at_later | done].
  - intros (s1 & s2 & n' & Hat & H1 & H2 & Hj). exists s1, s2, n'.
    split_and!; [by eapply step_at_later | done | done |].
    destruct Hj as [|[H0 (s3 & s4 & m1 & Hat' & Hc)]]; [by left |]. right. split; [done |].
    exists s3, s4, m1. split; [by eapply step_at_later | done].
Qed.

(** A step of thread [t] explains the state it leads to. *)
Lemma explained_step m evs s t id pc n pc' n' m' :
  run happens (calls_init m) evs = Some s -> ms_calls s !! t = Some (id, pc, n) ->
  (forall r, pc <> GReturn r) -> explained m evs s t id pc n ->
  goc_step self id ttl pc n (ms_world s) = (Done (pc', n'), m') ->
  explained m (evs ++ [MStep t]) (mkManagerState m' (<[t := (id, pc', n')]> (ms_calls s))) t id pc' n'.
Proof.
  intros Hr Ht Hpc Hex Hs.
  assert (manager_step self ttl s t = Some (mkManagerState m' (<[t := (id, pc', n')]> (ms_calls s)))) as Hstep.
  { unfold manager_step. rewrite Ht. destruct pc as [| | | |r]; [by rewrite Hs.. | by destruct (Hpc r)]. }
  pose proof (step_at_last _ _ _ _ _ Hr Hstep) as Hat.
  destruct pc as [| |o| |r]; simpl in Hs, Hex; [.. | by destruct (Hpc r)].
  - unfold bind, gets, ret in Hs. destruct ((ms_world s).1 !! id) as [o|]; simplify_eq; simpl; [| done].
    intros H0 H1. by rewrite (Hex H0) in H1.
  - unfold bind, gets, modify, ret in Hs. destruct ((ms_world s).1 !! id) as [o|]; simplify_eq; simpl.
    { intros H0 H1. by rewrite (Hex H0) in H1. }
    destruct (spawn_owner self ttl (ms_world s)) as [[[o|e]|] m1] eqn:Es; simplify_eq; simpl; [| done].
    intros H0 _. rewrite (Hex H0) in Ht. eexists s, _, m1. by split_and!.
  - destruct (bool_decide (ttl = Duration_from_secs 0) && n) eqn:E.
    + unfold ret in Hs. simplify_eq. apply andb_true_iff in E as [E%bool_decide_eq_true ->]. simpl.
      eexists s, _, true. split_and!; [exact Hat | done | simpl; by rewrite lookup_insert_eq |].
      right. split; [done |]. destruct (Hex E eq_refl) as (s1 & s2 & m1 & Hat' & Hc).
      exists s1, s2, m1. split; [by eapply step_at_later | done].
    + unfold bind, ret in Hs.
      destruct (Owner_ping o (ms_world s)) as [[[[]|e]|] m1] eqn:Ep; simplify_eq/=.
      * eexists s, _, n'. split_and!; [exact Hat | done | simpl; by rewrite lookup_insert_eq |]. by left.
      * intros H0. apply andb_false_iff in E as [E%bool_decide_eq_false| ->]; done.
  - unfold bind, modify, ret in Hs. by simplify_eq/=.
Qed.

Lemma run_explained m evs s :
  run happens (calls_init m) evs = Some s ->
  forall t id pc n, ms_calls s !! t = Some (id, pc, n) -> explained m evs s t id pc n.
Proof.
  revert s. induction evs as [|e evs IH] using rev_ind; intros s Hr t id pc n Ht.
  { simpl in Hr. by simplify_eq. }
  rewrite run_app in Hr. destruct (run happens (calls_init m) evs) as [s0|] eqn:Hr0; [| done].
  simpl in Hr. destruct (happens s0 e) as [s1|] eqn:He; [| done]. simplify_eq.
  specialize (IH s0 eq_refl). destruct e as [t' id'|t'|m']; simpl in He.
  - destruct (ms_calls s0 !! t') eqn:E; [done |]. simplify_eq/=.
    apply lookup_insert_Some in Ht as [[-> [= <- <- <-]]|[Hne Ht]]; [done |].
    apply (explained_later m evs s0); [simpl; by rewrite E | by apply IH].
  - pose proof He as Hev. unfold manager_step in He.
    destruct (ms_calls s0 !! t') as [[[id0 pc0] n0]|] eqn:E; [| done].
    assert (forall r, pc0 <> GReturn r) as Hnr by (intros r ->; done).
    destruct (goc_step self id0 ttl pc0 n0 (ms_world s0)) as [[[pc1 n1]|] m1] eqn:Es.
    + assert (s = mkManagerState m1 (<[t' := (id0, pc1, n1)]> (ms_calls s0))) as -> by by destruct pc0; simplify_eq.
      simpl in Ht. apply lookup_insert_Some in Ht as [[-> [= <- <- <-]]|[Hne Ht]].
      * eapply explained_step; eauto.
      * apply (explained_later m evs s0); [done | by apply IH].
    + assert (s = mkManagerState m1 (delete t' (ms_calls s0))) as -> by by destruct pc0; simplify_eq.
      simpl in Ht. apply lookup_delete_Some in Ht as [Hne Ht].
      apply (explained_later m evs s0); [done | by apply IH].
  - simplify_eq/=. apply (explained_later m evs s0); [done | by apply IH].
Qed.

(** *** A call on its own *)

Definition mapped (s : manager_state (W := W)) (t : nat) (id : Z) : Prop :=
  forall t' id' pc n, ms_calls s !! t' = Some (id', pc, n) ->
    t' = t /\ id' = id /\
    match pc with GPing o | GReturn (Ok o) => (ms_world s).1 !! id = Some o | _ => True end.

Lemma mapped_step s t id e s' :
  e = MCall t id \/ e = MStep t -> happens s e = Some s' -> mapped s t id -> mapped s' t id.
Proof.
  intros Hcase He Hm t' id' pc n Ht. destruct Hcase as [-> | ->]; simpl in He.
  - destruct (ms_calls s !! t) eqn:E; [done |]. simplify_eq/=.
    apply lookup_insert_Some in Ht as [[-> [= <- <- <-]]|[Hne Ht]]; [done |]. by apply Hm in Ht.
  - unfold manager_step in He. destruct (ms_calls s !! t) as [[[id0 pc0] n0]|] eqn:E; [| done].
    destruct (Hm t id0 pc0 n0 E) as (_ & -> & Hpc).
    destruct (goc_step self id ttl pc0 n0 (ms_world s)) as [[[pc1 n1]|] m1] eqn:Es; cycle 1.
    { assert (s' = mkManagerState m1 (delete t (ms_calls s))) as -> by by destruct pc0; simplify_eq.
      simpl in Ht. apply lookup_delete_Some in Ht as [Hne Ht]. by destruct (Hm _ _ _ _ Ht). }
    assert (s' = mkManagerState m1 (<[t := (id, pc1, n1)]> (ms_calls s)) /\ forall r, pc0 <> GReturn r)
      as [-> Hnr] by by destruct pc0; simplify_eq.
    simpl in Ht. apply lookup_insert_Some in Ht as [[-> [= <- <- <-]]|[Hne Ht]]; [| by destruct (Hm _ _ _ _ Ht)].
    split; [done |]. split; [done |]. simpl.
    destruct pc0 as [| |o| |r]; simpl in Es; unfold bind, gets, modify, ret in Es; [.. | by destruct (Hnr r)].
    + destruct ((ms_world s).1 !! id) as [o|] eqn:Eo; by simplify_eq.
    + destruct ((ms_world s).1 !! id) as [o|] eqn:Eo; [by simplify_eq |].
      destruct (spawn_owner self ttl (ms_world s)) as [[[o|e]|] m2]; simplify_eq/=; [| done].
      apply lookup_insert_eq.
    + case_match; [by simplify_eq |]. pose proof (keeps_ping o (ms_world s)) as Hk.
      destruct (Owner_ping o (ms_world s)) as [[[u|e]|] m2]; simplify_eq/=; [by rewrite Hk | done].
    + by simplify_eq.
Qed.

Lemma run_mapped evs s t id s' :
  Forall (fun e => e = MCall t id \/ e = MStep t) evs -> mapped s t id -> run happens s evs = Some s' ->
  mapped s' t id.
Proof.
  revert s; induction evs as [|e evs IH]; intros s Hall Hm Hr; simpl in Hr; [by simplify_eq |].
  apply Forall_cons in Hall as [He Hall]. destruct (happens s e) as [s1|] eqn:E; [| done].
  eapply IH; [done | | done]. by eapply mapped_step.
Qed.
End Returned.

(** ** Owner processes that come and go *)

(** The sockets of the owner processes that are alive, and the next one. *)
Record procs : Type := mkProcs { p_alive : gset Z; p_next : Z }.

Definition answer {A} (fd : Fd) (a : A) : prog procs (FetchedReplyResult A) :=
  fun w => (Done (if bool_decide (fd ∈ p_alive w) then Ok (Ok a) else Err (Custom ErrorKind.BrokenPipe)), w).

#[export] Instance procs_SigSys : SigSys procs := {
  sys_sigmask how set w := (Ok ∅, w);
  sys_sigaction w := ((0, 0, 4096), w) }.

#[export] Instance procs_Dup : Dup procs := { sys_dup fd w := (Ok fd, w) }.

#[export] Instance procs_Rpc : Rpc procs := {|
  rpc_ping fd m := answer fd tt;
  rpc_register fd m := answer fd 0;
  rpc_unregister fd m := answer fd tt;
  rpc_interrupt fd m := answer fd tt;
  rpc_remove_interrupt fd m := answer fd tt;
  rpc_lock fd m := answer fd (ReplyLockCommandData.Done (LockCommand.params m));
  rpc_lock_iter fd m := ret (Ok (ReplyIterator_new 0));
  rpc_next it := ret None;
  rpc_end it := ret tt;
  rpc_spawn fd m w := (Done (Ok (Ok (tt, [p_next w]))), mkProcs ({[p_next w]} ∪ p_alive w) (p_next w + 1));
  rpc_drop_fds fds := ret tt |}.

Definition demo_manager : LockManager :=
  mkLockManager 3 (Duration_from_secs 5) (Some mkJoinHandle) (Some mkSender).
(** Owner 1 has the process behind socket 100, which has exited. *)
Definition dead_owner : managed procs := ({[1 := Owner_new 100]}, mkProcs ∅ 200).

(** C17. Whatever other threads, the cleanup thread and the owner
    processes do meanwhile: the step in which a call of [get_or_create_owner]
    returns an owner is a ping that this owner answers in the state of that
    very step, unless the call has itself created the owner for a TTL of zero,
    where the ping would find it gone. The returned owner is also the one that
    the map has for the identifier if nothing else happened; beside other
    threads it need not be (see [racing_threads_split_owner]). *)
Theorem returned_owner_is_live {W} `{!Rpc W} `{!SigSys W} (self : LockManager) (ttl : Duration)
    (m : managed W) (evs : list manager_event) (s : manager_state) t id o n :
  run (manager_happens self ttl) (calls_init m) evs = Some s ->
  ms_calls s !! t = Some (id, GReturn (Ok o), n) ->
  justified self ttl m evs t id o s /\
  (Forall (fun e => e = MCall t id \/ e = MStep t) evs -> (ms_world s).1 !! id = Some o).
Proof.
  intros Hr Ht. split; [exact (run_explained self ttl m evs s Hr t id _ n Ht) |]. intros Hall.
  assert (mapped (calls_init m) t id) as H0 by by intros ????.
  by destruct (run_mapped self ttl evs _ t id s Hall H0 Hr t id _ n Ht) as (_ & _ & ?).
Qed.

(** The call of thread 0 finds a dead owner, removes it, creates another and
    pings it. *)
Definition demo_getting : list (manager_event (W := procs)) := MCall 0 1 :: replicate 6 (MStep 0).
Definition demo_called : manager_state (W := procs) :=
  default (calls_init dead_owner)
    (run (manager_happens demo_manager (Duration_from_secs 5)) (calls_init dead_owner) demo_getting).

Lemma returned_owner_is_live_witness :
  justified demo_manager (Duration_from_secs 5) dead_owner demo_getting 0 1 (Owner_new 200) demo_called /\
  (ms_world demo_called).1 !! 1 = Some (Owner_new 200).
Proof.
  destruct (returned_owner_is_live demo_manager (Duration_from_secs 5) dead_owner demo_getting demo_called
              0 1 (Owner_new 200) true) as [H1 H2].
  - vm_compute. reflexivity.
  - vm_compute. reflexivity.
  - split; [exact H1 |]. apply H2. repeat (apply Forall_cons_2; [auto |]). apply Forall_nil_2.
Defined.

(** ** Termination *)

Section Returns.
Context {W : Type} `{!Rpc W} `{!SigSys W}.
Context (self : LockManager) (id : Z) (ttl : Duration).
Abbreviation M := (managed W).

(** Pings come back, with or without an error. *)
Definition pings_return : Prop :=
  forall o (m : M), exists r m', Owner_ping o m = (Done r, m').
(** A new owner process is created and answers its first ping. *)
Definition spawns_live : Prop :=
  forall m : M, exists o m1, spawn_owner self ttl m = (Done (Ok o), m1) /\
    exists m2, Owner_ping o (<[id := o]> m1.1, m1.2) = (Done (Ok tt), m2).

Lemma goc_loop_S fuel pc new_owner (m : M) pc' n' m' :
  (forall r, pc <> GReturn r) -> goc_step self id ttl pc new_owner m = (Done (pc', n'), m') ->
  goc_loop (S fuel) self id ttl pc new_owner m = goc_loop fuel self id ttl pc' n' m'.
Proof.
  intros Hpc Hs. destruct pc as [| | | |r]; [..| by destruct (Hpc r)]; cbn [goc_loop]; unfold bind;
    by rewrite Hs.
Qed.

(** From an identifier without an owner, three steps. *)
Lemma goc_spawn fuel new_owner (m : M) :
  spawns_live -> m.1 !! id = None -> (3 <= fuel)%nat ->
  exists o m', goc_loop fuel self id ttl GGet new_owner m = (Done (Ok (Some o)), m').
Proof.
  intros Hsp Hn Hf. destruct fuel as [|[|[|fuel]]]; try lia.
  rewrite (goc_loop_S _ _ _ _ GEntry new_owner m); [| done | by simpl; unfold bind, gets; rewrite Hn].
  destruct (Hsp m) as (o & m1 & Es & m2 & Ep).
  rewrite (goc_loop_S _ _ _ _ (GPing o) true (<[id := o]> m1.1, m1.2));
    [| done | simpl; unfold bind, gets, modify, ret; by rewrite Hn, Es].
  destruct (bool_decide (ttl = Duration_from_secs 0)) eqn:E0.
  - rewrite (goc_loop_S _ _ _ _ (GReturn (Ok o)) true (<[id := o]> m1.1, m1.2));
      [| done | simpl; by rewrite E0]. exists o. destruct fuel; by eexists.
  - rewrite (goc_loop_S _ _ _ _ (GReturn (Ok o)) true m2);
      [| done | simpl; rewrite E0; simpl; unfold bind; by rewrite Ep]. exists o. destruct fuel; by eexists.
Qed.

Lemma goc_returns fuel (m : M) :
  pings_return -> spawns_live -> (6 <= fuel)%nat ->
  exists o m', goc_loop fuel self id ttl GGet false m = (Done (Ok (Some o)), m').
Proof.
  intros Hp Hsp Hf. destruct (m.1 !! id) as [o|] eqn:E; [| apply goc_spawn; [done | done | lia]].
  destruct fuel as [|[|[|fuel]]]; try lia.
  rewrite (goc_loop_S _ _ _ _ (GPing o) false m); [| done | by simpl; unfold bind, gets; rewrite E].
  destruct (Hp o m) as (r & m1 & Er). destruct r as [[]|e].
  - rewrite (goc_loop_S _ _ _ _ (GReturn (Ok o)) false m1);
      [| done | simpl; rewrite andb_false_r; unfold bind; by rewrite Er]. exists o. by eexists.
  - rewrite (goc_loop_S _ _ _ _ GRemove false m1);
      [| done | simpl; rewrite andb_false_r; unfold bind; by rewrite Er].
    rewrite (goc_loop_S _ _ _ _ GGet false (delete id m1.1, m1.2)); [| done | done].
    apply goc_spawn; [done | | lia]. simpl. apply lookup_delete_eq.
Qed.
End Returns.

(** C18. [get_or_create_owner] returns an owner within six steps, whatever
    the map holds, a dead owner included, when owner processes can be created
    and answer their first ping. *)
Theorem get_or_create_owner_returns {W} `{!Rpc W} `{!SigSys W} fuel self id ttl (m : managed W) g m0 :
  pings_return (W := W) -> spawns_live (W := W) self id (default (lm_ttl self) ttl) ->
  block_all_signals m = (Done (Ok g), m0) -> (6 <= fuel)%nat ->
  exists o m', get_or_create_owner fuel self id ttl m = (Done (Ok (Some o)), m').
Proof.
  intros Hp Hsp Hb Hf. unfold get_or_create_owner, with_signals_blocked.
  rewrite (try_bind_ok _ _ _ _ _ Hb). unfold with_guard.
  destruct (goc_returns self id _ fuel m0 Hp Hsp Hf) as (o & m1 & ->). eauto.
Qed.

Lemma procs_pings_return : pings_return (W := procs).
Proof.
  intros o m. unfold Owner_ping, with_signals_blocked, try_bind, bind, with_guard; simpl.
  do 2 eexists. reflexivity.
Qed.

Lemma procs_spawns_live self id ttl : spawns_live (W := procs) self id ttl.
Proof.
  intros [o w]. do 2 eexists. split; [reflexivity |]. eexists.
  unfold Owner_ping, with_signals_blocked, try_bind, bind, with_guard; simpl.
  unfold flatten_reply, answer, on_world; simpl. rewrite bool_decide_true; [reflexivity |].
  apply elem_of_union. left. by apply elem_of_singleton.
Qed.

Lemma get_or_create_owner_returns_witness :
  exists o m', get_or_create_owner 6 demo_manager 1 None dead_owner = (Done (Ok (Some o)), m').
Proof.
  apply (get_or_create_owner_returns 6 demo_manager 1 None dead_owner (SigSetGuard_new ∅) dead_owner).
  - apply procs_pings_return.
  - apply procs_spawns_live.
  - reflexivity.
  - lia.
Defined.

(** ** Registration *)

Section Register.
Context {W : Type} `{!Rpc W} `{!SigSys W} `{!Dup W}.
Implicit Types m : managed W.

(** Why an owner does not register a file: the signals could not be masked,
    the descriptor could not be duplicated, or the request failed or was
    refused. *)
Definition owner_refuses (o : Owner) (fd : Fd) (e : io_error) m : Prop :=
  (exists m1, block_all_signals m = (Done (Err e), m1)) \/
  exists g m1, block_all_signals m = (Done (Ok g), m1) /\
    ((exists n m2, sys_dup fd m1 = (Err n, m2) /\ e = Os n) \/
     exists cloned m2 r m3, sys_dup fd m1 = (Ok cloned, m2) /\
       rpc_register (communication o) (Register.mk cloned) m2 = (Done r, m3) /\ flatten_reply r = Err e).

Lemma Owner_register_error o fd e m :
  (exists m', Owner_register o fd m = (Done (Err e), m')) <-> owner_refuses o fd e m.
Proof.
  unfold Owner_register, with_signals_blocked, owner_refuses, try_bind, bind, lift, ret, with_guard.
  destruct (block_all_signals m) as [[[g|e1]|] m1]; cycle 1.
  { split; [intros [m' H]; simplify_eq; eauto | intros [[m2 H]|(g & m2 & H & _)]; simplify_eq; eauto]. }
  { split; [by intros [] | by intros [[]|(? & ? & ? & _)]]. }
  destruct (sys_dup fd m1) as [[cloned|n] m2] eqn:Ed; cbn [fst snd map_err].
  - split.
    + intros [m' H]. right. exists g, m1. split; [done |]. right. exists cloned, m2.
      destruct (rpc_register (communication o) (Register.mk cloned) m2) as [[r|] m3]; [| by simplify_eq].
      exists r, m3. split_and!; [done | done |]. by destruct (flatten_reply r); simplify_eq/=.
    + intros [[m3 H]|(g' & m3 & ? & [(n & m4 & Hd & ->)|(c & m4 & r & m5 & Hd & Hreq & Hf)])]; simplify_eq;
        rewrite Ed in Hd; simplify_eq. rewrite Hreq, Hf. by eexists.
  - split.
    + intros [m' H]. simplify_eq/=. right. exists g, m1. split; [done |]. left. eauto.
    + intros [[m3 H]|(g' & m3 & ? & [(n' & m4 & Hd & ->)|(c & m4 & r & m5 & Hd & _)])]; simplify_eq;
        rewrite Ed in Hd; simplify_eq. by eexists.
Qed.

(** The rounds of [register] from the first world to the second in which an
    owner was had, its socket broke, and it did not answer a ping. *)
Fixpoint died_in (fuel : nat) (self : LockManager) (id : Z) (fd : Fd) (rounds : nat) m m' : Prop :=
  match rounds with
  | O => m' = m
  | S rounds => exists o m1 e m2 e' m3,
      get_or_create_owner fuel self id None m = (Done (Ok (Some o)), m1) /\
      Owner_register o fd m1 = (Done (Err e), m2) /\ kind_is ErrorKind.BrokenPipe e = true /\
      Owner_ping o m2 = (Done (Err e'), m3) /\ died_in fuel self id fd rounds m3 m'
  end.

(** How a round reports the error [e]: no owner could be had, or the owner
    does not register the file, with an error that is not a broken pipe or
    while it answers a ping. *)
Definition round_reports fuel (self : LockManager) (id : Z) (fd : Fd) (e : io_error) m : Prop :=
  (exists m1, get_or_create_owner fuel self id None m = (Done (Err e), m1)) \/
  (exists o m1 m2, get_or_create_owner fuel self id None m = (Done (Ok (Some o)), m1) /\
     Owner_register o fd m1 = (Done (Err e), m2) /\ owner_refuses o fd e m1 /\
     (kind_is ErrorKind.BrokenPipe e = false \/
      exists m3, Owner_ping o m2 = (Done (Ok tt), m3))).

Lemma register_loop_error rounds fuel self id fd m e :
  (exists m', register_loop rounds fuel self id fd m = (Done (Err e), m')) <->
  exists k m1, (k < rounds)%nat /\ died_in fuel self id fd k m m1 /\ round_reports fuel self id fd e m1.
Proof.
  split.
  - intros [m' Hr]. revert m Hr; induction rounds as [|rounds IH]; intros m Hr; simpl in Hr; [done |].
    unfold try_bind, bind in Hr.
    destruct (get_or_create_owner fuel self id None m) as [[[[o|]|e']|] m1] eqn:Eg; try done; cycle 1.
    { unfold ret in Hr. simplify_eq. exists 0%nat, m. split_and!; [lia | done |]. left. eauto. }
    destruct (Owner_register o fd m1) as [[[l|e']|] m2] eqn:Er; try done.
    assert (owner_refuses o fd e' m1) as Href by (apply Owner_register_error; eauto).
    destruct (kind_is ErrorKind.BrokenPipe e') eqn:Ek; cycle 1.
    { unfold ret in Hr. simplify_eq. exists 0%nat, m. split_and!; [lia | done |]. right. eauto 10. }
    destruct (Owner_ping o m2) as [[[[]|e2]|] m3] eqn:Ep; try done; simpl in Hr.
    + unfold ret in Hr. simplify_eq. exists 0%nat, m. split_and!; [lia | done |]. right. eauto 10.
    + destruct (IH m3 Hr) as (k & m4 & Hk & Hd & Hrep). exists (S k), m4. split_and!; [lia | | done].
      simpl. eauto 15.
  - intros (k & m1 & Hk & Hd & Hrep). revert rounds m Hk Hd.
    induction k as [|k IH]; intros [|rounds] m Hk Hd; try lia; cbn [register_loop]; unfold try_bind, bind.
    + simpl in Hd. subst. destruct Hrep as [[m2 ->]|(o & m2 & m3 & -> & -> & _ & Hcase)]; [eauto |].
      destruct Hcase as [->|[m4 Hp]]; [eauto |].
      destruct (kind_is ErrorKind.BrokenPipe e); [rewrite Hp |]; eauto.
    + destruct Hd as (o & m2 & e1 & m3 & e2 & m4 & -> & -> & -> & -> & Hd). simpl. apply IH; [lia | done].
Qed.
End Register.

(** C21. [LockManager::register] fails with an error exactly when the
    signals cannot be masked, or when, after some rounds in each of which the
    owner's socket broke and the owner did not answer a ping, no owner can be
    had or the owner does not register the file (the signals cannot be masked,
    the descriptor cannot be duplicated, or the request fails or is refused)
    with an error that is not a broken pipe or while the owner answers a ping.
    So a broken pipe to a dead owner is never reported; any other error is,
    also one from an owner that has died. *)
Theorem register_error_reasons {W} `{!Rpc W} `{!SigSys W} `{!Dup W} rounds fuel self id fd
    (m : managed W) e :
  (exists m', register rounds fuel self id fd m = (Done (Err e), m')) <->
  (exists m1, block_all_signals m = (Done (Err e), m1)) \/
  (exists g m0 k m1, block_all_signals m = (Done (Ok g), m0) /\ (k < rounds)%nat /\
     died_in (W := W) fuel self id fd k m0 m1 /\ round_reports (W := W) fuel self id fd e m1).
Proof.
  unfold register, with_signals_blocked, try_bind, bind, ret.
  destruct (block_all_signals m) as [[[g|e']|] m0] eqn:Eb.
  - unfold with_guard. pose proof (register_loop_error rounds fuel self id fd m0 e) as Hl.
    split.
    + intros [m' Hr]. right. exists g, m0.
      destruct (register_loop rounds fuel self id fd m0) as [r m1] eqn:El. simplify_eq.
      destruct Hl as [(k & m2 & H) _]; [eauto |]. eauto.
    + intros [[m1 H]|(g' & m1 & k & m2 & ? & H)]; simplify_eq. destruct Hl as [_ Hl].
      destruct Hl as [m' ->]; eauto.
  - split; [intros [m' H]; simplify_eq; eauto |]. intros [[m1 H]|(g & m1 & k & m2 & H & _)]; simplify_eq. eauto.
  - split; [by intros [] |]. by intros [[]|(? & ? & ? & ? & ? & _)].
Qed.

(** The process behind socket 100 is alive and refuses every file: it is about
    to exit. *)
Record refusing : Type := mkRefusing {}.
#[export] Instance refusing_SigSys : SigSys refusing := {
  sys_sigmask how set w := (Ok ∅, w); sys_sigaction w := ((0, 0, 4096), w) }.
#[export] Instance refusing_Dup : Dup refusing := { sys_dup fd w := (Ok fd, w) }.
#[export] Instance refusing_Rpc : Rpc refusing := {|
  rpc_ping fd m := ret (Ok (Ok tt));
  rpc_register fd m := ret (Ok (Err (Os Errno.EIO)));
  rpc_unregister fd m := ret (Ok (Ok tt));
  rpc_interrupt fd m := ret (Ok (Ok tt));
  rpc_remove_interrupt fd m := ret (Ok (Ok tt));
  rpc_lock fd m := ret (Ok (Err (Os Errno.EIO)));
  rpc_lock_iter fd m := ret (Err (Os Errno.EIO));
  rpc_next it := ret None;
  rpc_end it := ret tt;
  rpc_spawn fd m := ret (Ok (Ok (tt, [100])));
  rpc_drop_fds fds := ret tt |}.

Lemma register_error_reasons_witness :
  (exists m1, block_all_signals (W := managed refusing) (∅, mkRefusing) = (Done (Err (Os Errno.EIO)), m1)) \/
  (exists g m0 k m1, block_all_signals (W := managed refusing) (∅, mkRefusing) = (Done (Ok g), m0) /\
     (k < 3)%nat /\ died_in (W := refusing) 6 demo_manager 1 7 k m0 m1 /\
     round_reports (W := refusing) 6 demo_manager 1 7 (Os Errno.EIO) m1).
Proof.
  apply (register_error_reasons 3 6 demo_manager 1 7 (∅, mkRefusing)). eexists. vm_compute. reflexivity.
Defined.

(** An owner that is about to exit refuses a registration with EIO, and one
    that dies with unread requests resets its connection: [register] fails with
    that error in its first round, however many rounds it could make, and
    whether or not the owner would still answer a ping. *)
Lemma refused_registration_not_retried {W} `{!Rpc W} `{!SigSys W} `{!Dup W} rounds fuel self id fd
    (m m1 m2 : managed W) o e :
  kind_is ErrorKind.BrokenPipe e = false ->
  get_or_create_owner fuel self id None m = (Done (Ok (Some o)), m1) ->
  Owner_register o fd m1 = (Done (Err e), m2) ->
  register_loop (S rounds) fuel self id fd m = (Done (Err e), m2).
Proof.
  intros Hk Hg Hr. cbn [register_loop]. rewrite (try_bind_ok _ _ _ _ _ Hg).
  rewrite (bind_done _ _ _ _ _ Hr). by rewrite Hk.
Qed.

Lemma refused_registration_not_retried_witness :
  kind_is ErrorKind.BrokenPipe (Os Errno.ECONNRESET) = false /\
  register_loop (W := refusing) 10 6 demo_manager 1 7 (∅, mkRefusing) =
    (Done (Err (Os Errno.EIO)), (({[1 := Owner_new 100]}, mkRefusing))).
Proof.
  split; [reflexivity |].
  apply (refused_registration_not_retried 9 6 demo_manager 1 7 (∅, mkRefusing)
           ({[1 := Owner_new 100]}, mkRefusing) ({[1 := Owner_new 100]}, mkRefusing) (Owner_new 100) (Os Errno.EIO));
    vm_compute; reflexivity.
Defined.

(** ** Two threads *)

(** Two calls for owner 1, whose process has exited. *)
Definition racing : manager_state (W := procs) :=
  mkManagerState dead_owner {[0%nat := (1, GGet, false); 1%nat := (1, GGet, false)]}.

(** C40. Two threads that find the same dead owner can end up with two
    different owner processes for one owner identifier, both alive: the thread
    that is late removes whatever entry the map has, also the live owner that
    the other thread has just created and returned. Locks of one owner
    identifier then conflict with each other. *)
Theorem racing_threads_split_owner :
  exists sched (s : manager_state (W := procs)),
    run (manager_step demo_manager (lm_ttl demo_manager)) racing sched = Some s /\
    ms_calls s !! 0%nat = Some (1, GReturn (Ok (Owner_new 201)), true) /\
    ms_calls s !! 1%nat = Some (1, GReturn (Ok (Owner_new 200)), true) /\
    200 ∈ p_alive (ms_world s).2 /\ 201 ∈ p_alive (ms_world s).2.
Proof.
  exists [1; 0; 1; 0; 1; 1; 1; 1; 0; 0; 0; 0]%nat. eexists.
  split; [vm_compute; reflexivity |]. split; [reflexivity |]. split; [reflexivity |].
  split; apply (bool_decide_unpack _); vm_compute; exact I.
Qed.
