(* ===== verification/ManagerLife.v ===== *)
(** * src/src/lib.rs: the life of a lock manager

    [LockManager::from_exe] and [LockManager::build], the cleanup thread beside
    the calls of [get_or_create_owner], and [Drop for LockManager], which drops
    the sender of the channel that the cleanup thread waits on and joins the
    thread. *)

From Stdlib Require Import ZArith Lia.
From stdpp Require Import base tactics numbers list gmap strings.
From S2P Require Import Prelude.
From S2P Require Import Std.
From S2P Require Import Types.
From S2P Require Import Wire.
From S2P Require Import Messages.
From S2P Require Import Transport.
From S2P Require Import Net.
From S2P Require Import Helpers.
From S2P Require Import Client.
From S2P Require Import Spawner.
From S2P Require Import SpawnerSpec.
From S2P Require Import Manager.
From S2P Require Import ManagerSpec.
Local Open Scope Z_scope.
Local Open Scope ulock_scope.

(** ** Construction *)

(** [thread::Builder::spawn]: whether the thread could be created. *)
Class Threads (W : Type) : Type := { sys_thread_spawn : W -> io_result JoinHandle * W }.

Section Build.
Context {W : Type} `{!Sys W} `{!Proc W} `{!Threads W}.

(** [LockManager::build]: the map is empty; without a cleanup thread there is
    no manager, and the descriptor is dropped. *)
Definition LockManager_build (coordinator_fd : Fd) : prog W (io_result (LockManager * gmap Z Owner)) :=
  let owners := ∅ in
  let! cleanup_thread := lift sys_thread_spawn in
  match cleanup_thread with
  | Err e => do! drop_fd coordinator_fd in ret (Err e)
  | Ok cleanup_thread =>
      ret (Ok (mkLockManager coordinator_fd (Duration_from_secs 5)
                 (Some cleanup_thread) (Some mkSender), owners))
  end.

(** [LockManager::from_exe]. *)
Definition from_exe (debug_assertions : bool) (path : string)
  : prog W (io_result (LockManager * gmap Z Owner)) :=
  let? coordinator_fd := spawn_coordinator_process debug_assertions path in
  LockManager_build coordinator_fd.
End Build.

(** ** The threads of the manager *)

(** The cleanup thread: in [recv_timeout], inside [retain] with the entries
    it has not reached yet, ended. *)
Inductive clr_pc : Type :=
  | CRecv
  | CRetain (todo : list Z)
  | CEnded.

(** [Drop for LockManager]: not called, past the drop of the sender, returned,
    panicked in [unwrap]. *)
Inductive drop_pc : Type := DAlive | DJoin | DReturned | DPanicked.

Section Life.
Context {W : Type} `{!Rpc W} `{!SigSys W}.

Record life : Type := mkLife {
  lf_manager : LockManager;
  lf_state : manager_state (W := W);
  lf_cleanup : clr_pc;
  lf_drop : drop_pc }.

Definition with_state (s : life) st : life := mkLife (lf_manager s) st (lf_cleanup s) (lf_drop s).
Definition with_cleanup (s : life) c : life := mkLife (lf_manager s) (lf_state s) c (lf_drop s).
Definition owners_of (s : life) : gmap Z Owner := (ms_world (lf_state s)).1.

(** The manager as [build] returns it, in the world [w]. *)
Definition life_init (self : LockManager) (owners : gmap Z Owner) (w : W) : life :=
  mkLife self (mkManagerState (owners, w) ∅) CRecv DAlive.

(** Who moves: a thread calls [get_or_create_owner] or makes a step of its
    call, the cleanup thread moves, the manager is dropped, the drop joins the
    thread. [retain] reaches the entries in any order, and an entry that is
    inserted meanwhile or not at all. *)
Inductive life_label : Type :=
  | LCallStart (t : nat) (owner_id : Z)
  | LCall (t : nat)
  | LClean (todo : list Z)
  | LDrop
  | LJoin.

(** A visit of [retain] to an entry, with the entry locked. *)
Definition retain_entry (id : Z) : prog (managed W) unit :=
  let! found := gets (fun m : managed W => m.1 !! id) in
  match found with
  | None => ret tt
  | Some owner =>
      let! r := Owner_ping owner in
      if is_ok r then ret tt else modify (fun m : managed W => (delete id m.1, m.2))
  end.

(** One step of [cleanup_thread]: the channel has no messages, and its only
    sender is [cleanup_tx] of the manager. *)
Definition cleanup_step (s : life) (todo : list Z) : option life :=
  match lf_cleanup s with
  | CRecv =>
      match lm_cleanup_tx (lf_manager s) with
      | Some _ => Some (with_cleanup s (CRetain todo))
      | None => Some (with_cleanup s CEnded)
      end
  | CRetain [] => Some (with_cleanup s CRecv)
  | CRetain (id :: todo) =>
      let '(r, m) := retain_entry id (ms_world (lf_state s)) in
      let s := with_state s (mkManagerState m (ms_calls (lf_state s))) in
      match r with
      | Done _ => Some (with_cleanup s (CRetain todo))
      | Panicked => Some (with_cleanup s CEnded)
      end
  | CEnded => None
  end.

Definition returned (pc : goc_pc) : bool := match pc with GReturn _ => true | _ => false end.

(** Every call has returned: [drop] has the manager for itself. *)
Definition no_calls (s : life) : bool :=
  bool_decide (map_Forall (fun _ (c : Z * goc_pc * bool) => returned c.1.2 = true) (ms_calls (lf_state s))).

(** [drop(self.cleanup_tx.take())]. *)
Definition drop_tx (self : LockManager) : LockManager :=
  mkLockManager (lm_communication self) (lm_ttl self) (lm_cleanup_thread self) None.

(** [self.cleanup_thread.take()]. *)
Definition take_thread (self : LockManager) : option JoinHandle * LockManager :=
  (lm_cleanup_thread self,
   mkLockManager (lm_communication self) (lm_ttl self) None (lm_cleanup_tx self)).

Definition life_step (s : life) (l : life_label) : option life :=
  match l with
  | LCallStart t owner_id =>
      match lf_drop s, ms_calls (lf_state s) !! t with
      | DAlive, None =>
          Some (with_state s (mkManagerState (ms_world (lf_state s))
                  (<[t := (owner_id, GGet, false)]> (ms_calls (lf_state s)))))
      | _, _ => None
      end
  | LCall t =>
      with_state s <$> manager_step (lf_manager s) (lm_ttl (lf_manager s)) (lf_state s) t
  | LClean todo => cleanup_step s todo
  | LDrop =>
      match lf_drop s with
      | DAlive =>
          if no_calls s
          then Some (mkLife (drop_tx (lf_manager s)) (lf_state s) (lf_cleanup s) DJoin) else None
      | _ => None
      end
  | LJoin =>
      match lf_drop s with
      | DJoin =>
          match take_thread (lf_manager s) with
          | (None, self) => Some (mkLife self (lf_state s) (lf_cleanup s) DPanicked)
          | (Some _, self) =>
              match lf_cleanup s with
              | CEnded => Some (mkLife self (lf_state s) (lf_cleanup s) DReturned)
              | _ => None
              end
          end
      | _ => None
      end
  end.

(** ** The drop *)

Record life_inv (s : life) : Prop := {
  vi_alive : lf_drop s = DAlive ->
    is_Some (lm_cleanup_tx (lf_manager s)) /\ is_Some (lm_cleanup_thread (lf_manager s));
  vi_join : lf_drop s = DJoin ->
    lm_cleanup_tx (lf_manager s) = None /\ is_Some (lm_cleanup_thread (lf_manager s));
  vi_calls : lf_drop s <> DAlive -> no_calls s = true;
  vi_returned : lf_drop s = DReturned -> lf_cleanup s = CEnded;
  vi_unwrap : lf_drop s <> DPanicked }.

Lemma no_calls_stuck s t st :
  no_calls s = true -> manager_step (lf_manager s) (lm_ttl (lf_manager s)) (lf_state s) t = Some st -> False.
Proof.
  unfold no_calls. rewrite bool_decide_eq_true. intros H Hs. unfold manager_step in Hs.
  destruct (ms_calls (lf_state s) !! t) as [[[id pc] n]|] eqn:E; [| done].
  specialize (H t _ E). simpl in H. by destruct pc.
Qed.

(** What a step of the cleanup thread leaves alone. *)
Lemma cleanup_frame s todo s' :
  cleanup_step s todo = Some s' ->
  lf_manager s' = lf_manager s /\ lf_drop s' = lf_drop s /\
  ms_calls (lf_state s') = ms_calls (lf_state s) /\ lf_cleanup s <> CEnded.
Proof. unfold cleanup_step. intros Hs. repeat case_match; by simplify_eq/=. Qed.

Lemma life_step_inv s l s' : life_inv s -> life_step s l = Some s' -> life_inv s'.
Proof.
  intros [H1 H2 H3 H4 H5] Hs. destruct l as [t id|t|todo| |]; simpl in Hs.
  - repeat case_match; simplify_eq. split; simpl; auto; congruence.
  - destruct (manager_step _ _ _ _) as [st|] eqn:E; simplify_eq/=. split; simpl; auto.
    intros Hd. by destruct (no_calls_stuck s t st (H3 Hd)).
  - destruct (cleanup_frame s todo s' Hs) as (Em & Ed & Ec & He).
    split; rewrite ?Em, ?Ed; auto.
    + intros Hd. unfold no_calls. rewrite Ec. by apply H3.
    + intros Hd. by destruct He; apply H4.
  - repeat case_match; simplify_eq. split; simpl; try done. intros _. split; [done |]. by apply H1.
  - destruct (lf_drop s) eqn:Ed; try done. destruct (H2 eq_refl) as [_ [h Hh]]. rewrite Hh in Hs.
    repeat case_match; simplify_eq. split; simpl; try done. intros _. by apply H3.
Qed.

(** The steps that are left once the drop has begun. *)
Definition drop_work (s : life) : nat :=
  match lf_drop s with
  | DJoin => 1 + match lf_cleanup s with CRetain todo => 2 + length todo | CRecv => 1 | CEnded => 0 end
  | _ => 0
  end.

Lemma drop_step s l s' :
  life_inv s -> lf_drop s <> DAlive -> life_step s l = Some s' ->
  lf_drop s' <> DAlive /\ (drop_work s' < drop_work s)%nat.
Proof.
  intros HI Hd Hs. destruct l as [t id|t|todo| |]; simpl in Hs.
  - by repeat case_match.
  - destruct (manager_step _ _ _ _) as [st|] eqn:E; simplify_eq/=.
    by destruct (no_calls_stuck s t st (vi_calls _ HI Hd)).
  - pose proof (cleanup_frame s todo s' Hs) as (_ & Ed & _ & He). rewrite Ed. split; [done |].
    unfold drop_work. rewrite Ed. destruct (lf_drop s) eqn:E; try done.
    + destruct (vi_join _ HI E) as [Etx _]. unfold cleanup_step in Hs.
      destruct (lf_cleanup s) as [|[|id todo']|] eqn:Ec; simplify_eq/=; [rewrite Etx in Hs; simplify_eq/=; lia | lia |].
      repeat case_match; simplify_eq/=; lia.
    + by rewrite (vi_returned _ HI E) in He.
    + by destruct (vi_unwrap _ HI).
  - by repeat case_match.
  - unfold drop_work. destruct (lf_drop s) eqn:E; try done.
    destruct (vi_join _ HI E) as [_ [h Hh]]. rewrite Hh in Hs. repeat case_match; simplify_eq/=.
    split; [done | lia].
Qed.

(** While the drop has not returned, some thread can move. *)
Lemma drop_not_stuck s :
  life_inv s -> lf_drop s = DJoin -> exists l s', life_step s l = Some s'.
Proof.
  intros HI Hd. destruct (vi_join _ HI Hd) as [Etx [h Hh]].
  destruct (lf_cleanup s) as [|[|id todo]|] eqn:Ec.
  - exists (LClean []). simpl. unfold cleanup_step. rewrite Ec, Etx. eauto.
  - exists (LClean []). simpl. unfold cleanup_step. rewrite Ec. eauto.
  - exists (LClean []). simpl. unfold cleanup_step. rewrite Ec.
    destruct (retain_entry id _) as [[]]; eauto.
  - exists LJoin. simpl. rewrite Hd, Hh, Ec. eauto.
Qed.

Lemma drop_run ls s s' :
  life_inv s -> lf_drop s <> DAlive -> run life_step s ls = Some s' ->
  life_inv s' /\ lf_drop s' <> DAlive /\ (length ls + drop_work s' <= drop_work s)%nat.
Proof.
  revert s; induction ls as [|l ls IH]; intros s HI Hd Hr; simpl in Hr.
  { simplify_eq. split_and!; [done | done | simpl; lia]. }
  destruct (life_step s l) as [s1|] eqn:E; [| done].
  destruct (drop_step s l s1 HI Hd E) as [Hd1 Hw].
  destruct (IH s1 (life_step_inv _ _ _ HI E) Hd1 Hr) as (? & ? & ?). split_and!; [done | done | simpl; lia].
Qed.
End Life.

(** A manager as [build] makes it. *)
Definition built (self : LockManager) : Prop :=
  is_Some (lm_cleanup_tx self) /\ is_Some (lm_cleanup_thread self).

Lemma life_inv_init {W} (self : LockManager) owners (w : W) : built self -> life_inv (life_init self owners w).
Proof. intros Hb. by split. Qed.

(** C19. Dropping the manager terminates without a panic: once
    [Drop for LockManager] has dropped the sender, no run of the manager's
    threads is longer than what is left of the round of the cleanup thread plus
    three steps, and a run that cannot go on has [drop] returned and the thread
    ended. *)
Theorem drop_terminates {W} `{!Rpc W} `{!SigSys W} self owners (w : W) (s s' : life) ls :
  built self -> reachable life_step (life_init self owners w) s -> lf_drop s = DJoin ->
  run life_step s ls = Some s' ->
  (length ls <= match lf_cleanup s with CRetain todo => length todo | _ => 0 end + 3)%nat /\
  lf_drop s' <> DPanicked /\
  ((forall l, life_step s' l = None) -> lf_drop s' = DReturned /\ lf_cleanup s' = CEnded).
Proof.
  intros Hb Hr Hd Hrun.
  assert (life_inv s) as HI.
  { eapply (reachable_invariant life_step); [apply life_step_inv | by apply life_inv_init | done]. }
  destruct (drop_run ls s s' HI) as (HI' & Hd' & Hlen); [congruence | done |].
  split_and!; [| by apply vi_unwrap |].
  - unfold drop_work in Hlen at 2. rewrite Hd in Hlen. destruct (lf_cleanup s); simpl in *; lia.
  - intros Hstuck. destruct (lf_drop s') eqn:E; try done.
    + destruct (drop_not_stuck s' HI' E) as (l & s2 & Hs2). by rewrite Hstuck in Hs2.
    + by split; [| apply vi_returned].
    + by destruct (vi_unwrap _ HI').
Qed.

(** The manager is dropped while its cleanup thread is about to ping a dead
    owner. *)
Definition demo_life : life (W := procs) := life_init demo_manager dead_owner.1 dead_owner.2.
Definition demo_drop : life (W := procs) :=
  default demo_life (run life_step demo_life [LClean [1]; LDrop]).
Definition demo_dropped : life (W := procs) :=
  default demo_drop (run life_step demo_drop [LClean []; LClean []; LClean []; LJoin]).

Lemma drop_terminates_witness :
  (4 <= length [1] + 3)%nat /\ lf_drop demo_dropped <> DPanicked /\
  ((forall l, life_step demo_dropped l = None) ->
   lf_drop demo_dropped = DReturned /\ lf_cleanup demo_dropped = CEnded).
Proof.
  apply (drop_terminates demo_manager dead_owner.1 dead_owner.2 demo_drop demo_dropped
           [LClean []; LClean []; LClean []; LJoin]).
  - split; vm_compute; eauto.
  - exists [LClean [1]; LDrop]. vm_compute. reflexivity.
  - vm_compute. reflexivity.
  - vm_compute. reflexivity.
Defined.

(** ** Cleanup beside running calls *)

Section Cleanup.
Context {W : Type} `{!Rpc W} `{!SigSys W}.

Lemma retain_entry_spec id (m m' : managed W) r id' :
  retain_entry id m = (r, m') ->
  m'.1 !! id' = m.1 !! id' \/
  (exists o m1 e, m.1 !! id' = Some o /\ m'.1 !! id' = None /\ Owner_ping o m = (Done (Err e), m1)).
Proof.
  unfold retain_entry, bind, gets, modify, ret. intros Hr.
  destruct (m.1 !! id) as [o|] eqn:Ho; [| simplify_eq; by left].
  pose proof (keeps_ping o m) as Hk.
  destruct (Owner_ping o m) as [[[u|e]|] m1] eqn:Ep; simplify_eq/=; rewrite Hk; [by left | | by left].
  destruct (decide (id' = id)) as [->|Hne].
  - right. exists o, m1, e. by rewrite lookup_delete_eq.
  - left. by rewrite lookup_delete_ne.
Qed.
End Cleanup.

(** C24. The cleanup thread removes dead owners only, whatever the
    other threads do meanwhile: a step of it leaves every entry of the map as
    it is, or removes the one whose owner has just failed to answer a ping in
    this very step. (A call of [get_or_create_owner] has no such guarantee.) *)
Theorem cleanup_removes_only_dead {W} `{!Rpc W} `{!SigSys W} (s s' : life (W := W)) todo id :
  life_step s (LClean todo) = Some s' ->
  owners_of s' !! id = owners_of s !! id \/
  (exists o m1 e, owners_of s !! id = Some o /\ owners_of s' !! id = None /\
     Owner_ping o (ms_world (lf_state s)) = (Done (Err e), m1)).
Proof.
  simpl. unfold cleanup_step, owners_of. intros Hs.
  destruct (lf_cleanup s) as [|[|id0 todo0]|]; try done.
  - case_match; simplify_eq; by left.
  - simplify_eq; by left.
  - destruct (retain_entry id0 (ms_world (lf_state s))) as [r m] eqn:E.
    apply (retain_entry_spec _ _ _ _ id) in E. destruct r; simplify_eq; exact E.
Qed.

Definition demo_visit : life (W := procs) := default demo_life (run life_step demo_life [LClean [1]]).

Lemma cleanup_removes_only_dead_witness :
  owners_of (default demo_visit (life_step demo_visit (LClean []))) !! 1 = owners_of demo_visit !! 1 \/
  (exists o m1 e, owners_of demo_visit !! 1 = Some o /\
     owners_of (default demo_visit (life_step demo_visit (LClean []))) !! 1 = None /\
     Owner_ping o (ms_world (lf_state demo_visit)) = (Done (Err e), m1)).
Proof. apply (cleanup_removes_only_dead demo_visit _ []). vm_compute. reflexivity. Defined.

(** ** One call on its own *)

Section Alone.
Context {W : Type} `{!Rpc W} `{!SigSys W}.
Context (self : LockManager) (ttl : Duration).

(** Thread [t] runs on its own for [fuel] steps, or until it returns. *)
Fixpoint run_alone (fuel : nat) (s : manager_state (W := W)) (t : nat) : manager_state (W := W) :=
  match fuel with
  | O => s
  | S fuel =>
      match manager_step self ttl s t with
      | Some s => run_alone fuel s t
      | None => s
      end
  end.

(** What the call of thread [t] has come to. *)
Definition call_result (s : manager_state (W := W)) (t : nat) : exec (io_result (option Owner)) :=
  match ms_calls s !! t with
  | None => Panicked
  | Some (_, GReturn r, _) => Done (map_ok Some r)
  | Some _ => Done (Ok None)
  end.

Lemma run_alone_gone fuel s t : ms_calls s !! t = None -> run_alone fuel s t = s.
Proof. intros H. destruct fuel; [done |]. simpl. unfold manager_step. by rewrite H. Qed.
End Alone.

(** The loop of [get_or_create_owner] is the machine of its atomic
    steps when no other thread moves: for every number of steps it gives the
    same result and leaves the same map and world, whatever calls of other
    threads are pending. *)
Lemma goc_loop_is_machine {W} `{!Rpc W} `{!SigSys W} fuel self id ttl pc new_owner
    (m : managed W) calls t :
  let s := run_alone self ttl fuel (mkManagerState m (<[t := (id, pc, new_owner)]> calls)) t in
  goc_loop fuel self id ttl pc new_owner m = (call_result s t, ms_world s).
Proof.
  revert pc new_owner m calls; induction fuel as [|fuel IH]; intros pc new_owner m calls; simpl.
  { unfold call_result. simpl. rewrite lookup_insert_eq. by destruct pc. }
  unfold manager_step. simpl. rewrite lookup_insert_eq.
  destruct pc as [| |o| |r]; [..| simpl; unfold call_result; simpl; by rewrite lookup_insert_eq].
  all: unfold bind; destruct (goc_step self id ttl _ new_owner m) as [[[pc' n']|] m1]; simpl;
    [rewrite insert_insert_eq; apply IH |
     rewrite run_alone_gone by apply lookup_delete_eq; unfold call_result; simpl; by rewrite lookup_delete_eq].
Qed.

(** ** Construction leaks nothing *)

(** Creating a thread leaves the descriptors alone. *)
Class ThreadsLaws (W : Type) `{!Sys W} `{!StreamLaws W} `{!Threads W} : Prop := {
  thread_spawn_ofd : forall (w : W) t, ofd (sys_thread_spawn w).2 t = ofd w t }.

(** C25. [LockManager::from_exe] leaks no descriptor: the manager it
    returns has no owners yet, a cleanup thread, and the one new descriptor of
    the process, the socket to the coordinator; when it fails, because no
    socket, no process or no cleanup thread could be had, the descriptors of
    the process are what they were, so that a coordinator that was started sees
    its peer hang up. The pipes of a release build are closed in each case. *)
Theorem from_exe_leaks_nothing {W} `{!Sys W} `{!StreamLaws W} `{!Proc W} `{!ProcLaws W} `{!Threads W}
    `{!ThreadsLaws W} (debug : bool) (path : string) (w w' : W) r :
  from_exe debug path w = (Done r, w') ->
  (forall e w1, sys_socketpair w = (Err e, w1) -> forall t, ofd w1 t = ofd w t) ->
  match r with
  | Ok (self, owners) =>
      owners = ∅ /\ built self /\ lm_ttl self = Duration_from_secs 5 /\
      mine (lm_communication self) /\ ofd w (lm_communication self) = None /\
      is_Some (ofd w' (lm_communication self)) /\
      forall t, mine t -> t <> lm_communication self -> ofd w' t = ofd w t
  | Err _ => forall t, mine t -> ofd w' t = ofd w t
  end.
Proof.
  unfold from_exe, try_bind, bind. intros Hs Herr.
  destruct (spawn_coordinator_process debug path w) as [[c|] w1] eqn:Ec; [| done].
  pose proof (spawn_with_socket_leaks _ w w1 c Ec Herr) as Hl.
  destruct c as [fd|e]; [| unfold ret in Hs; by simplify_eq]. destruct Hl as (Hmine & Hn & Ho & Hother).
  unfold LockManager_build, bind, lift, ret in Hs.
  pose proof (thread_spawn_ofd w1) as Ht. destruct (sys_thread_spawn w1) as [[h|e] w2]; simplify_eq/=.
  - split; [done |]. split; [split; by eexists |]. split; [done |]. split; [done |].
    split; [done |]. split; [by rewrite Ht |]. intros t Hm Hne. rewrite Ht. by apply Hother.
  - intros t Hm. destruct (close_law w2 fd) as (Hc & Hk & _). destruct (decide (t = fd)) as [->|Hne]; [congruence |].
    rewrite (proj2 (Hk t Hne)), Ht. by apply Hother.
Qed.

(** No thread can be created. *)
Definition failing_Threads : Threads net := {| sys_thread_spawn w := (Err (Os Errno.EAGAIN), w) |}.
#[export] Instance failing_ThreadsLaws : ThreadsLaws net (Threads0 := failing_Threads).
Proof. by constructor. Qed.

Lemma from_exe_leaks_nothing_witness :
  (from_exe (Threads0 := failing_Threads) false "ulockmgr" (mkNet ∅ ∅)).1 = Done (Err (Os Errno.EAGAIN)) /\
  forall t, mine (W := net) t ->
    ofd (from_exe (Threads0 := failing_Threads) false "ulockmgr" (mkNet ∅ ∅)).2 t = ofd (mkNet ∅ ∅) t.
Proof.
  split; [vm_compute; reflexivity |].
  apply (from_exe_leaks_nothing (Threads0 := failing_Threads) false "ulockmgr" (mkNet ∅ ∅)
           (from_exe (Threads0 := failing_Threads) false "ulockmgr" (mkNet ∅ ∅)).2 (Err (Os Errno.EAGAIN))).
  - vm_compute. reflexivity.
  - vm_compute. discriminate.
Defined.
