(* ===== verification/Main.v ===== *)
(** * src/src/main.rs: the server binary

    The command line, the handler for SIGUSR1 and the two kinds of processes.
    The parser that clap derives is an argument of [main]: it gives the values
    of the arguments, and the defaults of the options are applied here.
    [DaemonOwner::start] is an argument too, since its loops are the machine of
    the owner process; [env_logger] and the context of errors are left out. *)

From Stdlib Require Import ZArith Lia.
From Stdlib Require Import Strings.String Numbers.DecimalString Numbers.DecimalZ.
From stdpp Require Import base tactics numbers list gmap strings.
From S2P Require Import Prelude.
From S2P Require Import Std.
From S2P Require Import Types.
From S2P Require Import Wire.
From S2P Require Import Messages.
From S2P Require Import Transport.
From S2P Require Import Net.
From S2P Require Import Helpers.
From S2P Require Import Spawner.
From S2P Require Import SpawnerSpec.
Local Open Scope Z_scope.
Local Open Scope ulock_scope.

(** ** The command line *)

Inductive OperationMode : Type :=
  | Coordinator (fd : Fd)
  | OwnerMode (fd : Fd) (ttl_secs ttl_nsecs : Z).

Record Args : Type := mkArgs { mode : OperationMode }.

(** The arguments that a command line gives. *)
Inductive ArgMatches : Type :=
  | MatchCoordinator (fd : Fd)
  | MatchOwner (fd : Fd) (ttl_secs ttl_nsecs : option Z).

(** The [default_value]s of the options. *)
Definition default_ttl_secs : Z := 5.
Definition default_ttl_nsecs : Z := 0.

Definition Args_from_matches (m : ArgMatches) : Args :=
  mkArgs match m with
         | MatchCoordinator fd => Coordinator fd
         | MatchOwner fd secs nsecs =>
             OwnerMode fd (default default_ttl_secs secs) (default default_ttl_nsecs nsecs)
         end.

(** ** The handler *)

(** [SigAction]: the address of the handler, the flags, the mask. *)
Record SigAction : Type := mkSigAction { sa_handler : Z; sa_flags : Z; sa_mask : SigSet }.

Class InstallHandler (W : Type) : Type := {
  (** [sigaction(SIGUSR1, action)] *)
  sys_set_sigaction : SigAction -> W -> result Z unit * W }.

(** [SA_RESTART]. *)
Definition SA_RESTART : Z := 0x10000000.

(** [sigusr1_handler]: it does nothing. *)
Definition sigusr1_handler {W} (_signum : Z) : prog W unit := ret tt.

(** ** [main] *)

(** How the process ends: clap rejects the command line, or [main] returns. *)
Inductive main_exit : Type :=
  | Usage
  | Returned (r : io_result bool).

Section Main.
Context {W : Type} `{!Sys W} `{!Proc W} `{!SigSys W} `{!InstallHandler W}
  `{!Bincode (Payload RequestSpawnOwner)} `{!Bincode (result Z (reply_type RequestSpawnOwner))}.
Context (debug_assertions : bool).
(** The address of [sigusr1_handler]. *)
Context (handler : Z).
(** [Args::parse] up to the defaults. *)
Context (parse : list string -> option ArgMatches).
(** [DaemonOwner::new(fd, ttl).start()]. *)
Context (start : Fd -> Duration -> prog W (io_result unit)).

Definition install_handler : prog W (io_result unit) :=
  os (sys_set_sigaction (mkSigAction handler 0 SigSet_empty)).

(** The dispatch; the coordinator serves at most [fuel] requests. *)
Definition main_mode (fuel : nat) (m : OperationMode) : prog W (io_result bool) :=
  match m with
  | Coordinator fd =>
      let? fd := hydrate_forked_fd fd in
      let owner_spawner := OwnerSpawner_new fd in
      OwnerSpawner_run debug_assertions fuel owner_spawner
  | OwnerMode fd ttl_secs ttl_nsecs =>
      let? fd := hydrate_forked_fd fd in
      match Duration_new ttl_secs ttl_nsecs with
      | Panicked => panic
      | Done ttl => let? _ := start fd ttl in ret (Ok true)
      end
  end.

Definition main (fuel : nat) (args : list string) : prog W main_exit :=
  match parse args with
  | None => ret Usage
  | Some matches =>
      let args := Args_from_matches matches in
      let! r := (let? _ := install_handler in main_mode fuel (mode args)) in
      ret (Returned r)
  end.
End Main.

(** ** The owner process gets what was asked for *)

(** What the argument parser does with the command lines that the program
    builds: it reads decimal integers in the range of their fields. A leading
    hyphen would make an option of a value, but no descriptor is negative. *)
Class ClapLaws (parse : list string -> option ArgMatches) : Prop := {
  clap_coordinator : forall fd, 0 <= fd -> is_i32 fd ->
    parse ["coordinator"%string; to_string fd] = Some (MatchCoordinator fd);
  clap_owner : forall fd secs nsecs, 0 <= fd -> is_i32 fd -> is_u64 secs -> is_u32 nsecs ->
    parse ["owner"%string; to_string fd; "--ttl-secs"%string; to_string secs;
           "--ttl-nsecs"%string; to_string nsecs] = Some (MatchOwner fd (Some secs) (Some nsecs)) }.

(** The action for SIGUSR1 is what was installed last. *)
Class HandlerLaws (W : Type) `{!SigSys W} `{!InstallHandler W} `{!Proc W} : Type := {
  action : W -> SigAction;
  set_sigaction_law : forall a w w', sys_set_sigaction a w = (Ok tt, w') -> action w' = a;
  sigaction_law : forall w, sys_sigaction w = ((0, 0, sa_handler (action w)), w);
  setfd_action : forall fd f w, action (sys_setfd fd f w).2 = action w }.

(** C36. The binary that [spawn_owner_process] starts runs
    [DaemonOwner::start] on the socket it inherited with exactly the TTL that
    was asked for: the command line carries both, and [Duration::new] does not
    panic on what the parser reads. When it gets there, the handler for SIGUSR1
    is installed, so that [InterruptibleTracker::new] does not refuse, and
    without [SA_RESTART], so that a signal interrupts [F_SETLKW]. *)
Theorem owner_gets_socket_and_ttl {W} `{!Sys W} `{!Proc W} `{!SigSys W} `{!InstallHandler W}
    `{!HandlerLaws W}
    `{!Bincode (Payload RequestSpawnOwner)} `{!Bincode (result Z (reply_type RequestSpawnOwner))}
    (debug : bool) (handler : Z) (parse : list string -> option ArgMatches) `{!ClapLaws parse}
    (start : Fd -> Duration -> prog W (io_result unit)) (fd : Fd) (ttl : Duration) (fuel : nat) (w : W) :
  0 <= fd -> is_i32 fd -> Duration_wf ttl -> handler <> libc.SIG_DFL -> handler <> libc.SIG_IGN ->
  c_inherit (owner_command debug fd ttl) = fd /\
  main debug handler parse start fuel (c_args (owner_command debug fd ttl)) w =
    (let! r := (let? _ := install_handler handler in
                let? fd := hydrate_forked_fd fd in
                let? _ := start fd ttl in ret (Ok true)) in
     ret (Returned r)) w /\
  (forall w1 w2, install_handler handler w = (Done (Ok tt), w1) ->
     hydrate_forked_fd fd w1 = (Done (Ok fd), w2) ->
     ensure_sigaction_exists w2 = (Done (Ok tt), w2) /\ Z.land (sa_flags (action w2)) SA_RESTART = 0).
Proof.
  intros Hpos Hfd [Hs [Hn0 Hn]] H1 H2. split; [done |]. split.
  - unfold main. simpl. rewrite clap_owner by (try done; unfold is_u32, nanos_per_sec in *; lia). simpl.
    unfold Duration_new. rewrite (proj2 (Z.ltb_lt _ _) Hn). by destruct ttl.
  - intros w1 w2 Hi Hh.
    assert (action w2 = mkSigAction handler 0 SigSet_empty) as Ha.
    { unfold install_handler, os, bind, lift, ret in Hi.
      destruct (sys_set_sigaction _ w) as [[[]|e] w1'] eqn:E; simplify_eq/=.
      unfold hydrate_forked_fd, try_bind, os, bind, lift, ret in Hh.
      pose proof (setfd_action fd FD_CLOEXEC w1) as Hk.
      destruct (sys_setfd fd FD_CLOEXEC w1) as [[u|e] w2']; simplify_eq/=.
      rewrite Hk. by eapply set_sigaction_law. }
    unfold ensure_sigaction_exists, bind, lift. rewrite sigaction_law, Ha. simpl.
    apply Z.eqb_neq in H1 as ->, H2 as ->. done.
Qed.

(** A parser of these command lines. *)
Definition parse_int (s : string) : option Z := Z.of_int <$> NilZero.int_of_string s.

Lemma parse_to_string z : parse_int (to_string z) = Some z.
Proof.
  unfold parse_int, to_string. rewrite NilZero.isi.
  - simpl. by rewrite DecimalZ.of_to.
  - destruct z as [|p|p]; simpl; [done | | done]. intros [= E].
    assert (Pos.of_uint (Pos.to_uint p) = N0) as H by by rewrite E.
    by rewrite DecimalPos.Unsigned.of_to in H.
  - destruct z as [|p|p]; simpl; [done | done |]. intros [= E].
    assert (Pos.of_uint (Pos.to_uint p) = N0) as H by by rewrite E.
    by rewrite DecimalPos.Unsigned.of_to in H.
Qed.

(** What starts with a hyphen is not a value. *)
Definition parse_nat (s : string) : option Z :=
  z ← parse_int s; if 0 <=? z then Some z else None.

Lemma parse_nat_to_string z : 0 <= z -> parse_nat (to_string z) = Some z.
Proof. intros Hz. unfold parse_nat. rewrite parse_to_string. simpl. by apply Z.leb_le in Hz as ->. Qed.

Definition demo_parse (args : list string) : option ArgMatches :=
  match args with
  | [mode; fd] => if bool_decide (mode = "coordinator"%string) then MatchCoordinator <$> parse_nat fd else None
  | [mode; fd; o1; secs; o2; nsecs] =>
      if bool_decide (mode = "owner"%string /\ o1 = "--ttl-secs"%string /\ o2 = "--ttl-nsecs"%string) then
        fd ← parse_nat fd; secs ← parse_nat secs; nsecs ← parse_nat nsecs;
        Some (MatchOwner fd (Some secs) (Some nsecs))
      else None
  | _ => None
  end.

#[export] Instance demo_parse_ClapLaws : ClapLaws demo_parse.
Proof.
  constructor.
  - intros fd Hfd _. simpl. by rewrite parse_nat_to_string.
  - intros fd secs nsecs Hfd _ [Hs _] [Hn _]. simpl. by rewrite !parse_nat_to_string.
Qed.

(** Sockets with the action for SIGUSR1. *)
Record net_proc : Type := mkNetProc { np_net : net; np_action : SigAction }.
Definition on_net {A} (f : net -> A * net) (w : net_proc) : A * net_proc :=
  let '(r, n) := f (np_net w) in (r, mkNetProc n (np_action w)).

#[export] Instance net_proc_Sys : Sys net_proc := {
  sys_recvmsg fd lens cap peek := on_net (sys_recvmsg fd lens cap peek);
  sys_sendmsg fd iov fds := on_net (sys_sendmsg fd iov fds);
  sys_socketpair := on_net sys_socketpair;
  sys_close fd w := mkNetProc (sys_close fd (np_net w)) (np_action w);
  cmsg_space := cmsg_space net }.
#[export] Instance net_proc_Proc : Proc net_proc := {
  sys_spawn c := on_net (sys_spawn c);
  sys_waitpid p := on_net (sys_waitpid p);
  sys_getfd fd := on_net (sys_getfd fd);
  sys_setfd fd f := on_net (sys_setfd fd f) }.
#[export] Instance net_proc_SigSys : SigSys net_proc := {
  sys_sigmask how set := on_net (sys_sigmask how set);
  sys_sigaction w := ((0, 0, sa_handler (np_action w)), w) }.
#[export] Instance net_proc_InstallHandler : InstallHandler net_proc := {
  sys_set_sigaction a w := (Ok tt, mkNetProc (np_net w) a) }.
#[export] Instance net_proc_HandlerLaws : HandlerLaws net_proc.
Proof.
  refine {| action := np_action |}; try done. by intros a w w' [= <-].
Defined.

Definition demo_net_proc : net_proc := mkNetProc (mkNet ∅ ∅) (mkSigAction libc.SIG_DFL 0 ∅).

Lemma owner_gets_socket_and_ttl_witness :
  c_inherit (owner_command true 6 demo_ttl) = 6 /\
  main true 4096 demo_parse (fun _ _ => ret (Ok tt)) 0 (c_args (owner_command true 6 demo_ttl)) demo_net_proc =
    (let! r := (let? _ := install_handler 4096 in
                let? fd := hydrate_forked_fd 6 in
                let? _ := ret (Ok tt) in ret (Ok true)) in
     ret (Returned r)) demo_net_proc /\
  (forall w1 w2, install_handler 4096 demo_net_proc = (Done (Ok tt), w1) ->
     hydrate_forked_fd 6 w1 = (Done (Ok 6), w2) ->
     ensure_sigaction_exists w2 = (Done (Ok tt), w2) /\ Z.land (sa_flags (action w2)) SA_RESTART = 0).
Proof.
  apply (owner_gets_socket_and_ttl true 4096 demo_parse (fun _ _ => ret (Ok tt)) 6 demo_ttl 0).
  - lia.
  - unfold is_i32. lia.
  - unfold Duration_wf, is_u64, nanos_per_sec, u64_modulus; simpl. lia.
  - discriminate.
  - discriminate.
Defined.
